(** * The geometric core of the nested-shape editor (src/main.ts)

    A shallow embedding of the containment / intersection / transform engine:
    [line_intersects], [Point], [Transform], the [NGon] methods, the shape
    constructors and the methods of [Controller] that build, select and move
    shapes.  The first part holds the definitions, the second the
    properties the specification states, the third further properties of
    the code.

    JavaScript numbers are IEEE 754 binary64 values, so they are modelled by
    Rocq's primitive floats: [+], [-], [*], [/] and the comparisons are the
    same operations, division by zero included.  [Math.cos] and [Math.sin]
    are not fixed bit for bit by the language standard; they are parameters
    of the development.

    Shapes are mutable objects that point at each other ([parent],
    [children]); they live in a store indexed by references.  Points and
    transforms are only ever assigned at construction (the one in-place
    update, [rotateAround], is applied to a point that was just created), so
    they are carried by value; [Transform_add] shows [Transform.add] on a
    store of transform objects.

    A method that can throw returns a [result].  The recursion of [draw]
    over the tree takes fuel; what is proved of it is proved with the fact
    that enough fuel gives a result. *)

From Stdlib Require Import Floats ZArith Bool FunctionalExtensionality.
From stdpp Require Import gmap list strings.

(** * Part I: the model *)

(** ** Numbers *)

Module Num.

Abbreviation number := float (only parsing).

(** The comparison operators of the source, by name. *)
Definition ge (a b : number) : bool := (b <=? a)%float.
Definition le (a b : number) : bool := (a <=? b)%float.
Definition gt (a b : number) : bool := (b <? a)%float.
Definition lt (a b : number) : bool := (a <? b)%float.

(** [b1 != b2] on two booleans. *)
Definition bneq (a b : bool) : bool := xorb a b.

(** [Math.PI] *)
Definition PI : number := 0x1.921fb54442d18p+1%float.

(** A number that compares equal to zero: [+0] or [-0]. *)
Definition is_zero (a : number) : bool := (a =? 0)%float.

End Num.
Import Num.

(** ** Points, lines and [line_intersects] *)

Record Point := mkPoint { x : number; y : number }.

Record Line := mkLine { point1 : Point; point2 : Point }.

Section LineIntersects.
Local Open Scope float_scope.

Definition line_intersects (line1 line2 : Line) : bool :=
  let s1_x := x (point2 line1) - x (point1 line1) in
  let s1_y := y (point2 line1) - y (point1 line1) in
  let s2_x := x (point2 line2) - x (point1 line2) in
  let s2_y := y (point2 line2) - y (point1 line2) in
  let s :=
    (- s1_y * (x (point1 line1) - x (point1 line2)) +
       s1_x * (y (point1 line1) - y (point1 line2)))
    / (- s2_x * s1_y + s1_x * s2_y) in
  let t :=
    (s2_x * (y (point1 line1) - y (point1 line2)) -
       s2_y * (x (point1 line1) - x (point1 line2)))
    / (- s2_x * s1_y + s1_x * s2_y) in
  ge s 0 && le s 1 && ge t 0 && le t 1.

(** The quantities computed inside [line_intersects], by name: the
    direction of a segment, the common denominator
    [-s2_x * s1_y + s1_x * s2_y] and the two parameters. *)
Definition s1_x (line : Line) : number := x (point2 line) - x (point1 line).
Definition s1_y (line : Line) : number := y (point2 line) - y (point1 line).

Definition denominator (line1 line2 : Line) : number :=
  - s1_x line2 * s1_y line1 + s1_x line1 * s1_y line2.

Definition param_s (line1 line2 : Line) : number :=
  (- s1_y line1 * (x (point1 line1) - x (point1 line2)) +
     s1_x line1 * (y (point1 line1) - y (point1 line2)))
  / denominator line1 line2.

Definition param_t (line1 line2 : Line) : number :=
  (s1_x line2 * (y (point1 line1) - y (point1 line2)) -
     s1_y line2 * (x (point1 line1) - x (point1 line2)))
  / denominator line1 line2.

(** Two segments are parallel when the cross product of their directions
    vanishes, that is when its two terms are equal. *)
Definition parallel (line1 line2 : Line) : bool :=
  s1_x line1 * s1_y line2 =? s1_x line2 * s1_y line1.

End LineIntersects.

(** [0 <= a <= 1], the range check applied to each parameter. *)
Definition in_unit_range (a : number) : bool := ge a 0 && le a 1.

(** Two collinear segments that overlap: (0,0)-(2,2) and (1,1)-(3,3). *)
Definition collinear_a : Line := mkLine (mkPoint 0 0) (mkPoint 2 2).
Definition collinear_b : Line := mkLine (mkPoint 1 1) (mkPoint 3 3).

(** *** Collinear segments in exact arithmetic

    [integer_value a] is the integer the number [a] is, when it is one.
    Two segments with integer end points are exactly collinear and
    overlapping when, over the integers, both end points of the second
    lie on the line through the first, neither segment is a single point,
    and the first end point of the second lies strictly between the end
    points of the first. *)
Definition integer_value (a : number) : option Z :=
  match Prim2SF a with
  | S754_zero _ => Some 0%Z
  | S754_finite s m e =>
      if (0 <=? e)%Z then Some (cond_Zopp s (Z.pos m * 2 ^ e))
      else if (Z.pos m mod 2 ^ (- e) =? 0)%Z
           then Some (cond_Zopp s (Z.pos m / 2 ^ (- e)))
           else None
  | _ => None
  end.

Definition cross_Z (ax ay bx by_ : Z) : Z := (ax * by_ - ay * bx)%Z.

Definition exactly_collinear_overlapping (line1 line2 : Line) : Prop :=
  exists x1 y1 x2 y2 x3 y3 x4 y4 : Z,
    integer_value (x (point1 line1)) = Some x1 /\
    integer_value (y (point1 line1)) = Some y1 /\
    integer_value (x (point2 line1)) = Some x2 /\
    integer_value (y (point2 line1)) = Some y2 /\
    integer_value (x (point1 line2)) = Some x3 /\
    integer_value (y (point1 line2)) = Some y3 /\
    integer_value (x (point2 line2)) = Some x4 /\
    integer_value (y (point2 line2)) = Some y4 /\
    (cross_Z (x2 - x1) (y2 - y1) (x3 - x1) (y3 - y1) = 0 /\
     cross_Z (x2 - x1) (y2 - y1) (x4 - x1) (y4 - y1) = 0 /\
     (x1, y1) <> (x2, y2) /\ (x3, y3) <> (x4, y4) /\
     (x3 - x1) * (x3 - x2) + (y3 - y1) * (y3 - y2) < 0)%Z.

(** Two segments on the line [x = 3 y] that overlap: (0,0)-(6,2) and
    (3,1)-(27021597764222988, 9007199254740996).  The second end point is
    far enough for the products of the denominator to be rounded. *)
Definition rounded_a : Line := mkLine (mkPoint 0 0) (mkPoint 6 2).
Definition rounded_b : Line :=
  mkLine (mkPoint 3 1) (mkPoint 27021597764222988 9007199254740996).

(** *** On the specification of binary64

    Equality up to the sign of zero, and the range check on specification
    floats. *)

Definition sf_eqz (a b : spec_float) : Prop :=
  a = b \/ exists s s', a = S754_zero s /\ b = S754_zero s'.

Definition sf_in_unit_range (a : spec_float) : bool :=
  SFleb (S754_zero false) a && SFleb a (Prim2SF 1).

(** ** Results of calls that may throw

    A read outside an array gives [undefined], and the first thing the code
    does with an array element is to read a property of it, which throws a
    [TypeError]; so does a property read on [null].  [OutOfFuel] is the
    answer of a recursion that was not given enough steps, it is no
    behaviour of the program. *)

Inductive exn := TypeError.

Inductive result (A : Type) :=
| Ok (a : A)
| Throw (e : exn)
| OutOfFuel.
Arguments Ok {A} a.
Arguments Throw {A} e.
Arguments OutOfFuel {A}.

(** Sequencing: the first call that throws ends the computation. *)
Definition bind {A B : Type} (m : result A) (k : A -> result B) : result B :=
  match m with
  | Ok a => k a
  | Throw e => Throw e
  | OutOfFuel => OutOfFuel
  end.

Notation "'do' a <- m ; k" := (bind m (fun a => k))
  (at level 10, a name, m at level 100, k at level 200,
   format "'[v' 'do'  a  <-  m ; '/' k ']'").

(** A loop [for (const a of l) acc = body(acc, a)] whose body may throw. *)
Fixpoint foldM {A B : Type} (body : B -> A -> result B) (acc : B) (l : list A)
  : result B :=
  match l with
  | [] => Ok acc
  | a :: l' => do acc' <- body acc a; foldM body acc' l'
  end.

(** A loop [for (const a of l) if (!test(a)) return false] followed by
    [true]: [Ok false] is the early return. *)
Fixpoint everyM {A : Type} (test : A -> result bool) (l : list A) : result bool :=
  match l with
  | [] => Ok true
  | a :: l' => do b <- test a; if b then everyM test l' else Ok false
  end.

(** [arr[k]] followed by a property read. *)
Definition index {A : Type} (arr : list A) (k : Z) : result A :=
  if (k <? 0)%Z then Throw TypeError
  else match arr !! Z.to_nat k with
       | Some a => Ok a
       | None => Throw TypeError
       end.

(** [arr.length] as a number. *)
Definition length_number {A : Type} (arr : list A) : number :=
  of_uint63 (Uint63.of_Z (Z.of_nat (length arr))).

(** ** [Point.rotateAround] and [Transform] *)

Module Point_.
Definition zero : Point := mkPoint 0 0.
Definition unit : Point := mkPoint 1 1.
End Point_.

Record Transform := mkTransform {
  position : Point;
  rotation : number;
  scale : Point
}.

Module Transform_.
Local Open Scope float_scope.
Definition default : Transform := mkTransform Point_.zero 0 Point_.unit.
Definition zero : Transform := mkTransform Point_.zero 0 Point_.zero.

Definition add (this other : Transform) : Transform :=
  mkTransform
    (mkPoint (x (position this) + x (position other))
             (y (position this) + y (position other)))
    (rotation this + rotation other)
    (mkPoint (x (scale this) * x (scale other))
             (y (scale this) * y (scale other))).
End Transform_.

Section Trig.

(** [Math.cos] and [Math.sin]. *)
Variables (cos sin : number -> number).

(** [rotateAround] assigns [this.x] and [this.y]; the new value of [this] is
    returned. *)
Definition rotateAround (this center : Point) (angle : number) : Point :=
  let radians := (PI / 180 * angle)%float in
  let c := cos radians in
  let s := sin radians in
  let nx := (c * (x this - x center) + s * (y this - y center) + x center)%float in
  let ny := (c * (y this - y center) - s * (x this - x center) + y center)%float in
  mkPoint nx ny.

End Trig.

(** ** The geometry of [NGon], on the array of draw points *)

Section NGonGeometry.
Local Open Scope float_scope.

(** The edge test of the ray casting, for the edge from [pj] to [pi]. *)
Definition intersect (pi pj point : Point) : bool :=
  let xi := x pi in let yi := y pi in
  let xj := x pj in let yj := y pj in
  bneq (gt yi (y point)) (gt yj (y point))
  && lt (x point) ((xj - xi) * (y point - yi) / (yj - yi) + xi).

(** One turn of the loop of [isPointInside]: the state is [(j, inside)]. *)
Definition isPointInside_body (drawPoints : list Point) (point : Point)
    (st : Z * bool) (i : nat) : result (Z * bool) :=
  let '(j, inside) := st in
  do pi <- index drawPoints (Z.of_nat i);
  do pj <- index drawPoints j;
  Ok (Z.of_nat i, if intersect pi pj point then negb inside else inside).

Definition isPointInside (drawPoints : list Point) (point : Point) : result bool :=
  do st <- foldM (isPointInside_body drawPoints point)
             ((Z.of_nat (length drawPoints) - 1)%Z, false)
             (seq 0 (length drawPoints));
  Ok (snd st).

(** The lines from each point to the next, the last one back to the first
    (the two loops that fill [myLines] and [ngonLines]).  A read outside the
    array would put [undefined] in a line and throw at the first use of the
    line; it is reported at the read. *)
Definition getLines (drawPoints : list Point) : result (list Line) :=
  foldM (fun lines i =>
           do p1 <- index drawPoints (Z.of_nat i);
           do p2 <- index drawPoints (Z.of_nat (S i) mod Z.of_nat (length drawPoints))%Z;
           Ok (lines ++ [mkLine p1 p2]))
        [] (seq 0 (length drawPoints)).

(** [NGon.isIntersecting].  Every object is an [NGon], so the [instanceof]
    guard at its head never throws. *)
Definition isIntersecting (myPoints ngonPoints : list Point) : result bool :=
  do myLines <- getLines myPoints;
  do ngonLines <- getLines ngonPoints;
  Ok (existsb (fun myLine => existsb (line_intersects myLine) ngonLines) myLines).

Definition getCenter (drawPoints : list Point) : Point :=
  fold_left (fun prev curr =>
               mkPoint (x prev + x curr / length_number drawPoints)
                       (y prev + y curr / length_number drawPoints))
            drawPoints (mkPoint 0 0).

End NGonGeometry.

(** ** The point-in-polygon test as the spec words it

    Iterate the edges [(i, j)] with [j = (i - 1) mod n] and toggle a flag
    whenever [(yi>y) != (yj>y) && x < (xj-xi)*(y-yi)/(yj-yi) + xi]. *)

Definition edge_test_spec (pi pj : Point) (qx qy : number) : bool :=
  (xorb (qy <? y pi) (qy <? y pj)
   && (qx <? (x pj - x pi) * (qy - y pi) / (y pj - y pi) + x pi))%float.

(** The edge [(i, j)] of [poly] with [j = (i - 1) mod n] passes the test. *)
Definition crosses_edge (poly : list Point) (q : Point) (i : nat) : bool :=
  let n := Z.of_nat (length poly) in
  let j := ((Z.of_nat i - 1) mod n)%Z in
  match poly !! i, poly !! Z.to_nat j with
  | Some pi, Some pj => edge_test_spec pi pj (x q) (y q)
  | _, _ => false
  end.

Definition crossing_number_spec (poly : list Point) (q : Point) : bool :=
  fold_left
    (fun inside i => if crosses_edge poly q i then negb inside else inside)
    (seq 0 (length poly)) false.

(** The number of edges that pass the test. *)
Definition crossing_count (poly : list Point) (q : Point) : nat :=
  length (List.filter (crosses_edge poly q) (seq 0 (length poly))).

(** ** Shapes in the store

    Every concrete class ([Rectangle], [Circle], [Triangle], [Canvas])
    extends [NGon], so an object is the fields of [Shape] and [NGon]
    together; [type] stands for the class ([instanceof Canvas] is
    [type = Canvas]).  [parent = None] is [null]. *)

Inductive ShapeType := Canvas | Rectangle | Circle | Triangle.

Definition is_Canvas (t : ShapeType) : bool :=
  match t with Canvas => true | _ => false end.

Abbreviation loc := nat (only parsing).

Record Shape := mkShape {
  type : ShapeType;
  parent : option loc;
  transform : Transform;
  children : list loc;
  selected : bool;
  points : list Point;
  drawPoints : list Point
}.

Definition set_transform (t : Transform) (s : Shape) : Shape :=
  mkShape (type s) (parent s) t (children s) (selected s) (points s) (drawPoints s).
Definition set_children (c : list loc) (s : Shape) : Shape :=
  mkShape (type s) (parent s) (transform s) c (selected s) (points s) (drawPoints s).
Definition set_selected (b : bool) (s : Shape) : Shape :=
  mkShape (type s) (parent s) (transform s) (children s) b (points s) (drawPoints s).
Definition set_drawPoints (dp : list Point) (s : Shape) : Shape :=
  mkShape (type s) (parent s) (transform s) (children s) (selected s) (points s) dp.

Abbreviation store := (gmap nat Shape) (only parsing).

(** [NGon.getPoints] *)
Definition getPoints (s : Shape) : list Point := drawPoints s.

(** Following a reference to read a property: [null] throws. *)
Definition deref (h : store) (ref : option loc) : result Shape :=
  match ref with
  | None => Throw TypeError
  | Some l => match h !! l with
              | Some s => Ok s
              | None => Throw TypeError
              end
  end.

(** *** Constructors *)

Section Constructors.
Local Open Scope float_scope.
Variables (cos sin : number -> number).

(** [Shape] and [NGon] constructors: no children, not selected, no draw
    points yet; the subclass then fills [points]. *)
Definition new_NGon (ty : ShapeType) (pts : list Point)
    (transform : Transform) (parent : option loc) : Shape :=
  mkShape ty parent transform [] false pts [].

Definition Rectangle_points (width height : number) : list Point :=
  let hWidth := width / 2 in
  let hHeight := height / 2 in
  [mkPoint (- hWidth) hHeight; mkPoint hWidth hHeight;
   mkPoint hWidth (- hHeight); mkPoint (- hWidth) (- hHeight)].

Definition new_Rectangle (width height : number) (transform : Transform)
    (parent : option loc) : Shape :=
  new_NGon Rectangle (Rectangle_points width height) transform parent.

Definition pointsAmount : number := 100.

(** The loop of the [Circle] constructor, [n] turns left. *)
Fixpoint Circle_loop (n : nat) (radius rotationAngle angle : number)
    (pts : list Point) : list Point :=
  match n with
  | O => pts
  | S n' =>
      Circle_loop n' radius rotationAngle (angle + rotationAngle)
                  (pts ++ [mkPoint (cos angle * radius) (sin angle * radius)])
  end.

Definition Circle_points (radius : number) : list Point :=
  let rotationAngle := PI * 2 / pointsAmount in
  Circle_loop 100 radius rotationAngle 0 [].

Definition new_Circle (radius : number) (transform : Transform)
    (parent : option loc) : Shape :=
  new_NGon Circle (Circle_points radius) transform parent.

Definition new_Triangle (point1 point2 point3 : Point) (transform : Transform)
    (parent : option loc) : Shape :=
  new_NGon Triangle [point1; point2; point3] transform parent.

Definition new_Canvas (width height : number) (transform : Transform) : Shape :=
  new_NGon Canvas (Rectangle_points width height) transform None.

(** The parameters a creation form hands to [buildFromParams], as numbers. *)
Inductive Params :=
| RectangleParams (width height : number)
| CircleParams (radius : number)
| TriangleParams (point1_x point1_y point2_x point2_y point3_x point3_y : number).

Definition buildFromParams (parent : option loc) (transform : Transform)
    (params : Params) : Shape :=
  match params with
  | RectangleParams width height => new_Rectangle width height transform parent
  | CircleParams radius => new_Circle radius transform parent
  | TriangleParams x1 y1 x2 y2 x3 y3 =>
      new_Triangle (mkPoint x1 y1) (mkPoint x2 y2) (mkPoint x3 y3) transform parent
  end.

End Constructors.

(** *** [isStable] and [draw] *)

Section Methods.
Variables (cos sin : number -> number).

(** [NGon.isStable], with [Canvas.isStable] as the first case. *)
Definition isStable (h : store) (this : loc) : result bool :=
  do s <- deref h (Some this);
  if is_Canvas (type s) then Ok true else
  do inParent <- everyM (fun point =>
                           do p <- deref h (parent s);
                           isPointInside (drawPoints p) point)
                        (drawPoints s);
  if negb inParent then Ok false else
  do p <- deref h (parent s);
  everyM (fun sibling =>
            do sib <- deref h (Some sibling);
            do outOfSibling <- everyM (fun point =>
                                         do b <- isPointInside (drawPoints sib) point;
                                         Ok (negb b))
                                      (drawPoints s);
            if negb outOfSibling then Ok false else
            do siblingOut <- everyM (fun point =>
                                       do b <- isPointInside (drawPoints s) point;
                                       Ok (negb b))
                                    (getPoints sib);
            if negb siblingOut then Ok false else
            do crossing <- isIntersecting (drawPoints s) (drawPoints sib);
            Ok (negb crossing))
         (filter (fun node => node <> this) (children p)).

(** The accumulated transform built at the head of [draw]. *)
Definition absoluteTransform (this_transform : Transform) (parentCenter : Point)
    (parentTransform : Transform) : Transform :=
  mkTransform
    (mkPoint (x parentCenter + x (position this_transform))
             (y parentCenter + y (position this_transform)))
    (rotation parentTransform + rotation this_transform)
    (mkPoint (x (scale parentTransform) * x (scale this_transform))
             (y (scale parentTransform) * y (scale this_transform)))%float.

(** The function mapped over [this.points] by [draw]. *)
Definition drawPoint (this_transform : Transform) (parentCenter : Point)
    (parentTransform : Transform) (point : Point) : Point :=
  let absT := absoluteTransform this_transform parentCenter parentTransform in
  let drawPoint :=
    mkPoint (x parentCenter + x (position this_transform) + x point * x (scale absT))
            (y parentCenter + y (position this_transform) + y point * y (scale absT))%float in
  let drawPoint :=
    rotateAround cos sin drawPoint
                 (mkPoint (x (position absT)) (y (position absT)))
                 (rotation this_transform) in
  rotateAround cos sin drawPoint parentCenter (rotation parentTransform).

(** [NGon.draw].  The drawing context only receives output (stroke colour
    and path); what is kept of that part are the calls that can throw: the
    [isStable] that picks the colour and the read of [drawPoints[0]].
    The recursion into the children is bounded by [fuel]. *)
Fixpoint draw (fuel : nat) (h : store) (this : loc)
    (parentCenter : option Point) (parentTransform : option Transform)
  : result store :=
  match fuel with
  | O => OutOfFuel
  | S fuel' =>
      let parentCenter := default (mkPoint 0 0) parentCenter in
      let parentTransform :=
        default (mkTransform Point_.zero 0 Point_.unit) parentTransform in
      do s <- deref h (Some this);
      let absT := absoluteTransform (transform s) parentCenter parentTransform in
      let h1 :=
        <[this := set_drawPoints
                    (map (drawPoint (transform s) parentCenter parentTransform)
                         (points s)) s]> h in
      do stable <- isStable h1 this;
      do s1 <- deref h1 (Some this);
      do first <- index (drawPoints s1) 0;
      foldM (fun h' child =>
               do s' <- deref h' (Some this);
               draw fuel' h' child (Some (getCenter (drawPoints s'))) (Some absT))
            h1 (children s1)
  end.

End Methods.

(** ** The controller

    The fields the geometry depends on.  [render] draws the tree from the
    canvas; the hierarchy view and [alert] only produce output. *)

Record Controller := mkController {
  heap : store;
  canvas : loc;
  selectedNode : option loc;
  previewNode : option loc;
  isInEdit : bool
}.

Definition set_heap (h : store) (c : Controller) : Controller :=
  mkController h (canvas c) (selectedNode c) (previewNode c) (isInEdit c).
Definition set_selectedNode (n : option loc) (c : Controller) : Controller :=
  mkController (heap c) (canvas c) n (previewNode c) (isInEdit c).
Definition set_previewNode (n : option loc) (c : Controller) : Controller :=
  mkController (heap c) (canvas c) (selectedNode c) n (isInEdit c).
Definition set_isInEdit (b : bool) (c : Controller) : Controller :=
  mkController (heap c) (canvas c) (selectedNode c) (previewNode c) b.

Section ControllerMethods.
Variables (cos sin : number -> number).

(** An assignment to a property of the object at [l]. *)
Definition update (h : store) (l : loc) (f : Shape -> Shape) : result store :=
  do s <- deref h (Some l);
  Ok (<[l := f s]> h).

(** [DrawingCanvas.render], called by [Controller.render]. *)
Definition render (fuel : nat) (c : Controller) : result Controller :=
  do h <- draw cos sin fuel (heap c) (canvas c)
               (Some Point_.zero) (Some Transform_.default);
  Ok (set_heap h c).

Definition selectNode (fuel : nat) (c : Controller) (node : loc) : result Controller :=
  if bool_decide (previewNode c <> None) || isInEdit c then Ok c else
  do h <- match selectedNode c with
          | Some old => update (heap c) old (set_selected false)
          | None => Ok (heap c)
          end;
  do h <- update h node (set_selected true);
  render fuel (set_selectedNode (Some node) (set_heap h c)).

(** [new Controller(width, height)]: the canvas is the first object. *)
Definition new_Controller (fuel : nat) (width height : number) : result Controller :=
  let cv := new_Canvas width height
              (mkTransform (mkPoint (width / 2) (height / 2))%float 0 Point_.unit) in
  let l := fresh (dom (∅ : store)) in
  do c <- selectNode fuel (mkController (<[l := cv]> ∅) l None None false) l;
  render fuel c.

(** [Shape.addChild] and [Shape.removeChild], on the object at [this]. *)
Definition addChild (h : store) (this child : loc) : result store :=
  update h this (fun s => set_children (children s ++ [child]) s).

Definition removeChild (h : store) (this : option loc) (child : loc) : result store :=
  do s <- deref h this;
  match this with
  | Some l => Ok (<[l := set_children
                           (filter (fun node => node <> child) (children s)) s]> h)
  | None => Throw TypeError
  end.

Definition removePreviewNode (fuel : nat) (c : Controller) : result Controller :=
  let c := set_isInEdit false c in
  do c <- match previewNode c with
          | Some pn =>
              do s <- deref (heap c) (Some pn);
              do h <- removeChild (heap c) (parent s) pn;
              Ok (set_previewNode None (set_heap h c))
          | None => Ok c
          end;
  render fuel c.

Definition preview (fuel : nat) (c : Controller) (transform : Transform)
    (params : Params) : result (bool * Controller) :=
  do c <- removePreviewNode fuel c;
  match selectedNode c with
  | None => Ok (false, c)
  | Some sel =>
      let newNode := buildFromParams cos sin (Some sel) transform params in
      let l := fresh (dom (heap c)) in
      do h <- addChild (<[l := newNode]> (heap c)) sel l;
      do c <- render fuel (set_previewNode (Some l) (set_heap h c));
      Ok (true, c)
  end.

Definition createNode (fuel : nat) (c : Controller) (transform : Transform)
    (params : Params) : result (bool * Controller) :=
  do stable <- match previewNode c with
               | Some l => isStable (heap c) l
               | None => Throw TypeError
               end;
  if negb stable then Ok (false, c) else
  do c <- removePreviewNode fuel c;
  match selectedNode c with
  | None => Ok (false, c)
  | Some sel =>
      let newNode := buildFromParams cos sin (Some sel) transform params in
      let l := fresh (dom (heap c)) in
      do h <- addChild (<[l := newNode]> (heap c)) sel l;
      do c <- render fuel (set_heap h c);
      Ok (true, c)
  end.

(** [Controller.translate]. *)
Definition translate (fuel : nat) (c : Controller) (translate : Transform)
  : result (bool * Controller) :=
  do sel <- deref (heap c) (selectedNode c);
  if is_Canvas (type sel) then Ok (false, c) else
  match selectedNode c with
  | None => Throw TypeError
  | Some l =>
      let prevTransform := transform sel in
      do h <- update (heap c) l
                (fun s => set_transform (Transform_.add (transform s) translate) s);
      do c <- render fuel (set_heap h c);
      do stable <- isStable (heap c) l;
      if stable then Ok (true, set_isInEdit false c)
      else
        do h <- update (heap c) l (set_transform prevTransform);
        Ok (false, set_heap h c)
  end.

Definition previewTranslate (fuel : nat) (c : Controller) (translate : Transform)
  : result Controller :=
  let c := set_isInEdit true c in
  do sel <- deref (heap c) (selectedNode c);
  if is_Canvas (type sel) then Ok c else
  match selectedNode c with
  | None => Throw TypeError
  | Some l =>
      let prevTransform := transform sel in
      do h <- update (heap c) l
                (fun s => set_transform (Transform_.add (transform s) translate) s);
      do c <- render fuel (set_heap h c);
      do h <- update (heap c) l (set_transform prevTransform);
      Ok (set_heap h c)
  end.

End ControllerMethods.

(** [Controller.selectNodeAtPoint] *)
Section SelectAtPoint.
Variables (cos sin : number -> number).

(** The [for] loop inside [selectNodeAtPoint]: the first child that
    contains the point, if there is one. *)
Fixpoint selectNodeAtPoint_for (h : store) (point : Point) (children : list loc)
  : result (option loc) :=
  match children with
  | [] => Ok None
  | child :: rest =>
      do sc <- deref h (Some child);
      do inside <- isPointInside (drawPoints sc) point;
      if inside then Ok (Some child) else selectNodeAtPoint_for h point rest
  end.

(** The [while] loop: [currNode] moves to that child until no child contains
    the point.  The number of turns is bounded by [fuel]. *)
Fixpoint selectNodeAtPoint_while (fuel : nat) (h : store) (currNode : loc)
    (point : Point) : result loc :=
  match fuel with
  | O => OutOfFuel
  | S fuel' =>
      do s <- deref h (Some currNode);
      do found <- selectNodeAtPoint_for h point (children s);
      match found with
      | Some child => selectNodeAtPoint_while fuel' h child point
      | None => Ok currNode
      end
  end.

Definition selectNodeAtPoint (fuel : nat) (c : Controller) (point : Point)
  : result Controller :=
  do currNode <- selectNodeAtPoint_while fuel (heap c) (canvas c) point;
  selectNode cos sin fuel c currNode.

End SelectAtPoint.

(** [hit h point start node]: [node] is reached from [start] by going, any
    number of times, to a child that contains the point. *)
Inductive hit (h : store) (point : Point) : loc -> loc -> Prop :=
| hit_here a : hit h point a a
| hit_child a s c sc m :
    h !! a = Some s -> c ∈ children s -> h !! c = Some sc ->
    isPointInside (drawPoints sc) point = Ok true ->
    hit h point c m -> hit h point a m.

(** ** Closed forms used in the statements *)

(** The edges of the closed loop through [poly]: point [i] to point
    [(i + 1) mod n]. *)
Definition edges (poly : list Point) : list Line :=
  map (fun i => mkLine (nth i poly Point_.zero)
                       (nth (S i mod length poly) poly Point_.zero))
      (seq 0 (length poly)).

(** What [isStable] computes for the node [s] at [this] against one sibling
    at [c], and against its parent [sp] and all siblings. *)
Definition clear_of (h : store) (s : Shape) (c : loc) : bool :=
  match h !! c with
  | Some sc =>
      forallb (fun pt => negb (crossing_number_spec (drawPoints sc) pt)) (drawPoints s)
      && forallb (fun pt => negb (crossing_number_spec (drawPoints s) pt)) (drawPoints sc)
      && negb (existsb (fun l1 => existsb (line_intersects l1) (edges (drawPoints sc)))
                       (edges (drawPoints s)))
  | None => false
  end.

Definition stable_form (h : store) (this : loc) (s sp : Shape) : bool :=
  forallb (crossing_number_spec (drawPoints sp)) (drawPoints s)
  && forallb (clear_of h s) (filter (fun node => node <> this) (children sp)).

(** The condition of the stability rule: every draw point of the node [s]
    is inside the parent [sp], and for every other child of the parent no
    point of one is inside the other and no two edges intersect. *)
Definition contained_and_clear (h : store) (this : loc) (s sp : Shape) : Prop :=
  (forall pt, pt ∈ drawPoints s -> isPointInside (drawPoints sp) pt = Ok true) /\
  (forall c sc, c ∈ children sp -> c <> this -> h !! c = Some sc ->
     (forall pt, pt ∈ drawPoints s -> isPointInside (drawPoints sc) pt = Ok false) /\
     (forall pt, pt ∈ drawPoints sc -> isPointInside (drawPoints s) pt = Ok false) /\
     (forall e1 e2, e1 ∈ edges (drawPoints s) -> e2 ∈ edges (drawPoints sc) ->
                    line_intersects e1 e2 = false)).

(** ** Absolute point resolution

    The closed form of [drawPoint], with the rotation of the code:
    [absolute = parentCenter + T.position + p * combinedScale] with
    [combinedScale = parentT.scale * T.scale] component-wise, rotated around
    [parentCenter + T.position] by [T.rotation], then around [parentCenter]
    by [parentT.rotation].  Of the parent's accumulated transform only the
    rotation and the scale are used. *)

Section ResolveSpec.
Variables (cos sin : number -> number).

Definition vadd (a b : Point) : Point := mkPoint (x a + x b) (y a + y b)%float.
Definition vmul (a b : Point) : Point := mkPoint (x a * x b) (y a * y b)%float.

Definition resolve_spec (T : Transform) (parentCenter : Point)
    (parentRotation : number) (parentScale : Point) (p : Point) : Point :=
  let combinedScale := vmul parentScale (scale T) in
  let absolute := vadd (vadd parentCenter (position T)) (vmul p combinedScale) in
  let placed := rotateAround cos sin absolute
                             (vadd parentCenter (position T)) (rotation T) in
  rotateAround cos sin placed parentCenter parentRotation.

End ResolveSpec.

(** *** Rotation and centroid as the spec words them

    [rotate_spec center angleDegrees p]: the image of [p] after the rotation
    by [angleDegrees] about [center], the standard rotation of the plane
    with the sign of the sine term inverted for the y-axis (clockwise
    positive).  With [theta] the angle in radians and [(dx, dy)] the
    vector from [center] to [p]:
    [x' = center.x + (dx cos theta + dy sin theta)] and
    [y' = center.y + (dy cos theta - dx sin theta)].

    [centroid_spec]: the centroid of a sequence of points, each point
    counted with weight one over the number of points.

    [resolve_point_spec]: section 4.3 with this rotation:
    [absolute = parentCenter + T.position + p * combinedScale], rotated
    about [parentCenter + T.position] by [T.rotation], then about
    [parentCenter] by the rotation of the parent. *)

Section RotationSpec.
Local Open Scope float_scope.
Variables (cos sin : number -> number).

Definition rotate_spec (center : Point) (angleDegrees : number) (p : Point) : Point :=
  let theta := angleDegrees * (PI / 180) in
  let dx := x p - x center in
  let dy := y p - y center in
  mkPoint (x center + (dx * cos theta + dy * sin theta))
          (y center + (dy * cos theta - dx * sin theta)).

Definition sum_spec (l : list number) : number :=
  fold_left (fun acc v => acc + v) l 0.

Definition centroid_spec (pts : list Point) : Point :=
  let n := length_number pts in
  mkPoint (sum_spec (map (fun p => x p / n) pts))
          (sum_spec (map (fun p => y p / n) pts)).

Definition resolve_point_spec (T : Transform) (parentCenter : Point)
    (parentRotation : number) (parentScale : Point) (p : Point) : Point :=
  let combinedScale := vmul parentScale (scale T) in
  let placement := vadd parentCenter (position T) in
  let absolute := vadd placement (vmul p combinedScale) in
  rotate_spec parentCenter parentRotation
              (rotate_spec placement (rotation T) absolute).

End RotationSpec.

(** ** Well-formed stores

    [erase] forgets the [drawPoints] caches: two stores with the same
    erasure differ at most in resolved points.  [tree_ok] says that the
    objects form trees: children are in the store, point back at their
    parent and are strictly below it for [rank]; every object has local
    points; an object without parent is a canvas.  [desc h a m]: [m] is [a]
    or below it. *)

Definition erase (h : store) : store := set_drawPoints [] <$> h.

Definition tree_ok (rank : loc -> nat) (h : store) : Prop :=
  forall l s, h !! l = Some s ->
    points s <> [] /\
    (forall c, c ∈ children s ->
       rank c < rank l /\ exists sc, h !! c = Some sc /\ parent sc = Some l) /\
    (type s <> Canvas -> exists p, parent s = Some p /\ is_Some (h !! p)).

Inductive desc (h : store) : loc -> loc -> Prop :=
| desc_refl a : desc h a a
| desc_child a s c m :
    h !! a = Some s -> c ∈ children s -> desc h c m -> desc h a m.

(** The lengths that hold of every polygon through its life: at least three
    local points, and draw points either not resolved yet or as many as the
    local points. *)
Definition shape_lengths_ok (s : Shape) : Prop :=
  3 <= length (points s) /\
  (drawPoints s = [] \/ length (drawPoints s) = length (points s)).

Definition lengths_ok (h : store) : Prop :=
  forall l s, h !! l = Some s -> shape_lengths_ok s.

(** [extends h h']: every object of [h] is still an object of [h']. *)
Definition extends (h h' : store) : Prop :=
  forall l, is_Some (h !! l) -> is_Some (h' !! l).

(** What holds of the controller between two events: the store is made of
    trees, the canvas and the selected node are objects of the store. *)
Definition session_ok (c : Controller) : Prop :=
  (exists rank, tree_ok rank (heap c)) /\
  is_Some (heap c !! canvas c) /\
  (forall l, selectedNode c = Some l -> is_Some (heap c !! l)).

(** [resolved h l pc rot sc]: the node at [l] and every node below it hold
    the draw points the spec prescribes, the node [l] for the parent
    centroid [pc] and the accumulated parent rotation [rot] and scale [sc],
    each child for the centroid of its parent's draw points, the summed
    rotation and the multiplied scale. *)
Section Resolved.
Variables (cos sin : number -> number).

Inductive resolved (h : store) : loc -> Point -> number -> Point -> Prop :=
| resolved_node l s parentCenter parentRotation parentScale :
    h !! l = Some s ->
    drawPoints s = map (resolve_spec cos sin (transform s) parentCenter
                                     parentRotation parentScale) (points s) ->
    (forall c, c ∈ children s ->
       resolved h c (getCenter (drawPoints s))
                (parentRotation + rotation (transform s))%float
                (vmul parentScale (scale (transform s)))) ->
    resolved h l parentCenter parentRotation parentScale.

(** [resolved_spec]: the same, in the words of the spec: the points are
    those of [resolve_point_spec], and what is passed down to the children
    as position is [centroid_spec] of the draw points of the node. *)
Inductive resolved_spec (h : store) : loc -> Point -> number -> Point -> Prop :=
| resolved_spec_node l s parentCenter parentRotation parentScale :
    h !! l = Some s ->
    drawPoints s = map (resolve_point_spec cos sin (transform s) parentCenter
                                           parentRotation parentScale) (points s) ->
    (forall c, c ∈ children s ->
       resolved_spec h c (centroid_spec (drawPoints s))
                     (parentRotation + rotation (transform s))%float
                     (vmul parentScale (scale (transform s)))) ->
    resolved_spec h l parentCenter parentRotation parentScale.

End Resolved.

(** A decision procedure for [tree_ok], for concrete stores. *)
Definition node_okb (rank : loc -> nat) (h : store) (l : loc) (s : Shape) : bool :=
  match points s with [] => false | _ => true end
  && forallb (fun c => (rank c <? rank l)
                       && match h !! c with
                          | Some sc => bool_decide (parent sc = Some l)
                          | None => false
                          end)
             (children s)
  && (is_Canvas (type s)
      || match parent s with
         | Some p => bool_decide (is_Some (h !! p))
         | None => false
         end).

Definition tree_okb (rank : loc -> nat) (h : store) : bool :=
  forallb (fun ls => node_okb rank h (fst ls) (snd ls)) (map_to_list h).

(** A function whose value at [+0] is known can be evaluated there. *)
Definition at_zero (v : number) (f : number -> number) (a : number) : number :=
  if PrimFloat.Leibniz.eqb a 0 then v else f a.

(** ** Transforms as objects

    [Transform.add] on a store of transform objects: the operands are read
    and the result is a newly allocated object.  No method assigns a field
    of an existing transform, which is why shapes carry their transform by
    value in the rest of the development. *)

Definition Transform_add (ts : gmap nat Transform) (this other : loc)
  : result (loc * gmap nat Transform) :=
  match ts !! this, ts !! other with
  | Some a, Some b =>
      let r := fresh (dom ts) in
      Ok (r, <[r := Transform_.add a b]> ts)
  | _, _ => Throw TypeError
  end.

(** ** The states a session can reach

    A state is reached by [new Controller] followed by calls of the methods
    the form and the views trigger.  A call that throws, or that is not
    given enough fuel, is no step. *)

Section Reachable.
Variables (cos sin : number -> number).

Inductive step : Controller -> Controller -> Prop :=
| step_selectNode fuel c node c' :
    selectNode cos sin fuel c node = Ok c' -> step c c'
| step_removePreviewNode fuel c c' :
    removePreviewNode cos sin fuel c = Ok c' -> step c c'
| step_preview fuel c T params b c' :
    preview cos sin fuel c T params = Ok (b, c') -> step c c'
| step_createNode fuel c T params b c' :
    createNode cos sin fuel c T params = Ok (b, c') -> step c c'
| step_translate fuel c delta b c' :
    translate cos sin fuel c delta = Ok (b, c') -> step c c'
| step_previewTranslate fuel c delta c' :
    previewTranslate cos sin fuel c delta = Ok c' -> step c c'
| step_render fuel c c' :
    render cos sin fuel c = Ok c' -> step c c'.

Inductive reachable : Controller -> Prop :=
| reachable_new fuel width height c :
    new_Controller cos sin fuel width height = Ok c -> reachable c
| reachable_step c c' :
    reachable c -> step c c' -> reachable c'.

End Reachable.

(** ** A session used as example

    Polynomial stand-ins for [Math.cos] and [Math.sin], exact at [0]; a
    640 x 480 canvas in which a 100 x 50 rectangle is previewed, created and
    selected. *)

Definition cos_poly (a : number) : number := (1 - a * a / 2 + a * a * a * a / 24)%float.
Definition sin_poly (a : number) : number := (a - a * a * a / 6)%float.

Definition example_none : Controller := mkController ∅ 0 None None false.

Definition example_new : Controller :=
  Eval vm_compute in
    match new_Controller cos_poly sin_poly 3 640 480 with
    | Ok c => c
    | _ => example_none
    end.

Definition example_previewed : Controller :=
  Eval vm_compute in
    match preview cos_poly sin_poly 3 example_new Transform_.default
                  (RectangleParams 100 50) with
    | Ok (_, c) => c
    | _ => example_none
    end.

Definition example_created : Controller :=
  Eval vm_compute in
    match createNode cos_poly sin_poly 3 example_previewed Transform_.default
                     (RectangleParams 100 50) with
    | Ok (_, c) => c
    | _ => example_none
    end.

Definition example_state : Controller :=
  Eval vm_compute in
    match selectNode cos_poly sin_poly 3 example_created 2 with
    | Ok c => c
    | _ => example_none
    end.

Definition example_canvas : Shape :=
  Eval vm_compute in default (new_Canvas 0 0 Transform_.default) (heap example_state !! 0).
Definition example_rectangle : Shape :=
  Eval vm_compute in default (new_Canvas 0 0 Transform_.default) (heap example_state !! 2).

(** The same session after a 1000 x 1000 rectangle has been constructed and
    added under the canvas, before any draw pass. *)
Definition example_unresolved : Shape :=
  new_Rectangle 1000 1000 Transform_.default (Some 0).

Definition example_unresolved_heap : store :=
  Eval vm_compute in
    match addChild (<[3 := example_unresolved]> (heap example_state)) 0 3 with
    | Ok h => h
    | _ => ∅
    end.

(** A rank for the store of the example: the canvas above the rest. *)
Definition example_rank (l : loc) : nat := match l with O => 1 | _ => 0 end.

(** A move of 400 to the right, which leaves the canvas. *)
Definition example_delta : Transform := mkTransform (mkPoint 400 0) 0 Point_.unit.

(** Two transform objects, [Transform.default] and [Transform.zero]. *)
Definition example_transforms : gmap nat Transform :=
  <[1 := Transform_.zero]> (<[0 := Transform_.default]> ∅).

(** ** The scenario of the legal child

    A 640 x 480 canvas placed at (320, 240), a 100 x 50 rectangle added as
    its child at local position (0, 0), no rotation, unit scale; the points
    are resolved by the call [canvas.draw(ctx, Point.zero,
    Transform.default)] of [DrawingCanvas.render]. *)

Definition legal_child_canvas : Shape :=
  new_Canvas 640 480 (mkTransform (mkPoint 320 240) 0 Point_.unit).

Definition legal_child_rectangle : Shape :=
  new_Rectangle 100 50 (mkTransform (mkPoint 0 0) 0 (mkPoint 1 1)) (Some 0).

Definition legal_child_resolved (cos sin : number -> number) : result store :=
  do h <- addChild (<[1 := legal_child_rectangle]> {[0 := legal_child_canvas]}) 0 1;
  draw cos sin 2 h 0 (Some Point_.zero) (Some Transform_.default).

(** ** Definitions used by the further properties *)

(** ** Not-a-number

    [isNaN a] is the test [a != a] of JavaScript.  On the specification of
    binary64, [zero_or_nan] holds of the values a product with a zero factor
    can take. *)

Definition isNaN (a : number) : bool := negb (a =? a)%float.

Definition zero_or_nan (a : spec_float) : Prop :=
  a = S754_nan \/ exists s, a = S754_zero s.

(** The store of [example_unresolved_heap] after a draw pass from the canvas. *)
Definition example_drawn : store :=
  Eval vm_compute in
    match draw cos_poly sin_poly 3 example_unresolved_heap 0
               (Some Point_.zero) (Some Transform_.default) with
    | Ok h => h
    | _ => ∅
    end.

(** A point with a NaN coordinate; parameters of a shape with a NaN. *)
Definition has_nan (p : Point) : bool := isNaN (x p) || isNaN (y p).

Definition params_has_nan (params : Params) : bool :=
  match params with
  | RectangleParams width height => isNaN width || isNaN height
  | CircleParams radius => isNaN radius
  | TriangleParams x1 y1 x2 y2 x3 y3 =>
      isNaN x1 || isNaN y1 || isNaN x2 || isNaN y2 || isNaN x3 || isNaN y3
  end.

(** A transform whose position or scale has a NaN. *)
Definition transform_has_nan (T : Transform) : bool :=
  has_nan (position T) || has_nan (scale T).

(** ** The flags of a session

    The selection flags agree with the controller: the object marked
    [selected] is the selected node, and no other. *)
Definition selection_ok (h : store) (sel : option loc) : Prop :=
  forall l s, h !! l = Some s -> (selected s = true <-> sel = Some l).

(** The preview node, when there is one: a childless object that is not a
    canvas, the last child of the selected node. *)
Definition preview_ok (h : store) (sel pn : option loc) : Prop :=
  forall l, pn = Some l ->
    exists p s sp,
      sel = Some p /\ h !! l = Some s /\ parent s = Some p /\
      children s = [] /\ type s <> Canvas /\
      h !! p = Some sp /\ last (children sp) = Some l.

Definition flags_ok (c : Controller) : Prop :=
  selection_ok (heap c) (selectedNode c) /\
  preview_ok (heap c) (selectedNode c) (previewNode c).

(** ** One more object in the store

    [grown l h h']: [h'] is [h] with one more object, at [l], that has no
    children; the objects of [h] are as they were, except that [l] may have
    been pushed on their [children]. *)
Definition grown (l : loc) (h h' : store) : Prop :=
  h !! l = None /\
  (exists sl, h' !! l = Some sl /\ children sl = []) /\
  (forall m s, m <> l -> h !! m = Some s ->
     exists s', h' !! m = Some s' /\ s' = set_children (children s') s /\
                (children s' = children s \/ children s' = children s ++ [l])) /\
  (forall m, m <> l -> is_Some (h' !! m) -> is_Some (h !! m)).

(** [placed h a pc rot sc m pc' rot' sc']: when [a] is drawn for the parent
    centroid [pc], rotation [rot] and scale [sc], the children of [m], a node
    at or below [a], are drawn for [pc'], [rot'] and [sc']. *)
Inductive placed (h : store) :
  loc -> Point -> number -> Point -> loc -> Point -> number -> Point -> Prop :=
| placed_here a s pc rot sc :
    h !! a = Some s ->
    placed h a pc rot sc a (getCenter (drawPoints s))
           (rot + rotation (transform s))%float (vmul sc (scale (transform s)))
| placed_child a s c pc rot sc m pc' rot' sc' :
    h !! a = Some s -> c ∈ children s ->
    placed h c (getCenter (drawPoints s))
           (rot + rotation (transform s))%float (vmul sc (scale (transform s)))
           m pc' rot' sc' ->
    placed h a pc rot sc m pc' rot' sc'.

(** A rectangle whose width is not a number. *)
Definition example_nan_params : Params := RectangleParams nan 50.

(** The store of the example with one more object, unrelated to the
    others. *)
Definition example_other : store :=
  <[7 := new_Canvas 10 10 Transform_.default]> (heap example_state).

(** What the store of a session looks like besides being made of trees:
    the canvas is the one object of class [Canvas], it has no parent, and
    no object is twice among the children of another. *)
Definition canvas_ok (h : store) (cv : loc) : Prop :=
  (exists s, h !! cv = Some s /\ type s = Canvas /\ parent s = None) /\
  (forall l s, h !! l = Some s -> type s = Canvas -> l = cv) /\
  (forall l s, h !! l = Some s -> NoDup (children s)).

(** ** The hierarchy view

    [Hierarchy.makeHierarchy] builds a list item for a node: a span with the
    name of the class as text, of class "active" when the node is
    selected, whose click listener hands the node to [selectNode], and an
    inner list with the items of the children.  [Li] keeps the text, the
    flag, the node of the listener and the inner items. *)

Definition ShapeNamesMap (t : ShapeType) : string :=
  match t with
  | Canvas => "Canvas"
  | Rectangle => "Rectangle"
  | Circle => "Circle"
  | Triangle => "Triangle"
  end.

#[warnings="-register-all"] Inductive Li :=
| mkLi (text : string) (active : bool) (target : loc) (inner : list Li).

Fixpoint makeHierarchy (fuel : nat) (h : store) (node : loc) : result Li :=
  match fuel with
  | O => OutOfFuel
  | S fuel' =>
      do s <- deref h (Some node);
      do innerUl <- foldM (fun ul child =>
                             do li <- makeHierarchy fuel' h child;
                             Ok (ul ++ [li]))
                          [] (children s);
      Ok (mkLi (ShapeNamesMap (type s)) (selected s) node innerUl)
  end.

(** The spans of an item, in document order: text, flag and node. *)
Fixpoint spans (li : Li) : list (string * bool * loc) :=
  match li with
  | mkLi text active target inner => (text, active, target) :: flat_map spans inner
  end.

(** What the spans of the items built for the nodes of [cs] are. *)
Definition lists (h : store) (cs : list loc) (L : list (string * bool * loc)) : Prop :=
  (forall m, m ∈ map snd L <-> exists c, c ∈ cs /\ desc h c m) /\
  (forall t a m, (t, a, m) ∈ L ->
     exists s, h !! m = Some s /\ t = ShapeNamesMap (type s) /\ a = selected s) /\
  NoDup (map snd L).

(** ** The states the page can reach

    The events of the page: a click on a span of the hierarchy, a mouse
    press on the drawing, and the calls the creation form makes.  These are
    steps of [step]; what they add is that a node is only ever selected
    through the hierarchy or the drawing. *)

Section Page.
Variables (cos sin : number -> number).

Inductive event : Controller -> Controller -> Prop :=
| event_span_click fuel fuel' c li text active node c' :
    makeHierarchy fuel (heap c) (canvas c) = Ok li ->
    (text, active, node) ∈ spans li ->
    selectNode cos sin fuel' c node = Ok c' -> event c c'
| event_mousedown fuel c point c' :
    selectNodeAtPoint cos sin fuel c point = Ok c' -> event c c'
| event_cancel fuel c c' :
    removePreviewNode cos sin fuel c = Ok c' -> event c c'
| event_preview fuel c T params b c' :
    preview cos sin fuel c T params = Ok (b, c') -> event c c'
| event_createNode fuel c T params b c' :
    createNode cos sin fuel c T params = Ok (b, c') -> event c c'
| event_translate fuel c delta b c' :
    translate cos sin fuel c delta = Ok (b, c') -> event c c'
| event_previewTranslate fuel c delta c' :
    previewTranslate cos sin fuel c delta = Ok c' -> event c c'.

Inductive page : Controller -> Prop :=
| page_new fuel width height c :
    new_Controller cos sin fuel width height = Ok c -> page c
| page_event c c' :
    page c -> event c c' -> page c'.

End Page.

(** The selected node is the canvas or below it. *)
Definition selected_in_tree (c : Controller) : Prop :=
  exists sel, selectedNode c = Some sel /\ desc (heap c) (canvas c) sel.

(** [kept h h']: the objects of [h] are objects of [h'], with at least
    the children they had. *)
Definition kept (h h' : store) : Prop :=
  forall l s, h !! l = Some s ->
    exists s', h' !! l = Some s' /\ forall c, c ∈ children s -> c ∈ children s'.

(** ** The drawing context

    What [draw] does with the [CanvasRenderingContext2D]: it reads and
    writes [strokeStyle], begins a path, gives it points with [moveTo] and
    [lineTo], and strokes it.  [Context] keeps the stroke style, the calls
    that built the current path, and for every [stroke] since the bitmap
    was last cleared the stroke style and the path it was called with. *)

Inductive PathCall :=
| MoveTo (px py : number)
| LineTo (px py : number).

Record Context := mkContext {
  strokeStyle : string;
  path : list PathCall;
  strokes : list (string * list PathCall)
}.

Definition set_strokeStyle (v : string) (ctx : Context) : Context :=
  mkContext v (path ctx) (strokes ctx).

Definition beginPath (ctx : Context) : Context :=
  mkContext (strokeStyle ctx) [] (strokes ctx).

Definition moveTo (px py : number) (ctx : Context) : Context :=
  mkContext (strokeStyle ctx) (path ctx ++ [MoveTo px py]) (strokes ctx).

Definition lineTo (px py : number) (ctx : Context) : Context :=
  mkContext (strokeStyle ctx) (path ctx ++ [LineTo px py]) (strokes ctx).

Definition stroke (ctx : Context) : Context :=
  mkContext (strokeStyle ctx) (path ctx) (strokes ctx ++ [(strokeStyle ctx, path ctx)]).

(** [DrawingCanvas.clear]: [clearRect] over the whole bitmap. *)
Definition DrawingCanvas_clear (ctx : Context) : Context :=
  mkContext (strokeStyle ctx) (path ctx) [].

Section Painting.
Variables (cos sin : number -> number).

(** [NGon.draw] with the context: [draw] with what it does to [ctx]. *)
Fixpoint draw_ctx (fuel : nat) (h : store) (ctx : Context) (this : loc)
    (parentCenter : option Point) (parentTransform : option Transform)
  : result (store * Context) :=
  match fuel with
  | O => OutOfFuel
  | S fuel' =>
      let parentCenter := default (mkPoint 0 0) parentCenter in
      let parentTransform :=
        default (mkTransform Point_.zero 0 Point_.unit) parentTransform in
      do s <- deref h (Some this);
      let absT := absoluteTransform (transform s) parentCenter parentTransform in
      let h1 :=
        <[this := set_drawPoints
                    (map (drawPoint cos sin (transform s) parentCenter parentTransform)
                         (points s)) s]> h in
      let prevStrokeStyle := strokeStyle ctx in
      do stable <- isStable h1 this;
      let ctx := set_strokeStyle (if stable then "black" else "red") ctx in
      let ctx := beginPath ctx in
      do s1 <- deref h1 (Some this);
      do first <- index (drawPoints s1) 0;
      let ctx := moveTo (x first) (y first) ctx in
      let ctx := fold_left (fun ctx p => lineTo (x p) (y p) ctx)
                           (drop 1 (drawPoints s1)) ctx in
      let ctx := lineTo (x first) (y first) ctx in
      let ctx := stroke ctx in
      do r <- foldM (fun acc child =>
                       do s' <- deref (fst acc) (Some this);
                       draw_ctx fuel' (fst acc) (snd acc) child
                                (Some (getCenter (drawPoints s'))) (Some absT))
                    (h1, ctx) (children s1);
      Ok (fst r, set_strokeStyle prevStrokeStyle (snd r))
  end.

(** [DrawingCanvas.render] *)
Definition DrawingCanvas_render (fuel : nat) (h : store) (ctx : Context)
    (canvas : loc) : result (store * Context) :=
  draw_ctx fuel h (DrawingCanvas_clear ctx) canvas (Some Point_.zero) (Some Transform_.default).

End Painting.

(** The path [draw] strokes for the draw points [pts], and the colours. *)
Definition outline (pts : list Point) : list PathCall :=
  match pts with
  | [] => []
  | first :: rest =>
      MoveTo (x first) (y first) :: map (fun p => LineTo (x p) (y p)) rest
      ++ [LineTo (x first) (y first)]
  end.

Definition colour (stable : bool) : string := if stable then "black" else "red".

(** The stroke of the node [n], found stable or not, when the store [h]
    holds its draw points. *)
Definition stroke_of (h : store) (e : loc * bool) : string * list PathCall :=
  (colour (snd e), outline (default [] (drawPoints <$> h !! fst e))).

(** Forgetting the context. *)
Definition forget {A B : Type} (r : result (A * B)) : result A :=
  match r with
  | Ok p => Ok (fst p)
  | Throw e => Throw e
  | OutOfFuel => OutOfFuel
  end.

(** [picked_in_order h h' E]: in a pass of [draw] from the store [h] to the
    store [h'] that strokes the nodes of [E] in this order, each node has
    its colour picked by [isStable] in a store that holds what [h'] holds
    for the node and the nodes stroked before it, and what [h] holds for
    every other object. *)
Definition picked_in_order (h h' : store) (E : list (loc * bool)) : Prop :=
  forall E1 n b E2, E = E1 ++ (n, b) :: E2 ->
    exists hn, isStable hn n = Ok b /\
      (forall m, m ∈ map fst E1 \/ m = n -> hn !! m = h' !! m) /\
      (forall m, m ∉ map fst E1 -> m <> n -> hn !! m = h !! m).

(** The store that holds what [h'] holds for the objects of [done] and
    what [h] holds for the others. *)
Definition partly_drawn (h h' : store) (done : list loc) : store :=
  map_imap (fun m s => if bool_decide (m ∈ done) then h' !! m else Some s) h.

(** The bitmap of a new page, and the example session painted. *)
Definition example_ctx : Context := mkContext "#000000" [] [].

Definition example_painted : store * Context :=
  Eval vm_compute in
    match DrawingCanvas_render cos_poly sin_poly 3 (heap example_state) example_ctx
                               (canvas example_state) with
    | Ok p => p
    | _ => (∅, example_ctx)
    end.

(** [stays pn sel h h']: the objects of [h] are objects of [h'], each with
    its class, parent and local points, with its transform unless it is
    the node [sel], and with the children it had, the node [pn] apart. *)
Definition stays (pn sel : option loc) (h h' : store) : Prop :=
  forall m s, h !! m = Some s ->
    exists s', h' !! m = Some s' /\
      type s' = type s /\ parent s' = parent s /\ points s' = points s /\
      (transform s' = transform s \/ sel = Some m) /\
      forall k, k ∈ children s -> pn <> Some k -> k ∈ children s'.

(** ** The controller with the drawing context

    [Controller.render], [removePreviewNode] and [preview] with the context
    of the drawing canvas: the same calls, with [DrawingCanvas_render] in
    the place of [draw]. *)

Section ControllerPainting.
Variables (cos sin : number -> number).

Definition render_ctx (fuel : nat) (c : Controller) (ctx : Context)
  : result (Controller * Context) :=
  do r <- DrawingCanvas_render cos sin fuel (heap c) ctx (canvas c);
  Ok (set_heap (fst r) c, snd r).

Definition removePreviewNode_ctx (fuel : nat) (c : Controller) (ctx : Context)
  : result (Controller * Context) :=
  let c := set_isInEdit false c in
  do c <- match previewNode c with
          | Some pn =>
              do s <- deref (heap c) (Some pn);
              do h <- removeChild (heap c) (parent s) pn;
              Ok (set_previewNode None (set_heap h c))
          | None => Ok c
          end;
  render_ctx fuel c ctx.

Definition preview_ctx (fuel : nat) (c : Controller) (ctx : Context)
    (transform : Transform) (params : Params)
  : result (bool * Controller * Context) :=
  do r <- removePreviewNode_ctx fuel c ctx;
  let c := fst r in
  let ctx := snd r in
  match selectedNode c with
  | None => Ok (false, c, ctx)
  | Some sel =>
      let newNode := buildFromParams cos sin (Some sel) transform params in
      let l := fresh (dom (heap c)) in
      do h <- addChild (<[l := newNode]> (heap c)) sel l;
      do r <- render_ctx fuel (set_previewNode (Some l) (set_heap h c)) ctx;
      Ok (true, fst r, snd r)
  end.

End ControllerPainting.

(** * Part II: properties *)

(** ** Facts on binary64 arithmetic used below *)

Section FloatFacts.

Lemma is_zero_spec (a : number) :
  is_zero a = true <-> exists s, Prim2SF a = S754_zero s.
Proof.
  unfold is_zero. rewrite FloatAxioms.eqb_spec.
  change (Prim2SF 0) with (S754_zero false).
  destruct (Prim2SF a) as [[]|[]| |[] m e]; cbn; split;
    try discriminate; try (intros [s Hs]; discriminate); eauto.
Qed.

(** Dividing by a zero gives an infinity or NaN, never a number of [0,1]. *)
Lemma div_zero_out_of_range (n d : number) :
  is_zero d = true -> in_unit_range (n / d) = false.
Proof.
  intros [s Hd]%is_zero_spec. unfold in_unit_range, ge, le.
  rewrite !FloatAxioms.leb_spec, FloatAxioms.div_spec, Hd.
  change (Prim2SF 0) with (S754_zero false).
  destruct (Prim2SF n) as [[]|[]| |[] mn en]; destruct s; reflexivity.
Qed.

(** [line_intersects] in terms of the named quantities. *)
Lemma line_intersects_params (line1 line2 : Line) :
  line_intersects line1 line2 =
  ge (param_s line1 line2) 0 && le (param_s line1 line2) 1
  && ge (param_t line1 line2) 0 && le (param_t line1 line2) 1.
Proof. reflexivity. Qed.

End FloatFacts.

(** *** Symmetry of binary64 arithmetic under change of sign

    Rounding is symmetric, so exchanging the two operands of a subtraction,
    or negating both operands of a sum, negates the result; the only
    exception is the sign of a zero result, which no comparison sees. *)

Section SignSymmetry.
Local Abbreviation round_aux := (binary_round_aux prec emax).
Local Abbreviation bround := (binary_round prec emax).
Local Abbreviation normalize := (binary_normalize prec emax).

Lemma sf_eqz_refl a : sf_eqz a a. Proof. left; reflexivity. Qed.
Lemma sf_eqz_sym a b : sf_eqz a b -> sf_eqz b a.
Proof. intros [->|(s & s' & -> & ->)]; [left|right]; eauto. Qed.
Lemma sf_eqz_trans a b c : sf_eqz a b -> sf_eqz b c -> sf_eqz a c.
Proof.
  intros [->|(s & s' & -> & ->)] [<-|(t & t' & E & ->)]; try (left; reflexivity);
    right; eauto.
Qed.
Lemma sf_eqz_zero s s' : sf_eqz (S754_zero s) (S754_zero s').
Proof. right; eauto. Qed.

Lemma SFopp_involutive a : SFopp (SFopp a) = a.
Proof. destruct a; cbn; rewrite ?negb_involutive; reflexivity. Qed.

Lemma sf_eqz_opp a b : sf_eqz a b -> sf_eqz (SFopp a) (SFopp b).
Proof. intros [->|(s & s' & -> & ->)]; [left; reflexivity|apply sf_eqz_zero]. Qed.

Lemma round_aux_opp s m e l :
  round_aux (negb s) m e l = SFopp (round_aux s m e l).
Proof.
  unfold binary_round_aux.
  destruct (shr_fexp prec emax m e l) as [mrs' e'].
  destruct (shr_fexp prec emax _ e' loc_Exact) as [mrs'' e''].
  destruct (shr_m mrs''); [reflexivity| |reflexivity].
  destruct (Z.leb e'' _); reflexivity.
Qed.

Lemma bround_opp s m e : bround (negb s) m e = SFopp (bround s m e).
Proof.
  unfold binary_round. destruct (shl_align _ _ _) as [mz ez].
  apply round_aux_opp.
Qed.

Lemma normalize_opp m e :
  sf_eqz (normalize (- m)%Z e false) (SFopp (normalize m e false)).
Proof.
  destruct m as [|p|p]; cbn [Z.opp binary_normalize].
  - apply sf_eqz_zero.
  - left. apply (bround_opp false).
  - left. rewrite <- SFopp_involutive at 1. f_equal. symmetry. apply (bround_opp false).
Qed.

Lemma SF64mul_opp_l a b : SF64mul (SFopp a) b = SFopp (SF64mul a b).
Proof.
  destruct a as [sa|sa| |sa ma ea], b as [sb|sb| |sb mb eb]; cbn;
    rewrite ?negb_xorb_l; try reflexivity.
  rewrite <- negb_xorb_l. apply round_aux_opp.
Qed.

Lemma SF64mul_comm a b : SF64mul a b = SF64mul b a.
Proof.
  destruct a as [sa|sa| |sa ma ea], b as [sb|sb| |sb mb eb]; cbn;
    rewrite ?(xorb_comm sa sb); try reflexivity.
  rewrite Pos.mul_comm, Z.add_comm. reflexivity.
Qed.

Lemma SF64mul_opp_r a b : SF64mul a (SFopp b) = SFopp (SF64mul a b).
Proof. rewrite SF64mul_comm, SF64mul_opp_l, SF64mul_comm. reflexivity. Qed.

Lemma SF64mul_eqz_l a a' b : sf_eqz a a' -> sf_eqz (SF64mul a b) (SF64mul a' b).
Proof.
  intros [->|(s & s' & -> & ->)]; [apply sf_eqz_refl|].
  destruct b as [sb|sb| |sb mb eb]; cbn; try apply sf_eqz_zero; apply sf_eqz_refl.
Qed.

Lemma SF64mul_eqz a a' b b' :
  sf_eqz a a' -> sf_eqz b b' -> sf_eqz (SF64mul a b) (SF64mul a' b').
Proof.
  intros Ha Hb. apply sf_eqz_trans with (SF64mul a' b).
  - apply SF64mul_eqz_l, Ha.
  - rewrite (SF64mul_comm a' b), (SF64mul_comm a' b'). apply SF64mul_eqz_l, Hb.
Qed.

Lemma SF64add_comm a b : SF64add a b = SF64add b a.
Proof.
  destruct a as [[]|[]| |sa ma ea], b as [[]|[]| |sb mb eb]; cbn; try reflexivity.
  rewrite Z.min_comm, Z.add_comm. reflexivity.
Qed.

Lemma cond_Zopp_negb s m : cond_Zopp (negb s) m = (- cond_Zopp s m)%Z.
Proof. destruct s; cbn; [rewrite Z.opp_involutive|]; reflexivity. Qed.

Lemma SF64sub_add a b : SF64sub a b = SF64add a (SFopp b).
Proof.
  destruct a as [[]|[]| |sa ma ea], b as [[]|[]| |sb mb eb]; cbn; try reflexivity.
  rewrite cond_Zopp_negb. reflexivity.
Qed.

Lemma SF64add_opp a b :
  sf_eqz (SF64add (SFopp a) (SFopp b)) (SFopp (SF64add a b)).
Proof.
  destruct a as [[]|[]| |sa ma ea], b as [[]|[]| |sb mb eb]; cbn;
    try apply sf_eqz_refl; try apply sf_eqz_zero.
  rewrite !cond_Zopp_negb, <- Z.opp_add_distr. apply normalize_opp.
Qed.

Lemma SF64add_eqz_l a a' b : sf_eqz a a' -> sf_eqz (SF64add a b) (SF64add a' b).
Proof.
  intros [->|(s & s' & -> & ->)]; [apply sf_eqz_refl|].
  destruct b as [[]|[]| |sb mb eb], s, s'; cbn; try apply sf_eqz_zero; apply sf_eqz_refl.
Qed.

Lemma SF64add_eqz a a' b b' :
  sf_eqz a a' -> sf_eqz b b' -> sf_eqz (SF64add a b) (SF64add a' b').
Proof.
  intros Ha Hb. apply sf_eqz_trans with (SF64add a' b).
  - apply SF64add_eqz_l, Ha.
  - rewrite (SF64add_comm a' b), (SF64add_comm a' b'). apply SF64add_eqz_l, Hb.
Qed.

Lemma sf_in_unit_range_eqz a b : sf_eqz a b -> sf_in_unit_range a = sf_in_unit_range b.
Proof. intros [->|(s & s' & -> & ->)]; reflexivity. Qed.

Lemma SF64div_range n n' d d' :
  sf_eqz n' (SFopp n) -> sf_eqz d' (SFopp d) ->
  sf_in_unit_range (SF64div n' d') = sf_in_unit_range (SF64div n d).
Proof.
  intros [->|(s & s' & -> & Hn)] [->|(t & t' & -> & Hd)].
  - f_equal. destruct n as [sn|sn| |sn mn en], d as [sd|sd| |sd md ed]; cbn;
      rewrite ?xorb_negb_negb; reflexivity.
  - destruct d as [sd|sd| |sd md ed]; try discriminate.
    destruct n as [[]|[]| |[] mn en], t, sd; reflexivity.
  - destruct n as [sn|sn| |sn mn en]; try discriminate.
    destruct d as [[]|[]| |[] md ed], s, sn; reflexivity.
  - destruct d as [sd|sd| |sd md ed]; try discriminate.
    destruct n as [sn|sn| |sn mn en]; try discriminate.
    reflexivity.
Qed.

Lemma SF64sub_swap a b : sf_eqz (SF64sub b a) (SFopp (SF64sub a b)).
Proof.
  rewrite !SF64sub_add. eapply sf_eqz_trans; [|apply SF64add_opp].
  rewrite SFopp_involutive, SF64add_comm. apply sf_eqz_refl.
Qed.

Lemma SF64_numerator_s_t u v a b a' b' :
  sf_eqz a' (SFopp a) -> sf_eqz b' (SFopp b) ->
  sf_eqz (SF64add (SF64mul (SFopp v) a') (SF64mul u b'))
         (SFopp (SF64sub (SF64mul u b) (SF64mul v a))).
Proof.
  intros Ha Hb.
  apply sf_eqz_trans with (SF64add (SF64mul v a) (SFopp (SF64mul u b))).
  - apply SF64add_eqz.
    + apply sf_eqz_trans with (SF64mul (SFopp v) (SFopp a)).
      * apply SF64mul_eqz; [apply sf_eqz_refl|exact Ha].
      * rewrite SF64mul_opp_l, SF64mul_opp_r, SFopp_involutive. apply sf_eqz_refl.
    + rewrite <- SF64mul_opp_r. apply SF64mul_eqz; [apply sf_eqz_refl|exact Hb].
  - rewrite SF64sub_add. eapply sf_eqz_trans; [|apply SF64add_opp].
    rewrite SFopp_involutive, SF64add_comm. apply sf_eqz_refl.
Qed.

Lemma SF64_numerator_t_s u v a b a' b' :
  sf_eqz a' (SFopp a) -> sf_eqz b' (SFopp b) ->
  sf_eqz (SF64sub (SF64mul u b') (SF64mul v a'))
         (SFopp (SF64add (SF64mul (SFopp v) a) (SF64mul u b))).
Proof.
  intros Ha Hb.
  apply sf_eqz_trans with (SF64add (SFopp (SF64mul u b)) (SF64mul v a)).
  - rewrite SF64sub_add. apply SF64add_eqz.
    + rewrite <- SF64mul_opp_r. apply SF64mul_eqz; [apply sf_eqz_refl|exact Hb].
    + apply sf_eqz_trans with (SFopp (SF64mul v (SFopp a))).
      * apply sf_eqz_opp, SF64mul_eqz; [apply sf_eqz_refl|exact Ha].
      * rewrite SF64mul_opp_r, SFopp_involutive. apply sf_eqz_refl.
  - eapply sf_eqz_trans; [|apply SF64add_opp].
    rewrite SF64mul_opp_l, SFopp_involutive, SF64add_comm. apply sf_eqz_refl.
Qed.

Lemma SF64_denominator_swap u v u' v' :
  sf_eqz (SF64add (SF64mul (SFopp u) v') (SF64mul u' v))
         (SFopp (SF64add (SF64mul (SFopp u') v) (SF64mul u v'))).
Proof.
  eapply sf_eqz_trans; [|apply SF64add_opp].
  rewrite !SF64mul_opp_l, SFopp_involutive, SF64add_comm. apply sf_eqz_refl.
Qed.
Lemma in_unit_range_SF (a : number) :
  in_unit_range a = sf_in_unit_range (Prim2SF a).
Proof.
  unfold in_unit_range, sf_in_unit_range, ge, le.
  rewrite !FloatAxioms.leb_spec. reflexivity.
Qed.

End SignSymmetry.

(** Sum and product of two numbers do not depend on their order. *)
Lemma float_add_comm (a b : number) : (a + b = b + a)%float.
Proof. apply Prim2SF_inj. rewrite !add_spec. apply SF64add_comm. Qed.

Lemma float_mul_comm (a b : number) : (a * b = b * a)%float.
Proof. apply Prim2SF_inj. rewrite !mul_spec. apply SF64mul_comm. Qed.

(** *** Parallel segments *)

Section Parallel.

Lemma SFeqb_finite_eq s1 m1 e1 s2 m2 e2 :
  SFeqb (S754_finite s1 m1 e1) (S754_finite s2 m2 e2) = true ->
  s1 = s2 /\ m1 = m2 /\ e1 = e2.
Proof.
  unfold SFeqb, SFcompare.
  destruct s1, s2; try discriminate;
    destruct (Z.compare e1 e2) eqn:He; try discriminate;
    apply Z.compare_eq in He;
    destruct (Pos.compare_cont Eq m1 m2) eqn:Hm; try discriminate;
    apply Pos.compare_eq in Hm; auto.
Qed.

Lemma SF64add_opp_eqb a b :
  SFeqb b a = true ->
  SF64add (SFopp a) b = S754_nan \/ exists z, SF64add (SFopp a) b = S754_zero z.
Proof.
  destruct a as [sa|sa| |sa ma ea], b as [sb|sb| |sb mb eb]; intros Heq;
    try (exfalso; revert Heq; clear; unfold SFeqb; cbn;
         repeat match goal with
                | |- context [if ?c then _ else _] => destruct c
                end; discriminate).
  - right. destruct sa, sb; cbn; eauto.
  - destruct sa, sb; cbn in *; try discriminate; auto.
  - apply SFeqb_finite_eq in Heq as (-> & -> & ->). right. exists false.
    cbn [SFopp SF64add SFadd]. rewrite Z.min_id, cond_Zopp_negb, Z.add_opp_diag_l.
    reflexivity.
Qed.

Lemma div_nan_out_of_range (n d : number) :
  Prim2SF d = S754_nan -> in_unit_range (n / d) = false.
Proof.
  intros Hd. unfold in_unit_range, ge, le.
  rewrite !FloatAxioms.leb_spec, FloatAxioms.div_spec, Hd.
  destruct (Prim2SF n) as [[]|[]| |[] mn en]; reflexivity.
Qed.

Lemma parallel_denominator (line1 line2 : Line) :
  parallel line1 line2 = true ->
  Prim2SF (denominator line1 line2) = S754_nan \/
  is_zero (denominator line1 line2) = true.
Proof.
  unfold parallel, denominator. rewrite FloatAxioms.eqb_spec.
  rewrite add_spec, !mul_spec, opp_spec, SF64mul_opp_l. intros Heq.
  destruct (SF64add_opp_eqb _ _ Heq) as [Hn|[z Hz]]; [left; exact Hn|right].
  apply is_zero_spec. exists z. rewrite add_spec, !mul_spec, opp_spec, SF64mul_opp_l.
  exact Hz.
Qed.

Lemma parallel_no_intersection (line1 line2 : Line) :
  parallel line1 line2 = true -> line_intersects line1 line2 = false.
Proof.
  intros Hp. rewrite line_intersects_params.
  assert (Hs : in_unit_range (param_s line1 line2) = false).
  { unfold param_s. destruct (parallel_denominator line1 line2 Hp) as [Hn|Hz].
    - apply div_nan_out_of_range, Hn.
    - apply div_zero_out_of_range, Hz. }
  unfold in_unit_range in Hs. rewrite Hs. reflexivity.
Qed.

End Parallel.




Section PointInsideProofs.

Lemma index_lookup {A : Type} (arr : list A) (k : nat) (a : A) :
  arr !! k = Some a -> index arr (Z.of_nat k) = Ok a.
Proof.
  intros Hk. unfold index.
  destruct (Z.ltb_spec (Z.of_nat k) 0) as [Hneg|_]; [lia|].
  rewrite Nat2Z.id, Hk. reflexivity.
Qed.

Lemma isPointInside_loop (dp : list Point) (q : Point) (m k : nat) (b : bool) :
  k + m = length dp ->
  exists j',
    foldM (isPointInside_body dp q)
          (((Z.of_nat k - 1) mod Z.of_nat (length dp))%Z, b) (seq k m)
    = Ok (j',
          fold_left
            (fun inside i => if crosses_edge dp q i then negb inside else inside)
            (seq k m) b).
Proof.
  revert k b. induction m as [|m IH]; intros k b Hlen; cbn [seq foldM fold_left].
  - eauto.
  - assert (Hk : k < length dp) by lia.
    set (j := ((Z.of_nat k - 1) mod Z.of_nat (length dp))%Z).
    assert (Hj : (0 <= j < Z.of_nat (length dp))%Z)
      by (apply Z.mod_pos_bound; lia).
    destruct (lookup_lt_is_Some_2 dp k Hk) as [pk Hpk].
    destruct (lookup_lt_is_Some_2 dp (Z.to_nat j) ltac:(lia)) as [pj Hpj].
    unfold isPointInside_body at 1.
    rewrite (index_lookup _ _ _ Hpk). cbn [bind].
    assert (Hij : index dp j = Ok pj)
      by (rewrite <- (Z2Nat.id j) by lia; apply index_lookup, Hpj).
    rewrite Hij. cbn [bind].
    assert (Hedge : crosses_edge dp q k = intersect pk pj q).
    { unfold crosses_edge. cbv zeta. fold j. rewrite Hpk, Hpj. reflexivity. }
    rewrite Hedge.
    specialize (IH (S k) (if intersect pk pj q then negb b else b) ltac:(lia)).
    rewrite Z.mod_small in IH by lia.
    replace (Z.of_nat (S k) - 1)%Z with (Z.of_nat k) in IH by lia.
    exact IH.
Qed.

(** [isPointInside] never throws; its value is the flag of the spec. *)
Lemma isPointInside_value (dp : list Point) (q : Point) :
  isPointInside dp q = Ok (crossing_number_spec dp q).
Proof.
  unfold isPointInside, crossing_number_spec.
  destruct (isPointInside_loop dp q (length dp) 0 false eq_refl) as [j' Hloop].
  destruct dp as [|p0 dp].
  - reflexivity.
  - replace ((Z.of_nat 0 - 1) mod Z.of_nat (length (p0 :: dp)))%Z
      with (Z.of_nat (length (p0 :: dp)) - 1)%Z in Hloop.
    + rewrite Hloop. reflexivity.
    + apply Z.mod_unique with (q := (-1)%Z); cbn [length]; lia.
Qed.

(** A flag toggled at the elements that pass a test ends up as the parity
    of their number. *)
Lemma toggle_parity {A : Type} (t : A -> bool) (l : list A) (b : bool) :
  fold_left (fun inside a => if t a then negb inside else inside) l b
  = xorb b (Nat.odd (length (List.filter t l))).
Proof.
  revert b. induction l as [|a l IH]; intros b; cbn [fold_left List.filter].
  - cbn. destruct b; reflexivity.
  - rewrite IH. destruct (t a); [|reflexivity].
    cbn [length]. rewrite Nat.odd_succ, <- Nat.negb_odd.
    destruct b, (Nat.odd _); reflexivity.
Qed.

End PointInsideProofs.

(** C5. [isPointInside] is the crossing-number test over the closed loop of
    draw points: the edges are [(i, (i-1) mod n)], the flag is toggled
    exactly at the edges that pass the edge test, and the final flag is
    returned, so the answer is the parity of the number of such edges (and
    no call throws). *)
Theorem isPointInside_crossing_number (drawPoints : list Point) (point : Point) :
  isPointInside drawPoints point = Ok (crossing_number_spec drawPoints point) /\
  crossing_number_spec drawPoints point
  = Nat.odd (crossing_count drawPoints point).
Proof.
  split; [apply isPointInside_value|].
  unfold crossing_number_spec, crossing_count.
  rewrite toggle_parity. reflexivity.
Qed.

(** ** Symmetry of the segment test and of the polygon test *)

Section Symmetry.

Lemma line_intersects_ranges (line1 line2 : Line) :
  line_intersects line1 line2 =
  in_unit_range (param_s line1 line2) && in_unit_range (param_t line1 line2).
Proof.
  rewrite line_intersects_params. unfold in_unit_range.
  rewrite <- !andb_assoc. reflexivity.
Qed.

Lemma denominator_swap (line1 line2 : Line) :
  sf_eqz (Prim2SF (denominator line2 line1))
         (SFopp (Prim2SF (denominator line1 line2))).
Proof.
  unfold denominator. rewrite !add_spec, !mul_spec, !opp_spec.
  apply SF64_denominator_swap.
Qed.

Lemma param_s_swap (line1 line2 : Line) :
  in_unit_range (param_s line2 line1) = in_unit_range (param_t line1 line2).
Proof.
  rewrite !in_unit_range_SF. unfold param_s, param_t.
  rewrite !div_spec. apply SF64div_range; [|apply denominator_swap].
  rewrite add_spec, sub_spec, !mul_spec, opp_spec, !sub_spec.
  apply SF64_numerator_s_t; apply SF64sub_swap.
Qed.

Lemma param_t_swap (line1 line2 : Line) :
  in_unit_range (param_t line2 line1) = in_unit_range (param_s line1 line2).
Proof.
  rewrite !in_unit_range_SF. unfold param_s, param_t.
  rewrite !div_spec. apply SF64div_range; [|apply denominator_swap].
  rewrite add_spec, sub_spec, !mul_spec, opp_spec, !sub_spec.
  apply SF64_numerator_t_s; apply SF64sub_swap.
Qed.

(** The segment test does not depend on the order of the two segments. *)
Lemma line_intersects_sym (line1 line2 : Line) :
  line_intersects line1 line2 = line_intersects line2 line1.
Proof.
  rewrite !line_intersects_ranges.
  rewrite (param_s_swap line1 line2), (param_t_swap line1 line2).
  apply andb_comm.
Qed.

Lemma existsb_pointwise {A : Type} (f g : A -> bool) (l : list A) :
  (forall a, f a = g a) -> existsb f l = existsb g l.
Proof.
  intros Hfg. induction l as [|a l IH]; cbn; [reflexivity|].
  rewrite Hfg, IH. reflexivity.
Qed.

Lemma existsb_swap {A B : Type} (f : A -> B -> bool) (la : list A) (lb : list B) :
  existsb (fun a => existsb (f a) lb) la =
  existsb (fun b => existsb (fun a => f a b) la) lb.
Proof.
  apply eq_true_iff_eq. rewrite !existsb_exists. split.
  - intros (a & Ha & Hb). apply existsb_exists in Hb as (b & Hb & Hf).
    exists b. split; [exact Hb|]. apply existsb_exists. eauto.
  - intros (b & Hb & Ha). apply existsb_exists in Ha as (a & Ha & Hf).
    exists a. split; [exact Ha|]. apply existsb_exists. eauto.
Qed.

Lemma getLines_loop (dp : list Point) (m k : nat) (acc : list Line) :
  k + m = length dp ->
  foldM (fun lines i =>
           do p1 <- index dp (Z.of_nat i);
           do p2 <- index dp (Z.of_nat (S i) mod Z.of_nat (length dp))%Z;
           Ok (lines ++ [mkLine p1 p2]))
        acc (seq k m)
  = Ok (acc ++ map (fun i => mkLine (nth i dp Point_.zero)
                                    (nth (S i mod length dp) dp Point_.zero))
                   (seq k m)).
Proof.
  revert k acc. induction m as [|m IH]; intros k acc Hlen; cbn [seq foldM map].
  - rewrite app_nil_r. reflexivity.
  - assert (Hk : k < length dp) by lia.
    assert (Hn : S k mod length dp < length dp) by (apply Nat.mod_upper_bound; lia).
    destruct (lookup_lt_is_Some_2 dp k Hk) as [pk Hpk].
    destruct (lookup_lt_is_Some_2 dp _ Hn) as [pn Hpn].
    rewrite (index_lookup _ _ _ Hpk). cbn [bind].
    rewrite <- Nat2Z.inj_mod, (index_lookup _ _ _ Hpn). cbn [bind].
    rewrite IH by lia. rewrite <- app_assoc. cbn [app].
    rewrite (nth_lookup_Some _ _ _ _ Hpk), (nth_lookup_Some _ _ _ _ Hpn).
    reflexivity.
Qed.

(** [getLines] never throws and builds the edges of the closed loop. *)
Lemma getLines_edges (dp : list Point) : getLines dp = Ok (edges dp).
Proof. apply (getLines_loop dp (length dp) 0 []). reflexivity. Qed.

Lemma isIntersecting_edges (a b : list Point) :
  isIntersecting a b =
  Ok (existsb (fun l1 => existsb (line_intersects l1) (edges b)) (edges a)).
Proof. unfold isIntersecting. rewrite !getLines_edges. reflexivity. Qed.

End Symmetry.

(** C6. Edge intersection of two polygons is symmetric: on every pair of
    arrays of draw points, [A.isIntersecting(B)] and [B.isIntersecting(A)]
    return the same boolean. *)
Theorem isIntersecting_symmetric (a b : list Point) :
  isIntersecting a b = isIntersecting b a.
Proof.
  rewrite !isIntersecting_edges. f_equal.
  rewrite existsb_swap. apply existsb_pointwise. intros l2.
  apply existsb_pointwise. intros l1. apply line_intersects_sym.
Qed.

(** ** [isStable] *)

Section Stability.

Lemma everyM_forallb {A : Type} (test : A -> result bool) (f : A -> bool)
    (l : list A) :
  (forall a, a ∈ l -> test a = Ok (f a)) -> everyM test l = Ok (forallb f l).
Proof.
  induction l as [|a l IH]; intros Htest; cbn; [reflexivity|].
  rewrite (Htest a) by left. cbn.
  destruct (f a); [|reflexivity].
  apply IH. intros b Hb. apply Htest. right. exact Hb.
Qed.

Lemma forallb_elem_of {A : Type} (f : A -> bool) (l : list A) :
  forallb f l = true <-> forall a, a ∈ l -> f a = true.
Proof.
  rewrite forallb_forall. split; intros H a Ha; apply H;
    [apply list_elem_of_In|apply list_elem_of_In]; exact Ha.
Qed.

Lemma existsb_false_elem_of {A : Type} (f : A -> bool) (l : list A) :
  existsb f l = false <-> forall a, a ∈ l -> f a = false.
Proof.
  induction l as [|a l IH]; cbn.
  - split; [intros _ a Ha; inversion Ha|reflexivity].
  - rewrite orb_false_iff, IH. split.
    + intros [Ha Hl] b Hb. inversion Hb; subst; auto.
    + intros H. split; [apply H; left|intros b Hb; apply H; right; exact Hb].
Qed.

(** For a node whose parent and siblings are in the store no call of
    [isStable] throws, and the loops with their early returns amount to
    [stable_form]. *)
Lemma isStable_closed_form (h : store) (this p : loc) (s sp : Shape) :
  h !! this = Some s ->
  is_Canvas (type s) = false ->
  parent s = Some p ->
  h !! p = Some sp ->
  (forall c, c ∈ children sp -> is_Some (h !! c)) ->
  isStable h this = Ok (stable_form h this s sp).
Proof.
  intros Hthis Hty Hpar Hp Hch. unfold isStable, stable_form.
  cbn [deref]. rewrite Hthis. cbn [bind]. rewrite Hty, Hpar.
  cbn [deref]. rewrite Hp. cbn [bind].
  rewrite (everyM_forallb _ (crossing_number_spec (drawPoints sp))).
  2:{ intros pt _. cbn [bind]. apply isPointInside_value. }
  cbn [bind].
  destruct (forallb (crossing_number_spec (drawPoints sp)) (drawPoints s));
    cbn [negb andb]; [|reflexivity].
  apply everyM_forallb. intros c Hc.
  apply list_elem_of_filter in Hc as [_ Hc].
  destruct (Hch c Hc) as [sc Hsc]. unfold clear_of. rewrite Hsc. cbn [bind].
  rewrite (everyM_forallb _ (fun pt => negb (crossing_number_spec (drawPoints sc) pt))).
  2:{ intros pt _. rewrite isPointInside_value. reflexivity. }
  cbn [bind]. destruct (forallb _ (drawPoints s)); cbn [negb andb]; [|reflexivity].
  rewrite (everyM_forallb _ (fun pt => negb (crossing_number_spec (drawPoints s) pt))).
  2:{ intros pt _. rewrite isPointInside_value. reflexivity. }
  cbn [bind]. unfold getPoints.
  destruct (forallb _ (drawPoints sc)); cbn [negb andb]; [|reflexivity].
  rewrite isIntersecting_edges. reflexivity.
Qed.

Lemma isStable_Canvas (h : store) (this : loc) (s : Shape) :
  h !! this = Some s -> type s = Canvas -> isStable h this = Ok true.
Proof.
  intros Hthis Hty. unfold isStable. cbn [deref]. rewrite Hthis. cbn [bind].
  rewrite Hty. reflexivity.
Qed.

End Stability.

(** C1. For a node that is not the canvas, [isStable] returns true exactly
    when every draw point of the node is inside the parent polygon and, for
    every sibling, no draw point of the node is inside the sibling, no draw
    point of the sibling is inside the node and no edge of the node
    intersects an edge of the sibling; for the canvas it returns true. *)
Theorem isStable_iff (h : store) (this : loc) (s : Shape) :
  h !! this = Some s ->
  (type s = Canvas -> isStable h this = Ok true) /\
  (type s <> Canvas ->
   forall p sp,
     parent s = Some p -> h !! p = Some sp ->
     (forall c, c ∈ children sp -> is_Some (h !! c)) ->
     exists b, isStable h this = Ok b /\
               (b = true <-> contained_and_clear h this s sp)).
Proof.
  intros Hthis. split; [apply isStable_Canvas, Hthis|].
  intros Hty p sp Hpar Hp Hch.
  assert (Hty' : is_Canvas (type s) = false) by (destruct (type s); cbn; congruence).
  exists (stable_form h this s sp).
  split; [apply (isStable_closed_form h this p s sp); assumption|].
  unfold stable_form, contained_and_clear.
  rewrite andb_true_iff, !forallb_elem_of.
  split; intros [H1 H2]; split.
  - intros pt Hpt.
    rewrite isPointInside_value, (H1 pt Hpt). reflexivity.
  - intros c sc Hc Hne Hsc.
    assert (Hin : c ∈ filter (fun node => node <> this) (children sp))
      by (apply list_elem_of_filter; auto).
    specialize (H2 c Hin). unfold clear_of in H2. rewrite Hsc in H2.
    apply andb_true_iff in H2 as [H2 Hx]. apply andb_true_iff in H2 as [Ha Hb].
    rewrite forallb_elem_of in Ha, Hb. apply negb_true_iff in Hx.
    rewrite existsb_false_elem_of in Hx.
    split; [|split].
    + intros pt Hpt. rewrite isPointInside_value.
      f_equal. apply negb_true_iff, Ha, Hpt.
    + intros pt Hpt. rewrite isPointInside_value.
      f_equal. apply negb_true_iff, Hb, Hpt.
    + intros e1 e2 He1 He2. specialize (Hx e1 He1).
      rewrite existsb_false_elem_of in Hx. apply Hx, He2.
  - intros pt Hpt. specialize (H1 pt Hpt).
    rewrite isPointInside_value in H1. congruence.
  - intros c Hc. apply list_elem_of_filter in Hc as [Hne Hc].
    destruct (Hch c Hc) as [sc Hsc].
    destruct (H2 c sc Hc Hne Hsc) as (Ha & Hb & Hx).
    unfold clear_of. rewrite Hsc. rewrite !andb_true_iff, !forallb_elem_of.
    split; [split|].
    + intros pt Hpt. specialize (Ha pt Hpt).
      rewrite isPointInside_value in Ha.
      apply negb_true_iff. congruence.
    + intros pt Hpt. specialize (Hb pt Hpt).
      rewrite isPointInside_value in Hb.
      apply negb_true_iff. congruence.
    + apply negb_true_iff, existsb_false_elem_of. intros e1 He1.
      apply existsb_false_elem_of. intros e2 He2. apply Hx; assumption.
Qed.

Lemma isStable_iff_witness :
  exists b, isStable (heap example_state) 2 = Ok b /\
            (b = true <->
             contained_and_clear (heap example_state) 2
                                 example_rectangle example_canvas).
Proof.
  apply (proj2 (isStable_iff (heap example_state) 2 example_rectangle eq_refl))
    with (p := 0).
  - discriminate.
  - reflexivity.
  - reflexivity.
  - intros c Hc. apply list_elem_of_In in Hc. cbn in Hc.
    destruct Hc as [<-|[]]. eexists. reflexivity.
Defined.

(** C10. A node that is not the canvas and whose [drawPoints] is empty (no
    draw pass has resolved it) is reported stable whatever the geometry of
    its parent and siblings. *)
Theorem isStable_unresolved (h : store) (this p : loc) (s sp : Shape) :
  h !! this = Some s ->
  type s <> Canvas ->
  drawPoints s = [] ->
  parent s = Some p -> h !! p = Some sp ->
  (forall c, c ∈ children sp -> is_Some (h !! c)) ->
  isStable h this = Ok true.
Proof.
  intros Hthis Hty Hdp Hpar Hp Hch.
  assert (Hty' : is_Canvas (type s) = false) by (destruct (type s); cbn; congruence).
  rewrite (isStable_closed_form h this p s sp) by assumption.
  f_equal. unfold stable_form. rewrite Hdp. cbn [forallb andb].
  apply forallb_elem_of. intros c Hc.
  apply list_elem_of_filter in Hc as [_ Hc].
  destruct (Hch c Hc) as [sc Hsc]. unfold clear_of. rewrite Hsc, Hdp.
  cbn [forallb edges length seq map existsb negb andb].
  rewrite andb_true_r. apply forallb_elem_of. reflexivity.
Qed.

Lemma isStable_unresolved_witness :
  isStable example_unresolved_heap 3 = Ok true.
Proof.
  apply (isStable_unresolved example_unresolved_heap 3 0 example_unresolved
           (set_children [2; 3] example_canvas)).
  - reflexivity.
  - discriminate.
  - reflexivity.
  - reflexivity.
  - reflexivity.
  - intros c Hc. apply list_elem_of_In in Hc. cbn in Hc.
    destruct Hc as [<-|[<-|[]]]; eexists; reflexivity.
Defined.

(** ** [draw]: what it changes, and that it returns *)

Section Draw.
Variables (cos sin : number -> number).

Lemma foldM_invariant {A B : Type} (P : B -> Prop) (body : B -> A -> result B)
    (l : list A) (acc r : B) :
  P acc ->
  (forall b a b', a ∈ l -> P b -> body b a = Ok b' -> P b') ->
  foldM body acc l = Ok r -> P r.
Proof.
  revert acc. induction l as [|a l IH]; intros acc Hacc Hstep; cbn.
  - intros [= <-]. exact Hacc.
  - destruct (body acc a) as [b| |] eqn:Hb; cbn; try discriminate.
    apply IH.
    + apply (Hstep acc a b); [left|assumption..].
    + intros b0 a0 b' Ha0. apply Hstep. right. exact Ha0.
Qed.

Lemma foldM_total {A B : Type} (P : B -> Prop) (body : B -> A -> result B)
    (l : list A) (acc : B) :
  P acc ->
  (forall b a, a ∈ l -> P b -> exists b', body b a = Ok b' /\ P b') ->
  exists r, foldM body acc l = Ok r /\ P r.
Proof.
  revert acc. induction l as [|a l IH]; intros acc Hacc Hstep; cbn.
  - eauto.
  - destruct (Hstep acc a) as (b & Hb & HPb); [left|assumption|].
    rewrite Hb. cbn. apply IH; [exact HPb|].
    intros b0 a0 Ha0. apply Hstep. right. exact Ha0.
Qed.

Lemma erase_insert (h : store) (l : loc) (s : Shape) (dp : list Point) :
  h !! l = Some s -> erase (<[l := set_drawPoints dp s]> h) = erase h.
Proof.
  intros Hl. unfold erase. rewrite fmap_insert.
  apply insert_id. rewrite lookup_fmap, Hl. reflexivity.
Qed.

Lemma erase_lookup (h h' : store) (l : loc) (s : Shape) :
  erase h = erase h' -> h !! l = Some s ->
  exists dp, h' !! l = Some (set_drawPoints dp s).
Proof.
  intros He Hl.
  assert (Hl' : erase h' !! l = Some (set_drawPoints [] s))
    by (rewrite <- He; unfold erase; rewrite lookup_fmap, Hl; reflexivity).
  unfold erase in Hl'. rewrite lookup_fmap in Hl'.
  destruct (h' !! l) as [s'|]; [|discriminate].
  exists (drawPoints s'). f_equal.
  destruct s, s'; unfold set_drawPoints in *; cbn in *. congruence.
Qed.

(** The equation of [draw] at an object of the store. *)
Lemma draw_S (fuel : nat) (h : store) (this : loc) (s : Shape)
    (parentCenter : option Point) (parentTransform : option Transform) :
  h !! this = Some s ->
  draw cos sin (S fuel) h this parentCenter parentTransform =
  let pc := default (mkPoint 0 0) parentCenter in
  let pT := default (mkTransform Point_.zero 0 Point_.unit) parentTransform in
  let dps := map (drawPoint cos sin (transform s) pc pT) (points s) in
  let h1 := <[this := set_drawPoints dps s]> h in
  do stable <- isStable h1 this;
  do first <- index dps 0;
  foldM (fun h' child =>
           do s' <- deref h' (Some this);
           draw cos sin fuel h' child (Some (getCenter (drawPoints s')))
                (Some (absoluteTransform (transform s) pc pT)))
        h1 (children s).
Proof.
  intros Hthis. cbn [draw deref]. rewrite Hthis. cbn [bind].
  destruct (isStable _ this); cbn [bind]; try reflexivity.
  rewrite lookup_insert_eq. reflexivity.
Qed.

End Draw.

Section DrawProofs.
Variables (cos sin : number -> number).

Lemma draw_inv (fuel : nat) (h : store) (this : loc) (pc : option Point)
    (pT : option Transform) (h' : store) :
  draw cos sin fuel h this pc pT = Ok h' ->
  exists s, h !! this = Some s /\ exists fuel', fuel = S fuel'.
Proof.
  destruct fuel as [|fuel]; [discriminate|].
  cbn [draw deref]. destruct (h !! this) as [s|]; [eauto|discriminate].
Qed.

Lemma bind_Ok {A B : Type} (m : result A) (k : A -> result B) (b : B) :
  bind m k = Ok b -> exists a, m = Ok a /\ k a = Ok b.
Proof. destruct m; cbn; try discriminate. eauto. Qed.

Lemma draw_erase (fuel : nat) : forall h this pc pT h',
  draw cos sin fuel h this pc pT = Ok h' -> erase h' = erase h.
Proof.
  induction fuel as [|fuel IH]; intros h this pc pT h' Hd; [discriminate|].
  destruct (draw_inv _ _ _ _ _ _ Hd) as (s & Hthis & _).
  rewrite (draw_S _ _ _ _ _ s) in Hd by exact Hthis. cbv zeta in Hd.
  apply bind_Ok in Hd as (stable & _ & Hd).
  apply bind_Ok in Hd as (first & _ & Hd).
  refine (foldM_invariant (fun h0 => erase h0 = erase h) _ _ _ _ _ _ Hd).
  - apply erase_insert, Hthis.
  - intros b a b' _ Hb Hbody. apply bind_Ok in Hbody as (s' & _ & Hbody).
    rewrite (IH _ _ _ _ _ Hbody). exact Hb.
Qed.

Lemma tree_ok_erase (rank : loc -> nat) (h h' : store) :
  erase h = erase h' -> tree_ok rank h -> tree_ok rank h'.
Proof.
  intros He Hok l s' Hl'.
  destruct (erase_lookup h' h l s' (eq_sym He) Hl') as [dp Hl].
  destruct (Hok l _ Hl) as (Hpts & Hch & Hpar). cbn in Hpts, Hch, Hpar.
  split; [exact Hpts|split].
  - intros c Hc. destruct (Hch c Hc) as (Hr & sc & Hsc & Hp).
    split; [exact Hr|].
    destruct (erase_lookup h h' c sc He Hsc) as [dpc Hc'].
    exists (set_drawPoints dpc sc). split; [exact Hc'|exact Hp].
  - intros Hty. destruct (Hpar Hty) as (p & Hp & sp & Hsp).
    exists p. split; [exact Hp|].
    destruct (erase_lookup h h' p sp He Hsp) as [dpp Hp'].
    eexists. exact Hp'.
Qed.

Lemma desc_erase (h h' : store) (a m : loc) :
  erase h = erase h' -> desc h a m -> desc h' a m.
Proof.
  intros He Hd. induction Hd as [a|a s c m Ha Hc _ IH].
  - apply desc_refl.
  - destruct (erase_lookup h h' a s He Ha) as [dp Ha'].
    apply (desc_child h' a _ c m Ha'); [exact Hc|exact IH].
Qed.

Lemma desc_rank (rank : loc -> nat) (h : store) (a m : loc) :
  tree_ok rank h -> desc h a m -> rank m <= rank a.
Proof.
  intros Hok Hd. induction Hd as [a|a s c m Ha Hc _ IH]; [lia|].
  destruct (Hok a s Ha) as (_ & Hch & _). destruct (Hch c Hc) as [Hr _]. lia.
Qed.

Lemma desc_parent (rank : loc -> nat) (h : store) (a m : loc) :
  tree_ok rank h -> desc h a m -> m <> a ->
  exists sm p, h !! m = Some sm /\ parent sm = Some p /\ desc h a p.
Proof.
  intros Hok Hd. induction Hd as [a|a s c m Ha Hc Hd IH]; intros Hne.
  - congruence.
  - destruct (decide (m = c)) as [->|Hmc].
    + destruct (Hok a s Ha) as (_ & Hch & _).
      destruct (Hch c Hc) as (_ & sc & Hsc & Hp).
      exists sc, a. split; [exact Hsc|split; [exact Hp|apply desc_refl]].
    + destruct (IH Hmc) as (sm & p & Hm & Hp & Hdp).
      exists sm, p. split; [exact Hm|split; [exact Hp|]].
      apply (desc_child h a s c p Ha Hc Hdp).
Qed.

Lemma child_not_above (rank : loc -> nat) (h : store) (t c : loc) (s : Shape) :
  tree_ok rank h -> h !! t = Some s -> c ∈ children s -> ~ desc h c t.
Proof.
  intros Hok Ht Hc Hd. pose proof (desc_rank rank h c t Hok Hd) as Hr.
  destruct (Hok t s Ht) as (_ & Hch & _). destruct (Hch c Hc) as [Hlt _]. lia.
Qed.

Lemma siblings_apart (rank : loc -> nat) (h : store) (t c c' : loc) (s : Shape) :
  tree_ok rank h -> h !! t = Some s -> c ∈ children s -> c' ∈ children s ->
  c <> c' -> ~ desc h c' c.
Proof.
  intros Hok Ht Hc Hc' Hne Hd.
  destruct (desc_parent rank h c' c Hok Hd Hne) as (sm & p & Hm & Hp & Hdp).
  destruct (Hok t s Ht) as (_ & Hch & _).
  destruct (Hch c Hc) as (_ & sc & Hsc & Hpc).
  assert (p = t) by congruence. subst p.
  apply (child_not_above rank h t c' s Hok Ht Hc' Hdp).
Qed.

Lemma isStable_total (rank : loc -> nat) (h : store) (this : loc) :
  tree_ok rank h -> is_Some (h !! this) -> exists b, isStable h this = Ok b.
Proof.
  intros Hok [s Hthis]. destruct (Hok this s Hthis) as (_ & _ & Hpar).
  destruct (type s) eqn:Hty.
  1: { exists true. apply (isStable_Canvas h this s Hthis Hty). }
  all: destruct Hpar as (p & Hp & sp & Hsp); [discriminate|];
    exists (stable_form h this s sp);
    apply (isStable_closed_form h this p s sp); try assumption;
    [rewrite Hty; reflexivity|];
    intros c Hc; destruct (Hok p sp Hsp) as (_ & Hch & _);
    destruct (Hch c Hc) as (_ & sc & Hsc & _); eexists; exact Hsc.
Qed.

Lemma draw_total (rank : loc -> nat) (fuel : nat) : forall h this pc pT,
  tree_ok rank h -> is_Some (h !! this) -> rank this < fuel ->
  exists h', draw cos sin fuel h this pc pT = Ok h'.
Proof.
  induction fuel as [|fuel IH]; intros h this pc pT Hok [s Hthis] Hr; [lia|].
  rewrite (draw_S _ _ _ _ _ s) by exact Hthis. cbv zeta.
  set (dps := map _ (points s)).
  assert (He : erase (<[this := set_drawPoints dps s]> h) = erase h)
    by (apply erase_insert, Hthis).
  assert (Hok1 := tree_ok_erase rank _ _ (eq_sym He) Hok).
  destruct (isStable_total rank _ this Hok1) as [b ->];
    [rewrite lookup_insert_eq; eauto|].
  cbn [bind].
  destruct (Hok this s Hthis) as (Hpts & Hch & _).
  assert (Hidx : exists first, index dps 0 = Ok first).
  { subst dps. destruct (points s); [congruence|]. eexists. reflexivity. }
  destruct Hidx as [first ->]. cbn [bind].
  destruct (foldM_total (fun h0 => erase h0 = erase h)
    (fun h' child =>
       do s' <- deref h' (Some this);
       draw cos sin fuel h' child (Some (getCenter (drawPoints s')))
         (Some (absoluteTransform (transform s)
                  (default (mkPoint 0 0) pc)
                  (default (mkTransform Point_.zero 0 Point_.unit) pT))))
    (children s) _ He) as (r & Hr' & _); [|eauto].
  intros b0 c Hc Hb0.
  destruct (erase_lookup h b0 this s (eq_sym Hb0) Hthis) as [dp Hthis'].
  cbn [deref]. rewrite Hthis'. cbn [bind].
  destruct (Hch c Hc) as (Hlt & sc & Hsc & _).
  destruct (erase_lookup h b0 c sc (eq_sym Hb0) Hsc) as [dpc Hc'].
  destruct (IH b0 c (Some (getCenter (drawPoints (set_drawPoints dp s))))
    (Some (absoluteTransform (transform s)
                  (default (mkPoint 0 0) pc)
                  (default (mkTransform Point_.zero 0 Point_.unit) pT))))
    as [b' Hb']; [apply (tree_ok_erase rank h); auto|eauto|lia|].
  exists b'. split; [exact Hb'|]. rewrite (draw_erase _ _ _ _ _ _ Hb'). exact Hb0.
Qed.

(** [draw] leaves alone whatever is not below the drawn node. *)
Lemma draw_outside (fuel : nat) : forall h this pc pT h',
  draw cos sin fuel h this pc pT = Ok h' ->
  forall m, ~ desc h this m -> h' !! m = h !! m.
Proof.
  induction fuel as [|fuel IH]; intros h this pc pT h' Hd; [discriminate|].
  destruct (draw_inv _ _ _ _ _ _ Hd) as (s & Hthis & _).
  rewrite (draw_S _ _ _ _ _ s) in Hd by exact Hthis. cbv zeta in Hd.
  apply bind_Ok in Hd as (stable & _ & Hd).
  apply bind_Ok in Hd as (first & _ & Hd).
  refine (proj2 (foldM_invariant
    (fun h0 => erase h0 = erase h /\
               forall m, ~ desc h this m -> h0 !! m = h !! m) _ _ _ _ _ _ Hd)).
  - split; [apply erase_insert, Hthis|].
    intros m Hm. apply lookup_insert_ne. intros <-. apply Hm, desc_refl.
  - intros b c b' Hc [Hb Hout] Hbody.
    apply bind_Ok in Hbody as (s' & _ & Hbody).
    split; [rewrite (draw_erase _ _ _ _ _ _ Hbody); exact Hb|].
    intros m Hm. rewrite <- (Hout m Hm).
    apply (IH _ _ _ _ _ Hbody). intros Hdm. apply Hm.
    apply (desc_child h this s c m Hthis Hc).
    apply (desc_erase b h); [exact Hb|exact Hdm].
Qed.

(** After [draw] the drawn node holds the points mapped from its local
    points: the draws of its children do not touch it. *)
Lemma draw_own (rank : loc -> nat) (fuel : nat) (h : store) (this : loc)
    (s : Shape) (pc : option Point) (pT : option Transform) (h' : store) :
  tree_ok rank h -> h !! this = Some s ->
  draw cos sin fuel h this pc pT = Ok h' ->
  h' !! this =
  Some (set_drawPoints
          (map (drawPoint cos sin (transform s) (default (mkPoint 0 0) pc)
                          (default (mkTransform Point_.zero 0 Point_.unit) pT))
               (points s)) s).
Proof.
  intros Hok Hthis Hd. destruct fuel as [|fuel]; [discriminate|].
  rewrite (draw_S _ _ _ _ _ s) in Hd by exact Hthis. cbv zeta in Hd.
  apply bind_Ok in Hd as (stable & _ & Hd).
  apply bind_Ok in Hd as (first & _ & Hd).
  set (dps := map _ (points s)) in *.
  refine (proj2 (foldM_invariant
    (fun h0 => erase h0 = erase h /\
               h0 !! this = Some (set_drawPoints dps s)) _ _ _ _ _ _ Hd)).
  - split; [apply erase_insert, Hthis|apply lookup_insert_eq].
  - intros b c b' Hc [Hb Hown] Hbody.
    apply bind_Ok in Hbody as (s' & _ & Hbody).
    split; [rewrite (draw_erase _ _ _ _ _ _ Hbody); exact Hb|].
    rewrite <- Hown. apply (draw_outside _ _ _ _ _ _ Hbody).
    apply (child_not_above rank b this c (set_drawPoints dps s));
      [apply (tree_ok_erase rank h); auto|exact Hown|exact Hc].
Qed.

Lemma foldM_cons_Ok {A B : Type} (body : B -> A -> result B) (acc r : B)
    (a : A) (l : list A) :
  foldM body acc (a :: l) = Ok r ->
  exists b, body acc a = Ok b /\ foldM body b l = Ok r.
Proof. cbn. apply bind_Ok. Qed.

(** The loop over the children: each child ends up drawn around the
    centroid of the parent's draw points. *)
Lemma draw_children (rank : loc -> nat) (fuel : nat) (h : store) (this : loc)
    (s : Shape) (dps : list Point) (absT : Transform) :
  tree_ok rank h -> h !! this = Some s ->
  forall (l : list loc) (h1 h' : store),
    erase h1 = erase h ->
    h1 !! this = Some (set_drawPoints dps s) ->
    (forall c, c ∈ l -> c ∈ children s) ->
    foldM (fun h0 child =>
             do s' <- deref h0 (Some this);
             draw cos sin fuel h0 child (Some (getCenter (drawPoints s')))
                  (Some absT))
          h1 l = Ok h' ->
    erase h' = erase h /\
    (forall m, (forall c, c ∈ l -> ~ desc h c m) -> h' !! m = h1 !! m) /\
    (forall c sc, c ∈ l -> h !! c = Some sc ->
       h' !! c = Some (set_drawPoints
                         (map (drawPoint cos sin (transform sc) (getCenter dps) absT)
                              (points sc)) sc)).
Proof.
  intros Hok Hthis l. induction l as [|c l IH]; intros h1 h' He Hown Hl Hf.
  - injection Hf as <-. split; [exact He|split; [reflexivity|]].
    intros c sc Hc. inversion Hc.
  - apply foldM_cons_Ok in Hf as (h2 & Hbody & Hf).
    cbn [deref] in Hbody. rewrite Hown in Hbody. cbn [bind] in Hbody.
    change (drawPoints (set_drawPoints dps s)) with dps in Hbody.
    assert (Hok1 : tree_ok rank h1) by (apply (tree_ok_erase rank h); auto).
    assert (Hc : c ∈ children s) by (apply Hl; left).
    assert (He2 : erase h2 = erase h)
      by (rewrite (draw_erase _ _ _ _ _ _ Hbody); exact He).
    assert (Hout : forall m, ~ desc h c m -> h2 !! m = h1 !! m).
    { intros m Hm. apply (draw_outside _ _ _ _ _ _ Hbody).
      intros Hd. apply Hm. apply (desc_erase h1 h); assumption. }
    assert (Hown2 : h2 !! this = Some (set_drawPoints dps s)).
    { rewrite <- Hown. apply Hout.
      apply (child_not_above rank h this c s); assumption. }
    destruct (IH h2 h' He2 Hown2 (fun c0 Hc0 => Hl c0 (list_elem_of_further _ _ _ Hc0)) Hf)
      as (He' & Hframe & Hkids).
    split; [exact He'|split].
    + intros m Hm. rewrite Hframe.
      * apply Hout, Hm. left.
      * intros c0 Hc0. apply Hm. right. exact Hc0.
    + intros c0 sc Hc0 Hsc.
      destruct (decide (c0 ∈ l)) as [Hin|Hnin]; [apply Hkids; assumption|].
      apply elem_of_cons in Hc0 as [->|Hc0]; [|contradiction].
      rewrite Hframe.
      * destruct (erase_lookup h h1 c sc (eq_sym He) Hsc) as [dpc Hc1].
        rewrite (draw_own rank _ _ _ _ _ _ _ Hok1 Hc1 Hbody). reflexivity.
      * intros c' Hc'. apply (siblings_apart rank h this c c' s); auto.
        -- apply Hl. right. exact Hc'.
        -- intros ->. contradiction.
Qed.

End DrawProofs.

Lemma tree_okb_correct (rank : loc -> nat) (h : store) :
  tree_okb rank h = true -> tree_ok rank h.
Proof.
  unfold tree_okb. rewrite forallb_elem_of. intros Hall l s Hl.
  specialize (Hall (l, s) ltac:(apply elem_of_map_to_list; exact Hl)).
  unfold node_okb in Hall. cbn [fst snd] in Hall.
  apply andb_true_iff in Hall as [Hall Hpar].
  apply andb_true_iff in Hall as [Hpts Hch].
  split; [destruct (points s); [discriminate|congruence]|split].
  - intros c Hc. rewrite forallb_elem_of in Hch. specialize (Hch c Hc).
    apply andb_true_iff in Hch as [Hr Hsc]. apply Nat.ltb_lt in Hr.
    split; [exact Hr|]. destruct (h !! c) as [sc|]; [|discriminate].
    exists sc. split; [reflexivity|]. apply bool_decide_eq_true in Hsc. exact Hsc.
  - intros Hty. apply orb_true_iff in Hpar as [Hcv|Hpar].
    + destruct (type s); cbn in Hcv; congruence.
    + destruct (parent s) as [p|]; [|discriminate].
      exists p. split; [reflexivity|]. apply bool_decide_eq_true in Hpar. exact Hpar.
Qed.

(** *** The whole subtree is resolved *)

Section ResolvedProofs.
Variables (cos sin : number -> number).

Lemma desc_comparable (rank : loc -> nat) (h : store) (a m : loc) :
  tree_ok rank h -> desc h a m ->
  forall b, desc h b m -> desc h a b \/ desc h b a.
Proof.
  intros Hok Hd. induction Hd as [a|a s c m Ha Hc Hd IH]; intros b Hb.
  - right. exact Hb.
  - destruct (IH b Hb) as [Hcb|Hbc].
    + left. apply (desc_child h a s c b Ha Hc Hcb).
    + destruct (decide (c = b)) as [<-|Hne].
      * left. apply (desc_child h a s c c Ha Hc). apply desc_refl.
      * right. destruct (desc_parent rank h b c Hok Hbc Hne) as (sc & p & Hsc & Hp & Hdp).
        destruct (Hok a s Ha) as (_ & Hch & _).
        destruct (Hch c Hc) as (_ & sc' & Hsc' & Hp').
        assert (p = a) by congruence. subst p. exact Hdp.
Qed.

Lemma subtrees_apart (rank : loc -> nat) (h : store) (t c c' m : loc) (s : Shape) :
  tree_ok rank h -> h !! t = Some s -> c ∈ children s -> c' ∈ children s ->
  c <> c' -> desc h c m -> ~ desc h c' m.
Proof.
  intros Hok Ht Hc Hc' Hne Hd Hd'.
  destruct (desc_comparable rank h c m Hok Hd c' Hd') as [H|H].
  - apply (siblings_apart rank h t c' c s Hok Ht Hc' Hc); [congruence|exact H].
  - apply (siblings_apart rank h t c c' s Hok Ht Hc Hc' Hne H).
Qed.

Lemma resolved_frame (h h' : store) (l : loc) (pc : Point) (rot : number)
    (sc : Point) :
  resolved cos sin h l pc rot sc ->
  (forall m, desc h l m -> h' !! m = h !! m) ->
  resolved cos sin h' l pc rot sc.
Proof.
  intros Hr. induction Hr as [l s pc rot sc Hl Hdp _ IH]. intros Hsame.
  apply (resolved_node cos sin h' l s).
  - rewrite (Hsame l (desc_refl h l)). exact Hl.
  - exact Hdp.
  - intros c Hc. apply (IH c Hc). intros m Hm. apply Hsame.
    apply (desc_child h l s c m Hl Hc Hm).
Qed.

Lemma draw_children_resolved (rank : loc -> nat) (fuel : nat) (h : store)
    (this : loc) (s : Shape) (dps : list Point) (absT : Transform) :
  tree_ok rank h -> h !! this = Some s ->
  (forall h1 c, tree_ok rank h1 -> is_Some (h1 !! c) -> c ∈ children s ->
     exists h2, draw cos sin fuel h1 c (Some (getCenter dps)) (Some absT) = Ok h2 /\
                resolved cos sin h2 c (getCenter dps) (rotation absT) (scale absT)) ->
  forall (l : list loc) (h1 h' : store),
    erase h1 = erase h ->
    h1 !! this = Some (set_drawPoints dps s) ->
    (forall c, c ∈ l -> c ∈ children s) ->
    foldM (fun h0 child =>
             do s' <- deref h0 (Some this);
             draw cos sin fuel h0 child (Some (getCenter (drawPoints s')))
                  (Some absT))
          h1 l = Ok h' ->
    forall c, c ∈ l -> resolved cos sin h' c (getCenter dps) (rotation absT) (scale absT).
Proof.
  intros Hok Hthis Hdraw l. induction l as [|c l IH]; intros h1 h' He Hown Hl Hf c0 Hc0.
  - inversion Hc0.
  - pose proof Hf as Hf0.
    apply foldM_cons_Ok in Hf as (h2 & Hbody & Hf).
    cbn [deref] in Hbody. rewrite Hown in Hbody. cbn [bind] in Hbody.
    change (drawPoints (set_drawPoints dps s)) with dps in Hbody.
    assert (Hok1 : tree_ok rank h1) by (apply (tree_ok_erase rank h); auto).
    assert (Hc : c ∈ children s) by (apply Hl; left).
    assert (He2 : erase h2 = erase h)
      by (rewrite (draw_erase cos sin _ _ _ _ _ _ Hbody); exact He).
    assert (Hown2 : h2 !! this = Some (set_drawPoints dps s)).
    { rewrite <- Hown. apply (draw_outside cos sin _ _ _ _ _ _ Hbody).
      apply (child_not_above rank h1 this c (set_drawPoints dps s)); assumption. }
    destruct (decide (c0 ∈ l)) as [Hin|Hnin].
    { apply (IH h2 h' He2 Hown2
               (fun c1 Hc1 => Hl c1 (list_elem_of_further _ _ _ Hc1)) Hf c0 Hin). }
    apply elem_of_cons in Hc0 as [->|Hc0]; [|contradiction].
    destruct (Hok this s Hthis) as (_ & Hch & _).
    destruct (Hch c Hc) as (_ & sc & Hsc & _).
    destruct (erase_lookup h h1 c sc (eq_sym He) Hsc) as [dpc Hc1].
    destruct (Hdraw h1 c Hok1 ltac:(eauto) Hc) as (h2' & Hd2 & Hres).
    assert (h2' = h2) by congruence. subst h2'.
    destruct (draw_children cos sin rank fuel h this s dps absT Hok Hthis l h2 h'
                He2 Hown2 (fun c1 Hc1 => Hl c1 (list_elem_of_further _ _ _ Hc1)) Hf)
      as (_ & Hframe & _).
    apply (resolved_frame h2 h' c _ _ _ Hres).
    intros m Hm. apply Hframe. intros c' Hc'.
    apply (subtrees_apart rank h this c c' m s Hok Hthis Hc);
      [apply Hl; right; exact Hc'|intros ->; contradiction|].
    apply (desc_erase h2 h); [exact He2|exact Hm].
Qed.

Lemma draw_resolved (rank : loc -> nat) (fuel : nat) : forall h this pc pT,
  tree_ok rank h -> is_Some (h !! this) -> rank this < fuel ->
  exists h', draw cos sin fuel h this (Some pc) (Some pT) = Ok h' /\
             resolved cos sin h' this pc (rotation pT) (scale pT).
Proof.
  induction fuel as [|fuel IH]; intros h this pc pT Hok [s Hthis] Hr; [lia|].
  destruct (draw_total cos sin rank (S fuel) h this (Some pc) (Some pT)
              Hok ltac:(eauto) Hr) as [h' Hd].
  exists h'. split; [exact Hd|].
  pose proof (draw_own cos sin rank _ _ _ _ _ _ _ Hok Hthis Hd) as Hown.
  cbn [default] in Hown.
  rewrite (draw_S _ _ _ _ _ s) in Hd by exact Hthis. cbv zeta in Hd.
  apply bind_Ok in Hd as (stable & _ & Hd).
  apply bind_Ok in Hd as (first & _ & Hd). cbn [default] in Hd.
  apply (resolved_node cos sin h' this _ pc (rotation pT) (scale pT) Hown); [reflexivity|].
  cbn [children drawPoints transform set_drawPoints].
  intros c Hc.
  refine (draw_children_resolved rank fuel h this s _ _ Hok Hthis _ _ _ _
            (erase_insert _ _ _ _ Hthis) (lookup_insert_eq _ _ _)
            (fun c0 Hc0 => Hc0) Hd c Hc).
  intros h1 c1 Hok1 Hc1 Hin. apply IH; [exact Hok1|exact Hc1|].
  destruct (Hok this s Hthis) as (_ & Hch & _).
  destruct (Hch c1 Hin) as [Hlt _]. lia.
Qed.

End ResolvedProofs.

(** *** The code against the words of the spec *)

Section AgainstSpec.
Variables (cos sin : number -> number).

(** [rotateAround] is the rotation of the spec. *)
Lemma rotateAround_rotate_spec (p center : Point) (angle : number) :
  rotateAround cos sin p center angle = rotate_spec cos sin center angle p.
Proof.
  unfold rotateAround, rotate_spec. cbv zeta.
  rewrite (float_mul_comm (PI / 180) angle).
  set (theta := (angle * (PI / 180))%float).
  rewrite (float_mul_comm (cos theta) (x p - x center)),
          (float_mul_comm (sin theta) (y p - y center)),
          (float_mul_comm (cos theta) (y p - y center)),
          (float_mul_comm (sin theta) (x p - x center)).
  rewrite (float_add_comm _ (x center)), (float_add_comm _ (y center)).
  reflexivity.
Qed.

Lemma getCenter_loop (n : number) (pts : list Point) : forall acc,
  fold_left (fun prev curr => mkPoint (x prev + x curr / n) (y prev + y curr / n)%float)
            pts acc
  = mkPoint (fold_left (fun a v => (a + v)%float) (map (fun p => (x p / n)%float) pts)
                       (x acc))
            (fold_left (fun a v => (a + v)%float) (map (fun p => (y p / n)%float) pts)
                       (y acc)).
Proof.
  induction pts as [|p pts IH]; intros acc; cbn [fold_left map].
  - destruct acc; reflexivity.
  - rewrite IH. reflexivity.
Qed.

(** [getCenter] is the centroid of the spec. *)
Lemma getCenter_centroid_spec (pts : list Point) : getCenter pts = centroid_spec pts.
Proof. unfold getCenter, centroid_spec, sum_spec. apply getCenter_loop. Qed.

Lemma resolve_spec_point_spec (T : Transform) (pc : Point) (rot : number)
    (sc p : Point) :
  resolve_spec cos sin T pc rot sc p = resolve_point_spec cos sin T pc rot sc p.
Proof.
  unfold resolve_spec, resolve_point_spec. cbv zeta.
  rewrite !rotateAround_rotate_spec. reflexivity.
Qed.

Lemma resolve_spec_points (T : Transform) (pc : Point) (rot : number)
    (sc : Point) (pts : list Point) :
  map (resolve_spec cos sin T pc rot sc) pts
  = map (resolve_point_spec cos sin T pc rot sc) pts.
Proof. apply map_ext. intros p. apply resolve_spec_point_spec. Qed.

Lemma resolved_resolved_spec (h : store) (l : loc) (pc : Point) (rot : number)
    (sc : Point) :
  resolved cos sin h l pc rot sc -> resolved_spec cos sin h l pc rot sc.
Proof.
  induction 1 as [l s pc rot sc Hl Hdp _ IH].
  apply (resolved_spec_node cos sin h l s pc rot sc Hl).
  - rewrite Hdp. apply resolve_spec_points.
  - intros c Hc. rewrite <- getCenter_centroid_spec. apply IH, Hc.
Qed.

End AgainstSpec.

(** C2. In a store made of trees, [draw] returns; it leaves the node with
    the points the spec prescribes: [parentCenter + T.position + p *
    combinedScale] with [combinedScale = parentT.scale * T.scale], rotated
    about [parentCenter + T.position] by [T.rotation], then about
    [parentCenter] by [parentT.rotation], the rotation being the one of
    section 4.1 ([rotate_spec]).  Each child is resolved in the same way
    about the centroid of the node's own draw points ([centroid_spec]; not
    about the node's transform position), with the summed rotation and
    the multiplied scale, and so on for every node below
    ([resolved_spec]).  Of [parentT] only the rotation and the scale are
    read. *)
Theorem draw_resolves_points (cos sin : number -> number) (rank : loc -> nat)
    (fuel : nat) (h : store) (this : loc) (s : Shape)
    (parentCenter : Point) (parentT : Transform) :
  tree_ok rank h -> h !! this = Some s -> rank this < fuel ->
  let T := transform s in
  let dps := map (resolve_point_spec cos sin T parentCenter
                                     (rotation parentT) (scale parentT)) (points s) in
  let childRotation := (rotation parentT + rotation T)%float in
  let childScale := vmul (scale parentT) (scale T) in
  exists h',
    draw cos sin fuel h this (Some parentCenter) (Some parentT) = Ok h' /\
    h' !! this = Some (set_drawPoints dps s) /\
    (forall c sc, c ∈ children s -> h !! c = Some sc ->
       h' !! c = Some (set_drawPoints
                         (map (resolve_point_spec cos sin (transform sc)
                                                  (centroid_spec dps)
                                                  childRotation childScale)
                              (points sc)) sc)) /\
    resolved_spec cos sin h' this parentCenter (rotation parentT) (scale parentT).
Proof.
  intros Hok Hthis Hr T dps childRotation childScale.
  destruct (draw_resolved cos sin rank fuel h this parentCenter parentT
              Hok ltac:(eauto) Hr) as (h' & Hd & Hres).
  exists h'. split; [exact Hd|].
  assert (Hdps : map (resolve_spec cos sin T parentCenter
                                   (rotation parentT) (scale parentT)) (points s) = dps)
    by apply resolve_spec_points.
  split.
  { rewrite <- Hdps. apply (draw_own cos sin rank _ _ _ _ _ _ _ Hok Hthis Hd). }
  split; [|apply resolved_resolved_spec, Hres].
  destruct fuel as [|fuel]; [discriminate|].
  rewrite (draw_S _ _ _ _ _ s) in Hd by exact Hthis. cbv zeta in Hd.
  apply bind_Ok in Hd as (stable & _ & Hd).
  apply bind_Ok in Hd as (first & _ & Hd). cbn [default] in Hd.
  destruct (draw_children cos sin rank fuel h this s _ _ Hok Hthis _ _ _
              (erase_insert _ _ _ _ Hthis) (lookup_insert_eq _ _ _)
              (fun c Hc => Hc) Hd) as (_ & _ & Hkids).
  assert (Hold : forall c sc, c ∈ children s -> h !! c = Some sc ->
            h' !! c = Some (set_drawPoints
                              (map (resolve_spec cos sin (transform sc)
                                      (getCenter
                                         (map (resolve_spec cos sin T parentCenter
                                                 (rotation parentT) (scale parentT))
                                              (points s)))
                                      childRotation childScale)
                                   (points sc)) sc))
    by exact Hkids.
  intros c sc Hc Hsc. rewrite (Hold c sc Hc Hsc), Hdps.
  rewrite getCenter_centroid_spec, resolve_spec_points. reflexivity.
Qed.

Lemma draw_resolves_points_witness :
  exists h',
    draw cos_poly sin_poly 3 (heap example_state) 0
         (Some Point_.zero) (Some Transform_.default) = Ok h' /\
    h' !! 0 = Some (set_drawPoints
                      (map (resolve_point_spec cos_poly sin_poly
                              (transform example_canvas) Point_.zero 0 Point_.unit)
                           (points example_canvas)) example_canvas) /\
    h' !! 2 = Some (set_drawPoints
                      (map (resolve_point_spec cos_poly sin_poly
                              (transform example_rectangle) (mkPoint 320 240)
                              0 Point_.unit)
                           (points example_rectangle)) example_rectangle) /\
    position (transform example_rectangle) = mkPoint 0 0 /\
    resolved_spec cos_poly sin_poly h' 0 Point_.zero 0 Point_.unit.
Proof.
  destruct (draw_resolves_points cos_poly sin_poly example_rank 3
              (heap example_state) 0 example_canvas Point_.zero Transform_.default)
    as (h' & Hd & Hown & Hkids & Hres).
  - apply tree_okb_correct. vm_compute. reflexivity.
  - reflexivity.
  - vm_compute. lia.
  - exists h'. split; [exact Hd|]. split; [exact Hown|].
    split; [|split; [reflexivity|exact Hres]].
    rewrite (Hkids 2 example_rectangle); [vm_compute; reflexivity| |reflexivity].
    vm_compute. apply list_elem_of_singleton. reflexivity.
Defined.

(** ** The lengths of [points] and [drawPoints] *)

Section Lengths.
Variables (cos sin : number -> number).

Lemma Circle_loop_length (n : nat) : forall radius rotationAngle angle pts,
  length (Circle_loop cos sin n radius rotationAngle angle pts) = n + length pts.
Proof.
  induction n as [|n IH]; intros radius rotationAngle angle pts; cbn [Circle_loop].
  - reflexivity.
  - rewrite IH, length_app. cbn [length]. lia.
Qed.

Lemma buildFromParams_lengths (p : option loc) (T : Transform) (params : Params) :
  3 <= length (points (buildFromParams cos sin p T params)) /\
  drawPoints (buildFromParams cos sin p T params) = [].
Proof.
  destruct params; cbn [buildFromParams new_Rectangle new_Circle new_Triangle
                        new_NGon points drawPoints Rectangle_points length].
  - split; [lia|reflexivity].
  - split; [|reflexivity]. unfold Circle_points.
    rewrite Circle_loop_length. cbn [length]. lia.
  - split; [lia|reflexivity].
Qed.

Lemma lengths_ok_insert (h : store) (l : loc) (s : Shape) :
  lengths_ok h -> shape_lengths_ok s -> lengths_ok (<[l := s]> h).
Proof.
  intros Hh Hs m sm Hm. destruct (decide (l = m)) as [<-|Hne].
  - rewrite lookup_insert_eq in Hm. injection Hm as <-. exact Hs.
  - rewrite lookup_insert_ne in Hm by exact Hne. apply (Hh m sm Hm).
Qed.

Lemma lengths_ok_update (h h' : store) (l : loc) (f : Shape -> Shape) :
  lengths_ok h ->
  (forall s, points (f s) = points s /\ drawPoints (f s) = drawPoints s) ->
  update h l f = Ok h' -> lengths_ok h'.
Proof.
  intros Hh Hf Hu. unfold update in Hu.
  apply bind_Ok in Hu as (s & Hs & [= <-]).
  cbn [deref] in Hs. destruct (h !! l) as [s0|] eqn:Hl; [|discriminate].
  injection Hs as ->. apply lengths_ok_insert; [exact Hh|].
  destruct (Hf s) as [Hp Hd]. unfold shape_lengths_ok. rewrite Hp, Hd.
  apply (Hh l s Hl).
Qed.

Lemma draw_lengths (fuel : nat) : forall h this pc pT h',
  lengths_ok h -> draw cos sin fuel h this pc pT = Ok h' -> lengths_ok h'.
Proof.
  induction fuel as [|fuel IH]; intros h this pc pT h' Hh Hd; [discriminate|].
  destruct (draw_inv _ _ _ _ _ _ _ _ Hd) as (s & Hthis & _).
  rewrite (draw_S _ _ _ _ _ s) in Hd by exact Hthis. cbv zeta in Hd.
  apply bind_Ok in Hd as (stable & _ & Hd).
  apply bind_Ok in Hd as (first & _ & Hd).
  refine (foldM_invariant lengths_ok _ _ _ _ _ _ Hd).
  - apply lengths_ok_insert; [exact Hh|]. destruct (Hh this s Hthis) as [H3 _].
    split; [exact H3|]. right. cbn [drawPoints points set_drawPoints].
    apply length_map.
  - intros b a b' _ Hb Hbody. apply bind_Ok in Hbody as (s' & _ & Hbody).
    apply (IH _ _ _ _ _ Hb Hbody).
Qed.

Lemma render_lengths (fuel : nat) (c c' : Controller) :
  lengths_ok (heap c) -> render cos sin fuel c = Ok c' -> lengths_ok (heap c').
Proof.
  intros Hc Hr. unfold render in Hr. apply bind_Ok in Hr as (h & Hd & [= <-]).
  cbn [heap set_heap]. apply (draw_lengths _ _ _ _ _ _ Hc Hd).
Qed.

Lemma selectNode_lengths (fuel : nat) (c c' : Controller) (node : loc) :
  lengths_ok (heap c) -> selectNode cos sin fuel c node = Ok c' ->
  lengths_ok (heap c').
Proof.
  intros Hc Hs. unfold selectNode in Hs.
  destruct (_ || _); [injection Hs as <-; exact Hc|].
  apply bind_Ok in Hs as (h1 & H1 & Hs). apply bind_Ok in Hs as (h2 & H2 & Hs).
  eapply render_lengths; [|exact Hs]. cbn [heap set_heap set_selectedNode].
  apply (lengths_ok_update h1 h2 node (set_selected true)); [|auto|exact H2].
  destruct (selectedNode c) as [old|]; [|injection H1 as <-; exact Hc].
  apply (lengths_ok_update (heap c) h1 old (set_selected false)); auto.
Qed.

Lemma removePreviewNode_lengths (fuel : nat) (c c' : Controller) :
  lengths_ok (heap c) -> removePreviewNode cos sin fuel c = Ok c' ->
  lengths_ok (heap c').
Proof.
  intros Hc Hr. unfold removePreviewNode in Hr.
  apply bind_Ok in Hr as (c1 & H1 & Hr). eapply render_lengths; [|exact Hr].
  cbn [previewNode set_isInEdit heap] in H1.
  destruct (previewNode c) as [pn|]; [|injection H1 as <-; exact Hc].
  apply bind_Ok in H1 as (s & Hs & H1). apply bind_Ok in H1 as (h & Hh & [= <-]).
  cbn [heap set_heap set_previewNode]. unfold removeChild in Hh.
  apply bind_Ok in Hh as (sp & Hsp & Hh).
  destruct (parent s) as [p|]; [|discriminate]. injection Hh as <-.
  cbn [deref] in Hsp. destruct (heap c !! p) as [sp0|] eqn:Hp; [|discriminate].
  injection Hsp as ->. apply lengths_ok_insert; [exact Hc|].
  apply (Hc p sp Hp).
Qed.

Lemma addChild_new_lengths (h h' : store) (l sel : loc) (s : Shape) :
  lengths_ok h -> shape_lengths_ok s ->
  addChild (<[l := s]> h) sel l = Ok h' -> lengths_ok h'.
Proof.
  intros Hh Hs Ha. unfold addChild in Ha.
  apply (lengths_ok_update _ _ _ _ (lengths_ok_insert h l s Hh Hs)) in Ha; auto.
Qed.

Lemma buildFromParams_shape_lengths (p : option loc) (T : Transform)
    (params : Params) :
  shape_lengths_ok (buildFromParams cos sin p T params).
Proof.
  destruct (buildFromParams_lengths p T params) as [H3 H0].
  split; [exact H3|left; exact H0].
Qed.

Lemma preview_lengths (fuel : nat) (c c' : Controller) (T : Transform)
    (params : Params) (b : bool) :
  lengths_ok (heap c) -> preview cos sin fuel c T params = Ok (b, c') ->
  lengths_ok (heap c').
Proof.
  intros Hc Hp. unfold preview in Hp.
  apply bind_Ok in Hp as (c1 & H1 & Hp).
  apply removePreviewNode_lengths in H1; [|exact Hc].
  destruct (selectedNode c1) as [sel|]; [|injection Hp as _ <-; exact H1].
  apply bind_Ok in Hp as (h & Hh & Hp). apply bind_Ok in Hp as (c2 & H2 & [= _ <-]).
  eapply render_lengths; [|exact H2]. cbn [heap set_heap set_previewNode].
  apply (addChild_new_lengths _ _ _ _ _ H1 (buildFromParams_shape_lengths _ _ _) Hh).
Qed.

Lemma createNode_lengths (fuel : nat) (c c' : Controller) (T : Transform)
    (params : Params) (b : bool) :
  lengths_ok (heap c) -> createNode cos sin fuel c T params = Ok (b, c') ->
  lengths_ok (heap c').
Proof.
  intros Hc Hp. unfold createNode in Hp.
  apply bind_Ok in Hp as (stable & _ & Hp).
  destruct (negb stable); [injection Hp as _ <-; exact Hc|].
  apply bind_Ok in Hp as (c1 & H1 & Hp).
  apply removePreviewNode_lengths in H1; [|exact Hc].
  destruct (selectedNode c1) as [sel|]; [|injection Hp as _ <-; exact H1].
  apply bind_Ok in Hp as (h & Hh & Hp). apply bind_Ok in Hp as (c2 & H2 & [= _ <-]).
  eapply render_lengths; [|exact H2]. cbn [heap set_heap].
  apply (addChild_new_lengths _ _ _ _ _ H1 (buildFromParams_shape_lengths _ _ _) Hh).
Qed.

Lemma translate_lengths (fuel : nat) (c c' : Controller) (delta : Transform)
    (b : bool) :
  lengths_ok (heap c) -> translate cos sin fuel c delta = Ok (b, c') ->
  lengths_ok (heap c').
Proof.
  intros Hc Ht. unfold translate in Ht.
  apply bind_Ok in Ht as (sel & _ & Ht).
  destruct (is_Canvas (type sel)); [injection Ht as _ <-; exact Hc|].
  destruct (selectedNode c) as [l|]; [|discriminate].
  apply bind_Ok in Ht as (h & Hh & Ht). apply bind_Ok in Ht as (c1 & H1 & Ht).
  apply bind_Ok in Ht as (stable & _ & Ht).
  apply lengths_ok_update in Hh; [|exact Hc|auto].
  apply render_lengths in H1; [|exact Hh].
  destruct stable; [injection Ht as _ <-; exact H1|].
  apply bind_Ok in Ht as (h2 & H2 & [= _ <-]). cbn [heap set_heap].
  apply (lengths_ok_update _ _ _ _ H1) in H2; auto.
Qed.

Lemma previewTranslate_lengths (fuel : nat) (c c' : Controller) (delta : Transform) :
  lengths_ok (heap c) -> previewTranslate cos sin fuel c delta = Ok c' ->
  lengths_ok (heap c').
Proof.
  intros Hc Ht. unfold previewTranslate in Ht.
  apply bind_Ok in Ht as (sel & _ & Ht).
  destruct (is_Canvas (type sel)); [injection Ht as <-; exact Hc|].
  cbn [selectedNode set_isInEdit heap] in Ht.
  destruct (selectedNode c) as [l|]; [|discriminate].
  apply bind_Ok in Ht as (h & Hh & Ht). apply bind_Ok in Ht as (c1 & H1 & Ht).
  apply lengths_ok_update in Hh; [|exact Hc|auto].
  apply render_lengths in H1; [|exact Hh].
  apply bind_Ok in Ht as (h2 & H2 & [= <-]). cbn [heap set_heap].
  apply (lengths_ok_update _ _ _ _ H1) in H2; auto.
Qed.

Lemma new_Controller_lengths (fuel : nat) (width height : number) (c : Controller) :
  new_Controller cos sin fuel width height = Ok c -> lengths_ok (heap c).
Proof.
  intros Hn. unfold new_Controller in Hn.
  apply bind_Ok in Hn as (c1 & H1 & Hn). eapply render_lengths; [|exact Hn].
  eapply selectNode_lengths; [|exact H1]. cbn [heap].
  intros l s Hl. apply lookup_insert_Some in Hl as [[_ <-]|[_ Hl]].
  - split; [cbn; lia|left; reflexivity].
  - rewrite lookup_empty in Hl. discriminate.
Qed.

Lemma reachable_lengths (c : Controller) :
  reachable cos sin c -> lengths_ok (heap c).
Proof.
  induction 1 as [fuel width height c Hn|c c' _ IH Hstep].
  - apply (new_Controller_lengths _ _ _ _ Hn).
  - destruct Hstep.
    + eapply selectNode_lengths; eauto.
    + eapply removePreviewNode_lengths; eauto.
    + eapply preview_lengths; eauto.
    + eapply createNode_lengths; eauto.
    + eapply translate_lengths; eauto.
    + eapply previewTranslate_lengths; eauto.
    + eapply render_lengths; eauto.
Qed.

End Lengths.

Lemma edges_closed (p0 : Point) (rest : list Point) :
  last (edges (p0 :: rest)) = (fun p => mkLine p p0) <$> last (p0 :: rest).
Proof.
  unfold edges. cbn [length].
  rewrite seq_S, map_app, last_app. cbn [map last Nat.add].
  rewrite Nat.Div0.mod_same, last_lookup. cbn [length Nat.pred].
  destruct (lookup_lt_is_Some_2 (p0 :: rest) (length rest)) as [pl Hpl];
    [cbn; lia|].
  rewrite Hpl, (nth_lookup_Some _ _ _ _ Hpl). reflexivity.
Qed.

(** ** Well-formedness of the states a session reaches *)

Section SessionInvariant.
Variables (cos sin : number -> number).

Lemma tree_ok_insert_same (rank : loc -> nat) (h : store) (l : loc) (s s' : Shape) :
  tree_ok rank h -> h !! l = Some s ->
  points s' = points s -> (forall c, c ∈ children s' -> c ∈ children s) ->
  type s' = type s -> parent s' = parent s ->
  tree_ok rank (<[l := s']> h).
Proof.
  intros Hok Hl Hpts Hsub Hty Hpar.
  assert (Hsame : forall m sm, h !! m = Some sm ->
            exists sm', <[l := s']> h !! m = Some sm' /\ parent sm' = parent sm).
  { intros m sm Hm. destruct (decide (l = m)) as [<-|Hne].
    - rewrite lookup_insert_eq. exists s'. split; [reflexivity|]. congruence.
    - rewrite lookup_insert_ne by exact Hne. eauto. }
  intros m sm Hm.
  assert (Hfrom : exists sm0, h !! m = Some sm0 /\ points sm = points sm0 /\
            (forall c, c ∈ children sm -> c ∈ children sm0) /\
            type sm = type sm0 /\ parent sm = parent sm0).
  { destruct (decide (l = m)) as [<-|Hne].
    - rewrite lookup_insert_eq in Hm. injection Hm as <-. eauto 10.
    - rewrite lookup_insert_ne in Hm by exact Hne. eauto 10. }
  destruct Hfrom as (sm0 & Hm0 & -> & Hc0 & -> & ->).
  destruct (Hok m sm0 Hm0) as (Hp0 & Hch & Hpa).
  split; [exact Hp0|split].
  - intros c Hc. destruct (Hch c (Hc0 c Hc)) as (Hr & sc & Hsc & Hp).
    split; [exact Hr|]. destruct (Hsame c sc Hsc) as (sc' & Hsc' & Hp').
    exists sc'. split; [exact Hsc'|congruence].
  - intros Hty'. destruct (Hpa Hty') as (p & Hp & sp & Hsp).
    exists p. split; [exact Hp|].
    destruct (Hsame p sp Hsp) as (sp' & Hsp' & _). eauto.
Qed.

Lemma extends_refl (h : store) : extends h h.
Proof. intros l Hl. exact Hl. Qed.

Lemma extends_trans (h1 h2 h3 : store) :
  extends h1 h2 -> extends h2 h3 -> extends h1 h3.
Proof. intros H12 H23 l Hl. apply H23, H12, Hl. Qed.

Lemma extends_insert (h : store) (l : loc) (s : Shape) : extends h (<[l := s]> h).
Proof.
  intros m Hm. destruct (decide (l = m)) as [<-|Hne].
  - rewrite lookup_insert_eq. eauto.
  - rewrite lookup_insert_ne by exact Hne. exact Hm.
Qed.

Lemma extends_erase (h h' : store) : erase h = erase h' -> extends h h'.
Proof.
  intros He l [s Hl]. destruct (erase_lookup h h' l s He Hl) as [dp Hl']. eauto.
Qed.

Lemma update_ok (rank : loc -> nat) (h h' : store) (l : loc) (f : Shape -> Shape) :
  (forall s, points (f s) = points s /\
             (forall c, c ∈ children (f s) -> c ∈ children s) /\
             type (f s) = type s /\ parent (f s) = parent s) ->
  update h l f = Ok h' ->
  extends h h' /\ (tree_ok rank h -> tree_ok rank h').
Proof.
  intros Hf Hu. unfold update in Hu.
  apply bind_Ok in Hu as (s & Hs & [= <-]).
  cbn [deref] in Hs. destruct (h !! l) as [s0|] eqn:Hl; [|discriminate].
  injection Hs as ->. split; [apply extends_insert|].
  intros Hok. destruct (Hf s) as (H1 & H2 & H3 & H4).
  apply (tree_ok_insert_same rank h l s); assumption.
Qed.

Lemma render_ok (rank : loc -> nat) (fuel : nat) (c c' : Controller) :
  render cos sin fuel c = Ok c' ->
  canvas c' = canvas c /\ extends (heap c) (heap c') /\
  (tree_ok rank (heap c) -> tree_ok rank (heap c')).
Proof.
  intros Hr. unfold render in Hr. apply bind_Ok in Hr as (h & Hd & [= <-]).
  cbn [heap canvas set_heap]. pose proof (draw_erase cos sin _ _ _ _ _ _ Hd) as He.
  split; [reflexivity|]. split; [apply extends_erase; auto|].
  apply tree_ok_erase. auto.
Qed.

(** Adding a newly constructed node under [sel]: the ranks of the old nodes
    are raised by one and the new node gets rank zero. *)
Lemma addChild_new_ok (rank : loc -> nat) (h h' : store) (l sel : loc) (s : Shape) :
  h !! l = None -> is_Some (h !! sel) ->
  points s <> [] -> children s = [] -> type s <> Canvas -> parent s = Some sel ->
  addChild (<[l := s]> h) sel l = Ok h' ->
  extends h h' /\
  (tree_ok rank h ->
   tree_ok (fun m => if decide (m = l) then 0 else S (rank m)) h').
Proof.
  intros Hfresh [ss1 Hss1] Hpts Hch Hty Hpar Ha. unfold addChild, update in Ha.
  apply bind_Ok in Ha as (ss & Hss & [= <-]). cbn [deref] in Hss.
  assert (Hne : l <> sel) by congruence.
  rewrite lookup_insert_ne in Hss by exact Hne.
  destruct (h !! sel) as [ss0|] eqn:Hsel; [|discriminate]. injection Hss as ->.
  split.
  { apply (extends_trans _ (<[l := s]> h)); apply extends_insert. }
  intros Hok m sm Hm.
  assert (Hold : forall c sc, h !! c = Some sc ->
            c <> l /\ exists sc', <[sel := set_children (children ss ++ [l]) ss]>
                                    (<[l := s]> h) !! c = Some sc' /\
                                  parent sc' = parent sc).
  { intros c sc Hc. assert (c <> l) by congruence. split; [assumption|].
    destruct (decide (sel = c)) as [<-|Hcs].
    - rewrite lookup_insert_eq. eexists. split; [reflexivity|].
      cbn. congruence.
    - rewrite lookup_insert_ne, lookup_insert_ne by congruence. eauto. }
  destruct (decide (sel = m)) as [<-|Hms].
  - rewrite lookup_insert_eq in Hm. injection Hm as <-.
    destruct (Hok sel ss Hsel) as (Hp0 & Hch0 & Hpa0).
    cbn [points children type parent set_children].
    split; [exact Hp0|split].
    + intros c Hc. apply elem_of_app in Hc as [Hc|Hc].
      * destruct (Hch0 c Hc) as (Hr & sc & Hsc & Hp).
        destruct (Hold c sc Hsc) as (Hcl & sc' & Hsc' & Hp').
        rewrite !decide_False by congruence.
        split; [lia|]. exists sc'. split; [exact Hsc'|congruence].
      * apply list_elem_of_singleton in Hc as ->.
        rewrite decide_True by reflexivity. rewrite decide_False by congruence.
        split; [lia|]. exists s.
        rewrite lookup_insert_ne, lookup_insert_eq by congruence. auto.
    + intros Hty'. destruct (Hpa0 Hty') as (p & Hp & sp & Hsp).
      exists p. split; [exact Hp|].
      destruct (Hold p sp Hsp) as (_ & sp' & Hsp' & _). eauto.
  - rewrite lookup_insert_ne in Hm by exact Hms.
    destruct (decide (l = m)) as [<-|Hml].
    + rewrite lookup_insert_eq in Hm. injection Hm as <-.
      split; [exact Hpts|split].
      * rewrite Hch. intros c Hc. inversion Hc.
      * intros _. exists sel. split; [exact Hpar|].
        rewrite lookup_insert_eq. eauto.
    + rewrite lookup_insert_ne in Hm by exact Hml.
      destruct (Hok m sm Hm) as (Hp0 & Hch0 & Hpa0).
      split; [exact Hp0|split].
      * intros c Hc. destruct (Hch0 c Hc) as (Hr & sc & Hsc & Hp).
        destruct (Hold c sc Hsc) as (Hcl & sc' & Hsc' & Hp').
        rewrite !decide_False by congruence.
        split; [lia|]. exists sc'. split; [exact Hsc'|congruence].
      * intros Hty'. destruct (Hpa0 Hty') as (p & Hp & sp & Hsp).
        exists p. split; [exact Hp|].
        destruct (Hold p sp Hsp) as (_ & sp' & Hsp' & _). eauto.
Qed.

Lemma buildFromParams_fields (p : option loc) (T : Transform) (params : Params) :
  let s := buildFromParams cos sin p T params in
  points s <> [] /\ children s = [] /\ type s <> Canvas /\ parent s = p.
Proof.
  cbv zeta. destruct (buildFromParams_lengths cos sin p T params) as [H3 _].
  split; [intros Hnil; rewrite Hnil in H3; cbn in H3; lia|].
  destruct params; cbn; (split; [reflexivity|split; [discriminate|reflexivity]]).
Qed.

Lemma session_ok_render (fuel : nat) (c c' : Controller) :
  session_ok c -> selectedNode c' = selectedNode c ->
  render cos sin fuel c = Ok c' -> session_ok c'.
Proof.
  intros ([rank Hok] & Hcv & Hsel) Hs Hr.
  destruct (render_ok rank fuel c c' Hr) as (Hc & Hext & Htree).
  split; [exists rank; auto|]. split; [rewrite Hc; auto|].
  intros l Hl. rewrite Hs in Hl. auto.
Qed.

Lemma render_selectedNode (fuel : nat) (c c' : Controller) :
  render cos sin fuel c = Ok c' ->
  selectedNode c' = selectedNode c /\ previewNode c' = previewNode c /\
  isInEdit c' = isInEdit c /\ canvas c' = canvas c.
Proof.
  intros Hr. unfold render in Hr. apply bind_Ok in Hr as (h & _ & [= <-]).
  repeat split; reflexivity.
Qed.

Lemma session_ok_render' (fuel : nat) (c c' : Controller) :
  session_ok c -> render cos sin fuel c = Ok c' -> session_ok c'.
Proof.
  intros Hc Hr. apply (session_ok_render fuel c c' Hc); [|exact Hr].
  apply (render_selectedNode fuel c c' Hr).
Qed.

Lemma session_ok_update (c : Controller) (h' : store) (l : loc) (f : Shape -> Shape) :
  (forall s, points (f s) = points s /\
             (forall c, c ∈ children (f s) -> c ∈ children s) /\
             type (f s) = type s /\ parent (f s) = parent s) ->
  session_ok c -> update (heap c) l f = Ok h' -> session_ok (set_heap h' c).
Proof.
  intros Hf ([rank Hok] & Hcv & Hsel) Hu.
  destruct (update_ok rank _ _ _ _ Hf Hu) as [Hext Htree].
  split; [exists rank; auto|]. split; [apply Hext, Hcv|].
  intros m Hm. apply Hext, Hsel, Hm.
Qed.

Lemma update_is_Some (h h' : store) (l : loc) (f : Shape -> Shape) :
  update h l f = Ok h' -> is_Some (h' !! l).
Proof.
  intros Hu. unfold update in Hu. apply bind_Ok in Hu as (s & _ & [= <-]).
  rewrite lookup_insert_eq. eauto.
Qed.

Lemma selectNode_session_ok (fuel : nat) (c c' : Controller) (node : loc) :
  session_ok c -> selectNode cos sin fuel c node = Ok c' -> session_ok c'.
Proof.
  intros Hc Hs. unfold selectNode in Hs.
  destruct (_ || _); [injection Hs as <-; exact Hc|].
  apply bind_Ok in Hs as (h1 & H1 & Hs). apply bind_Ok in Hs as (h2 & H2 & Hs).
  assert (Hc1 : session_ok (set_heap h1 c)).
  { destruct (selectedNode c) as [old|].
    - apply (session_ok_update c h1 old (set_selected false));
        [intros s; repeat split; auto|exact Hc|exact H1].
    - injection H1 as <-. destruct c; exact Hc. }
  assert (Hc2 : session_ok (set_heap h2 (set_heap h1 c))).
  { apply (session_ok_update (set_heap h1 c) h2 node (set_selected true));
      [intros s; repeat split; auto|exact Hc1|exact H2]. }
  apply (session_ok_render' fuel
           (set_selectedNode (Some node) (set_heap h2 c)) c'); [|exact Hs].
  destruct Hc2 as (Hrank & Hcv & _).
  split; [exact Hrank|]. split; [exact Hcv|].
  intros l [= <-]. apply (update_is_Some _ _ _ _ H2).
Qed.

Lemma removePreviewNode_session_ok (fuel : nat) (c c' : Controller) :
  session_ok c -> removePreviewNode cos sin fuel c = Ok c' -> session_ok c'.
Proof.
  intros Hc Hr. unfold removePreviewNode in Hr.
  apply bind_Ok in Hr as (c1 & H1 & Hr).
  apply (session_ok_render' fuel c1 c'); [|exact Hr].
  cbn [previewNode set_isInEdit heap] in H1.
  destruct (previewNode c) as [pn|]; [|injection H1 as <-; destruct c; exact Hc].
  apply bind_Ok in H1 as (s & Hs & H1). apply bind_Ok in H1 as (h & Hh & [= <-]).
  unfold removeChild in Hh. apply bind_Ok in Hh as (sp & Hsp & Hh).
  destruct (parent s) as [p|]; [|discriminate]. injection Hh as <-.
  apply (session_ok_update c _ p
           (fun s0 => set_children (filter (fun node => node <> pn) (children s0)) s0));
    [| exact Hc |].
  - intros s0. repeat split; auto. cbn. intros c0 Hc0.
    apply list_elem_of_filter in Hc0 as [_ Hc0]. exact Hc0.
  - unfold update. cbn [heap set_isInEdit] in Hsp. rewrite Hsp. reflexivity.
Qed.

Lemma addNew_session_ok (c : Controller) (h : store) (sel : loc) (T : Transform)
    (params : Params) :
  session_ok c -> selectedNode c = Some sel ->
  addChild (<[fresh (dom (heap c)) := buildFromParams cos sin (Some sel) T params]>
              (heap c)) sel (fresh (dom (heap c))) = Ok h ->
  session_ok (set_heap h c).
Proof.
  intros ([rank Hok] & Hcv & Hsel) Hs Ha.
  destruct (buildFromParams_fields (Some sel) T params) as (Hp & Hch & Hty & Hpar).
  destruct (addChild_new_ok rank (heap c) h (fresh (dom (heap c))) sel _
              ltac:(apply not_elem_of_dom, is_fresh) (Hsel sel Hs)
              Hp Hch Hty Hpar Ha) as [Hext Htree].
  split; [eexists; apply Htree, Hok|]. split; [apply Hext, Hcv|].
  intros l Hl. apply Hext, Hsel, Hl.
Qed.

Lemma preview_session_ok (fuel : nat) (c c' : Controller) (T : Transform)
    (params : Params) (b : bool) :
  session_ok c -> preview cos sin fuel c T params = Ok (b, c') -> session_ok c'.
Proof.
  intros Hc Hp. unfold preview in Hp.
  apply bind_Ok in Hp as (c1 & H1 & Hp).
  apply removePreviewNode_session_ok in H1; [|exact Hc].
  destruct (selectedNode c1) as [sel|] eqn:Hsel; [|injection Hp as _ <-; exact H1].
  apply bind_Ok in Hp as (h & Hh & Hp). apply bind_Ok in Hp as (c2 & H2 & [= _ <-]).
  apply (session_ok_render' fuel (set_previewNode (Some (fresh (dom (heap c1))))
                                   (set_heap h c1)) c2); [|exact H2].
  apply (addNew_session_ok c1 h sel T params H1 Hsel) in Hh.
  destruct c1; exact Hh.
Qed.

Lemma createNode_session_ok (fuel : nat) (c c' : Controller) (T : Transform)
    (params : Params) (b : bool) :
  session_ok c -> createNode cos sin fuel c T params = Ok (b, c') -> session_ok c'.
Proof.
  intros Hc Hp. unfold createNode in Hp.
  apply bind_Ok in Hp as (stable & _ & Hp).
  destruct (negb stable); [injection Hp as _ <-; exact Hc|].
  apply bind_Ok in Hp as (c1 & H1 & Hp).
  apply removePreviewNode_session_ok in H1; [|exact Hc].
  destruct (selectedNode c1) as [sel|] eqn:Hsel; [|injection Hp as _ <-; exact H1].
  apply bind_Ok in Hp as (h & Hh & Hp). apply bind_Ok in Hp as (c2 & H2 & [= _ <-]).
  apply (session_ok_render' fuel (set_heap h c1) c2); [|exact H2].
  apply (addNew_session_ok c1 h sel T params H1 Hsel) in Hh. exact Hh.
Qed.

Lemma set_transform_fields (t : Transform) (s : Shape) :
  points (set_transform t s) = points s /\
  (forall c, c ∈ children (set_transform t s) -> c ∈ children s) /\
  type (set_transform t s) = type s /\ parent (set_transform t s) = parent s.
Proof. repeat split; auto. Qed.

Lemma translate_session_ok (fuel : nat) (c c' : Controller) (delta : Transform)
    (b : bool) :
  session_ok c -> translate cos sin fuel c delta = Ok (b, c') -> session_ok c'.
Proof.
  intros Hc Ht. unfold translate in Ht.
  apply bind_Ok in Ht as (sel & _ & Ht).
  destruct (is_Canvas (type sel)); [injection Ht as _ <-; exact Hc|].
  destruct (selectedNode c) as [l|] eqn:Hsel; [|discriminate].
  apply bind_Ok in Ht as (h & Hh & Ht). apply bind_Ok in Ht as (c1 & H1 & Ht).
  apply bind_Ok in Ht as (stable & _ & Ht).
  apply (session_ok_update c) in Hh;
    [|intros s; apply set_transform_fields|exact Hc].
  apply session_ok_render' in H1; [|exact Hh].
  destruct stable.
  - injection Ht as _ <-. destruct c1; exact H1.
  - apply bind_Ok in Ht as (h2 & H2 & [= _ <-]).
    apply (session_ok_update c1) in H2;
      [exact H2|intros s; apply set_transform_fields|exact H1].
Qed.

Lemma previewTranslate_session_ok (fuel : nat) (c c' : Controller)
    (delta : Transform) :
  session_ok c -> previewTranslate cos sin fuel c delta = Ok c' -> session_ok c'.
Proof.
  intros Hc Ht. unfold previewTranslate in Ht.
  assert (Hc0 : session_ok (set_isInEdit true c)) by (destruct c; exact Hc).
  apply bind_Ok in Ht as (sel & _ & Ht).
  destruct (is_Canvas (type sel)); [injection Ht as <-; exact Hc0|].
  cbn [selectedNode set_isInEdit] in Ht.
  destruct (selectedNode c) as [l|] eqn:Hsel; [|discriminate].
  apply bind_Ok in Ht as (h & Hh & Ht). apply bind_Ok in Ht as (c1 & H1 & Ht).
  apply (session_ok_update (set_isInEdit true c)) in Hh;
    [|intros s; apply set_transform_fields|exact Hc0].
  apply session_ok_render' in H1; [|exact Hh].
  apply bind_Ok in Ht as (h2 & H2 & [= <-]).
  apply (session_ok_update c1) in H2;
    [exact H2|intros s; apply set_transform_fields|exact H1].
Qed.

Lemma new_Controller_session_ok (fuel : nat) (width height : number)
    (c : Controller) :
  new_Controller cos sin fuel width height = Ok c -> session_ok c.
Proof.
  intros Hn. unfold new_Controller in Hn.
  apply bind_Ok in Hn as (c1 & H1 & Hn).
  apply (session_ok_render' fuel c1 c); [|exact Hn].
  apply (selectNode_session_ok fuel _ c1 _) in H1; [exact H1|].
  split; [exists (fun _ => 0)|split].
  - intros l s Hl. cbn [heap] in Hl.
    apply lookup_insert_Some in Hl as [[_ <-]|[_ Hl]];
      [|rewrite lookup_empty in Hl; discriminate].
    split; [discriminate|split].
    + intros c0 Hc0. inversion Hc0.
    + intros Hty. exfalso. apply Hty. reflexivity.
  - cbn [heap canvas]. rewrite lookup_insert_eq. eauto.
  - intros l Hl. discriminate Hl.
Qed.

(** Every state a session reaches is well formed. *)
Lemma reachable_session_ok (c : Controller) :
  reachable cos sin c -> session_ok c.
Proof.
  induction 1 as [fuel width height c Hn|c c' _ IH Hstep].
  - apply (new_Controller_session_ok _ _ _ _ Hn).
  - destruct Hstep.
    + eapply selectNode_session_ok; eauto.
    + eapply removePreviewNode_session_ok; eauto.
    + eapply preview_session_ok; eauto.
    + eapply createNode_session_ok; eauto.
    + eapply translate_session_ok; eauto.
    + eapply previewTranslate_session_ok; eauto.
    + eapply session_ok_render'; eauto.
Qed.

End SessionInvariant.

Lemma example_reachable : reachable cos_poly sin_poly example_state.
Proof.
  apply (reachable_step _ _ example_created).
  - apply (reachable_step _ _ example_previewed).
    + apply (reachable_step _ _ example_new).
      * apply (reachable_new _ _ 3 640 480). vm_compute. reflexivity.
      * apply (step_preview _ _ 3 _ Transform_.default (RectangleParams 100 50) true).
        vm_compute. reflexivity.
    + apply (step_createNode _ _ 3 _ Transform_.default (RectangleParams 100 50) true).
      vm_compute. reflexivity.
  - apply (step_selectNode _ _ 3 _ 2). vm_compute. reflexivity.
Qed.

(** ** [Controller.translate] *)

Section TranslateProofs.
Variables (cos sin : number -> number).

Lemma render_total (rank : loc -> nat) (fuel : nat) (c : Controller) :
  tree_ok rank (heap c) -> is_Some (heap c !! canvas c) ->
  rank (canvas c) < fuel ->
  exists h, render cos sin fuel c = Ok (set_heap h c) /\ erase h = erase (heap c).
Proof.
  intros Hok Hcv Hr. unfold render.
  destruct (draw_total cos sin rank fuel (heap c) (canvas c)
              (Some Point_.zero) (Some Transform_.default) Hok Hcv Hr) as [h Hd].
  rewrite Hd. cbn [bind]. exists h. split; [reflexivity|].
  apply (draw_erase cos sin _ _ _ _ _ _ Hd).
Qed.

Lemma erase_restore (h h1 : store) (l : loc) (s s1 : Shape) (t : Transform) :
  h !! l = Some s ->
  erase h1 = erase (<[l := set_transform t s]> h) ->
  h1 !! l = Some s1 ->
  erase (<[l := set_transform (transform s) s1]> h1) = erase h.
Proof.
  intros Hl He Hl1.
  destruct (erase_lookup _ h1 l (set_transform t s) (eq_sym He)
              (lookup_insert_eq _ _ _)) as [dp Hl1'].
  assert (s1 = set_drawPoints dp (set_transform t s)) by congruence. subst s1.
  unfold erase in *. rewrite fmap_insert, He, fmap_insert, insert_insert_eq.
  apply insert_id. rewrite lookup_fmap, Hl. destruct s; reflexivity.
Qed.

End TranslateProofs.

(** [translate] on a store made of trees, with fuel for the render. *)
Lemma translate_on_tree (cos sin : number -> number)
    (rank : loc -> nat) (fuel : nat) (c : Controller) (delta : Transform)
    (l : loc) (sel : Shape) :
  tree_ok rank (heap c) ->
  is_Some (heap c !! canvas c) -> rank (canvas c) < fuel ->
  selectedNode c = Some l -> heap c !! l = Some sel -> type sel <> Canvas ->
  let moved := Transform_.add (transform sel) delta in
  exists c1 stable,
    render cos sin fuel (set_heap (<[l := set_transform moved sel]> (heap c)) c)
      = Ok c1 /\
    isStable (heap c1) l = Ok stable /\
    (stable = true ->
       translate cos sin fuel c delta = Ok (true, set_isInEdit false c1) /\
       transform <$> heap c1 !! l = Some moved) /\
    (stable = false ->
       exists c',
         translate cos sin fuel c delta = Ok (false, c') /\
         transform <$> heap c' !! l = Some (transform sel) /\
         erase (heap c') = erase (heap c) /\
         canvas c' = canvas c /\ selectedNode c' = selectedNode c /\
         previewNode c' = previewNode c /\ isInEdit c' = isInEdit c /\
         forall m, drawPoints <$> heap c' !! m = drawPoints <$> heap c1 !! m).
Proof.
  intros Hok Hcv Hr Hsel Hl Hty moved.
  set (h0 := <[l := set_transform moved sel]> (heap c)).
  assert (Hok0 : tree_ok rank h0)
    by (apply (tree_ok_insert_same rank (heap c) l sel); auto).
  assert (Hcv0 : is_Some (h0 !! canvas c)).
  { subst h0. destruct (decide (l = canvas c)) as [->|Hne].
    - rewrite lookup_insert_eq. eauto.
    - rewrite lookup_insert_ne by exact Hne. exact Hcv. }
  destruct (render_total cos sin rank fuel (set_heap h0 c) Hok0 Hcv0 Hr)
    as (h1 & Hrender & He1).
  cbn [heap set_heap] in He1.
  destruct (erase_lookup h0 h1 l _ (eq_sym He1) (lookup_insert_eq _ _ _))
    as [dp Hl1].
  assert (Hok1 : tree_ok rank h1) by (apply (tree_ok_erase rank h0); auto).
  destruct (isStable_total rank h1 l Hok1 ltac:(eauto)) as [stable Hst].
  exists (set_heap h1 (set_heap h0 c)), stable.
  split; [exact Hrender|]. split; [exact Hst|].
  assert (Hty' : is_Canvas (type sel) = false)
    by (destruct (type sel); cbn; congruence).
  assert (Htr : translate cos sin fuel c delta =
                if stable then Ok (true, set_isInEdit false (set_heap h1 (set_heap h0 c)))
                else Ok (false, set_heap (<[l := set_transform (transform sel)
                                                (set_drawPoints dp (set_transform moved sel))]> h1)
                                         (set_heap h1 (set_heap h0 c)))).
  { unfold translate. rewrite Hsel. cbn [deref]. rewrite Hl. cbn [bind].
    rewrite Hty'. unfold update at 1. cbn [deref]. rewrite Hl. cbn [bind].
    fold moved. fold h0. rewrite Hrender. cbn [bind heap set_heap].
    rewrite Hst. cbn [bind]. destruct stable; [reflexivity|].
    unfold update. cbn [deref]. rewrite Hl1. reflexivity. }
  split; intros ->.
  - split; [exact Htr|]. cbn [heap set_heap]. rewrite Hl1. reflexivity.
  - eexists. split; [exact Htr|]. cbn [heap set_heap canvas selectedNode previewNode isInEdit].
    split; [rewrite lookup_insert_eq; reflexivity|].
    split; [apply (erase_restore (heap c) h1 l sel _ moved Hl He1 Hl1)|].
    repeat (split; [reflexivity|]).
    intros m. destruct (decide (l = m)) as [<-|Hne].
    + rewrite lookup_insert_eq, Hl1. reflexivity.
    + rewrite lookup_insert_ne by exact Hne. reflexivity.
Qed.

(** C3. In every state a session reaches, for a selected node that is not
    the canvas and every delta, [translate] assigns the composed transform,
    renders and checks stability; if the node is stable the new transform
    is kept and true is returned, otherwise the node's transform is
    restored to its prior value and false is returned.  On rejection the
    state is unchanged: every field of the controller and every field of
    every shape is as before the call ([erase] leaves out only
    [drawPoints], which the spec takes for a cache and not for state).
    The cache itself holds, for every object, the points of the render
    made with the moved transform. *)
Theorem translate_keeps_or_restores (cos sin : number -> number)
    (c : Controller) (delta : Transform) (l : loc) (sel : Shape) :
  reachable cos sin c ->
  selectedNode c = Some l -> heap c !! l = Some sel -> type sel <> Canvas ->
  let moved := Transform_.add (transform sel) delta in
  exists N, forall fuel, N < fuel ->
  exists c1 stable,
    render cos sin fuel (set_heap (<[l := set_transform moved sel]> (heap c)) c)
      = Ok c1 /\
    isStable (heap c1) l = Ok stable /\
    (stable = true ->
       translate cos sin fuel c delta = Ok (true, set_isInEdit false c1) /\
       transform <$> heap c1 !! l = Some moved) /\
    (stable = false ->
       exists c',
         translate cos sin fuel c delta = Ok (false, c') /\
         transform <$> heap c' !! l = Some (transform sel) /\
         erase (heap c') = erase (heap c) /\
         canvas c' = canvas c /\ selectedNode c' = selectedNode c /\
         previewNode c' = previewNode c /\ isInEdit c' = isInEdit c /\
         forall m, drawPoints <$> heap c' !! m = drawPoints <$> heap c1 !! m).
Proof.
  intros Hreach Hsel Hl Hty moved.
  destruct (reachable_session_ok cos sin c Hreach) as ([rank Hok] & Hcv & _).
  exists (rank (canvas c)). intros fuel Hfuel.
  apply (translate_on_tree cos sin rank fuel c delta l sel); assumption.
Qed.

Lemma translate_keeps_or_restores_witness :
  exists N, forall fuel, N < fuel ->
  exists c1 stable,
    render cos_poly sin_poly fuel
      (set_heap (<[2 := set_transform
                          (Transform_.add (transform example_rectangle) example_delta)
                          example_rectangle]> (heap example_state)) example_state)
      = Ok c1 /\
    isStable (heap c1) 2 = Ok stable.
Proof.
  destruct (translate_keeps_or_restores cos_poly sin_poly example_state
              example_delta 2 example_rectangle example_reachable
              eq_refl eq_refl ltac:(discriminate)) as [N HN].
  exists N. intros fuel Hfuel.
  destruct (HN fuel Hfuel) as (c1 & stable & Hr & Hs & _).
  exists c1, stable. split; [exact Hr|exact Hs].
Defined.

(** The cache in the example: the rejected move returns false and restores
    the transform, and the draw points of the node are those resolved for
    the rejected position, until the next render. *)
Lemma translate_rejection_changes_drawPoints :
  exists c',
    translate cos_poly sin_poly 3 example_state example_delta = Ok (false, c') /\
    drawPoints <$> heap example_state !! 2
      = Some [mkPoint 270 265; mkPoint 370 265; mkPoint 370 215; mkPoint 270 215] /\
    drawPoints <$> heap c' !! 2
      = Some [mkPoint 670 265; mkPoint 770 265; mkPoint 770 215; mkPoint 670 215] /\
    c' <> example_state.
Proof.
  eexists. split; [vm_compute; reflexivity|].
  split; [reflexivity|]. split; [reflexivity|].
  intros Heq.
  assert (H : drawPoints <$> heap example_state !! 2
              = Some [mkPoint 270 265; mkPoint 370 265;
                      mkPoint 370 215; mkPoint 270 215]) by reflexivity.
  rewrite <- Heq in H. vm_compute in H. discriminate H.
Qed.

(** ** The scenario of the legal child *)

Section Scenario.
Variables (cos sin : number -> number).
Hypothesis cos_0 : cos 0%float = 1%float.
Hypothesis sin_0 : sin 0%float = 0%float.

Lemma at_zero_eq (v : number) (f : number -> number) :
  f 0%float = v -> at_zero v f = f.
Proof.
  intros Hf. apply functional_extensionality. intros a. unfold at_zero.
  destruct (PrimFloat.Leibniz.eqb a 0) eqn:Ha; [|reflexivity].
  apply FloatAxioms.Leibniz.eqb_spec in Ha. subst a. symmetry. exact Hf.
Qed.

Lemma legal_child_resolved_eval :
  legal_child_resolved cos sin
  = legal_child_resolved (at_zero 1 cos) (at_zero 0 sin).
Proof. rewrite !at_zero_eq by assumption. reflexivity. Qed.

End Scenario.

(** C7. With [Math.cos(0) = 1] and [Math.sin(0) = 0]: in a 640 x 480 canvas
    placed at (320, 240), a 100 x 50 rectangle added as child at local
    position (0, 0) with no rotation and unit scale is resolved, by a draw
    from the canvas, to four corners that are inside the canvas polygon and
    within its bounds, and [isStable] is true for it. *)
Theorem legal_child_is_stable (cos sin : number -> number) :
  cos 0%float = 1%float -> sin 0%float = 0%float ->
  exists h cv r,
    legal_child_resolved cos sin = Ok h /\
    h !! 0 = Some cv /\ h !! 1 = Some r /\
    type cv = Canvas /\ type r = Rectangle /\ parent r = Some 0 /\
    children cv = [1] /\
    drawPoints cv = [mkPoint 0 480; mkPoint 640 480; mkPoint 640 0; mkPoint 0 0] /\
    drawPoints r = [mkPoint 270 265; mkPoint 370 265;
                    mkPoint 370 215; mkPoint 270 215] /\
    (forall pt, pt ∈ drawPoints r ->
       isPointInside (drawPoints cv) pt = Ok true /\
       le 0 (x pt) && le (x pt) 640 && le 0 (y pt) && le (y pt) 480 = true) /\
    isStable h 1 = Ok true.
Proof.
  intros Hcos Hsin. rewrite (legal_child_resolved_eval cos sin Hcos Hsin).
  eexists. eexists. eexists.
  split; [vm_compute; reflexivity|].
  split; [vm_compute; reflexivity|].
  split; [vm_compute; reflexivity|].
  repeat (split; [reflexivity|]).
  split; [|vm_compute; reflexivity].
  intros pt Hpt. apply list_elem_of_In in Hpt. cbn in Hpt.
  destruct Hpt as [<-|[<-|[<-|[<-|[]]]]]; split; vm_compute; reflexivity.
Qed.

Lemma legal_child_is_stable_witness :
  exists h, legal_child_resolved cos_poly sin_poly = Ok h /\ isStable h 1 = Ok true.
Proof.
  destruct (legal_child_is_stable cos_poly sin_poly eq_refl eq_refl)
    as (h & cv & r & Hh & _ & _ & _ & _ & _ & _ & _ & _ & _ & Hst).
  exists h. split; [exact Hh|exact Hst].
Defined.

(** ** [Transform.add] *)

(** C8. [add] returns a transform whose position is the vector sum of the
    positions, whose rotation is the plain sum of the rotations (350 and 20
    give 370, -30 and -20 give -50) and whose scale is the component-wise
    product of the scales; the result is a new object and both operands are
    in the store as before. *)
Theorem Transform_add_fresh_result (ts : gmap nat Transform) (this other : loc)
    (a b : Transform) :
  ts !! this = Some a -> ts !! other = Some b ->
  exists r t,
    Transform_add ts this other = Ok (r, <[r := t]> ts) /\
    ts !! r = None /\
    position t = vadd (position a) (position b) /\
    rotation t = (rotation a + rotation b)%float /\
    scale t = vmul (scale a) (scale b) /\
    <[r := t]> ts !! this = Some a /\
    <[r := t]> ts !! other = Some b /\
    rotation (Transform_.add (mkTransform Point_.zero 350 Point_.unit)
                             (mkTransform Point_.zero 20 Point_.unit))
      = 370%float /\
    rotation (Transform_.add (mkTransform Point_.zero (-30) Point_.unit)
                             (mkTransform Point_.zero (-20) Point_.unit))
      = (-50)%float.
Proof.
  intros Ha Hb. unfold Transform_add. rewrite Ha, Hb.
  set (r := fresh (dom ts)).
  assert (Hr : ts !! r = None) by (apply not_elem_of_dom, is_fresh).
  exists r, (Transform_.add a b).
  split; [reflexivity|]. split; [exact Hr|].
  repeat (split; [reflexivity|]).
  split; [rewrite lookup_insert_ne; [assumption|congruence]|].
  split; [rewrite lookup_insert_ne; [assumption|congruence]|].
  split; reflexivity.
Qed.

Lemma Transform_add_fresh_result_witness :
  exists r t,
    Transform_add example_transforms 0 1 = Ok (r, <[r := t]> example_transforms) /\
    rotation t = (0 + 0)%float.
Proof.
  assert (H0 : example_transforms !! 0 = Some Transform_.default)
    by (vm_compute; reflexivity).
  assert (H1 : example_transforms !! 1 = Some Transform_.zero)
    by (vm_compute; reflexivity).
  destruct (Transform_add_fresh_result example_transforms 0 1
              Transform_.default Transform_.zero H0 H1)
    as (r & t & Hadd & _ & _ & Hrot & _).
  exists r, t. split; [exact Hadd|exact Hrot].
Defined.

(** C9 (amended). The local point list of a polygon has at least three
    points from construction on (4 for a rectangle or the canvas, 100 for a
    circle, 3 for a triangle) and [draw] does not change it; [drawPoints] is
    empty at construction, and a draw of the node gives it as many draw
    points as local points, so in every state a session reaches
    [drawPoints] is either still empty or as long as the local point list.
    The last edge of the loop goes from the last point back to the first. *)
Theorem drawPoints_length_lifetime (cos sin : number -> number) :
  (forall parent T params,
     let s := buildFromParams cos sin parent T params in
     length (points s) = match params with
                         | RectangleParams _ _ => 4
                         | CircleParams _ => 100
                         | TriangleParams _ _ _ _ _ _ => 3
                         end /\
     drawPoints s = []) /\
  (forall width height T,
     length (points (new_Canvas width height T)) = 4 /\
     drawPoints (new_Canvas width height T) = []) /\
  (forall c, reachable cos sin c -> lengths_ok (heap c)) /\
  (forall rank fuel h this s pc pT h',
     tree_ok rank h -> h !! this = Some s ->
     draw cos sin fuel h this pc pT = Ok h' ->
     exists s', h' !! this = Some s' /\ points s' = points s /\
                length (drawPoints s') = length (points s)) /\
  (forall p0 rest,
     last (edges (p0 :: rest)) = (fun p => mkLine p p0) <$> last (p0 :: rest)).
Proof.
  split; [|split; [|split; [|split]]].
  - intros parent T params s. subst s.
    destruct params; cbn [buildFromParams new_Rectangle new_Circle new_Triangle
                          new_NGon points drawPoints Rectangle_points length].
    + split; reflexivity.
    + split; [|reflexivity]. unfold Circle_points.
      rewrite Circle_loop_length. reflexivity.
    + split; reflexivity.
  - intros width height T. split; reflexivity.
  - apply reachable_lengths.
  - intros rank fuel h this s pc pT h' Hok Hthis Hd.
    eexists. split; [apply (draw_own cos sin rank _ _ _ _ _ _ _ Hok Hthis Hd)|].
    split; [reflexivity|]. cbn [drawPoints set_drawPoints]. apply length_map.
  - apply edges_closed.
Qed.

Lemma drawPoints_length_lifetime_witness : lengths_ok (heap example_state).
Proof.
  apply (proj1 (proj2 (proj2 (drawPoints_length_lifetime cos_poly sin_poly)))).
  exact example_reachable.
Defined.

(** C9 does not hold at construction: the rectangle that has been
    constructed and added under the canvas, in the store that is about to
    be rendered, has four local points and no draw point. *)
Lemma drawPoints_length_at_construction :
  example_unresolved_heap !! 3 = Some example_unresolved /\
  length (points example_unresolved) = 4 /\
  length (drawPoints example_unresolved) = 0 /\
  ~ (length (drawPoints example_unresolved) = length (points example_unresolved)
     /\ 3 <= length (drawPoints example_unresolved)).
Proof.
  split; [reflexivity|]. split; [reflexivity|]. split; [reflexivity|].
  cbn. lia.
Qed.

(** ** The model on the other scenarios of the spec *)

Section Checks.

(** The segments (0,0)-(10,10) and (0,10)-(10,0) cross; the collinear
    segments (0,0)-(1,1) and (5,5)-(6,6) do not. *)
Example segments_crossing :
  line_intersects (mkLine (mkPoint 0 0) (mkPoint 10 10))
                  (mkLine (mkPoint 0 10) (mkPoint 10 0)) = true.
Proof. reflexivity. Qed.

Example segments_collinear_apart :
  line_intersects (mkLine (mkPoint 0 0) (mkPoint 1 1))
                  (mkLine (mkPoint 5 5) (mkPoint 6 6)) = false.
Proof. reflexivity. Qed.

(** The centre of the canvas is inside it, a point to its right is not. *)
Example canvas_inside_outside :
  isPointInside (drawPoints example_canvas) (mkPoint 320 240) = Ok true /\
  isPointInside (drawPoints example_canvas) (mkPoint 700 240) = Ok false.
Proof. split; vm_compute; reflexivity. Qed.

(** A 100 x 50 rectangle previewed at (400, 0) from the centre of the
    canvas is out of bounds. *)
Example child_out_of_bounds :
  exists c l,
    preview cos_poly sin_poly 3 example_new
            (mkTransform (mkPoint 400 0) 0 Point_.unit) (RectangleParams 100 50)
      = Ok (true, c) /\
    previewNode c = Some l /\ isStable (heap c) l = Ok false.
Proof. eexists. eexists. repeat split; vm_compute; reflexivity. Qed.

(** Two 100 x 100 rectangles at (0, 0) and (50, 50): the second is not
    stable, and [createNode] refuses it. *)
Example siblings_overlap :
  exists c1 c2 c3 l,
    preview cos_poly sin_poly 3 example_new Transform_.default
            (RectangleParams 100 100) = Ok (true, c1) /\
    createNode cos_poly sin_poly 3 c1 Transform_.default
               (RectangleParams 100 100) = Ok (true, c2) /\
    preview cos_poly sin_poly 3 c2
            (mkTransform (mkPoint 50 50) 0 Point_.unit) (RectangleParams 100 100)
      = Ok (true, c3) /\
    previewNode c3 = Some l /\ isStable (heap c3) l = Ok false /\
    createNode cos_poly sin_poly 3 c3
               (mkTransform (mkPoint 50 50) 0 Point_.unit) (RectangleParams 100 100)
      = Ok (false, c3).
Proof.
  eexists. eexists. eexists. eexists.
  split; [vm_compute; reflexivity|].
  split; [vm_compute; reflexivity|].
  split; [vm_compute; reflexivity|].
  repeat split; vm_compute; reflexivity.
Qed.

(** A triangle placed at (330, 240) whose centroid is (360, 270): a 6 x 6
    rectangle added under it at local position (0, 0) is drawn around the
    centroid, not around the placement point of the triangle. *)
Example child_is_placed_at_centroid :
  exists c1 c2 c3 c4 r,
    preview cos_poly sin_poly 4 example_new
            (mkTransform (mkPoint 10 0) 0 Point_.unit)
            (TriangleParams 0 0 90 0 0 90) = Ok (true, c1) /\
    createNode cos_poly sin_poly 4 c1
               (mkTransform (mkPoint 10 0) 0 Point_.unit)
               (TriangleParams 0 0 90 0 0 90) = Ok (true, c2) /\
    selectNode cos_poly sin_poly 4 c2 2 = Ok c3 /\
    preview cos_poly sin_poly 4 c3 Transform_.default (RectangleParams 6 6)
      = Ok (true, c4) /\
    (drawPoints <$> heap c4 !! 2)
      = Some [mkPoint 330 240; mkPoint 420 240; mkPoint 330 330] /\
    heap c4 !! 3 = Some r /\ parent r = Some 2 /\
    drawPoints r = [mkPoint 357 273; mkPoint 363 273;
                    mkPoint 363 267; mkPoint 357 267].
Proof.
  eexists. eexists. eexists. eexists. eexists.
  split; [vm_compute; reflexivity|].
  split; [vm_compute; reflexivity|].
  split; [vm_compute; reflexivity|].
  split; [vm_compute; reflexivity|].
  split; [vm_compute; reflexivity|].
  split; [vm_compute; reflexivity|].
  split; reflexivity.
Qed.

End Checks.

(** * Part III: further properties of the code *)

Section MoreFloatFacts.

Lemma SFeqb_refl_finite s m e : SFeqb (S754_finite s m e) (S754_finite s m e) = true.
Proof.
  unfold SFeqb, SFcompare.
  destruct s; rewrite Z.compare_refl, ?Pos.compare_cont_refl; reflexivity.
Qed.

Lemma isNaN_spec (a : number) : isNaN a = true <-> Prim2SF a = S754_nan.
Proof.
  unfold isNaN. rewrite negb_true_iff, FloatAxioms.eqb_spec.
  destruct (Prim2SF a) as [[]|[]| |s m e]; split; intros H;
    try discriminate; try reflexivity.
  rewrite SFeqb_refl_finite in H. discriminate.
Qed.

Lemma ltb_nan_l (a b : number) : isNaN a = true -> (a <? b)%float = false.
Proof.
  intros Ha%isNaN_spec. rewrite ltb_spec, Ha. reflexivity.
Qed.

Lemma SF64sub_diag a : zero_or_nan (SF64sub a a).
Proof.
  rewrite SF64sub_add.
  destruct a as [[]|[]| |s m e]; try (left; reflexivity);
    try (right; eexists; reflexivity).
  right. exists false. cbn [SFopp SF64add SFadd].
  rewrite Z.min_id, cond_Zopp_negb, Z.add_opp_diag_r. reflexivity.
Qed.

Lemma SF64mul_zero_or_nan_l a b : zero_or_nan a -> zero_or_nan (SF64mul a b).
Proof.
  intros [->|[s ->]]; [left; reflexivity|].
  destruct b as [sb|sb| |sb mb eb]; cbn; try (left; reflexivity);
    right; eexists; reflexivity.
Qed.

Lemma SF64mul_zero_or_nan_r a b : zero_or_nan b -> zero_or_nan (SF64mul a b).
Proof. rewrite SF64mul_comm. apply SF64mul_zero_or_nan_l. Qed.

Lemma SF64add_zero_or_nan a b :
  zero_or_nan a -> zero_or_nan b -> zero_or_nan (SF64add a b).
Proof.
  intros [->|[s ->]] [->|[t ->]]; try (left; reflexivity).
  right. destruct s, t; cbn; eexists; reflexivity.
Qed.

Lemma div_zero_or_nan_out_of_range (n d : number) :
  zero_or_nan (Prim2SF d) -> in_unit_range (n / d) = false.
Proof.
  intros [Hn|Hz].
  - apply div_nan_out_of_range, Hn.
  - apply div_zero_out_of_range, is_zero_spec, Hz.
Qed.

End MoreFloatFacts.

(** X1. [Transform.add] is commutative, exactly: in binary64 the sum and
    the product of two numbers do not depend on their order, so
    [a.add(b)] and [b.add(a)] have the same position, rotation and scale. *)
Theorem Transform_add_comm (a b : Transform) :
  Transform_.add a b = Transform_.add b a.
Proof.
  unfold Transform_.add.
  rewrite (float_add_comm (x (position a))), (float_add_comm (y (position a))),
    (float_add_comm (rotation a)), (float_mul_comm (x (scale a))),
    (float_mul_comm (y (scale a))).
  reflexivity.
Qed.

Lemma degenerate_denominator (p : Point) (line : Line) :
  zero_or_nan (Prim2SF (denominator (mkLine p p) line)).
Proof.
  unfold denominator, s1_x, s1_y. cbn [point1 point2].
  rewrite add_spec, !mul_spec, !sub_spec.
  apply SF64add_zero_or_nan.
  - apply SF64mul_zero_or_nan_r, SF64sub_diag.
  - apply SF64mul_zero_or_nan_l, SF64sub_diag.
Qed.

Lemma degenerate_no_intersection (p : Point) (line : Line) :
  line_intersects (mkLine p p) line = false /\
  line_intersects line (mkLine p p) = false.
Proof.
  assert (H : line_intersects (mkLine p p) line = false).
  { rewrite line_intersects_params.
    pose proof (div_zero_or_nan_out_of_range
      ((- s1_y (mkLine p p) * (x (point1 (mkLine p p)) - x (point1 line)) +
         s1_x (mkLine p p) * (y (point1 (mkLine p p)) - y (point1 line)))%float) _
      (degenerate_denominator p line)) as Hs.
    unfold in_unit_range in Hs. fold (param_s (mkLine p p) line) in Hs.
    rewrite Hs. reflexivity. }
  split; [exact H|]. rewrite line_intersects_sym. exact H.
Qed.

(** X2. A segment of length zero (both end points the same point, whatever
    its coordinates) intersects no segment: the denominator of
    [line_intersects] is then a zero or NaN, and the answer is false in
    either argument position. *)
Theorem degenerate_segment_never_intersects (p : Point) (line : Line) :
  line_intersects (mkLine p p) line = false /\
  line_intersects line (mkLine p p) = false.
Proof. apply degenerate_no_intersection. Qed.

Section NaN.

Lemma isNaN_add_l a b : isNaN a = true -> isNaN (a + b) = true.
Proof. rewrite !isNaN_spec, add_spec. intros ->. reflexivity. Qed.
Lemma isNaN_add_r a b : isNaN b = true -> isNaN (a + b) = true.
Proof. rewrite float_add_comm. apply isNaN_add_l. Qed.
Lemma isNaN_mul_l a b : isNaN a = true -> isNaN (a * b) = true.
Proof. rewrite !isNaN_spec, mul_spec. intros ->. reflexivity. Qed.
Lemma isNaN_mul_r a b : isNaN b = true -> isNaN (a * b) = true.
Proof. rewrite float_mul_comm. apply isNaN_mul_l. Qed.
Lemma isNaN_sub_l a b : isNaN a = true -> isNaN (a - b) = true.
Proof. rewrite !isNaN_spec, sub_spec. intros ->. reflexivity. Qed.
Lemma isNaN_sub_r a b : isNaN b = true -> isNaN (a - b) = true.
Proof.
  rewrite !isNaN_spec, sub_spec. intros ->.
  destruct (Prim2SF a) as [[]|[]| |[] m e]; reflexivity.
Qed.
Lemma isNaN_div_l a b : isNaN a = true -> isNaN (a / b) = true.
Proof. rewrite !isNaN_spec, div_spec. intros ->. reflexivity. Qed.
Lemma isNaN_opp a : isNaN a = true -> isNaN (- a) = true.
Proof. rewrite !isNaN_spec, opp_spec. intros ->. reflexivity. Qed.

Variables (cos sin : number -> number).

Lemma rotateAround_nan (p center : Point) (angle : number) :
  has_nan p = true ->
  isNaN (x (rotateAround cos sin p center angle)) = true /\
  isNaN (y (rotateAround cos sin p center angle)) = true.
Proof.
  unfold has_nan, rotateAround. cbn [x y]. intros [H|H]%orb_true_iff; split.
  - apply isNaN_add_l, isNaN_add_l, isNaN_mul_r, isNaN_sub_l, H.
  - apply isNaN_add_l, isNaN_sub_r, isNaN_mul_r, isNaN_sub_l, H.
  - apply isNaN_add_l, isNaN_add_r, isNaN_mul_r, isNaN_sub_l, H.
  - apply isNaN_add_l, isNaN_sub_l, isNaN_mul_r, isNaN_sub_l, H.
Qed.

Lemma drawPoint_nan (T : Transform) (pc : Point) (pT : Transform) (p : Point) :
  has_nan p = true -> has_nan (drawPoint cos sin T pc pT p) = true.
Proof.
  intros Hp. unfold drawPoint. cbv zeta.
  apply orb_true_iff. left.
  apply rotateAround_nan. apply orb_true_iff. left.
  apply rotateAround_nan. unfold has_nan. cbn [x y]. apply orb_true_iff.
  apply orb_true_iff in Hp as [H|H]; [left|right];
    apply isNaN_add_r, isNaN_mul_l, H.
Qed.

Lemma Circle_loop_keeps (n : nat) : forall radius rotationAngle angle pts p,
  p ∈ pts -> p ∈ Circle_loop cos sin n radius rotationAngle angle pts.
Proof.
  induction n as [|n IH]; intros radius rotationAngle angle pts p Hp; cbn; [exact Hp|].
  apply IH. apply elem_of_app. left. exact Hp.
Qed.

Lemma Circle_loop_first (n : nat) (radius rotationAngle angle : number) :
  mkPoint (cos angle * radius) (sin angle * radius)
  ∈ Circle_loop cos sin (S n) radius rotationAngle angle [].
Proof. cbn [Circle_loop]. apply Circle_loop_keeps. left. Qed.

Lemma buildFromParams_nan (p : option loc) (T : Transform) (params : Params) :
  params_has_nan params = true ->
  exists pt, pt ∈ points (buildFromParams cos sin p T params) /\ has_nan pt = true.
Proof.
  destruct params as [w hh|r|x1 y1 x2 y2 x3 y3]; cbn [params_has_nan]; intros H.
  - eexists. split; [left|]. unfold has_nan. cbn [x y].
    apply orb_true_iff. apply orb_true_iff in H as [H|H]; [left|right].
    + apply isNaN_opp, isNaN_div_l, H.
    + apply isNaN_div_l, H.
  - exists (mkPoint (cos 0 * r) (sin 0 * r))%float. split.
    + apply (Circle_loop_first 99).
    + unfold has_nan. cbn [x y]. apply orb_true_iff. left. apply isNaN_mul_r, H.
  - repeat (apply orb_true_iff in H as [H|H]).
    1,2: exists (mkPoint x1 y1).
    3,4: exists (mkPoint x2 y2).
    5,6: exists (mkPoint x3 y3).
    all: split; [cbn; set_solver|unfold has_nan; cbn [x y]; rewrite H, ?orb_true_r; reflexivity].
Qed.

End NaN.

Section PointInsideEdge.

Lemma crossing_number_none (dp : list Point) (q : Point) :
  (forall i, crosses_edge dp q i = false) -> crossing_number_spec dp q = false.
Proof.
  intros H. unfold crossing_number_spec. generalize (seq 0 (length dp)).
  intros l. induction l as [|i l IH]; cbn [fold_left]; [reflexivity|].
  rewrite H. exact IH.
Qed.

Lemma edge_test_nan (pi pj : Point) (q : Point) :
  has_nan q = true -> edge_test_spec pi pj (x q) (y q) = false.
Proof.
  unfold has_nan, edge_test_spec. intros [H|H]%orb_true_iff.
  - rewrite (ltb_nan_l (x q) _ H). apply andb_false_r.
  - rewrite !(ltb_nan_l (y q) _ H). reflexivity.
Qed.

Lemma crossing_number_nan (dp : list Point) (q : Point) :
  has_nan q = true -> crossing_number_spec dp q = false.
Proof.
  intros H. apply crossing_number_none. intros i. unfold crosses_edge. cbv zeta.
  destruct (dp !! i); [|reflexivity]. destruct (dp !! _); [|reflexivity].
  apply edge_test_nan, H.
Qed.

Lemma crossing_number_small (dp : list Point) (q : Point) :
  length dp <= 1 -> crossing_number_spec dp q = false.
Proof.
  intros Hl. destruct dp as [|p [|p' dp]]; [reflexivity| |cbn in Hl; lia].
  unfold crossing_number_spec. cbn [length seq fold_left].
  change (crosses_edge [p] q 0) with (edge_test_spec p p (x q) (y q)).
  unfold edge_test_spec. rewrite xorb_nilpotent. reflexivity.
Qed.

End PointInsideEdge.

(** X3. [isPointInside] answers false, without throwing, for every point
    when the polygon has at most one vertex, and for every polygon when
    the point has a NaN coordinate. *)
Theorem isPointInside_degenerate (drawPoints : list Point) (point : Point) :
  length drawPoints <= 1 \/ has_nan point = true ->
  isPointInside drawPoints point = Ok false.
Proof.
  intros H. rewrite isPointInside_value. f_equal.
  destruct H as [H|H]; [apply crossing_number_small|apply crossing_number_nan]; exact H.
Qed.

Lemma isPointInside_degenerate_witness :
  isPointInside [mkPoint 1 1] (mkPoint 1 1) = Ok false /\
  isPointInside [mkPoint 0 0; mkPoint 4 0; mkPoint 0 4] (mkPoint 1 nan) = Ok false.
Proof.
  split.
  - apply isPointInside_degenerate. left. cbn. lia.
  - apply isPointInside_degenerate. right. reflexivity.
Defined.

Section StabilityEdge.
Variables (cos sin : number -> number).

Lemma stable_form_nan (h : store) (this : loc) (s sp : Shape) (pt : Point) :
  pt ∈ drawPoints s -> has_nan pt = true -> stable_form h this s sp = false.
Proof.
  intros Hin Hnan. unfold stable_form. apply andb_false_iff. left.
  apply not_true_iff_false. intros Hall. rewrite forallb_elem_of in Hall.
  specialize (Hall pt Hin). rewrite crossing_number_nan in Hall by exact Hnan.
  discriminate.
Qed.

End StabilityEdge.

(** X4. A node that is not the canvas and has a draw point with a NaN
    coordinate is not stable: that point is inside no parent.  When the node
    is the preview node, [createNode] returns false and leaves the
    controller as it is, whatever its arguments. *)
Theorem isStable_nan (cos sin : number -> number) (h : store) (this p : loc)
    (s sp : Shape) (pt : Point) :
  h !! this = Some s -> type s <> Canvas ->
  parent s = Some p -> h !! p = Some sp ->
  (forall c, c ∈ children sp -> is_Some (h !! c)) ->
  pt ∈ drawPoints s -> has_nan pt = true ->
  isStable h this = Ok false /\
  forall fuel c T params,
    heap c = h -> previewNode c = Some this ->
    createNode cos sin fuel c T params = Ok (false, c).
Proof.
  intros Hthis Hty Hpar Hp Hch Hin Hnan.
  assert (Hst : isStable h this = Ok false).
  { rewrite (isStable_closed_form h this p s sp Hthis) by
      (try assumption; destruct (type s); cbn; congruence).
    f_equal. apply (stable_form_nan h this s sp pt Hin Hnan). }
  split; [exact Hst|].
  intros fuel c T params Hh Hpn. unfold createNode. rewrite Hpn, Hh, Hst. reflexivity.
Qed.

Lemma isStable_nan_witness :
  isStable (<[2 := set_drawPoints [mkPoint nan 0] example_rectangle]>
              (heap example_state)) 2 = Ok false.
Proof.
  apply (isStable_nan cos_poly sin_poly _ 2 0
           (set_drawPoints [mkPoint nan 0] example_rectangle) example_canvas
           (mkPoint nan 0)); try reflexivity.
  - discriminate.
  - intros c Hc. cbn in Hc. apply list_elem_of_singleton in Hc as ->.
    vm_compute. eauto.
  - cbn. left.
Defined.

Section Children.

Lemma filter_ne_id (c : loc) (l : list loc) :
  c ∉ l -> filter (fun node => node <> c) l = l.
Proof.
  induction l as [|a l IH]; intros Hc; [reflexivity|].
  apply not_elem_of_cons in Hc as [Hne Hc].
  rewrite filter_cons_True by congruence. rewrite IH by exact Hc. reflexivity.
Qed.

Lemma filter_ne_snoc (c : loc) (l : list loc) :
  c ∉ l -> filter (fun node => node <> c) (l ++ [c]) = l.
Proof.
  intros Hc. rewrite filter_app, filter_ne_id by exact Hc.
  rewrite filter_cons_False by (intros H; apply H; reflexivity).
  rewrite filter_nil. apply app_nil_r.
Qed.

Lemma set_children_id (s : Shape) : set_children (children s) s = s.
Proof. destruct s; reflexivity. Qed.

End Children.

(** X5. [removeChild] undoes [addChild]: for a node that is not yet among
    the children, [addChild] pushes it at the end and [removeChild] then
    gives back the store as it was; [removeChild] of a node that is not
    among the children changes nothing. *)
Theorem removeChild_undoes_addChild (h : store) (this child : loc) (s : Shape) :
  h !! this = Some s -> child ∉ children s ->
  removeChild h (Some this) child = Ok h /\
  exists h1, addChild h this child = Ok h1 /\
             (exists s1, h1 !! this = Some s1 /\ last (children s1) = Some child) /\
             removeChild h1 (Some this) child = Ok h.
Proof.
  intros Hthis Hc. split.
  - unfold removeChild. cbn [deref]. rewrite Hthis. cbn [bind].
    rewrite filter_ne_id by exact Hc. rewrite set_children_id.
    rewrite insert_id by exact Hthis. reflexivity.
  - unfold addChild, update. cbn [deref]. rewrite Hthis. cbn [bind].
    eexists. split; [reflexivity|]. split.
    + eexists. split; [apply lookup_insert_eq|]. cbn [children set_children].
      apply last_snoc.
    + unfold removeChild. cbn [deref]. rewrite lookup_insert_eq. cbn [bind].
      cbn [children set_children]. rewrite filter_ne_snoc by exact Hc.
      rewrite insert_insert_eq.
      replace (set_children (children s) (set_children (children s ++ [child]) s))
        with s by (destruct s; reflexivity).
      rewrite insert_id by exact Hthis. reflexivity.
Qed.

Lemma removeChild_undoes_addChild_witness :
  removeChild (heap example_state) (Some 0) 5 = Ok (heap example_state) /\
  exists h1, addChild (heap example_state) 0 5 = Ok h1 /\
             (exists s1, h1 !! 0 = Some s1 /\ last (children s1) = Some 5) /\
             removeChild h1 (Some 0) 5 = Ok (heap example_state).
Proof.
  apply (removeChild_undoes_addChild (heap example_state) 0 5 example_canvas).
  - reflexivity.
  - cbn. intros H. apply list_elem_of_singleton in H. discriminate.
Defined.

Section Determinism.
Variables (cos sin : number -> number).

Lemma erased_eq (s s' : Shape) :
  set_drawPoints [] s = set_drawPoints [] s' ->
  drawPoints s = drawPoints s' -> s = s'.
Proof. destruct s, s'; unfold set_drawPoints; cbn. congruence. Qed.

(** Two stores that hold the same objects up to the draw points, both
    resolved from [l] for the same parent data, hold the same objects at and
    below [l]. *)
Lemma resolved_agree (h1 h2 : store) (l : loc) (pc : Point) (rot : number)
    (sc : Point) :
  resolved cos sin h1 l pc rot sc -> resolved cos sin h2 l pc rot sc ->
  (forall m, desc h1 l m ->
             set_drawPoints [] <$> h1 !! m = set_drawPoints [] <$> h2 !! m) ->
  forall m, desc h1 l m -> h1 !! m = h2 !! m.
Proof.
  intros Hr. induction Hr as [l s pc rot sc Hl Hdp _ IH]. intros Hr2 Hsame.
  inversion Hr2 as [l' s2 pc' rot' sc' Hl2 Hdp2 Hch2]; subst.
  pose proof (Hsame l (desc_refl h1 l)) as He. rewrite Hl, Hl2 in He.
  cbn [fmap option_fmap option_map] in He.
  assert (He' : set_drawPoints [] s = set_drawPoints [] s2) by congruence.
  clear He. rename He' into He.
  assert (s = s2).
  { apply erased_eq; [exact He|]. rewrite Hdp, Hdp2.
    assert (transform s = transform s2 /\ points s = points s2) as [-> ->]; [|reflexivity].
    destruct s, s2; unfold set_drawPoints in He; cbn in *.
    split; congruence. }
  subst s2. intros m Hm. inversion Hm as [|a s' c m' Ha Hc Hd]; subst.
  - congruence.
  - assert (s' = s) by congruence. subst s'.
    apply (IH c Hc (Hch2 c Hc)); [|exact Hd].
    intros m0 Hm0. apply Hsame. apply (desc_child h1 l s c m0 Hl Hc Hm0).
Qed.

Lemma erase_lookup_eq (h h' : store) (m : loc) :
  erase h = erase h' ->
  set_drawPoints [] <$> h !! m = set_drawPoints [] <$> h' !! m.
Proof. intros He. unfold erase in He. rewrite <- !lookup_fmap, He. reflexivity. Qed.

Lemma draw_deterministic (rank : loc -> nat) (fuel : nat) (h1 h2 : store)
    (this : loc) (pc : Point) (pT : Transform) :
  tree_ok rank h1 -> erase h1 = erase h2 -> is_Some (h1 !! this) ->
  rank this < fuel ->
  exists h1' h2',
    draw cos sin fuel h1 this (Some pc) (Some pT) = Ok h1' /\
    draw cos sin fuel h2 this (Some pc) (Some pT) = Ok h2' /\
    forall m, desc h1 this m -> h1' !! m = h2' !! m.
Proof.
  intros Hok He Hthis Hr.
  assert (Hok2 : tree_ok rank h2) by (apply (tree_ok_erase rank h1); assumption).
  assert (Hthis2 : is_Some (h2 !! this)) by (apply (extends_erase h1 h2 He), Hthis).
  destruct (draw_resolved cos sin rank fuel h1 this pc pT Hok Hthis Hr) as (h1' & Hd1 & Hr1).
  destruct (draw_resolved cos sin rank fuel h2 this pc pT Hok2 Hthis2 Hr) as (h2' & Hd2 & Hr2).
  exists h1', h2'. split; [exact Hd1|]. split; [exact Hd2|].
  pose proof (draw_erase cos sin _ _ _ _ _ _ Hd1) as He1.
  pose proof (draw_erase cos sin _ _ _ _ _ _ Hd2) as He2.
  intros m Hm. apply (resolved_agree h1' h2' this pc _ _ Hr1 Hr2).
  - intros m0 _. apply erase_lookup_eq. congruence.
  - apply (desc_erase h1 h1'); [congruence|exact Hm].
Qed.

(** Every object is either left alone by [draw] or below the drawn node. *)
Lemma draw_touched (fuel : nat) : forall h this pc pT h',
  draw cos sin fuel h this pc pT = Ok h' ->
  forall m, h' !! m = h !! m \/ desc h this m.
Proof.
  induction fuel as [|fuel IH]; intros h this pc pT h' Hd; [discriminate|].
  destruct (draw_inv cos sin _ _ _ _ _ _ Hd) as (s & Hthis & _).
  rewrite (draw_S cos sin _ _ _ s) in Hd by exact Hthis. cbv zeta in Hd.
  apply bind_Ok in Hd as (stable & _ & Hd).
  apply bind_Ok in Hd as (first & _ & Hd).
  refine (proj2 (foldM_invariant
    (fun h0 => erase h0 = erase h /\
               forall m, h0 !! m = h !! m \/ desc h this m) _ _ _ _ _ _ Hd)).
  - split; [apply erase_insert, Hthis|].
    intros m. destruct (decide (this = m)) as [<-|Hne].
    + right. apply desc_refl.
    + left. apply lookup_insert_ne, Hne.
  - intros b c b' Hc [Hb Hout] Hbody.
    apply bind_Ok in Hbody as (s' & _ & Hbody).
    split; [rewrite (draw_erase cos sin _ _ _ _ _ _ Hbody); exact Hb|].
    intros m. destruct (IH _ _ _ _ _ Hbody m) as [Hsame|Hdm].
    + destruct (Hout m) as [Hm|Hm]; [left; congruence|right; exact Hm].
    + right. apply (desc_child h this s c m Hthis Hc).
      apply (desc_erase b h); [exact Hb|exact Hdm].
Qed.

Lemma draw_idempotent (rank : loc -> nat) (fuel : nat) (h h' : store)
    (this : loc) (pc : Point) (pT : Transform) :
  tree_ok rank h -> rank this < fuel ->
  draw cos sin fuel h this (Some pc) (Some pT) = Ok h' ->
  draw cos sin fuel h' this (Some pc) (Some pT) = Ok h'.
Proof.
  intros Hok Hr Hd.
  destruct (draw_inv cos sin _ _ _ _ _ _ Hd) as (s & Hthis & _).
  pose proof (draw_erase cos sin _ _ _ _ _ _ Hd) as He.
  destruct (draw_deterministic rank fuel h h' this pc pT Hok (eq_sym He)
              ltac:(eauto) Hr) as (h1 & h2 & Hd1 & Hd2 & Hsame).
  assert (h1 = h') by congruence. subst h1.
  rewrite Hd2. f_equal. apply map_eq. intros m.
  destruct (draw_touched _ _ _ _ _ _ Hd2 m) as [Hm|Hm]; [exact Hm|].
  symmetry. apply Hsame. apply (desc_erase h' h); [exact He|exact Hm].
Qed.

End Determinism.

(** X6. [draw] assigns nothing but [drawPoints]: the store has the same
    objects afterwards, each with its type, parent, transform, children,
    selection flag and local points as before, and an object that is not
    the drawn node or below it is left as it was. *)
Theorem draw_changes_only_caches (cos sin : number -> number) (fuel : nat)
    (h : store) (this : loc) (pc : option Point) (pT : option Transform)
    (h' : store) :
  draw cos sin fuel h this pc pT = Ok h' ->
  dom h' = dom h /\
  (forall m s', h' !! m = Some s' ->
     exists s, h !! m = Some s /\ s' = set_drawPoints (drawPoints s') s) /\
  (forall m, h' !! m = h !! m \/ desc h this m).
Proof.
  intros Hd. pose proof (draw_erase cos sin _ _ _ _ _ _ Hd) as He.
  split; [|split].
  - unfold erase in He. rewrite <- (dom_fmap_L (set_drawPoints []) h'), He.
    apply dom_fmap_L.
  - intros m s' Hm. destruct (erase_lookup h' h m s' He Hm) as [dp Hm'].
    exists (set_drawPoints dp s'). split; [exact Hm'|]. destruct s'; reflexivity.
  - apply (draw_touched cos sin _ _ _ _ _ _ Hd).
Qed.

Lemma draw_changes_only_caches_witness :
  dom example_drawn = dom example_unresolved_heap /\
  (example_drawn !! 1 = example_unresolved_heap !! 1 \/
   desc example_unresolved_heap 0 1).
Proof.
  destruct (draw_changes_only_caches cos_poly sin_poly 3 example_unresolved_heap 0
              (Some Point_.zero) (Some Transform_.default) example_drawn)
    as (Hdom & _ & Hout).
  - vm_compute. reflexivity.
  - split; [exact Hdom|apply Hout].
Defined.

(** X7. The store [draw] leaves does not depend on the [drawPoints] it
    finds: on two stores that differ in draw points only it returns for
    both and leaves the same objects at and below the drawn node; drawing
    the result once more changes nothing.  (The colours of the strokes,
    which are picked by [isStable] during the pass, do depend on them.) *)
Theorem draw_result_ignores_caches (cos sin : number -> number) (rank : loc -> nat)
    (fuel : nat) (h1 h2 : store) (this : loc) (pc : Point) (pT : Transform) :
  tree_ok rank h1 -> erase h1 = erase h2 -> is_Some (h1 !! this) ->
  rank this < fuel ->
  exists h1' h2',
    draw cos sin fuel h1 this (Some pc) (Some pT) = Ok h1' /\
    draw cos sin fuel h2 this (Some pc) (Some pT) = Ok h2' /\
    (forall m, desc h1 this m -> h1' !! m = h2' !! m) /\
    draw cos sin fuel h1' this (Some pc) (Some pT) = Ok h1'.
Proof.
  intros Hok He Hthis Hr.
  destruct (draw_deterministic cos sin rank fuel h1 h2 this pc pT Hok He Hthis Hr)
    as (h1' & h2' & Hd1 & Hd2 & Hsame).
  exists h1', h2'. repeat split; try assumption.
  apply (draw_idempotent cos sin rank fuel h1 h1' this pc pT Hok Hr Hd1).
Qed.

Lemma draw_result_ignores_caches_witness :
  exists h1' h2',
    draw cos_poly sin_poly 3 example_unresolved_heap 0
         (Some Point_.zero) (Some Transform_.default) = Ok h1' /\
    draw cos_poly sin_poly 3 example_drawn 0
         (Some Point_.zero) (Some Transform_.default) = Ok h2' /\
    (forall m, desc example_unresolved_heap 0 m -> h1' !! m = h2' !! m) /\
    draw cos_poly sin_poly 3 h1' 0 (Some Point_.zero) (Some Transform_.default)
      = Ok h1'.
Proof.
  apply (draw_result_ignores_caches cos_poly sin_poly example_rank 3
           example_unresolved_heap example_drawn 0).
  - apply tree_okb_correct. vm_compute. reflexivity.
  - vm_compute. reflexivity.
  - vm_compute. eauto.
  - cbn. lia.
Defined.

Section Flags.
Variables (cos sin : number -> number).

Lemma selection_ok_erase (h h' : store) (sel : option loc) :
  erase h = erase h' -> selection_ok h sel -> selection_ok h' sel.
Proof.
  intros He Hs l s' Hl.
  destruct (erase_lookup h' h l s' (eq_sym He) Hl) as [dp Hl'].
  apply (Hs l _ Hl').
Qed.

Lemma preview_ok_erase (h h' : store) (sel pn : option loc) :
  erase h = erase h' -> preview_ok h sel pn -> preview_ok h' sel pn.
Proof.
  intros He Hp l Hl. destruct (Hp l Hl) as (p & s & sp & H1 & H2 & H3 & H4 & H5 & H6 & H7).
  destruct (erase_lookup h h' l s He H2) as [dp Hl'].
  destruct (erase_lookup h h' p sp He H6) as [dpp Hp'].
  exists p, (set_drawPoints dp s), (set_drawPoints dpp sp). auto 10.
Qed.

Lemma flags_ok_render (fuel : nat) (c c' : Controller) :
  flags_ok c -> render cos sin fuel c = Ok c' -> flags_ok c'.
Proof.
  intros [Hs Hp] Hr. unfold render in Hr. apply bind_Ok in Hr as (h & Hd & [= <-]).
  pose proof (draw_erase cos sin _ _ _ _ _ _ Hd) as He.
  split; cbn [heap selectedNode previewNode set_heap].
  - apply (selection_ok_erase (heap c)); auto.
  - apply (preview_ok_erase (heap c)); auto.
Qed.

(** An assignment that keeps the flags and the links keeps the invariant. *)
Lemma flags_ok_update (c : Controller) (h' : store) (l : loc) (f : Shape -> Shape) :
  (forall s, selected (f s) = selected s /\ parent (f s) = parent s /\
             children (f s) = children s /\ type (f s) = type s) ->
  flags_ok c -> update (heap c) l f = Ok h' -> flags_ok (set_heap h' c).
Proof.
  intros Hf [Hs Hp] Hu. unfold update in Hu.
  apply bind_Ok in Hu as (s0 & Hs0 & [= <-]). cbn [deref] in Hs0.
  destruct (heap c !! l) as [s1|] eqn:Hl; [|discriminate]. injection Hs0 as ->.
  destruct (Hf s0) as (F1 & F2 & F3 & F4).
  assert (Hget : forall m sm, heap c !! m = Some sm ->
            exists sm', <[l := f s0]> (heap c) !! m = Some sm' /\
              selected sm' = selected sm /\ parent sm' = parent sm /\
              children sm' = children sm /\ type sm' = type sm).
  { intros m sm Hm. destruct (decide (l = m)) as [<-|Hne].
    - rewrite lookup_insert_eq. exists (f s0).
      assert (sm = s0) by congruence. subst sm. auto.
    - rewrite lookup_insert_ne by exact Hne. eauto 10. }
  split; cbn [heap selectedNode previewNode set_heap].
  - intros m sm Hm. destruct (decide (l = m)) as [<-|Hne].
    + rewrite lookup_insert_eq in Hm. injection Hm as <-. rewrite F1.
      apply (Hs l s0 Hl).
    + rewrite lookup_insert_ne in Hm by exact Hne. apply (Hs m sm Hm).
  - intros pn Hpn. destruct (Hp pn Hpn) as (p & s & sp & H1 & H2 & H3 & H4 & H5 & H6 & H7).
    destruct (Hget pn s H2) as (s' & Hs' & _ & G2 & G3 & G4).
    destruct (Hget p sp H6) as (sp' & Hsp' & _ & _ & G3' & _).
    exists p, s', sp'. repeat split; try congruence.
Qed.

Lemma selectNode_flags_ok (fuel : nat) (c c' : Controller) (node : loc) :
  flags_ok c -> selectNode cos sin fuel c node = Ok c' -> flags_ok c'.
Proof.
  intros Hc Hsel. unfold selectNode in Hsel.
  destruct (bool_decide (previewNode c <> None) || isInEdit c) eqn:Hblock;
    [injection Hsel as <-; exact Hc|].
  apply orb_false_iff in Hblock as [Hpn _].
  apply bool_decide_eq_false in Hpn.
  assert (Hnone : previewNode c = None)
    by (destruct (previewNode c); [exfalso; apply Hpn; discriminate|reflexivity]).
  apply bind_Ok in Hsel as (h1 & H1 & Hsel). apply bind_Ok in Hsel as (h2 & H2 & Hsel).
  apply (flags_ok_render fuel (set_selectedNode (Some node) (set_heap h2 c)) c');
    [|exact Hsel].
  split; cbn [heap selectedNode previewNode set_heap set_selectedNode].
  2:{ intros l Hl. congruence. }
  destruct Hc as [Hs _].
  assert (Hs1 : forall l s, h1 !! l = Some s -> l <> node -> selected s = false).
  { intros l s Hl Hne. destruct (selectedNode c) as [old|] eqn:Hold.
    - unfold update in H1. apply bind_Ok in H1 as (so & Hso & [= <-]).
      destruct (decide (old = l)) as [<-|Hol].
      + rewrite lookup_insert_eq in Hl. injection Hl as <-. reflexivity.
      + rewrite lookup_insert_ne in Hl by exact Hol.
        apply not_true_is_false. intros Ht. apply (Hs l s Hl) in Ht. congruence.
    - injection H1 as <-. apply not_true_is_false. intros Ht.
      apply (Hs l s Hl) in Ht. congruence. }
  unfold update in H2. apply bind_Ok in H2 as (sn & Hsn & [= <-]).
  intros l s Hl. destruct (decide (node = l)) as [<-|Hne].
  - rewrite lookup_insert_eq in Hl. injection Hl as <-. cbn. tauto.
  - rewrite lookup_insert_ne in Hl by exact Hne.
    rewrite (Hs1 l s Hl) by congruence. split; [discriminate|congruence].
Qed.

Lemma removePreviewNode_flags_ok (fuel : nat) (c c' : Controller) :
  flags_ok c -> removePreviewNode cos sin fuel c = Ok c' ->
  flags_ok c' /\ previewNode c' = None /\ isInEdit c' = false /\
  selectedNode c' = selectedNode c.
Proof.
  intros Hc Hr. unfold removePreviewNode in Hr.
  apply bind_Ok in Hr as (c1 & H1 & Hr).
  assert (Hc1 : selection_ok (heap c1) (selectedNode c1) /\ previewNode c1 = None /\
                isInEdit c1 = false /\ selectedNode c1 = selectedNode c).
  { cbn [previewNode set_isInEdit heap] in H1.
    destruct (previewNode c) as [pn|] eqn:Hpn.
    - apply bind_Ok in H1 as (s & Hs & H1). apply bind_Ok in H1 as (h & Hh & [= <-]).
      cbn [heap selectedNode previewNode isInEdit set_heap set_previewNode set_isInEdit].
      split; [|auto].
      unfold removeChild in Hh. apply bind_Ok in Hh as (sp & Hsp & Hh).
      destruct (parent s) as [p|]; [|discriminate]. injection Hh as <-.
      cbn [deref] in Hsp. destruct (heap c !! p) as [sp'|] eqn:Hp; [|discriminate].
      injection Hsp as ->. destruct Hc as [Hsel _].
      intros l sl Hl. destruct (decide (p = l)) as [<-|Hne].
      + rewrite lookup_insert_eq in Hl. injection Hl as <-. apply (Hsel p sp Hp).
      + rewrite lookup_insert_ne in Hl by exact Hne. apply (Hsel l sl Hl).
    - injection H1 as <-. cbn. destruct Hc as [Hsel _]. auto. }
  destruct Hc1 as (Hsel1 & Hpn1 & Hed1 & Hs1).
  destruct (render_selectedNode cos sin fuel c1 c' Hr) as (R1 & R2 & R3 & _).
  split; [|repeat split; congruence].
  apply (flags_ok_render fuel c1 c'); [|exact Hr].
  split; [exact Hsel1|]. rewrite Hpn1. intros l Hl. discriminate.
Qed.

(** Adding a newly built node under the selected node. *)
Lemma addNew_flags_ok (c : Controller) (h : store) (sel : loc) (T : Transform)
    (params : Params) :
  session_ok c -> selection_ok (heap c) (selectedNode c) ->
  selectedNode c = Some sel ->
  addChild (<[fresh (dom (heap c)) := buildFromParams cos sin (Some sel) T params]>
              (heap c)) sel (fresh (dom (heap c))) = Ok h ->
  selection_ok h (selectedNode c) /\
  preview_ok h (selectedNode c) (Some (fresh (dom (heap c)))).
Proof.
  intros (_ & _ & Hin) Hsel Hs Ha.
  set (l := fresh (dom (heap c))) in *.
  assert (Hfresh : heap c !! l = None) by apply not_elem_of_dom, is_fresh.
  destruct (Hin sel Hs) as [ss Hss].
  assert (Hne : l <> sel) by congruence.
  unfold addChild, update in Ha. cbn [deref] in Ha.
  rewrite lookup_insert_ne, Hss in Ha by exact Hne. cbn [bind] in Ha.
  injection Ha as <-.
  destruct (buildFromParams_fields cos sin (Some sel) T params) as (_ & Hch & Hty & Hpar).
  split.
  - intros m sm Hm. destruct (decide (sel = m)) as [<-|Hms].
    + rewrite lookup_insert_eq in Hm. injection Hm as <-. apply (Hsel sel ss Hss).
    + rewrite lookup_insert_ne in Hm by exact Hms.
      destruct (decide (l = m)) as [<-|Hml].
      * rewrite lookup_insert_eq in Hm. injection Hm as <-.
        split; [|congruence].
        destruct T, params; discriminate.
      * rewrite lookup_insert_ne in Hm by exact Hml. apply (Hsel m sm Hm).
  - intros l' [= <-]. eexists sel, _, _. split; [exact Hs|].
    split; [rewrite lookup_insert_ne, lookup_insert_eq by congruence; reflexivity|].
    split; [exact Hpar|]. split; [exact Hch|]. split; [exact Hty|].
    split; [apply lookup_insert_eq|]. cbn [children set_children]. apply last_snoc.
Qed.

Lemma preview_flags_ok (fuel : nat) (c c' : Controller) (T : Transform)
    (params : Params) (b : bool) :
  session_ok c -> flags_ok c ->
  preview cos sin fuel c T params = Ok (b, c') -> flags_ok c'.
Proof.
  intros Hok Hc Hp. unfold preview in Hp.
  apply bind_Ok in Hp as (c1 & H1 & Hp).
  pose proof (removePreviewNode_session_ok cos sin fuel c c1 Hok H1) as Hok1.
  apply removePreviewNode_flags_ok in H1 as (Hc1 & Hpn1 & _); [|exact Hc].
  destruct (selectedNode c1) as [sel|] eqn:Hsel; [|injection Hp as _ <-; exact Hc1].
  apply bind_Ok in Hp as (h & Hh & Hp). apply bind_Ok in Hp as (c2 & H2 & [= _ <-]).
  apply (flags_ok_render fuel (set_previewNode (Some (fresh (dom (heap c1))))
                                 (set_heap h c1)) c2); [|exact H2].
  destruct Hc1 as [Hs1 _].
  destruct (addNew_flags_ok c1 h sel T params Hok1 Hs1 Hsel Hh) as [Hs Hp'].
  split; assumption.
Qed.

Lemma createNode_flags_ok (fuel : nat) (c c' : Controller) (T : Transform)
    (params : Params) (b : bool) :
  session_ok c -> flags_ok c ->
  createNode cos sin fuel c T params = Ok (b, c') -> flags_ok c'.
Proof.
  intros Hok Hc Hp. unfold createNode in Hp.
  apply bind_Ok in Hp as (stable & _ & Hp).
  destruct (negb stable); [injection Hp as _ <-; exact Hc|].
  apply bind_Ok in Hp as (c1 & H1 & Hp).
  pose proof (removePreviewNode_session_ok cos sin fuel c c1 Hok H1) as Hok1.
  apply removePreviewNode_flags_ok in H1 as (Hc1 & Hpn1 & _); [|exact Hc].
  destruct (selectedNode c1) as [sel|] eqn:Hsel; [|injection Hp as _ <-; exact Hc1].
  apply bind_Ok in Hp as (h & Hh & Hp). apply bind_Ok in Hp as (c2 & H2 & [= _ <-]).
  apply (flags_ok_render fuel (set_heap h c1) c2); [|exact H2].
  destruct Hc1 as [Hs1 _].
  destruct (addNew_flags_ok c1 h sel T params Hok1 Hs1 Hsel Hh) as [Hs _].
  split; [exact Hs|]. cbn [previewNode set_heap]. rewrite Hpn1.
  intros l Hl. discriminate.
Qed.

Lemma set_transform_flags (t : Transform) (s : Shape) :
  selected (set_transform t s) = selected s /\
  parent (set_transform t s) = parent s /\
  children (set_transform t s) = children s /\
  type (set_transform t s) = type s.
Proof. repeat split. Qed.

Lemma translate_flags_ok (fuel : nat) (c c' : Controller) (delta : Transform)
    (b : bool) :
  flags_ok c -> translate cos sin fuel c delta = Ok (b, c') -> flags_ok c'.
Proof.
  intros Hc Ht. unfold translate in Ht.
  apply bind_Ok in Ht as (sel & _ & Ht).
  destruct (is_Canvas (type sel)); [injection Ht as _ <-; exact Hc|].
  destruct (selectedNode c) as [l|] eqn:Hsel; [|discriminate].
  apply bind_Ok in Ht as (h & Hh & Ht). apply bind_Ok in Ht as (c1 & H1 & Ht).
  apply bind_Ok in Ht as (stable & _ & Ht).
  apply (flags_ok_update c) in Hh;
    [|intros s; apply set_transform_flags|exact Hc].
  apply flags_ok_render in H1; [|exact Hh].
  destruct stable.
  - injection Ht as _ <-. destruct c1; exact H1.
  - apply bind_Ok in Ht as (h2 & H2 & [= _ <-]).
    apply (flags_ok_update c1) in H2;
      [exact H2|intros s; apply set_transform_flags|exact H1].
Qed.

Lemma previewTranslate_flags_ok (fuel : nat) (c c' : Controller)
    (delta : Transform) :
  flags_ok c -> previewTranslate cos sin fuel c delta = Ok c' -> flags_ok c'.
Proof.
  intros Hc Ht. unfold previewTranslate in Ht.
  assert (Hc0 : flags_ok (set_isInEdit true c)) by (destruct c; exact Hc).
  apply bind_Ok in Ht as (sel & _ & Ht).
  destruct (is_Canvas (type sel)); [injection Ht as <-; exact Hc0|].
  cbn [selectedNode set_isInEdit] in Ht.
  destruct (selectedNode c) as [l|] eqn:Hsel; [|discriminate].
  apply bind_Ok in Ht as (h & Hh & Ht). apply bind_Ok in Ht as (c1 & H1 & Ht).
  apply (flags_ok_update (set_isInEdit true c)) in Hh;
    [|intros s; apply set_transform_flags|exact Hc0].
  apply flags_ok_render in H1; [|exact Hh].
  apply bind_Ok in Ht as (h2 & H2 & [= <-]).
  apply (flags_ok_update c1) in H2;
    [exact H2|intros s; apply set_transform_flags|exact H1].
Qed.

Lemma new_Controller_flags_ok (fuel : nat) (width height : number)
    (c : Controller) :
  new_Controller cos sin fuel width height = Ok c -> flags_ok c.
Proof.
  intros Hn. unfold new_Controller in Hn.
  apply bind_Ok in Hn as (c1 & H1 & Hn).
  apply (flags_ok_render fuel c1 c); [|exact Hn].
  apply (selectNode_flags_ok fuel _ c1 _) in H1; [exact H1|].
  split; cbn [heap selectedNode previewNode].
  - intros l s Hl. apply lookup_insert_Some in Hl as [[_ <-]|[_ Hl]];
      [|rewrite lookup_empty in Hl; discriminate].
    cbn. split; discriminate.
  - intros l Hl. discriminate.
Qed.

Lemma reachable_flags_ok (c : Controller) :
  reachable cos sin c -> flags_ok c.
Proof.
  induction 1 as [fuel width height c Hn|c c' Hreach IH Hstep].
  - apply (new_Controller_flags_ok _ _ _ _ Hn).
  - pose proof (reachable_session_ok cos sin c Hreach) as Hok.
    destruct Hstep.
    + eapply selectNode_flags_ok; eauto.
    + eapply removePreviewNode_flags_ok; eauto.
    + eapply preview_flags_ok; eauto.
    + eapply createNode_flags_ok; eauto.
    + eapply translate_flags_ok; eauto.
    + eapply previewTranslate_flags_ok; eauto.
    + eapply flags_ok_render; eauto.
Qed.

End Flags.

Lemma example_previewed_reachable : reachable cos_poly sin_poly example_previewed.
Proof.
  apply (reachable_step _ _ example_new).
  - apply (reachable_new _ _ 3 640 480). vm_compute. reflexivity.
  - apply (step_preview _ _ 3 _ Transform_.default (RectangleParams 100 50) true).
    vm_compute. reflexivity.
Qed.

(** X8. In every state a session reaches exactly the selected node carries
    the [selected] flag: an object of the store has [selected = true] if
    and only if it is [selectedNode]. *)
Theorem selection_is_unique (cos sin : number -> number) (c : Controller) :
  reachable cos sin c ->
  forall l s, heap c !! l = Some s ->
    (selected s = true <-> selectedNode c = Some l).
Proof. intros Hr. apply (reachable_flags_ok cos sin c Hr). Qed.

Lemma selection_is_unique_witness :
  (selected example_rectangle = true <-> selectedNode example_state = Some 2) /\
  (selected example_canvas = true <-> selectedNode example_state = Some 0).
Proof.
  split.
  - apply (selection_is_unique cos_poly sin_poly example_state example_reachable 2).
    reflexivity.
  - apply (selection_is_unique cos_poly sin_poly example_state example_reachable 0).
    reflexivity.
Defined.

(** X9. In every state a session reaches a preview node, if there is one,
    is an object without children that is not a canvas, its parent is the
    selected node, and it is the last of the children of that node. *)
Theorem preview_is_last_child_of_selected (cos sin : number -> number)
    (c : Controller) (pn : loc) :
  reachable cos sin c -> previewNode c = Some pn ->
  exists p s sp,
    selectedNode c = Some p /\ heap c !! pn = Some s /\ parent s = Some p /\
    children s = [] /\ type s <> Canvas /\
    heap c !! p = Some sp /\ last (children sp) = Some pn.
Proof. intros Hr. apply (reachable_flags_ok cos sin c Hr). Qed.

Lemma preview_is_last_child_of_selected_witness :
  exists p s sp,
    selectedNode example_previewed = Some p /\
    heap example_previewed !! 1 = Some s /\ parent s = Some p /\
    children s = [] /\ type s <> Canvas /\
    heap example_previewed !! p = Some sp /\ last (children sp) = Some 1.
Proof.
  apply (preview_is_last_child_of_selected cos_poly sin_poly example_previewed 1
           example_previewed_reachable).
  reflexivity.
Defined.

Section SelectAtPointProofs.
Variables (cos sin : number -> number).

Lemma selectNodeAtPoint_for_spec (h : store) (point : Point) (cs : list loc) :
  (forall c, c ∈ cs -> is_Some (h !! c)) ->
  exists found, selectNodeAtPoint_for h point cs = Ok found /\
    match found with
    | Some child =>
        child ∈ cs /\
        exists sc, h !! child = Some sc /\
                   isPointInside (drawPoints sc) point = Ok true
    | None =>
        forall c sc, c ∈ cs -> h !! c = Some sc ->
                     isPointInside (drawPoints sc) point = Ok false
    end.
Proof.
  induction cs as [|c cs IH]; intros Hin; cbn [selectNodeAtPoint_for].
  - exists None. split; [reflexivity|]. intros c sc Hc. inversion Hc.
  - destruct (Hin c ltac:(left)) as [sc Hsc]. cbn [deref]. rewrite Hsc. cbn [bind].
    rewrite isPointInside_value. cbn [bind].
    destruct (crossing_number_spec (drawPoints sc) point) eqn:Hcn.
    + exists (Some c). split; [reflexivity|]. split; [left|].
      exists sc. split; [exact Hsc|]. rewrite isPointInside_value, Hcn. reflexivity.
    + destruct IH as (found & Hf & Hspec).
      { intros c0 Hc0. apply Hin. right. exact Hc0. }
      exists found. split; [exact Hf|]. destruct found as [child|].
      * destruct Hspec as [Hc Hs]. split; [right; exact Hc|exact Hs].
      * intros c0 sc0 Hc0 Hsc0. apply elem_of_cons in Hc0 as [->|Hc0].
        -- assert (sc0 = sc) by congruence. subst sc0.
           rewrite isPointInside_value, Hcn. reflexivity.
        -- apply (Hspec c0 sc0 Hc0 Hsc0).
Qed.

Lemma hit_desc (h : store) (point : Point) (a m : loc) :
  hit h point a m -> desc h a m.
Proof.
  induction 1 as [a|a s c sc m Ha Hc Hsc Hin _ IH]; [apply desc_refl|].
  apply (desc_child h a s c m Ha Hc IH).
Qed.

Lemma selectNodeAtPoint_while_spec (rank : loc -> nat) (h : store) (point : Point)
    (fuel : nat) : forall start,
  tree_ok rank h -> is_Some (h !! start) -> rank start < fuel ->
  exists node sn,
    selectNodeAtPoint_while fuel h start point = Ok node /\
    hit h point start node /\ h !! node = Some sn /\
    forall c sc, c ∈ children sn -> h !! c = Some sc ->
                 isPointInside (drawPoints sc) point = Ok false.
Proof.
  induction fuel as [|fuel IH]; intros start Hok [s Hs] Hr; [lia|].
  cbn [selectNodeAtPoint_while deref]. rewrite Hs. cbn [bind].
  destruct (Hok start s Hs) as (_ & Hch & _).
  destruct (selectNodeAtPoint_for_spec h point (children s)) as (found & Hf & Hspec).
  { intros c Hc. destruct (Hch c Hc) as (_ & sc & Hsc & _). eauto. }
  rewrite Hf. cbn [bind]. destruct found as [child|].
  - destruct Hspec as (Hc & sc & Hsc & Hin).
    destruct (Hch child Hc) as (Hlt & _).
    destruct (IH child Hok ltac:(eauto) ltac:(lia)) as (node & sn & Hw & Hhit & Hn & Hnone).
    exists node, sn. split; [exact Hw|]. split; [|auto].
    apply (hit_child h point start s child sc node); assumption.
  - exists start, s. split; [reflexivity|]. split; [apply hit_here|]. auto.
Qed.

Lemma selectNode_total (rank : loc -> nat) (fuel : nat) (c : Controller) (node : loc) :
  session_ok c -> tree_ok rank (heap c) -> rank (canvas c) < fuel ->
  is_Some (heap c !! node) ->
  exists c', selectNode cos sin fuel c node = Ok c' /\
    (previewNode c = None -> isInEdit c = false -> selectedNode c' = Some node).
Proof.
  intros (_ & Hcv & Hsel) Hok Hr Hnode. unfold selectNode.
  destruct (bool_decide (previewNode c <> None) || isInEdit c) eqn:Hblock.
  { exists c. split; [reflexivity|]. intros Hpn Hed. rewrite Hpn, Hed in Hblock.
    rewrite bool_decide_eq_false_2 in Hblock by (intros H; apply H; reflexivity).
    discriminate. }
  assert (H1 : exists h1, match selectedNode c with
                          | Some old => update (heap c) old (set_selected false)
                          | None => Ok (heap c)
                          end = Ok h1 /\ extends (heap c) h1 /\ tree_ok rank h1).
  { destruct (selectedNode c) as [old|] eqn:Hold.
    - destruct (Hsel old eq_refl) as [so Hso]. unfold update at 1. cbn [deref].
      rewrite Hso. cbn [bind]. eexists. split; [reflexivity|].
      destruct (update_ok rank (heap c) (<[old := set_selected false so]> (heap c))
                  old (set_selected false)) as [He Ht];
        [intros s; repeat split; auto| |split; [exact He|apply Ht, Hok]].
      unfold update. cbn [deref]. rewrite Hso. reflexivity.
    - exists (heap c). split; [reflexivity|]. split; [apply extends_refl|exact Hok]. }
  destruct H1 as (h1 & -> & Hext1 & Hok1). cbn [bind].
  destruct (Hext1 node Hnode) as [sn Hsn].
  unfold update. cbn [deref]. rewrite Hsn. cbn [bind].
  assert (Hu : update h1 node (set_selected true) = Ok (<[node := set_selected true sn]> h1))
    by (unfold update; cbn [deref]; rewrite Hsn; reflexivity).
  destruct (update_ok rank h1 _ node (set_selected true)
              ltac:(intros s; repeat split; auto) Hu) as [Hext2 Hok2].
  destruct (render_total cos sin rank fuel
              (set_selectedNode (Some node)
                 (set_heap (<[node := set_selected true sn]> h1) c)))
    as (h3 & Hrender & _).
  - apply Hok2, Hok1.
  - apply Hext2, Hext1, Hcv.
  - exact Hr.
  - eexists. split; [exact Hrender|]. intros _ _. reflexivity.
Qed.

End SelectAtPointProofs.

(** X10. In every state a session reaches [selectNodeAtPoint] returns: the
    walk from the canvas ends at a node that was reached through children
    that contain the point and none of whose own children contains the
    point, and that node is handed to [selectNode]; it becomes the selected
    node unless a preview or an edit is pending, in which case nothing
    changes. *)
Theorem selectNodeAtPoint_picks (cos sin : number -> number) (c : Controller)
    (point : Point) :
  reachable cos sin c ->
  exists N, forall fuel, N < fuel ->
  exists node sn c',
    selectNodeAtPoint_while fuel (heap c) (canvas c) point = Ok node /\
    selectNodeAtPoint cos sin fuel c point = Ok c' /\
    hit (heap c) point (canvas c) node /\
    heap c !! node = Some sn /\
    (forall child sc, child ∈ children sn -> heap c !! child = Some sc ->
       isPointInside (drawPoints sc) point = Ok false) /\
    (previewNode c = None -> isInEdit c = false -> selectedNode c' = Some node) /\
    (previewNode c <> None \/ isInEdit c = true -> c' = c).
Proof.
  intros Hreach.
  pose proof (reachable_session_ok cos sin c Hreach) as Hs.
  destruct Hs as ([rank Hok] & Hcv & Hsel).
  exists (rank (canvas c)). intros fuel Hfuel.
  destruct (selectNodeAtPoint_while_spec rank (heap c) point fuel (canvas c)
              Hok Hcv Hfuel) as (node & sn & Hw & Hhit & Hn & Hnone).
  destruct (selectNode_total cos sin rank fuel c node) as (c' & Hc' & Hnew);
    [split; [eauto|split; assumption]|exact Hok|exact Hfuel|eauto|].
  exists node, sn, c'. split; [exact Hw|].
  split; [unfold selectNodeAtPoint; rewrite Hw; exact Hc'|].
  repeat (split; [assumption|]).
  intros Hblock. unfold selectNode in Hc'.
  destruct (bool_decide (previewNode c <> None) || isInEdit c) eqn:Hb;
    [congruence|].
  apply orb_false_iff in Hb as [Hpn Hed]. apply bool_decide_eq_false in Hpn.
  destruct Hblock as [H|H]; [contradiction|congruence].
Qed.

Lemma selectNodeAtPoint_picks_witness :
  exists N, forall fuel, N < fuel ->
  exists node sn c',
    selectNodeAtPoint_while fuel (heap example_created) 0 (mkPoint 300 240) = Ok node /\
    selectNodeAtPoint cos_poly sin_poly fuel example_created (mkPoint 300 240) = Ok c' /\
    hit (heap example_created) (mkPoint 300 240) 0 node /\
    heap example_created !! node = Some sn.
Proof.
  destruct (selectNodeAtPoint_picks cos_poly sin_poly example_created (mkPoint 300 240))
    as [N HN].
  - apply (reachable_step _ _ example_previewed).
    + apply (reachable_step _ _ example_new).
      * apply (reachable_new _ _ 3 640 480). vm_compute. reflexivity.
      * apply (step_preview _ _ 3 _ Transform_.default (RectangleParams 100 50) true).
        vm_compute. reflexivity.
    + apply (step_createNode _ _ 3 _ Transform_.default (RectangleParams 100 50) true).
      vm_compute. reflexivity.
  - exists N. intros fuel Hfuel.
    destruct (HN fuel Hfuel) as (node & sn & c' & H1 & H2 & H3 & H4 & _).
    exists node, sn, c'. auto.
Defined.

(** X11. In every state a session reaches [render] returns and throws
    nothing; it changes draw points only, leaves the whole tree below the
    canvas resolved, a second [render] changes nothing more, and afterwards
    [isStable] returns on every object. *)
Theorem render_in_session (cos sin : number -> number) (c : Controller) :
  reachable cos sin c ->
  exists N, forall fuel, N < fuel ->
  exists c',
    render cos sin fuel c = Ok c' /\
    render cos sin fuel c' = Ok c' /\
    erase (heap c') = erase (heap c) /\
    resolved cos sin (heap c') (canvas c) Point_.zero 0 Point_.unit /\
    forall l, is_Some (heap c !! l) -> exists b, isStable (heap c') l = Ok b.
Proof.
  intros Hreach.
  destruct (reachable_session_ok cos sin c Hreach) as ([rank Hok] & Hcv & _).
  exists (rank (canvas c)). intros fuel Hfuel.
  destruct (draw_resolved cos sin rank fuel (heap c) (canvas c) Point_.zero
              Transform_.default Hok Hcv Hfuel) as (h & Hd & Hres).
  pose proof (draw_erase cos sin _ _ _ _ _ _ Hd) as He.
  exists (set_heap h c). unfold render. rewrite Hd. cbn [bind heap canvas set_heap].
  split; [reflexivity|].
  rewrite (draw_idempotent cos sin rank fuel (heap c) h (canvas c) _ _ Hok Hfuel Hd).
  cbn [bind]. split; [destruct c; reflexivity|]. split; [exact He|].
  split; [exact Hres|].
  intros l Hl. apply (isStable_total rank).
  - apply (tree_ok_erase rank (heap c)); auto.
  - apply (extends_erase (heap c) h); auto.
Qed.

Lemma render_in_session_witness :
  exists N, forall fuel, N < fuel ->
  exists c',
    render cos_poly sin_poly fuel example_state = Ok c' /\
    render cos_poly sin_poly fuel c' = Ok c'.
Proof.
  destruct (render_in_session cos_poly sin_poly example_state example_reachable)
    as [N HN].
  exists N. intros fuel Hfuel. destruct (HN fuel Hfuel) as (c' & H1 & H2 & _).
  exists c'. split; assumption.
Defined.

(** X12. [previewTranslate] on a selected canvas only sets [isInEdit].  On
    any other selected node, in every state a session reaches, it returns
    with [isInEdit] set and every transform as before the call: only the
    draw points differ, they are those of the render with the moved
    transform.  Until the edit ends [selectNode] changes nothing. *)
Theorem previewTranslate_restores (cos sin : number -> number)
    (c : Controller) (delta : Transform) (l : loc) (sel : Shape) :
  reachable cos sin c ->
  selectedNode c = Some l -> heap c !! l = Some sel ->
  (type sel = Canvas ->
     forall fuel, previewTranslate cos sin fuel c delta = Ok (set_isInEdit true c)) /\
  (type sel <> Canvas ->
     let moved := Transform_.add (transform sel) delta in
     exists N, forall fuel, N < fuel ->
     exists c1 c',
       render cos sin fuel
         (set_heap (<[l := set_transform moved sel]> (heap c)) (set_isInEdit true c))
         = Ok c1 /\
       previewTranslate cos sin fuel c delta = Ok c' /\
       (forall m, drawPoints <$> heap c' !! m = drawPoints <$> heap c1 !! m) /\
       erase (heap c') = erase (heap c) /\
       canvas c' = canvas c /\ selectedNode c' = selectedNode c /\
       previewNode c' = previewNode c /\ isInEdit c' = true /\
       forall fuel' node, selectNode cos sin fuel' c' node = Ok c').
Proof.
  intros Hreach Hsel Hl. split.
  - intros Hty fuel. unfold previewTranslate. cbn [heap selectedNode set_isInEdit].
    rewrite Hsel. cbn [deref]. rewrite Hl. cbn [bind]. rewrite Hty. reflexivity.
  - intros Hty moved.
    destruct (reachable_session_ok cos sin c Hreach) as ([rank Hok] & Hcv & _).
    exists (rank (canvas c)). intros fuel Hfuel.
    set (h0 := <[l := set_transform moved sel]> (heap c)).
    assert (Hok0 : tree_ok rank h0)
      by (apply (tree_ok_insert_same rank (heap c) l sel); auto).
    assert (Hcv0 : is_Some (h0 !! canvas c)).
    { subst h0. destruct (decide (l = canvas c)) as [->|Hne].
      - rewrite lookup_insert_eq. eauto.
      - rewrite lookup_insert_ne by exact Hne. exact Hcv. }
    destruct (render_total cos sin rank fuel (set_heap h0 (set_isInEdit true c))
                Hok0 Hcv0 Hfuel) as (h1 & Hrender & He1).
    cbn [heap set_heap] in He1.
    destruct (erase_lookup h0 h1 l _ (eq_sym He1) (lookup_insert_eq _ _ _))
      as [dp Hl1].
    assert (Hty' : is_Canvas (type sel) = false)
      by (destruct (type sel); cbn; congruence).
    eexists _, _. split; [exact Hrender|].
    split.
    { unfold previewTranslate. cbn [heap selectedNode set_isInEdit].
      rewrite Hsel. cbn [deref]. rewrite Hl. cbn [bind]. rewrite Hty'.
      unfold update at 1. cbn [deref]. rewrite Hl. cbn [bind].
      fold moved. fold h0.
      replace (set_heap h0 (mkController (heap c) (canvas c) (Some l) (previewNode c) true))
        with (set_heap h0 (set_isInEdit true c))
        by (unfold set_heap, set_isInEdit; cbn; rewrite Hsel; reflexivity).
      rewrite Hrender. cbn [bind heap set_heap].
      unfold update. cbn [deref]. rewrite Hl1. cbn [bind]. reflexivity. }
    cbn [heap set_heap canvas selectedNode previewNode isInEdit set_isInEdit].
    split.
    { intros m. destruct (decide (l = m)) as [<-|Hne].
      - rewrite lookup_insert_eq, Hl1. reflexivity.
      - rewrite lookup_insert_ne by exact Hne. reflexivity. }
    split; [apply (erase_restore (heap c) h1 l sel _ moved Hl He1 Hl1)|].
    repeat (split; [reflexivity|]).
    intros fuel' node. unfold selectNode.
    cbn [previewNode isInEdit]. rewrite orb_true_r. reflexivity.
Qed.

Lemma previewTranslate_restores_witness :
  exists N, forall fuel, N < fuel ->
  exists c1 c',
    render cos_poly sin_poly fuel
      (set_heap (<[2 := set_transform
                          (Transform_.add (transform example_rectangle) example_delta)
                          example_rectangle]> (heap example_state))
                (set_isInEdit true example_state)) = Ok c1 /\
    previewTranslate cos_poly sin_poly fuel example_state example_delta = Ok c' /\
    erase (heap c') = erase (heap example_state).
Proof.
  destruct (proj2 (previewTranslate_restores cos_poly sin_poly example_state
              example_delta 2 example_rectangle example_reachable
              eq_refl eq_refl) ltac:(discriminate)) as [N HN].
  exists N. intros fuel Hfuel.
  destruct (HN fuel Hfuel) as (c1 & c' & H1 & H2 & _ & H3 & _).
  exists c1, c'. auto.
Defined.

Section Grown.
Variables (cos sin : number -> number).

Lemma desc_leaf (h : store) (l m : loc) (sl : Shape) :
  h !! l = Some sl -> children sl = [] -> desc h l m -> m = l.
Proof.
  intros Hl Hch Hd. inversion Hd as [|a s c m' Ha Hc _]; subst; [reflexivity|].
  assert (s = sl) by congruence. subst s. rewrite Hch in Hc. inversion Hc.
Qed.

Lemma desc_grown (l : loc) (h h' : store) (a m : loc) :
  grown l h h' -> desc h' a m -> a <> l -> m <> l -> desc h a m.
Proof.
  intros (Hl & (sl & Hsl & Hch) & Hold & Hnew) Hd.
  induction Hd as [a|a s' c m Ha Hc Hd IH]; intros Hal Hml; [apply desc_refl|].
  destruct (Hnew a Hal ltac:(eauto)) as [s Hs].
  destruct (Hold a s Hal Hs) as (s'' & Hs'' & _ & Halt).
  assert (s'' = s') by congruence. subst s''.
  destruct (decide (c = l)) as [->|Hcl].
  { exfalso. apply Hml. apply (desc_leaf h' l m sl Hsl Hch Hd). }
  apply (desc_child h a s c m Hs); [|apply IH; assumption].
  destruct Halt as [E|E]; rewrite E in Hc; [exact Hc|].
  apply elem_of_app in Hc as [Hc|Hc]; [exact Hc|].
  apply list_elem_of_singleton in Hc. contradiction.
Qed.

Lemma desc_grown_up (l : loc) (h h' : store) (a m : loc) :
  grown l h h' -> desc h a m -> desc h' a m.
Proof.
  intros (Hl & _ & Hold & _) Hd.
  induction Hd as [a|a s c m Ha Hc Hd IH]; [apply desc_refl|].
  assert (Hal : a <> l) by congruence.
  destruct (Hold a s Hal Ha) as (s' & Hs' & _ & Halt).
  apply (desc_child h' a s' c m Hs'); [|exact IH].
  destruct Halt as [E|E]; rewrite E; [exact Hc|].
  apply elem_of_app. left. exact Hc.
Qed.

(** Two stores resolved from [a] for the same parent data hold the same draw
    points at and below [a], when the second has the transforms and local
    points of the first and at least its children. *)
Lemma resolved_agree_sub (h1 h2 : store) (a : loc) (pc : Point) (rot : number)
    (sc : Point) :
  resolved cos sin h1 a pc rot sc -> resolved cos sin h2 a pc rot sc ->
  (forall m s1, desc h1 a m -> h1 !! m = Some s1 ->
     exists s2, h2 !! m = Some s2 /\ transform s1 = transform s2 /\
                points s1 = points s2 /\
                forall c, c ∈ children s1 -> c ∈ children s2) ->
  forall m s1, desc h1 a m -> h1 !! m = Some s1 ->
    exists s2, h2 !! m = Some s2 /\ drawPoints s1 = drawPoints s2.
Proof.
  intros Hr. induction Hr as [a s pc rot sc Ha Hdp _ IH]. intros Hr2 Hsame.
  inversion Hr2 as [a' s2 pc' rot' sc' Ha2 Hdp2 Hch2]; subst.
  destruct (Hsame a s (desc_refl h1 a) Ha) as (s2' & Ha2' & Ht & Hp & Hc).
  assert (s2' = s2) by congruence. subst s2'.
  assert (Hdps : drawPoints s = drawPoints s2) by (rewrite Hdp, Hdp2, Ht, Hp; reflexivity).
  intros m s1 Hm Hs1. inversion Hm as [|a0 s' c m' Ha0 Hc0 Hd]; subst.
  - assert (s1 = s) by congruence. subst s1. eauto.
  - assert (s' = s) by congruence. subst s'.
    apply (IH c Hc0); [| |exact Hd|exact Hs1].
    + rewrite Hdps, Ht. apply Hch2, Hc, Hc0.
    + intros m0 s0 Hm0. apply Hsame. apply (desc_child h1 a s c m0 Ha Hc0 Hm0).
Qed.

Lemma erase_children (h h' : store) (m : loc) (s s' : Shape) :
  erase h = erase h' -> h !! m = Some s -> h' !! m = Some s' ->
  s' = set_drawPoints (drawPoints s') s.
Proof.
  intros He Hs Hs'. destruct (erase_lookup h h' m s He Hs) as [dp Hdp].
  assert (s' = set_drawPoints dp s) by congruence. subst s'. reflexivity.
Qed.

Lemma grown_erase (l : loc) (h h' r r' : store) :
  erase r = erase h -> erase r' = erase h' -> grown l h h' ->
  (forall m s s', m <> l -> r !! m = Some s -> r' !! m = Some s' ->
     drawPoints s = drawPoints s') ->
  grown l r r'.
Proof.
  intros He He' (Hl & (sl & Hsl & Hch) & Hold & Hnew) Hdp.
  split; [|split; [|split]].
  - destruct (r !! l) as [s|] eqn:Hr; [|reflexivity].
    destruct (erase_lookup r h l s He Hr) as [dp Hh]. congruence.
  - destruct (erase_lookup h' r' l sl (eq_sym He') Hsl) as [dp Hr'].
    eexists. split; [exact Hr'|exact Hch].
  - intros m s Hml Hr.
    destruct (erase_lookup r h m s He Hr) as [dp Hh].
    destruct (Hold m _ Hml Hh) as (s' & Hs' & Heq & Halt).
    destruct (erase_lookup h' r' m s' (eq_sym He') Hs') as [dp' Hr'].
    exists (set_drawPoints dp' s'). split; [exact Hr'|].
    pose proof (Hdp m s _ Hml Hr Hr') as Hd. cbn in Hd. subst dp'.
    cbn [children set_drawPoints] in *. split; [|exact Halt].
    rewrite Heq. destruct s, s'; cbn in *. reflexivity.
  - intros m Hml [s' Hr'].
    destruct (erase_lookup r' h' m s' He' Hr') as [dp Hh'].
    destruct (Hnew m Hml ltac:(eauto)) as [s Hs].
    apply (extends_erase h r (eq_sym He)). eauto.
Qed.

(** Drawing a store and the same store grown by one object: the objects of
    the first end up the same in both. *)
Lemma draw_grown (rank rank' : loc -> nat) (fuel : nat) (l : loc) (h h' : store)
    (a : loc) (pc : Point) (pT : Transform) :
  tree_ok rank h -> tree_ok rank' h' -> grown l h h' ->
  a <> l -> is_Some (h !! a) -> rank a < fuel -> rank' a < fuel ->
  exists r r',
    draw cos sin fuel h a (Some pc) (Some pT) = Ok r /\
    draw cos sin fuel h' a (Some pc) (Some pT) = Ok r' /\
    grown l r r' /\
    resolved cos sin r' a pc (rotation pT) (scale pT).
Proof.
  intros Hok Hok' Hg Hal Ha Hr Hr'.
  assert (Ha' : is_Some (h' !! a)).
  { destruct Ha as [s Hs]. destruct Hg as (_ & _ & Hold & _).
    destruct (Hold a s Hal Hs) as (s' & Hs' & _). eauto. }
  destruct (draw_resolved cos sin rank fuel h a pc pT Hok Ha Hr) as (r & Hd & Hres).
  destruct (draw_resolved cos sin rank' fuel h' a pc pT Hok' Ha' Hr') as (r' & Hd' & Hres').
  exists r, r'. split; [exact Hd|]. split; [exact Hd'|]. split; [|exact Hres'].
  pose proof (draw_erase cos sin _ _ _ _ _ _ Hd) as He.
  pose proof (draw_erase cos sin _ _ _ _ _ _ Hd') as He'.
  apply (grown_erase l h h'); try assumption.
  intros m s s' Hml Hs Hs'.
  assert (Hbelow : desc h a m -> drawPoints s = drawPoints s').
  { intros Hdm.
    destruct (resolved_agree_sub r r' a pc _ _ Hres Hres') with (m := m) (s1 := s)
      as (s2 & Hs2 & Heq).
    - intros m0 s0 Hm0 Hs0.
      assert (Hm0l : m0 <> l).
      { intros ->. destruct Hg as (Hl & _).
        destruct (erase_lookup r h l s0 He Hs0) as [dp Hh]. congruence. }
      destruct (erase_lookup r h m0 s0 He Hs0) as [dp Hh].
      destruct Hg as (_ & _ & Hold & _).
      destruct (Hold m0 _ Hm0l Hh) as (s0' & Hs0' & Heq0 & Halt).
      destruct (erase_lookup h' r' m0 s0' (eq_sym He') Hs0') as [dp' Hr0'].
      exists (set_drawPoints dp' s0'). split; [exact Hr0'|].
      cbn [transform points children set_drawPoints].
      rewrite Heq0. cbn [transform points children set_children set_drawPoints].
      split; [reflexivity|]. split; [reflexivity|].
      intros c Hc. destruct Halt as [E|E]; cbn [children set_drawPoints] in E;
        rewrite E; [exact Hc|apply elem_of_app; left; exact Hc].
    - apply (desc_erase h r); [congruence|exact Hdm].
    - exact Hs.
    - congruence. }
  destruct (draw_touched cos sin _ _ _ _ _ _ Hd' m) as [Hsame'|Hdm'].
  2:{ apply Hbelow. apply (desc_grown l h h' a m Hg Hdm' Hal Hml). }
  destruct (draw_touched cos sin _ _ _ _ _ _ Hd m) as [Hsame|Hdm].
  2:{ apply Hbelow, Hdm. }
  rewrite Hs in Hsame. rewrite Hs' in Hsame'.
  destruct Hg as (_ & _ & Hold & _).
  destruct (Hold m s Hml (eq_sym Hsame)) as (s2 & Hs2 & Heq & _).
  assert (s2 = s') by congruence. subst s2. rewrite Heq. reflexivity.
Qed.

(** Pushing a newly allocated childless object on the children of [sel]. *)
Lemma addChild_grown (h h' : store) (l sel : loc) (s : Shape) (ss : Shape) :
  h !! l = None -> h !! sel = Some ss -> children s = [] ->
  addChild (<[l := s]> h) sel l = Ok h' ->
  grown l h h' /\ h' !! l = Some s /\
  h' !! sel = Some (set_children (children ss ++ [l]) ss) /\
  forall m, m <> l -> m <> sel -> h' !! m = h !! m.
Proof.
  intros Hl Hsel Hch Ha. unfold addChild, update in Ha.
  assert (Hne : l <> sel) by congruence.
  cbn [deref] in Ha. rewrite lookup_insert_ne, Hsel in Ha by exact Hne.
  cbn [bind] in Ha. injection Ha as <-.
  assert (Hl' : <[sel := set_children (children ss ++ [l]) ss]> (<[l := s]> h) !! l = Some s)
    by (rewrite lookup_insert_ne, lookup_insert_eq by congruence; reflexivity).
  assert (Hother : forall m, m <> l -> m <> sel ->
            <[sel := set_children (children ss ++ [l]) ss]> (<[l := s]> h) !! m = h !! m)
    by (intros m H1 H2; rewrite !lookup_insert_ne by congruence; reflexivity).
  split; [|split; [exact Hl'|split; [apply lookup_insert_eq|exact Hother]]].
  split; [exact Hl|]. split; [eauto|]. split.
  - intros m sm Hml Hm. destruct (decide (m = sel)) as [->|Hms].
    + rewrite lookup_insert_eq. eexists. split; [reflexivity|].
      assert (sm = ss) by congruence. subst sm. cbn [children set_children].
      split; [destruct ss; reflexivity|right; reflexivity].
    + rewrite Hother by assumption. exists sm. split; [exact Hm|].
      split; [destruct sm; reflexivity|left; reflexivity].
  - intros m Hml Hm. destruct (decide (m = sel)) as [->|Hms]; [eauto|].
    rewrite Hother in Hm by assumption. exact Hm.
Qed.

(** An object that is nobody's child, put in the store. *)
Lemma insert_grown (h : store) (l : loc) (sl : Shape) :
  h !! l = None -> children sl = [] -> grown l h (<[l := sl]> h).
Proof.
  intros Hl Hch. split; [exact Hl|]. split; [rewrite lookup_insert_eq; eauto|]. split.
  - intros m s Hml Hm. rewrite lookup_insert_ne by congruence. exists s.
    split; [exact Hm|]. split; [destruct s; reflexivity|left; reflexivity].
  - intros m Hml Hm. rewrite lookup_insert_ne in Hm by congruence. exact Hm.
Qed.

Lemma grown_same (l : loc) (h h' : store) (m : loc) :
  grown l h h' -> m <> l ->
  (forall s s', h !! m = Some s -> h' !! m = Some s' -> children s' = children s) ->
  h' !! m = h !! m.
Proof.
  intros (_ & _ & Hold & Hnew) Hml Hch.
  destruct (h !! m) as [s|] eqn:Hm.
  - destruct (Hold m s Hml Hm) as (s' & Hs' & Heq & _).
    rewrite Hs'. f_equal. rewrite Heq. rewrite (Hch s s' eq_refl Hs').
    destruct s; reflexivity.
  - destruct (h' !! m) as [s'|] eqn:Hm'; [|reflexivity].
    destruct (Hnew m Hml ltac:(eauto)) as [s Hs]. congruence.
Qed.

Lemma placed_exists (h : store) (a m : loc) :
  desc h a m -> is_Some (h !! m) ->
  forall pc rot sc, exists pc' rot' sc', placed h a pc rot sc m pc' rot' sc'.
Proof.
  intros Hd. induction Hd as [a|a s c m Ha Hc Hd IH]; intros Hm pc rot sc.
  - destruct Hm as [s Hs]. eexists _, _, _. apply (placed_here h a s pc rot sc Hs).
  - destruct (IH Hm (getCenter (drawPoints s)) (rot + rotation (transform s))%float
                (vmul sc (scale (transform s)))) as (pc' & rot' & sc' & Hp).
    exists pc', rot', sc'. apply (placed_child h a s c pc rot sc m pc' rot' sc' Ha Hc Hp).
Qed.

Lemma placed_resolved (h : store) (a m : loc) (pc pc' : Point) (rot rot' : number)
    (sc sc' : Point) :
  placed h a pc rot sc m pc' rot' sc' -> resolved cos sin h a pc rot sc ->
  exists sm, h !! m = Some sm /\
             forall c, c ∈ children sm -> resolved cos sin h c pc' rot' sc'.
Proof.
  induction 1 as [a s pc rot sc Ha|a s c pc rot sc m pc' rot' sc' Ha Hc _ IH];
    intros Hr; inversion Hr as [a' s' ? ? ? Ha' Hdp Hch]; subst;
    assert (s' = s) by congruence; subst s'.
  - exists s. split; [exact Ha|exact Hch].
  - apply IH, Hch, Hc.
Qed.

Lemma placed_sub (h h' : store) (a m : loc) (pc pc' : Point) (rot rot' : number)
    (sc sc' : Point) :
  (forall n s, h !! n = Some s ->
     exists s', h' !! n = Some s' /\ drawPoints s' = drawPoints s /\
                transform s' = transform s /\
                forall c, c ∈ children s -> c ∈ children s') ->
  placed h a pc rot sc m pc' rot' sc' -> placed h' a pc rot sc m pc' rot' sc'.
Proof.
  intros Hsub. induction 1 as [a s pc rot sc Ha|a s c pc rot sc m pc' rot' sc' Ha Hc _ IH];
    destruct (Hsub a s Ha) as (s' & Ha' & Hdp & Ht & Hch).
  - rewrite <- Hdp, <- Ht. apply (placed_here h' a s' pc rot sc Ha').
  - apply (placed_child h' a s' c pc rot sc m pc' rot' sc' Ha' (Hch c Hc)).
    rewrite Hdp, Ht. exact IH.
Qed.

Lemma grown_sub (l : loc) (h h' : store) :
  grown l h h' ->
  forall n s, h !! n = Some s ->
    exists s', h' !! n = Some s' /\ drawPoints s' = drawPoints s /\
               transform s' = transform s /\
               forall c, c ∈ children s -> c ∈ children s'.
Proof.
  intros (Hl & _ & Hold & _) n s Hn.
  assert (Hnl : n <> l) by congruence.
  destruct (Hold n s Hnl Hn) as (s' & Hs' & Heq & Halt).
  exists s'. split; [exact Hs'|]. rewrite Heq at 1 2. cbn [drawPoints transform set_children].
  split; [reflexivity|]. split; [reflexivity|].
  intros c Hc. destruct Halt as [E|E]; rewrite E; [exact Hc|].
  apply elem_of_app. left. exact Hc.
Qed.

End Grown.

Section PreviewAndCreate.
Variables (cos sin : number -> number).

Lemma erase_dom (h h' : store) : erase h = erase h' -> dom h = dom h'.
Proof.
  intros He. unfold erase in He.
  rewrite <- (dom_fmap_L (set_drawPoints []) h), He. apply dom_fmap_L.
Qed.

(** Building a node under [sel], pushing it on the children and drawing. *)
Lemma addNew_draw (rank : loc -> nat) (fuel : nat) (h : store) (cv sel : loc)
    (ss : Shape) (T : Transform) (params : Params) :
  tree_ok rank h -> is_Some (h !! cv) -> h !! sel = Some ss ->
  S (rank cv) < fuel ->
  draw cos sin fuel h cv (Some Point_.zero) (Some Transform_.default) = Ok h ->
  let l := fresh (dom h) in
  let new := buildFromParams cos sin (Some sel) T params in
  let rank' := fun m => if decide (m = l) then 0 else S (rank m) in
  exists hA r',
    addChild (<[l := new]> h) sel l = Ok hA /\
    draw cos sin fuel hA cv (Some Point_.zero) (Some Transform_.default) = Ok r' /\
    h !! l = None /\
    grown l h r' /\
    resolved cos sin r' cv Point_.zero 0 Point_.unit /\
    tree_ok rank' r' /\
    r' !! sel = Some (set_children (children ss ++ [l]) ss) /\
    (exists dp, r' !! l = Some (set_drawPoints dp new)) /\
    (forall m, m <> l -> m <> sel -> r' !! m = h !! m).
Proof.
  intros Hok Hcv Hsel Hfuel Hfix l new rank'.
  assert (Hl : h !! l = None) by apply not_elem_of_dom, is_fresh.
  destruct (buildFromParams_fields cos sin (Some sel) T params) as (Hp & Hch & Hty & Hpar).
  fold new in Hp, Hch, Hty, Hpar.
  assert (Ha : addChild (<[l := new]> h) sel l
               = Ok (<[sel := set_children (children ss ++ [l]) ss]> (<[l := new]> h))).
  { unfold addChild, update. cbn [deref].
    rewrite lookup_insert_ne, Hsel by congruence. reflexivity. }
  set (hA := <[sel := set_children (children ss ++ [l]) ss]> (<[l := new]> h)) in *.
  destruct (addChild_grown h hA l sel new ss Hl Hsel Hch Ha) as (Hg & HlA & HselA & HotherA).
  destruct (addChild_new_ok rank h hA l sel new Hl ltac:(eauto) Hp Hch Hty Hpar Ha)
    as [_ HokA]. specialize (HokA Hok). fold rank' in HokA.
  assert (Hcvl : cv <> l) by (destruct Hcv; congruence).
  destruct (draw_grown cos sin rank rank' fuel l h hA cv Point_.zero Transform_.default
              Hok HokA Hg Hcvl Hcv) as (r & r' & Hd & Hd' & Hg' & Hres).
  { lia. }
  { unfold rank'. rewrite decide_False by exact Hcvl. exact Hfuel. }
  assert (r = h) by congruence. subst r.
  exists hA, r'. split; [exact Ha|]. split; [exact Hd'|]. split; [exact Hl|].
  split; [exact Hg'|]. split; [exact Hres|].
  pose proof (draw_erase cos sin _ _ _ _ _ _ Hd') as He'.
  split; [apply (tree_ok_erase rank' hA); auto|].
  assert (Hkids : forall m s s', h !! m = Some s -> r' !! m = Some s' ->
            children s' = children (default s (hA !! m))).
  { intros m s s' Hm Hm'.
    destruct (erase_lookup r' hA m s' He' Hm') as [dp HmA]. rewrite HmA. reflexivity. }
  split; [|split].
  - destruct Hg' as (_ & _ & Hold & _).
    destruct (Hold sel ss ltac:(congruence) Hsel) as (s' & Hs' & Heq & _).
    rewrite Hs'. f_equal. rewrite Heq.
    rewrite (Hkids sel ss s' Hsel Hs'), HselA. reflexivity.
  - apply (erase_lookup hA r' l new (eq_sym He') HlA).
  - intros m Hml Hms. apply (grown_same l h r' m Hg' Hml).
    intros s s' Hm Hm'. rewrite (Hkids m s s' Hm Hm'), (HotherA m Hml Hms), Hm.
    reflexivity.
Qed.

(** Taking the last child [l], a leaf, off the children of [sel] and
    drawing: the other objects are as before [l] was added. *)
Lemma removeLeaf_draw (rank rank' : loc -> nat) (fuel : nat) (h r1 : store)
    (cv sel l : loc) (ss sl : Shape) :
  tree_ok rank h -> tree_ok rank' r1 -> is_Some (h !! cv) ->
  rank cv < fuel -> rank' cv < fuel ->
  draw cos sin fuel h cv (Some Point_.zero) (Some Transform_.default) = Ok h ->
  h !! l = None -> h !! sel = Some ss ->
  r1 !! l = Some sl -> children sl = [] ->
  r1 !! sel = Some (set_children (children ss ++ [l]) ss) ->
  (forall m, m <> l -> m <> sel -> r1 !! m = h !! m) ->
  exists hB r2,
    removeChild r1 (Some sel) l = Ok hB /\
    draw cos sin fuel hB cv (Some Point_.zero) (Some Transform_.default) = Ok r2 /\
    draw cos sin fuel r2 cv (Some Point_.zero) (Some Transform_.default) = Ok r2 /\
    tree_ok rank' r2 /\ dom r2 = dom r1 /\
    (exists sl2, r2 !! l = Some sl2 /\ children sl2 = []) /\
    forall m, m <> l -> r2 !! m = h !! m.
Proof.
  intros Hok Hok1 Hcv Hfuel Hfuel' Hfix Hl Hsel Hsl Hch Hsel1 Hother.
  assert (Hnl : l ∉ children ss).
  { intros Hin. destruct (Hok sel ss Hsel) as (_ & Hkids & _).
    destruct (Hkids l Hin) as (_ & sc & Hsc & _). congruence. }
  assert (Hne : sel <> l) by congruence.
  assert (HB : removeChild r1 (Some sel) l = Ok (<[l := sl]> h)).
  { unfold removeChild. cbn [deref]. rewrite Hsel1. cbn [bind]. f_equal.
    cbn [children set_children]. rewrite filter_ne_snoc by exact Hnl.
    apply map_eq. intros m. destruct (decide (m = sel)) as [->|Hms].
    - rewrite lookup_insert_eq, lookup_insert_ne, Hsel by congruence.
      destruct ss; reflexivity.
    - rewrite lookup_insert_ne by congruence.
      destruct (decide (m = l)) as [->|Hml].
      + rewrite lookup_insert_eq. exact Hsl.
      + rewrite lookup_insert_ne by congruence. apply Hother; assumption. }
  assert (HokB : tree_ok rank' (<[l := sl]> h)).
  { unfold removeChild in HB. cbn [deref] in HB. rewrite Hsel1 in HB. cbn [bind] in HB.
    injection HB as <-.
    apply (tree_ok_insert_same rank' r1 sel _ _ Hok1 Hsel1); try reflexivity.
    cbn [children set_children]. intros c Hc.
    apply list_elem_of_filter in Hc as [_ Hc]. exact Hc. }
  assert (Hcvl : cv <> l) by (destruct Hcv; congruence).
  destruct (draw_grown cos sin rank rank' fuel l h (<[l := sl]> h) cv Point_.zero
              Transform_.default Hok HokB (insert_grown h l sl Hl Hch) Hcvl Hcv
              Hfuel Hfuel') as (r & r2 & Hd & Hd2 & Hg & _).
  assert (r = h) by congruence. subst r.
  exists (<[l := sl]> h), r2. split; [exact HB|]. split; [exact Hd2|].
  pose proof (draw_erase cos sin _ _ _ _ _ _ Hd2) as He2.
  split; [apply (draw_idempotent cos sin rank' fuel _ _ cv _ _ HokB Hfuel' Hd2)|].
  split; [apply (tree_ok_erase rank' (<[l := sl]> h)); auto|].
  split.
  { rewrite (erase_dom _ _ He2). apply set_eq. intros m.
    rewrite !elem_of_dom. destruct (decide (m = l)) as [->|Hml].
    - rewrite lookup_insert_eq, Hsl. split; eauto.
    - rewrite lookup_insert_ne by congruence.
      destruct (decide (m = sel)) as [->|Hms].
      + rewrite Hsel, Hsel1. split; eauto.
      + rewrite Hother by assumption. reflexivity. }
  split.
  { destruct Hg as (_ & Hleaf & _). exact Hleaf. }
  intros m Hml. apply (grown_same l h r2 m Hg Hml).
  intros s s' Hm Hm'.
  destruct (erase_lookup r2 (<[l := sl]> h) m s' He2 Hm') as [dp HmB].
  rewrite lookup_insert_ne in HmB by congruence.
  assert (s = set_drawPoints dp s') by congruence. subst s. reflexivity.
Qed.


Lemma preview_on_tree (rank : loc -> nat) (fuel : nat) (c : Controller)
    (sel : loc) (T : Transform) (params : Params) :
  tree_ok rank (heap c) -> is_Some (heap c !! canvas c) ->
  is_Some (heap c !! sel) ->
  previewNode c = None -> selectedNode c = Some sel ->
  S (rank (canvas c)) < fuel ->
  let l := fresh (dom (heap c)) in
  let new := buildFromParams cos sin (Some sel) T params in
  let rank' := fun m => if decide (m = l) then 0 else S (rank m) in
  exists r0 r1 sr,
    render cos sin fuel c = Ok (set_heap r0 c) /\
    draw cos sin fuel r0 (canvas c) (Some Point_.zero) (Some Transform_.default)
      = Ok r0 /\
    tree_ok rank r0 /\ erase r0 = erase (heap c) /\
    preview cos sin fuel c T params
      = Ok (true, mkController r1 (canvas c) (Some sel) (Some l) false) /\
    r0 !! l = None /\ r0 !! sel = Some sr /\
    grown l r0 r1 /\
    resolved cos sin r1 (canvas c) Point_.zero 0 Point_.unit /\
    tree_ok rank' r1 /\
    r1 !! sel = Some (set_children (children sr ++ [l]) sr) /\
    (exists dp, r1 !! l = Some (set_drawPoints dp new)) /\
    (forall m, m <> l -> m <> sel -> r1 !! m = r0 !! m).
Proof.
  intros Hok Hcv [ss Hsel] Hpn Hs Hfuel l new rank'.
  assert (Hfuel0 : rank (canvas c) < fuel) by lia.
  destruct (draw_total cos sin rank fuel (heap c) (canvas c) (Some Point_.zero)
              (Some Transform_.default) Hok Hcv Hfuel0) as [r0 Hd0].
  pose proof (draw_erase cos sin _ _ _ _ _ _ Hd0) as He0.
  pose proof (draw_idempotent cos sin rank fuel _ _ _ _ _ Hok Hfuel0 Hd0) as Hfix.
  assert (Hok0 : tree_ok rank r0) by (apply (tree_ok_erase rank (heap c)); auto).
  destruct (erase_lookup (heap c) r0 sel ss (eq_sym He0) Hsel) as [dps Hsel0].
  assert (Hcv0 : is_Some (r0 !! canvas c))
    by (apply (extends_erase (heap c) r0); auto).
  destruct (addNew_draw rank fuel r0 (canvas c) sel _ T params Hok0 Hcv0 Hsel0 Hfuel Hfix)
    as (hA & r1 & Ha & Hd1 & Hl & Hg & Hres & Hok1 & Hsel1 & Hl1 & Hother).
  pose proof (erase_dom _ _ He0) as Hdom. rewrite Hdom in *.
  fold l in Ha, Hd1, Hl, Hg, Hok1, Hsel1, Hl1, Hother.
  exists r0, r1, (set_drawPoints dps ss).
  split; [unfold render; rewrite Hd0; reflexivity|].
  split; [exact Hfix|]. split; [exact Hok0|]. split; [exact He0|].
  split.
  { unfold preview, removePreviewNode. cbn [previewNode set_isInEdit].
    rewrite Hpn. cbn [bind]. unfold render at 1. cbn [heap canvas set_isInEdit].
    rewrite Hd0. cbn [bind selectedNode set_heap set_isInEdit heap canvas]. rewrite Hs.
    rewrite Hdom. fold l. rewrite Ha.
    cbn [bind]. unfold render.
    cbn [heap canvas set_heap set_previewNode set_isInEdit].
    rewrite Hd1. unfold set_heap, set_previewNode, set_isInEdit. cbn.
    rewrite Hs. reflexivity. }
  repeat (split; [assumption|]). exact Hother.
Qed.

Lemma forallb_pointwise_in {A : Type} (f g : A -> bool) (l : list A) :
  (forall a, a ∈ l -> f a = g a) -> forallb f l = forallb g l.
Proof.
  induction l as [|a l IH]; intros H; cbn; [reflexivity|].
  rewrite (H a) by left. rewrite IH; [reflexivity|].
  intros b Hb. apply H. right. exact Hb.
Qed.

(** [stable_form] reads the draw points of the node, of its parent and of
    its siblings, and nothing else. *)
Lemma stable_form_eq (h h' : store) (this this' : loc) (s s' sp sp' : Shape) :
  drawPoints s = drawPoints s' -> drawPoints sp = drawPoints sp' ->
  filter (fun node => node <> this) (children sp)
  = filter (fun node => node <> this') (children sp') ->
  (forall c, c ∈ filter (fun node => node <> this) (children sp) ->
             drawPoints <$> h !! c = drawPoints <$> h' !! c) ->
  stable_form h this s sp = stable_form h' this' s' sp'.
Proof.
  intros Hs Hsp Hf Hsib. unfold stable_form. rewrite Hs, Hsp, <- Hf. f_equal.
  apply forallb_pointwise_in. intros c Hc. unfold clear_of.
  specialize (Hsib c Hc). rewrite Hs.
  destruct (h !! c) as [sc|], (h' !! c) as [sc'|]; cbn in Hsib; try discriminate;
    [|reflexivity].
  injection Hsib as ->. reflexivity.
Qed.

End PreviewAndCreate.

Section PreviewAndCreate2.
Variables (cos sin : number -> number).

Lemma resolve_spec_nan (T : Transform) (pc : Point) (rot : number) (sc p : Point) :
  has_nan p = true -> has_nan (resolve_spec cos sin T pc rot sc p) = true.
Proof.
  intros Hp. unfold resolve_spec. cbv zeta.
  apply orb_true_iff. left.
  apply rotateAround_nan. apply orb_true_iff. left.
  apply rotateAround_nan. unfold has_nan, vadd, vmul. cbn [x y]. apply orb_true_iff.
  apply orb_true_iff in Hp as [H|H]; [left|right];
    apply isNaN_add_r, isNaN_mul_l, H.
Qed.

Lemma resolve_spec_nan_transform (T : Transform) (pc : Point) (rot : number)
    (sc p : Point) :
  transform_has_nan T = true -> has_nan (resolve_spec cos sin T pc rot sc p) = true.
Proof.
  intros HT. unfold resolve_spec. cbv zeta.
  apply orb_true_iff. left.
  apply rotateAround_nan. apply orb_true_iff. left.
  apply rotateAround_nan. unfold has_nan, vadd, vmul. cbn [x y]. apply orb_true_iff.
  unfold transform_has_nan, has_nan in HT.
  repeat (apply orb_true_iff in HT as [HT|HT]).
  - left. apply isNaN_add_l, isNaN_add_r, HT.
  - right. apply isNaN_add_l, isNaN_add_r, HT.
  - left. apply isNaN_add_r, isNaN_mul_r, isNaN_mul_r, HT.
  - right. apply isNaN_add_r, isNaN_mul_r, isNaN_mul_r, HT.
Qed.

(** The draw points of a child of [sel] in a resolved store. *)
Lemma leaf_resolved (h : store) (cv sel l : loc) (pc pc' : Point)
    (rot rot' : number) (sc sc' : Point) (sp new : Shape) (dp : list Point) :
  resolved cos sin h cv pc rot sc ->
  placed h cv pc rot sc sel pc' rot' sc' ->
  h !! sel = Some sp -> l ∈ children sp ->
  h !! l = Some (set_drawPoints dp new) ->
  dp = map (resolve_spec cos sin (transform new) pc' rot' sc') (points new).
Proof.
  intros Hres Hpl Hsel Hin Hl.
  destruct (placed_resolved cos sin h cv sel pc pc' rot rot' sc sc' Hpl Hres)
    as (sm & Hsm & Hkids).
  assert (sm = sp) by congruence. subst sm.
  specialize (Hkids l Hin). inversion Hkids as [l' s ? ? ? Hl' Hdp _]; subst.
  assert (s = set_drawPoints dp new) by congruence. subst s. exact Hdp.
Qed.

End PreviewAndCreate2.

(** X13. Cancelling undoes a preview.  In every state a session reaches,
    with a selected node and no preview pending, [preview] returns true
    and allocates the preview node at a new reference; after
    [removePreviewNode] every other reference holds what it holds after a
    plain [render] of the state before the preview, and the controller has
    the same canvas and selected node, no preview node and [isInEdit]
    false. *)
Theorem cancel_undoes_preview (cos sin : number -> number) (c : Controller)
    (sel : loc) (T : Transform) (params : Params) :
  reachable cos sin c -> previewNode c = None -> selectedNode c = Some sel ->
  exists N, forall fuel, N < fuel ->
  exists c0 c1 c2 pn,
    render cos sin fuel c = Ok c0 /\
    preview cos sin fuel c T params = Ok (true, c1) /\
    previewNode c1 = Some pn /\ heap c !! pn = None /\
    removePreviewNode cos sin fuel c1 = Ok c2 /\
    (forall m, m <> pn -> heap c2 !! m = heap c0 !! m) /\
    canvas c2 = canvas c /\ selectedNode c2 = selectedNode c /\
    previewNode c2 = None /\ isInEdit c2 = false.
Proof.
  intros Hreach Hpn Hs.
  destruct (reachable_session_ok cos sin c Hreach) as ([rank Hok] & Hcv & Hsel).
  exists (S (rank (canvas c))). intros fuel Hfuel.
  destruct (preview_on_tree cos sin rank fuel c sel T params Hok Hcv (Hsel sel Hs)
              Hpn Hs Hfuel)
    as (r0 & r1 & sr & Hrender & Hfix & Hok0 & He0 & Hprev & Hl0 & Hsel0 & Hg & Hres
        & Hok1 & Hsel1 & [dp Hl1] & Hother).
  set (l := fresh (dom (heap c))) in *.
  set (new := buildFromParams cos sin (Some sel) T params) in *.
  destruct (buildFromParams_fields cos sin (Some sel) T params) as (_ & Hch & _ & Hpar).
  fold new in Hch, Hpar.
  assert (Hcv0 : is_Some (r0 !! canvas c)) by (apply (extends_erase (heap c) r0); auto).
  assert (Hcvl : canvas c <> l) by (destruct Hcv0; congruence).
  set (rank' := fun m => if decide (m = l) then 0 else S (rank m)) in *.
  assert (Hfuel0 : rank (canvas c) < fuel) by lia.
  assert (Hfuel1 : rank' (canvas c) < fuel)
    by (unfold rank'; rewrite decide_False by exact Hcvl; lia).
  destruct (removeLeaf_draw cos sin rank rank' fuel r0 r1 (canvas c) sel l sr
              (set_drawPoints dp new) Hok0 Hok1 Hcv0 Hfuel0 Hfuel1 Hfix Hl0 Hsel0
              Hl1 Hch Hsel1 Hother)
    as (hB & r2 & HB & Hd2 & _ & _ & _ & _ & Hsame).
  eexists (set_heap r0 c), _, (mkController r2 (canvas c) (Some sel) None false), l.
  split; [exact Hrender|]. split; [exact Hprev|]. split; [reflexivity|].
  split.
  { destruct (heap c !! l) as [s|] eqn:E; [|reflexivity].
    destruct (erase_lookup (heap c) r0 l s (eq_sym He0) E) as [dp' E']. congruence. }
  split.
  { unfold removePreviewNode. cbn [previewNode set_isInEdit heap deref].
    rewrite Hl1. cbn [bind parent set_drawPoints]. rewrite Hpar, HB. cbn [bind].
    unfold render. cbn [heap canvas set_heap set_previewNode set_isInEdit].
    rewrite Hd2. reflexivity. }
  cbn [heap canvas selectedNode previewNode isInEdit set_heap].
  split; [exact Hsame|]. repeat split. symmetry. exact Hs.
Qed.

Section CreateNode.
Variables (cos sin : number -> number).

(** [preview] followed by [createNode] with the same arguments, on a store
    made of trees, with what the stores in between hold. *)
Lemma createNode_on_tree (rank : loc -> nat) (fuel : nat) (c : Controller)
    (sel : loc) (T : Transform) (params : Params) :
  tree_ok rank (heap c) -> is_Some (heap c !! canvas c) ->
  is_Some (heap c !! sel) ->
  previewNode c = None -> selectedNode c = Some sel ->
  desc (heap c) (canvas c) sel ->
  S (S (rank (canvas c))) < fuel ->
  let l := fresh (dom (heap c)) in
  let new := buildFromParams cos sin (Some sel) T params in
  exists r0 r1 sr dp stable,
    render cos sin fuel c = Ok (set_heap r0 c) /\
    tree_ok rank r0 /\ erase r0 = erase (heap c) /\
    preview cos sin fuel c T params
      = Ok (true, mkController r1 (canvas c) (Some sel) (Some l) false) /\
    r0 !! l = None /\ r0 !! sel = Some sr /\
    r1 !! sel = Some (set_children (children sr ++ [l]) sr) /\
    r1 !! l = Some (set_drawPoints dp new) /\
    (forall m, m <> l -> m <> sel -> r1 !! m = r0 !! m) /\
    isStable r1 l = Ok stable /\
    (stable = true ->
       exists r3 l' rank3,
         createNode cos sin fuel
           (mkController r1 (canvas c) (Some sel) (Some l) false) T params
           = Ok (true, mkController r3 (canvas c) (Some sel) None false) /\
         r1 !! l' = None /\ tree_ok rank3 r3 /\
         r3 !! sel = Some (set_children (children sr ++ [l']) sr) /\
         r3 !! l' = Some (set_drawPoints dp new) /\
         (forall m, is_Some (r0 !! m) -> m <> sel -> r3 !! m = r0 !! m) /\
         isStable r3 l' = Ok true).
Proof.
  intros Hok Hcv Hsel Hpn Hs Hdesc Hfuel l0 new0.
  assert (Hfuel' : S (rank (canvas c)) < fuel) by lia.
  destruct (preview_on_tree cos sin rank fuel c sel T params Hok Hcv Hsel
              Hpn Hs Hfuel')
    as (r0 & r1 & sr & Hrender & Hfix & Hok0 & He0 & Hprev & Hl0 & Hsel0 & Hg & Hres
        & Hok1 & Hsel1 & [dp1 Hl1] & Hother).
  subst l0 new0.
  set (l := fresh (dom (heap c))) in *.
  set (new := buildFromParams cos sin (Some sel) T params) in *.
  set (rank' := fun m => if decide (m = l) then 0 else S (rank m)) in *.
  destruct (buildFromParams_fields cos sin (Some sel) T params) as (_ & Hch & Hty & Hpar).
  fold new in Hch, Hty, Hpar.
  assert (Hcv0 : is_Some (r0 !! canvas c)) by (apply (extends_erase (heap c) r0); auto).
  assert (Hcvl : canvas c <> l) by (destruct Hcv0; congruence).
  assert (Hsl : sel <> l) by congruence.
  assert (Hfuel0 : rank (canvas c) < fuel) by lia.
  assert (Hfuel1 : rank' (canvas c) < fuel)
    by (unfold rank'; rewrite decide_False by exact Hcvl; lia).
  assert (Hfuel2 : S (rank' (canvas c)) < fuel)
    by (unfold rank'; rewrite decide_False by exact Hcvl; lia).
  destruct (isStable_total rank' r1 l Hok1 ltac:(eauto)) as [stable Hst].
  exists r0, r1, sr, dp1, stable.
  repeat (split; [assumption|]).
  intros ->.
  destruct (removeLeaf_draw cos sin rank rank' fuel r0 r1 (canvas c) sel l sr
              (set_drawPoints dp1 new) Hok0 Hok1 Hcv0 Hfuel0 Hfuel1 Hfix Hl0 Hsel0
              Hl1 Hch Hsel1 Hother)
    as (hB & r2 & HB & Hd2 & Hfix2 & Hok2 & Hdom2 & _ & Hsame2).
  assert (Hsel2 : r2 !! sel = Some sr) by (rewrite Hsame2 by exact Hsl; exact Hsel0).
  assert (Hcv2 : is_Some (r2 !! canvas c)) by (rewrite Hsame2 by exact Hcvl; exact Hcv0).
  destruct (addNew_draw cos sin rank' fuel r2 (canvas c) sel sr T params Hok2 Hcv2
              Hsel2 Hfuel2 Hfix2)
    as (hC & r3 & HC & Hd3 & Hl2 & Hg3 & Hres3 & Hok3 & Hsel3 & [dp3 Hl3] & Hother3).
  set (l' := fresh (dom r2)) in *. fold new in HC, Hl3.
  assert (Hl'1 : r1 !! l' = None).
  { apply not_elem_of_dom. rewrite <- Hdom2. apply not_elem_of_dom, Hl2. }
  assert (Hll' : l' <> l) by congruence.
  assert (Hsl' : sel <> l') by congruence.
  (* the children of [sel] are old objects *)
  assert (Hkids : forall k, k ∈ children sr -> k <> l /\ k <> l' /\ k <> sel /\
                                               r1 !! k = r0 !! k /\ r3 !! k = r0 !! k).
  { intros k Hk. destruct (Hok0 sel sr Hsel0) as (_ & Hkid & _).
    destruct (Hkid k Hk) as (Hlt & sk & Hsk & _).
    assert (k <> l) by congruence.
    assert (k <> sel) by (intros ->; lia).
    assert (k <> l') by (intros ->; rewrite Hsame2 in Hl2 by exact Hll'; congruence).
    repeat split; try assumption.
    - apply Hother; assumption.
    - rewrite Hother3 by congruence. apply Hsame2. assumption. }
  assert (Hnl : l ∉ children sr) by (intros H; destruct (Hkids l H) as [? _]; congruence).
  assert (Hnl' : l' ∉ children sr)
    by (intros H; destruct (Hkids l' H) as (_ & ? & _); congruence).
  (* both nodes are drawn for the same parent data *)
  destruct (placed_exists r0 (canvas c) sel
              (desc_erase (heap c) r0 _ _ (eq_sym He0) Hdesc) ltac:(eauto)
              Point_.zero 0%float Point_.unit) as (pc' & rot' & sc' & Hpl0).
  assert (Hpl1 : placed r1 (canvas c) Point_.zero 0 Point_.unit sel pc' rot' sc')
    by (apply (placed_sub r0 r1 _ _ _ _ _ _ _ _ (grown_sub l r0 r1 Hg) Hpl0)).
  assert (Hpl3 : placed r3 (canvas c) Point_.zero 0 Point_.unit sel pc' rot' sc').
  { apply (placed_sub r2 r3 _ _ _ _ _ _ _ _ (grown_sub l' r2 r3 Hg3)).
    apply (placed_sub r0 r2 _ _ _ _ _ _ _ _); [|exact Hpl0].
    intros n s Hn. exists s. rewrite Hsame2 by congruence. auto. }
  assert (Hdp1 : dp1 = map (resolve_spec cos sin (transform new) pc' rot' sc') (points new)).
  { apply (leaf_resolved cos sin r1 (canvas c) sel l _ _ _ _ _ _ _ new dp1 Hres Hpl1 Hsel1);
      [|exact Hl1].
    cbn [children set_children]. apply elem_of_app. right. left. }
  assert (Hdp3 : dp3 = map (resolve_spec cos sin (transform new) pc' rot' sc') (points new)).
  { apply (leaf_resolved cos sin r3 (canvas c) sel l' _ _ _ _ _ _ _ new dp3 Hres3 Hpl3 Hsel3);
      [|exact Hl3].
    cbn [children set_children]. apply elem_of_app. right. left. }
  assert (Hty' : forall dp, is_Canvas (type (set_drawPoints dp new)) = false)
    by (intros dp; cbn; destruct (type new); cbn; congruence).
  assert (Hst1 := isStable_closed_form r1 l sel _ _ Hl1 (Hty' dp1) Hpar Hsel1).
  rewrite Hst in Hst1.
  assert (Hst3 := isStable_closed_form r3 l' sel _ _ Hl3 (Hty' dp3) Hpar Hsel3).
  assert (Hdp : dp3 = dp1) by congruence. clear Hdp3. subst dp3.
  exists r3, l', (fun m => if decide (m = l') then 0 else S (rank' m)).
  split.
  { unfold createNode. cbn [previewNode heap]. rewrite Hst. cbn [bind negb].
    unfold removePreviewNode. cbn [previewNode set_isInEdit heap deref].
    rewrite Hl1. cbn [bind parent set_drawPoints]. rewrite Hpar, HB. cbn [bind].
    unfold render at 1. cbn [heap canvas set_heap set_previewNode set_isInEdit].
    rewrite Hd2.
    cbn [bind selectedNode set_heap set_previewNode set_isInEdit heap].
    fold l'. fold new.
    rewrite HC. cbn [bind]. unfold render.
    cbn [heap canvas set_heap set_previewNode set_isInEdit]. rewrite Hd3.
    reflexivity. }
  split; [exact Hl'1|]. split; [exact Hok3|]. split; [exact Hsel3|].
  split; [exact Hl3|]. split.
  - intros m Hm0 Hms.
    assert (m <> l) by (destruct Hm0; congruence).
    assert (m <> l').
    { intros ->. rewrite Hsame2 in Hl2 by exact Hll'. destruct Hm0; congruence. }
    rewrite Hother3, Hsame2 by assumption. reflexivity.
  - rewrite Hst3.
    + rewrite Hst1.
      * f_equal. symmetry. apply stable_form_eq.
        -- cbn [drawPoints set_drawPoints]. congruence.
        -- reflexivity.
        -- cbn [children set_children]. rewrite !filter_ne_snoc by assumption.
           reflexivity.
        -- cbn [children set_children]. rewrite filter_ne_snoc by assumption.
           intros k Hk. destruct (Hkids k Hk) as (_ & _ & _ & -> & ->). reflexivity.
      * intros k Hk. destruct (Hok1 sel _ Hsel1) as (_ & Hkid & _).
        destruct (Hkid k Hk) as (_ & sk & Hsk & _). eauto.
    + intros k Hk. destruct (Hok3 sel _ Hsel3) as (_ & Hkid & _).
      destruct (Hkid k Hk) as (_ & sk & Hsk & _). eauto.
Qed.

End CreateNode.

(** X14. A node created from its preview is stable.  In every state a
    session reaches, with no preview pending and a selected node that is
    the canvas or below it, [preview] returns true; if the preview node is
    not stable, [createNode] with the same arguments returns false and
    leaves the controller as it is; if it is stable, [createNode] returns
    true, the preview node is replaced by a node at a new reference, last
    child of the selected node, [isStable] is true of that node, and the
    objects that were there before the preview, other than the selected
    node, are as in the previewed state. *)
Theorem created_node_is_stable (cos sin : number -> number) (c : Controller)
    (sel : loc) (T : Transform) (params : Params) :
  reachable cos sin c -> previewNode c = None -> selectedNode c = Some sel ->
  desc (heap c) (canvas c) sel ->
  exists N, forall fuel, N < fuel ->
  exists c1 pn stable,
    preview cos sin fuel c T params = Ok (true, c1) /\
    previewNode c1 = Some pn /\
    isStable (heap c1) pn = Ok stable /\
    (stable = false -> createNode cos sin fuel c1 T params = Ok (false, c1)) /\
    (stable = true ->
       exists c3 l s,
         createNode cos sin fuel c1 T params = Ok (true, c3) /\
         previewNode c3 = None /\ selectedNode c3 = Some sel /\
         heap c1 !! l = None /\ heap c3 !! l = Some s /\ parent s = Some sel /\
         (exists sp, heap c3 !! sel = Some sp /\ last (children sp) = Some l) /\
         isStable (heap c3) l = Ok true /\
         forall m, is_Some (heap c !! m) -> m <> sel -> heap c3 !! m = heap c1 !! m).
Proof.
  intros Hreach Hpn Hs Hdesc.
  destruct (reachable_session_ok cos sin c Hreach) as ([rank Hok] & Hcv & Hsel).
  exists (S (S (rank (canvas c)))). intros fuel Hfuel.
  destruct (createNode_on_tree cos sin rank fuel c sel T params Hok Hcv (Hsel sel Hs)
              Hpn Hs Hdesc Hfuel)
    as (r0 & r1 & sr & dp & stable & Hrender & Hok0 & He0 & Hprev & Hl0 & Hsel0
        & Hsel1 & Hl1 & Hother & Hst & Hcreate).
  set (l := fresh (dom (heap c))) in *.
  set (new := buildFromParams cos sin (Some sel) T params) in *.
  eexists _, l, stable. split; [exact Hprev|]. split; [reflexivity|].
  cbn [heap]. split; [exact Hst|]. split.
  { intros ->. unfold createNode. cbn [previewNode heap]. rewrite Hst. reflexivity. }
  intros Htrue.
  destruct (Hcreate Htrue) as (r3 & l' & rank3 & Hc3 & Hl'1 & Hok3 & Hsel3 & Hl3
                               & Hsame & Hst3).
  destruct (buildFromParams_fields cos sin (Some sel) T params) as (_ & _ & _ & Hpar).
  eexists _, l', _. split; [exact Hc3|].
  cbn [heap previewNode selectedNode].
  split; [reflexivity|]. split; [reflexivity|]. split; [exact Hl'1|].
  split; [exact Hl3|]. split; [exact Hpar|]. split.
  { eexists. split; [exact Hsel3|]. cbn [children set_children]. apply last_snoc. }
  split; [exact Hst3|].
  intros m Hm Hms.
  assert (Hm0 : is_Some (r0 !! m)) by (apply (extends_erase (heap c) r0); auto).
  assert (m <> l) by (destruct Hm0; congruence).
  rewrite (Hsame m Hm0 Hms), Hother by assumption. reflexivity.
Qed.

(** X15. A shape with a NaN parameter, or with a NaN in the position or
    the scale of its transform, cannot be created.  In every state a
    session reaches, with no preview pending and a selected node that is
    the canvas or below it, [preview] with such arguments returns true,
    but the preview node is not stable (NaN goes through the constructor
    and through [draw] into a draw point), so every [createNode] that
    follows returns false and leaves the controller as it is. *)
Theorem nan_preview_is_refused (cos sin : number -> number) (c : Controller)
    (sel : loc) (T : Transform) (params : Params) :
  reachable cos sin c -> previewNode c = None -> selectedNode c = Some sel ->
  desc (heap c) (canvas c) sel ->
  params_has_nan params = true \/ transform_has_nan T = true ->
  exists N, forall fuel, N < fuel ->
  exists c1 pn,
    preview cos sin fuel c T params = Ok (true, c1) /\
    previewNode c1 = Some pn /\
    isStable (heap c1) pn = Ok false /\
    forall fuel' T' params',
      createNode cos sin fuel' c1 T' params' = Ok (false, c1).
Proof.
  intros Hreach Hpn Hs Hdesc Hnan.
  destruct (reachable_session_ok cos sin c Hreach) as ([rank Hok] & Hcv & Hsel).
  exists (S (rank (canvas c))). intros fuel Hfuel.
  destruct (preview_on_tree cos sin rank fuel c sel T params Hok Hcv (Hsel sel Hs)
              Hpn Hs Hfuel)
    as (r0 & r1 & sr & Hrender & Hfix & Hok0 & He0 & Hprev & Hl0 & Hsel0 & Hg & Hres
        & Hok1 & Hsel1 & [dp1 Hl1] & Hother).
  set (l := fresh (dom (heap c))) in *.
  set (new := buildFromParams cos sin (Some sel) T params) in *.
  destruct (buildFromParams_fields cos sin (Some sel) T params) as (_ & Hch & Hty & Hpar).
  fold new in Hch, Hty, Hpar.
  destruct (placed_exists r0 (canvas c) sel
              (desc_erase (heap c) r0 _ _ (eq_sym He0) Hdesc) ltac:(eauto)
              Point_.zero 0%float Point_.unit) as (pc' & rot' & sc' & Hpl0).
  assert (Hpl1 : placed r1 (canvas c) Point_.zero 0 Point_.unit sel pc' rot' sc')
    by (apply (placed_sub r0 r1 _ _ _ _ _ _ _ _ (grown_sub l r0 r1 Hg) Hpl0)).
  assert (Hdp1 : dp1 = map (resolve_spec cos sin (transform new) pc' rot' sc') (points new)).
  { apply (leaf_resolved cos sin r1 (canvas c) sel l _ _ _ _ _ _ _ new dp1 Hres Hpl1 Hsel1);
      [|exact Hl1].
    cbn [children set_children]. apply elem_of_app. right. left. }
  assert (Hbad : exists pt, pt ∈ dp1 /\ has_nan pt = true).
  { rewrite Hdp1. destruct Hnan as [Hnan|Hnan].
    - destruct (buildFromParams_nan cos sin (Some sel) T params Hnan) as (pt & Hpt & Hptn).
      exists (resolve_spec cos sin (transform new) pc' rot' sc' pt). split.
      + apply list_elem_of_fmap. exists pt. split; [reflexivity|exact Hpt].
      + apply resolve_spec_nan, Hptn.
    - destruct (buildFromParams_fields cos sin (Some sel) T params) as (Hpts & _).
      fold new in Hpts. destruct (points new) as [|pt pts] eqn:Ep; [congruence|].
      exists (resolve_spec cos sin (transform new) pc' rot' sc' pt). split; [left|].
      apply resolve_spec_nan_transform.
      replace (transform new) with T by (subst new; destruct params; reflexivity).
      exact Hnan. }
  destruct Hbad as (pt & Hpt & Hptn).
  assert (Hst : isStable r1 l = Ok false).
  { rewrite (isStable_closed_form r1 l sel _ (set_children (children sr ++ [l]) sr) Hl1).
    - f_equal. apply (stable_form_nan r1 l _ _ pt); [exact Hpt|exact Hptn].
    - cbn. destruct (type new); cbn; congruence.
    - exact Hpar.
    - exact Hsel1.
    - intros k Hk. destruct (Hok1 sel _ Hsel1) as (_ & Hkid & _).
      destruct (Hkid k Hk) as (_ & sk & Hsk & _). eauto. }
  eexists _, l. split; [exact Hprev|]. split; [reflexivity|].
  cbn [heap]. split; [exact Hst|].
  intros fuel' T' params'. unfold createNode. cbn [previewNode heap].
  rewrite Hst. reflexivity.
Qed.

Lemma nan_preview_is_refused_witness :
  exists N, forall fuel, N < fuel ->
  exists c1 pn,
    preview cos_poly sin_poly fuel example_new Transform_.default example_nan_params
      = Ok (true, c1) /\
    previewNode c1 = Some pn /\
    isStable (heap c1) pn = Ok false.
Proof.
  destruct (nan_preview_is_refused cos_poly sin_poly example_new 0
              Transform_.default example_nan_params) as [N HN].
  - apply (reachable_new _ _ 3 640 480). vm_compute. reflexivity.
  - reflexivity.
  - reflexivity.
  - apply desc_refl.
  - left. reflexivity.
  - exists N. intros fuel Hfuel. destruct (HN fuel Hfuel) as (c1 & pn & H1 & H2 & H3 & _).
    exists c1, pn. auto.
Defined.

Lemma created_node_is_stable_witness :
  exists N, forall fuel, N < fuel ->
  exists c1 pn stable,
    preview cos_poly sin_poly fuel example_new Transform_.default
            (RectangleParams 100 50) = Ok (true, c1) /\
    previewNode c1 = Some pn /\
    isStable (heap c1) pn = Ok stable.
Proof.
  destruct (created_node_is_stable cos_poly sin_poly example_new 0
              Transform_.default (RectangleParams 100 50)) as [N HN].
  - apply (reachable_new _ _ 3 640 480). vm_compute. reflexivity.
  - reflexivity.
  - reflexivity.
  - apply desc_refl.
  - exists N. intros fuel Hfuel.
    destruct (HN fuel Hfuel) as (c1 & pn & stable & H1 & H2 & H3 & _).
    exists c1, pn, stable. auto.
Defined.

Lemma cancel_undoes_preview_witness :
  exists N, forall fuel, N < fuel ->
  exists c0 c1 c2 pn,
    render cos_poly sin_poly fuel example_new = Ok c0 /\
    preview cos_poly sin_poly fuel example_new Transform_.default
            (RectangleParams 100 50) = Ok (true, c1) /\
    previewNode c1 = Some pn /\
    removePreviewNode cos_poly sin_poly fuel c1 = Ok c2 /\
    (forall m, m <> pn -> heap c2 !! m = heap c0 !! m).
Proof.
  destruct (cancel_undoes_preview cos_poly sin_poly example_new 0
              Transform_.default (RectangleParams 100 50)) as [N HN].
  - apply (reachable_new _ _ 3 640 480). vm_compute. reflexivity.
  - reflexivity.
  - reflexivity.
  - exists N. intros fuel Hfuel.
    destruct (HN fuel Hfuel) as (c0 & c1 & c2 & pn & H1 & H2 & H3 & _ & H4 & H5 & _).
    exists c0, c1, c2, pn. auto.
Defined.

Lemma edges_small (a : list Point) :
  length a <= 1 -> forall e, e ∈ edges a -> exists p, e = mkLine p p.
Proof.
  intros Hl e He. destruct a as [|p [|p' a]]; [inversion He| |cbn in Hl; lia].
  cbn in He. apply list_elem_of_singleton in He. eauto.
Qed.

(** X16. A polygon with at most one vertex intersects no polygon:
    [isIntersecting] answers false, without throwing, with such a polygon
    on either side. *)
Theorem isIntersecting_degenerate (a b : list Point) :
  length a <= 1 ->
  isIntersecting a b = Ok false /\ isIntersecting b a = Ok false.
Proof.
  intros Hl. rewrite !isIntersecting_edges. split; f_equal.
  - apply existsb_false_elem_of. intros e He.
    destruct (edges_small a Hl e He) as [p ->].
    apply existsb_false_elem_of. intros e' _.
    apply (degenerate_no_intersection p e').
  - apply existsb_false_elem_of. intros e' _.
    apply existsb_false_elem_of. intros e He.
    destruct (edges_small a Hl e He) as [p ->].
    apply (degenerate_no_intersection p e').
Qed.

Lemma isIntersecting_degenerate_witness :
  isIntersecting [mkPoint 1 1] [mkPoint 0 0; mkPoint 4 0; mkPoint 0 4] = Ok false /\
  isIntersecting [mkPoint 0 0; mkPoint 4 0; mkPoint 0 4] [mkPoint 1 1] = Ok false.
Proof. apply isIntersecting_degenerate. cbn. lia. Defined.

Lemma isStable_at_parent (h h' : store) (this p : loc) (s s' sp sp' : Shape) :
  h !! this = Some s -> type s <> Canvas -> parent s = Some p ->
  h !! p = Some sp -> (forall c, c ∈ children sp -> is_Some (h !! c)) ->
  h' !! this = Some s' -> type s' = type s -> parent s' = Some p ->
  drawPoints s' = drawPoints s ->
  h' !! p = Some sp' -> children sp' = children sp ->
  drawPoints sp' = drawPoints sp ->
  (forall c, c ∈ children sp -> c <> this ->
             drawPoints <$> h' !! c = drawPoints <$> h !! c) ->
  isStable h' this = isStable h this.
Proof.
  intros Hs Hty Hpar Hp Hkids Hs' Hty' Hpar' Hdp Hp' Hch Hdpp Hsib.
  assert (Hc : is_Canvas (type s) = false) by (destruct (type s); cbn; congruence).
  rewrite (isStable_closed_form h this p s sp Hs Hc Hpar Hp Hkids).
  rewrite (isStable_closed_form h' this p s' sp' Hs' ltac:(rewrite Hty'; exact Hc)
             Hpar' Hp').
  - f_equal. apply stable_form_eq; try congruence.
    rewrite Hch. intros c Hc'. apply list_elem_of_filter in Hc' as [Hne Hin].
    apply Hsib; assumption.
  - rewrite Hch. intros c Hin. destruct (decide (c = this)) as [->|Hne]; [eauto|].
    specialize (Hsib c Hin Hne). destruct (Hkids c Hin) as [sc Hsc].
    rewrite Hsc in Hsib. destruct (h' !! c); [eauto|discriminate].
Qed.

(** X17. [isStable] is local: its answer for a node depends on the draw
    points of the node, of its parent and of the other children of the
    parent, and on which those children are; two stores that agree on
    these give the same answer, whatever else they hold. *)
Theorem isStable_local (h h' : store) (this p : loc) (s s' sp sp' : Shape) :
  h !! this = Some s -> type s <> Canvas -> parent s = Some p ->
  h !! p = Some sp -> (forall c, c ∈ children sp -> is_Some (h !! c)) ->
  h' !! this = Some s' -> type s' = type s -> parent s' = Some p ->
  drawPoints s' = drawPoints s ->
  h' !! p = Some sp' -> children sp' = children sp ->
  drawPoints sp' = drawPoints sp ->
  (forall c, c ∈ children sp -> c <> this ->
             drawPoints <$> h' !! c = drawPoints <$> h !! c) ->
  isStable h' this = isStable h this.
Proof. apply isStable_at_parent. Qed.

Lemma isStable_local_witness :
  isStable example_other 2 = isStable (heap example_state) 2.
Proof.
  apply (isStable_local (heap example_state) example_other 2 0
           example_rectangle example_rectangle example_canvas example_canvas);
    try reflexivity.
  - discriminate.
  - intros c Hc. cbn in Hc. apply list_elem_of_singleton in Hc as ->.
    vm_compute. eauto.
  - intros c Hc. cbn in Hc. apply list_elem_of_singleton in Hc as ->.
    intros H. exfalso. apply H. reflexivity.
Defined.

Section NewController.
Variables (cos sin : number -> number).

(** Drawing a canvas that has no children. *)
Lemma draw_lone_canvas (fuel : nat) (h : store) (l : loc) (s : Shape)
    (pc : Point) (pT : Transform) :
  h !! l = Some s -> type s = Canvas -> children s = [] -> points s <> [] ->
  draw cos sin (S fuel) h l (Some pc) (Some pT)
  = Ok (<[l := set_drawPoints (map (drawPoint cos sin (transform s) pc pT) (points s)) s]> h).
Proof.
  intros Hl Hty Hch Hpts. rewrite (draw_S cos sin _ _ _ s) by exact Hl. cbv zeta.
  cbn [default].
  rewrite (isStable_Canvas _ l (set_drawPoints _ s)) by
    (try apply lookup_insert_eq; exact Hty).
  cbn [bind]. destruct (points s) as [|p0 pts] eqn:Hp; [congruence|].
  cbn [map index]. cbn. rewrite Hch. reflexivity.
Qed.

End NewController.

(** X18. [new Controller(width, height)] returns for all numbers, given
    one unit of fuel: the store holds one object, the canvas, without parent
    and children, placed at [(width / 2, height / 2)], with the four
    corners of the rectangle as local points, drawn, and selected; there
    is no preview node and [isInEdit] is false. *)
Theorem new_Controller_initial (cos sin : number -> number) (fuel : nat)
    (width height : number) :
  0 < fuel ->
  exists c cv,
    new_Controller cos sin fuel width height = Ok c /\
    dom (heap c) = {[ canvas c ]} /\
    heap c !! canvas c = Some cv /\
    type cv = Canvas /\ parent cv = None /\ children cv = [] /\
    selected cv = true /\
    transform cv = mkTransform (mkPoint (width / 2) (height / 2))%float 0 Point_.unit /\
    points cv = Rectangle_points width height /\
    drawPoints cv = map (resolve_spec cos sin (transform cv) Point_.zero 0 Point_.unit)
                        (points cv) /\
    selectedNode c = Some (canvas c) /\ previewNode c = None /\ isInEdit c = false.
Proof.
  intros Hfuel. destruct fuel as [|fuel]; [lia|].
  unfold new_Controller. set (l := fresh (dom (∅ : store))).
  set (T := mkTransform (mkPoint (width / 2) (height / 2))%float 0 Point_.unit).
  set (cv0 := new_Canvas width height T).
  unfold selectNode. cbn [previewNode isInEdit selectedNode heap orb].
  rewrite bool_decide_eq_false_2 by (intros H; apply H; reflexivity).
  cbn [orb bind]. unfold update. cbn [deref]. rewrite lookup_insert_eq. cbn [bind].
  unfold render. cbn [heap canvas set_heap set_selectedNode].
  rewrite insert_insert_eq.
  rewrite (draw_lone_canvas cos sin fuel _ l (set_selected true cv0))
    by (try apply lookup_insert_eq; try reflexivity; discriminate).
  cbn [bind heap canvas set_heap]. rewrite insert_insert_eq.
  rewrite (draw_lone_canvas cos sin fuel _ l _)
    by (try apply lookup_insert_eq; try reflexivity; discriminate).
  cbn [bind]. rewrite insert_insert_eq.
  eexists _, _. split; [reflexivity|].
  cbn [heap canvas selectedNode previewNode isInEdit set_heap].
  split; [rewrite dom_insert_L, dom_empty_L; set_solver|].
  split; [apply lookup_insert_eq|].
  repeat split.
Qed.

Lemma new_Controller_initial_witness :
  exists c cv,
    new_Controller cos_poly sin_poly 1 640 480 = Ok c /\
    heap c !! canvas c = Some cv /\ selected cv = true.
Proof.
  destruct (new_Controller_initial cos_poly sin_poly 1 640 480 ltac:(lia))
    as (c & cv & H1 & _ & H2 & _ & _ & _ & H3 & _).
  exists c, cv. auto.
Defined.

Section CanvasInvariant.
Variables (cos sin : number -> number).

Lemma canvas_ok_erase (h h' : store) (cv : loc) :
  erase h = erase h' -> canvas_ok h cv -> canvas_ok h' cv.
Proof.
  intros He ((s & Hs & Hty & Hpar) & Honly & Hnd). split; [|split].
  - destruct (erase_lookup h h' cv s He Hs) as [dp Hs']. eauto.
  - intros l s' Hl. destruct (erase_lookup h' h l s' (eq_sym He) Hl) as [dp Hl'].
    apply (Honly l _ Hl').
  - intros l s' Hl. destruct (erase_lookup h' h l s' (eq_sym He) Hl) as [dp Hl'].
    apply (Hnd l _ Hl').
Qed.

Lemma canvas_ok_render (fuel : nat) (c c' : Controller) :
  canvas_ok (heap c) (canvas c) -> render cos sin fuel c = Ok c' ->
  canvas_ok (heap c') (canvas c').
Proof.
  intros Hc Hr. unfold render in Hr. apply bind_Ok in Hr as (h & Hd & [= <-]).
  cbn [heap canvas set_heap].
  apply (canvas_ok_erase (heap c)); [|exact Hc].
  symmetry. apply (draw_erase cos sin _ _ _ _ _ _ Hd).
Qed.

(** An assignment that keeps the class and the parent and leaves the
    children without duplicates keeps the invariant. *)
Lemma canvas_ok_update (h h' : store) (cv l : loc) (f : Shape -> Shape) :
  (forall s, type (f s) = type s /\ parent (f s) = parent s /\
             (NoDup (children s) -> NoDup (children (f s)))) ->
  canvas_ok h cv -> update h l f = Ok h' -> canvas_ok h' cv.
Proof.
  intros Hf ((s & Hs & Hty & Hpar) & Honly & Hnd) Hu. unfold update in Hu.
  apply bind_Ok in Hu as (s0 & Hs0 & [= <-]). cbn [deref] in Hs0.
  destruct (h !! l) as [s1|] eqn:Hl; [|discriminate]. injection Hs0 as ->.
  destruct (Hf s0) as (F1 & F2 & F3).
  split; [|split].
  - destruct (decide (l = cv)) as [->|Hne].
    + rewrite lookup_insert_eq. exists (f s0).
      assert (s = s0) by congruence. subst s. split; [reflexivity|]. split; congruence.
    + rewrite lookup_insert_ne by exact Hne. eauto.
  - intros m sm Hm Htym. destruct (decide (l = m)) as [<-|Hne].
    + rewrite lookup_insert_eq in Hm. injection Hm as <-.
      apply (Honly l s0 Hl). congruence.
    + rewrite lookup_insert_ne in Hm by exact Hne. apply (Honly m sm Hm Htym).
  - intros m sm Hm. destruct (decide (l = m)) as [<-|Hne].
    + rewrite lookup_insert_eq in Hm. injection Hm as <-. apply F3, (Hnd l s0 Hl).
    + rewrite lookup_insert_ne in Hm by exact Hne. apply (Hnd m sm Hm).
Qed.

Lemma canvas_ok_update' (c : Controller) (h' : store) (l : loc) (f : Shape -> Shape) :
  (forall s, type (f s) = type s /\ parent (f s) = parent s /\
             (NoDup (children s) -> NoDup (children (f s)))) ->
  canvas_ok (heap c) (canvas c) -> update (heap c) l f = Ok h' ->
  canvas_ok (heap (set_heap h' c)) (canvas (set_heap h' c)).
Proof. intros Hf Hc Hu. apply (canvas_ok_update (heap c) h' _ l f Hf Hc Hu). Qed.

Lemma selectNode_canvas_ok (fuel : nat) (c c' : Controller) (node : loc) :
  canvas_ok (heap c) (canvas c) -> selectNode cos sin fuel c node = Ok c' ->
  canvas_ok (heap c') (canvas c').
Proof.
  intros Hc Hs. unfold selectNode in Hs.
  destruct (_ || _); [injection Hs as <-; exact Hc|].
  apply bind_Ok in Hs as (h1 & H1 & Hs). apply bind_Ok in Hs as (h2 & H2 & Hs).
  assert (Hc1 : canvas_ok h1 (canvas c)).
  { destruct (selectedNode c) as [old|].
    - apply (canvas_ok_update (heap c) h1 _ old (set_selected false));
        [intros s; repeat split; auto|exact Hc|exact H1].
    - injection H1 as <-. exact Hc. }
  assert (Hc2 : canvas_ok h2 (canvas c)).
  { apply (canvas_ok_update h1 h2 _ node (set_selected true));
      [intros s; repeat split; auto|exact Hc1|exact H2]. }
  apply (canvas_ok_render fuel (set_selectedNode (Some node) (set_heap h2 c)) c');
    [exact Hc2|exact Hs].
Qed.

Lemma removePreviewNode_canvas_ok (fuel : nat) (c c' : Controller) :
  canvas_ok (heap c) (canvas c) -> removePreviewNode cos sin fuel c = Ok c' ->
  canvas_ok (heap c') (canvas c').
Proof.
  intros Hc Hr. unfold removePreviewNode in Hr.
  apply bind_Ok in Hr as (c1 & H1 & Hr).
  apply (canvas_ok_render fuel c1 c'); [|exact Hr].
  cbn [previewNode set_isInEdit heap] in H1.
  destruct (previewNode c) as [pn|]; [|injection H1 as <-; exact Hc].
  apply bind_Ok in H1 as (s & Hs & H1). apply bind_Ok in H1 as (h & Hh & [= <-]).
  unfold removeChild in Hh. apply bind_Ok in Hh as (sp & Hsp & Hh).
  destruct (parent s) as [p|]; [|discriminate]. injection Hh as <-.
  cbn [heap canvas set_heap set_previewNode set_isInEdit].
  apply (canvas_ok_update (heap c) _ _ p
           (fun s0 => set_children (filter (fun node => node <> pn) (children s0)) s0));
    [|exact Hc|].
  - intros s0. repeat split; auto. cbn. apply NoDup_filter.
  - unfold update. cbn [heap set_isInEdit] in Hsp. rewrite Hsp. reflexivity.
Qed.

Lemma addNew_canvas_ok (c : Controller) (h : store) (sel : loc) (T : Transform)
    (params : Params) :
  session_ok c -> canvas_ok (heap c) (canvas c) -> selectedNode c = Some sel ->
  addChild (<[fresh (dom (heap c)) := buildFromParams cos sin (Some sel) T params]>
              (heap c)) sel (fresh (dom (heap c))) = Ok h ->
  canvas_ok h (canvas c).
Proof.
  intros ([rank Hok] & Hcv & Hin) ((s & Hs & Hty & Hpar) & Honly & Hnd) Hsel Ha.
  set (l := fresh (dom (heap c))) in *.
  assert (Hfresh : heap c !! l = None) by apply not_elem_of_dom, is_fresh.
  destruct (Hin sel Hsel) as [ss Hss].
  destruct (buildFromParams_fields cos sin (Some sel) T params) as (_ & Hch & Htyn & _).
  destruct (addChild_grown (heap c) h l sel _ ss Hfresh Hss Hch Ha)
    as (_ & Hl & Hsel' & Hother).
  assert (Hcvl : canvas c <> l) by congruence.
  split; [|split].
  - destruct (decide (canvas c = sel)) as [E|Hne].
    + rewrite E, Hsel'. eexists. split; [reflexivity|].
      assert (s = ss) by congruence. subst s. auto.
    + rewrite Hother by assumption. eauto.
  - intros m sm Hm Htym. destruct (decide (m = l)) as [->|Hml]; [congruence|].
    destruct (decide (m = sel)) as [->|Hms].
    + rewrite Hsel' in Hm. injection Hm as <-. apply (Honly sel ss Hss Htym).
    + rewrite Hother in Hm by assumption. apply (Honly m sm Hm Htym).
  - intros m sm Hm. destruct (decide (m = l)) as [->|Hml].
    { assert (sm = buildFromParams cos sin (Some sel) T params) by congruence.
      subst sm. rewrite Hch. apply NoDup_nil_2. }
    destruct (decide (m = sel)) as [->|Hms].
    + rewrite Hsel' in Hm. injection Hm as <-. cbn [children set_children].
      apply NoDup_app. split; [apply (Hnd sel ss Hss)|]. split; [|apply NoDup_singleton].
      intros k Hk Hk'. apply list_elem_of_singleton in Hk' as ->.
      destruct (Hok sel ss Hss) as (_ & Hkids & _).
      destruct (Hkids l Hk) as (_ & sk & Hsk & _). congruence.
    + rewrite Hother in Hm by assumption. apply (Hnd m sm Hm).
Qed.

Lemma preview_canvas_ok (fuel : nat) (c c' : Controller) (T : Transform)
    (params : Params) (b : bool) :
  session_ok c -> canvas_ok (heap c) (canvas c) ->
  preview cos sin fuel c T params = Ok (b, c') -> canvas_ok (heap c') (canvas c').
Proof.
  intros Hok Hc Hp. unfold preview in Hp.
  apply bind_Ok in Hp as (c1 & H1 & Hp).
  pose proof (removePreviewNode_session_ok cos sin fuel c c1 Hok H1) as Hok1.
  apply removePreviewNode_canvas_ok in H1; [|exact Hc].
  destruct (selectedNode c1) as [sel|] eqn:Hsel; [|injection Hp as _ <-; exact H1].
  apply bind_Ok in Hp as (h & Hh & Hp). apply bind_Ok in Hp as (c2 & H2 & [= _ <-]).
  apply (canvas_ok_render fuel (set_previewNode (Some (fresh (dom (heap c1))))
                                  (set_heap h c1)) c2); [|exact H2].
  apply (addNew_canvas_ok c1 h sel T params Hok1 H1 Hsel Hh).
Qed.

Lemma createNode_canvas_ok (fuel : nat) (c c' : Controller) (T : Transform)
    (params : Params) (b : bool) :
  session_ok c -> canvas_ok (heap c) (canvas c) ->
  createNode cos sin fuel c T params = Ok (b, c') -> canvas_ok (heap c') (canvas c').
Proof.
  intros Hok Hc Hp. unfold createNode in Hp.
  apply bind_Ok in Hp as (stable & _ & Hp).
  destruct (negb stable); [injection Hp as _ <-; exact Hc|].
  apply bind_Ok in Hp as (c1 & H1 & Hp).
  pose proof (removePreviewNode_session_ok cos sin fuel c c1 Hok H1) as Hok1.
  apply removePreviewNode_canvas_ok in H1; [|exact Hc].
  destruct (selectedNode c1) as [sel|] eqn:Hsel; [|injection Hp as _ <-; exact H1].
  apply bind_Ok in Hp as (h & Hh & Hp). apply bind_Ok in Hp as (c2 & H2 & [= _ <-]).
  apply (canvas_ok_render fuel (set_heap h c1) c2); [|exact H2].
  apply (addNew_canvas_ok c1 h sel T params Hok1 H1 Hsel Hh).
Qed.

Lemma set_transform_canvas (t : Transform) (s : Shape) :
  type (set_transform t s) = type s /\ parent (set_transform t s) = parent s /\
  (NoDup (children s) -> NoDup (children (set_transform t s))).
Proof. repeat split; auto. Qed.

Lemma translate_canvas_ok (fuel : nat) (c c' : Controller) (delta : Transform)
    (b : bool) :
  canvas_ok (heap c) (canvas c) -> translate cos sin fuel c delta = Ok (b, c') ->
  canvas_ok (heap c') (canvas c').
Proof.
  intros Hc Ht. unfold translate in Ht.
  apply bind_Ok in Ht as (sel & _ & Ht).
  destruct (is_Canvas (type sel)); [injection Ht as _ <-; exact Hc|].
  destruct (selectedNode c) as [l|] eqn:Hsel; [|discriminate].
  apply bind_Ok in Ht as (h & Hh & Ht). apply bind_Ok in Ht as (c1 & H1 & Ht).
  apply bind_Ok in Ht as (stable & _ & Ht).
  apply (canvas_ok_update' c) in Hh;
    [|intros s; apply set_transform_canvas|exact Hc].
  apply canvas_ok_render in H1; [|exact Hh].
  destruct stable.
  - injection Ht as _ <-. exact H1.
  - apply bind_Ok in Ht as (h2 & H2 & [= _ <-]).
    apply (canvas_ok_update' c1) in H2;
      [exact H2|intros s; apply set_transform_canvas|exact H1].
Qed.

Lemma previewTranslate_canvas_ok (fuel : nat) (c c' : Controller)
    (delta : Transform) :
  canvas_ok (heap c) (canvas c) -> previewTranslate cos sin fuel c delta = Ok c' ->
  canvas_ok (heap c') (canvas c').
Proof.
  intros Hc Ht. unfold previewTranslate in Ht.
  apply bind_Ok in Ht as (sel & _ & Ht).
  destruct (is_Canvas (type sel)); [injection Ht as <-; exact Hc|].
  cbn [selectedNode set_isInEdit] in Ht.
  destruct (selectedNode c) as [l|] eqn:Hsel; [|discriminate].
  apply bind_Ok in Ht as (h & Hh & Ht). apply bind_Ok in Ht as (c1 & H1 & Ht).
  apply (canvas_ok_update' (set_isInEdit true c)) in Hh;
    [|intros s; apply set_transform_canvas|exact Hc].
  apply canvas_ok_render in H1; [|exact Hh].
  apply bind_Ok in Ht as (h2 & H2 & [= <-]).
  apply (canvas_ok_update' c1) in H2;
    [exact H2|intros s; apply set_transform_canvas|exact H1].
Qed.

Lemma new_Controller_canvas_ok (fuel : nat) (width height : number)
    (c : Controller) :
  new_Controller cos sin fuel width height = Ok c -> canvas_ok (heap c) (canvas c).
Proof.
  intros Hn. unfold new_Controller in Hn.
  apply bind_Ok in Hn as (c1 & H1 & Hn).
  apply (canvas_ok_render fuel c1 c); [|exact Hn].
  apply (selectNode_canvas_ok fuel _ c1 _) in H1; [exact H1|].
  cbn [heap canvas]. split; [|split].
  - rewrite lookup_insert_eq. eexists. split; [reflexivity|]. split; reflexivity.
  - intros l s Hl _. apply lookup_insert_Some in Hl as [[<- _]|[_ Hl]]; [reflexivity|].
    rewrite lookup_empty in Hl. discriminate.
  - intros l s Hl. apply lookup_insert_Some in Hl as [[_ <-]|[_ Hl]];
      [apply NoDup_nil_2|rewrite lookup_empty in Hl; discriminate].
Qed.

Lemma reachable_canvas_ok (c : Controller) :
  reachable cos sin c -> canvas_ok (heap c) (canvas c).
Proof.
  induction 1 as [fuel width height c Hn|c c' Hreach IH Hstep].
  - apply (new_Controller_canvas_ok _ _ _ _ Hn).
  - pose proof (reachable_session_ok cos sin c Hreach) as Hok.
    destruct Hstep.
    + eapply selectNode_canvas_ok; eauto.
    + eapply removePreviewNode_canvas_ok; eauto.
    + eapply preview_canvas_ok; eauto.
    + eapply createNode_canvas_ok; eauto.
    + eapply translate_canvas_ok; eauto.
    + eapply previewTranslate_canvas_ok; eauto.
    + eapply canvas_ok_render; eauto.
Qed.

End CanvasInvariant.

(** X19. In every state a session reaches the store is a forest with one
    canvas: the children of an object are objects of the store, point back
    at it as their parent and are strictly below it for some rank (so no
    object is above itself), no object is twice among the children of
    another, every object has local points, every object but a canvas has
    its parent in the store; the canvas is the one object of class
    [Canvas] and has no parent, and the selected node is in the store. *)
Theorem session_store_is_forest (cos sin : number -> number) (c : Controller) :
  reachable cos sin c ->
  (exists rank, tree_ok rank (heap c)) /\
  (exists cv, heap c !! canvas c = Some cv /\ type cv = Canvas /\ parent cv = None) /\
  (forall l s, heap c !! l = Some s -> type s = Canvas -> l = canvas c) /\
  (forall l s, heap c !! l = Some s -> NoDup (children s)) /\
  (forall l, selectedNode c = Some l -> is_Some (heap c !! l)).
Proof.
  intros Hreach.
  destruct (reachable_session_ok cos sin c Hreach) as (Hrank & _ & Hsel).
  destruct (reachable_canvas_ok cos sin c Hreach) as (Hcv & Honly & Hnd).
  auto.
Qed.

Lemma session_store_is_forest_witness :
  (exists rank, tree_ok rank (heap example_state)) /\
  (forall l s, heap example_state !! l = Some s -> NoDup (children s)).
Proof.
  destruct (session_store_is_forest cos_poly sin_poly example_state example_reachable)
    as (H1 & _ & _ & H2 & _).
  split; assumption.
Defined.

Section KeepsStability.
Variables (cos sin : number -> number).

(** The test of two siblings against each other is the same from both
    sides. *)
Lemma clear_of_sym (h : store) (a b : loc) (sa sb : Shape) :
  h !! a = Some sa -> h !! b = Some sb -> clear_of h sa b = clear_of h sb a.
Proof.
  intros Ha Hb. unfold clear_of. rewrite Ha, Hb.
  rewrite (andb_comm (forallb _ (drawPoints sa))). f_equal.
  f_equal. rewrite existsb_swap. apply existsb_pointwise. intros l2.
  apply existsb_pointwise. intros l1. apply line_intersects_sym.
Qed.

Lemma desc_in_children (h : store) (a m : loc) :
  desc h a m -> m <> a -> exists p sp, h !! p = Some sp /\ m ∈ children sp.
Proof.
  induction 1 as [a|a s c m Ha Hc Hd IH]; intros Hne; [congruence|].
  destruct (decide (m = c)) as [->|Hmc]; [eauto|]. apply IH, Hmc.
Qed.

Lemma desc_in_store (rank : loc -> nat) (h : store) (a m : loc) :
  tree_ok rank h -> is_Some (h !! a) -> desc h a m -> is_Some (h !! m).
Proof.
  intros Hok Ha Hd. induction Hd as [a|a s c m Has Hc Hd IH]; [exact Ha|].
  apply IH. destruct (Hok a s Has) as (_ & Hkid & _).
  destruct (Hkid c Hc) as (_ & sc & Hsc & _). eauto.
Qed.

Lemma forallb_snoc {A : Type} (f : A -> bool) (l : list A) (a : A) :
  forallb f (l ++ [a]) = forallb f l && f a.
Proof. rewrite forallb_app. cbn. rewrite andb_true_r. reflexivity. Qed.

(** The stability of the nodes of the tree in a store to which a stable
    last child [l'] of [sel] has been added. *)
Lemma stable_with_new_sibling (rank : loc -> nat) (r0 r3 : store) (cv sel l' : loc)
    (sr s' : Shape) :
  tree_ok rank r0 -> canvas_ok r0 cv ->
  r0 !! sel = Some sr -> r0 !! l' = None ->
  r3 !! sel = Some (set_children (children sr ++ [l']) sr) ->
  r3 !! l' = Some s' ->
  (forall m, is_Some (r0 !! m) -> m <> sel -> r3 !! m = r0 !! m) ->
  isStable r3 l' = Ok true -> type s' <> Canvas -> parent s' = Some sel ->
  forall m, desc r0 cv m -> isStable r3 m = isStable r0 m.
Proof.
  intros Hok ((scv & Hcv & Htycv & _) & _ & _) Hsel Hl' Hsel3 Hl3 Hsame Hst Hty' Hpar' m Hm.
  assert (Hlook : forall k sk, r0 !! k = Some sk ->
            exists sk3, r3 !! k = Some sk3 /\ drawPoints sk3 = drawPoints sk /\
                        type sk3 = type sk /\ parent sk3 = parent sk /\
                        (k <> sel -> sk3 = sk)).
  { intros k sk Hk. destruct (decide (k = sel)) as [->|Hks].
    - assert (sk = sr) by congruence. subst sk. eexists. split; [exact Hsel3|].
      repeat split. congruence.
    - exists sk. rewrite (Hsame k ltac:(eauto) Hks). auto. }
  assert (Hms : is_Some (r0 !! m)) by (apply (desc_in_store rank r0 cv m); eauto).
  destruct Hms as [s Hs].
  destruct (Hlook m s Hs) as (s3 & Hs3 & Hdp3 & Hty3 & Hpar3 & Heq3).
  assert (Hdec : type s = Canvas \/ type s <> Canvas)
    by (destruct (type s); [left; reflexivity|right; discriminate..]).
  destruct Hdec as [Hcan|Hnc].
  { rewrite (isStable_Canvas r0 m s Hs Hcan).
    apply (isStable_Canvas r3 m s3 Hs3). congruence. }
  destruct (Hok m s Hs) as (_ & _ & Hpar). destruct (Hpar Hnc) as (p & Hp & sp & Hsp).
  assert (Hkids0 : forall k, k ∈ children sp -> is_Some (r0 !! k)).
  { intros k Hk. destruct (Hok p sp Hsp) as (_ & Hkid & _).
    destruct (Hkid k Hk) as (_ & sk & Hsk & _). eauto. }
  destruct (decide (p = sel)) as [->|Hps].
  - (* a sibling of the new node *)
    assert (sp = sr) by congruence. subst sp.
    assert (Hmcv : m <> cv) by (intros ->; congruence).
    destruct (desc_in_children r0 cv m Hm Hmcv) as (q & sq & Hq & Hin).
    assert (q = sel).
    { destruct (Hok q sq Hq) as (_ & Hkid & _).
      destruct (Hkid m Hin) as (_ & sm & Hsm & Hpm). congruence. }
    subst q. assert (sq = sr) by congruence. subst sq.
    assert (Hmsel : m <> sel).
    { intros ->. destruct (Hok sel sr Hsel) as (_ & Hkid & _).
      destruct (Hkid sel Hin) as (Hlt & _). lia. }
    assert (s3 = s) by auto. subst s3.
    assert (Hml' : m <> l') by congruence.
    assert (Hnl' : l' ∉ children sr).
    { intros H. destruct (Hkids0 l' H). congruence. }
    assert (Hc0 : is_Canvas (type s) = false) by (destruct (type s); cbn; congruence).
    rewrite (isStable_closed_form r0 m sel s sr Hs Hc0 Hp Hsel Hkids0).
    rewrite (isStable_closed_form r3 m sel s _ Hs3 Hc0 Hp Hsel3).
    2:{ cbn [children set_children]. intros k Hk. apply elem_of_app in Hk as [Hk|Hk].
        - destruct (Hkids0 k Hk) as [sk Hsk].
          destruct (Hlook k sk Hsk) as (sk3 & Hsk3 & _). eauto.
        - apply list_elem_of_singleton in Hk as ->. eauto. }
    f_equal. unfold stable_form. cbn [drawPoints children set_children].
    f_equal. rewrite filter_app, filter_cons_True, filter_nil by congruence.
    rewrite forallb_snoc.
    assert (Hnew : clear_of r3 s l' = true).
    { rewrite (clear_of_sym r3 m l' s s' Hs3 Hl3).
      assert (Hc' : is_Canvas (type s') = false) by (destruct (type s'); cbn; congruence).
      rewrite (isStable_closed_form r3 l' sel s' _ Hl3 Hc' Hpar' Hsel3) in Hst.
      2:{ cbn [children set_children]. intros k Hk. apply elem_of_app in Hk as [Hk|Hk].
          - destruct (Hkids0 k Hk) as [sk Hsk].
            destruct (Hlook k sk Hsk) as (sk3 & Hsk3 & _). eauto.
          - apply list_elem_of_singleton in Hk as ->. eauto. }
      injection Hst as Hst. unfold stable_form in Hst.
      apply andb_true_iff in Hst as [_ Hst]. cbn [children set_children] in Hst.
      rewrite filter_ne_snoc in Hst by exact Hnl'.
      rewrite forallb_elem_of in Hst. apply Hst, Hin. }
    rewrite Hnew, andb_true_r.
    apply forallb_pointwise_in. intros k Hk.
    apply list_elem_of_filter in Hk as [_ Hk].
    unfold clear_of. destruct (Hkids0 k Hk) as [sk Hsk].
    assert (Hksel : k <> sel).
    { intros ->. destruct (Hok sel sr Hsel) as (_ & Hkid & _).
      destruct (Hkid sel Hk) as (Hlt & _). lia. }
    rewrite (Hsame k ltac:(eauto) Hksel). reflexivity.
  - (* the parent is another node *)
    destruct (Hlook p sp Hsp) as (sp3 & Hsp3 & _ & _ & _ & Heqp).
    specialize (Heqp Hps). subst sp3.
    apply (isStable_at_parent r0 r3 m p s s3 sp sp); try assumption; try reflexivity.
    + congruence.
    + intros k Hk _. destruct (Hkids0 k Hk) as [sk Hsk].
      destruct (Hlook k sk Hsk) as (sk3 & Hsk3 & Hdp & _).
      rewrite Hsk, Hsk3. cbn. congruence.
Qed.

End KeepsStability.

(** X20. Creating a node changes the stability of no node of the tree.  In
    every state a session reaches, with no preview pending and a selected
    node that is the canvas or below it, when [preview] is followed by a
    [createNode] with the same arguments that returns true, [isStable]
    gives for every node that was at or below the canvas the answer it
    gives after a plain [render] of the state before the preview. *)
Theorem createNode_keeps_stability (cos sin : number -> number) (c : Controller)
    (sel : loc) (T : Transform) (params : Params) :
  reachable cos sin c -> previewNode c = None -> selectedNode c = Some sel ->
  desc (heap c) (canvas c) sel ->
  exists N, forall fuel, N < fuel ->
  exists c0 c1,
    render cos sin fuel c = Ok c0 /\
    preview cos sin fuel c T params = Ok (true, c1) /\
    forall c3, createNode cos sin fuel c1 T params = Ok (true, c3) ->
      forall m, desc (heap c) (canvas c) m ->
        isStable (heap c3) m = isStable (heap c0) m.
Proof.
  intros Hreach Hpn Hs Hdesc.
  destruct (reachable_session_ok cos sin c Hreach) as ([rank Hok] & Hcv & Hsel).
  pose proof (reachable_canvas_ok cos sin c Hreach) as Hcan.
  exists (S (S (rank (canvas c)))). intros fuel Hfuel.
  destruct (createNode_on_tree cos sin rank fuel c sel T params Hok Hcv (Hsel sel Hs)
              Hpn Hs Hdesc Hfuel)
    as (r0 & r1 & sr & dp & stable & Hrender & Hok0 & He0 & Hprev & Hl0 & Hsel0
        & Hsel1 & Hl1 & Hother & Hst & Hcreate).
  set (l := fresh (dom (heap c))) in *.
  set (new := buildFromParams cos sin (Some sel) T params) in *.
  eexists _, _. split; [exact Hrender|]. split; [exact Hprev|].
  intros c3 Hc3 m Hm. cbn [heap set_heap].
  destruct stable.
  2:{ unfold createNode in Hc3. cbn [previewNode heap] in Hc3.
      rewrite Hst in Hc3. discriminate. }
  destruct (Hcreate eq_refl) as (r3 & l' & rank3 & Hc3' & Hl'1 & Hok3 & Hsel3 & Hl3
                                 & Hsame & Hst3).
  assert (c3 = mkController r3 (canvas c) (Some sel) None false) by congruence.
  subst c3. cbn [heap].
  destruct (buildFromParams_fields cos sin (Some sel) T params) as (_ & _ & Hty & Hpar).
  apply (stable_with_new_sibling rank r0 r3 (canvas c) sel l' sr
           (set_drawPoints dp new)); try assumption.
  - apply (canvas_ok_erase (heap c)); [congruence|exact Hcan].
  - destruct (r0 !! l') as [s0|] eqn:E; [|reflexivity].
    assert (l' <> l) by congruence.
    destruct (decide (l' = sel)) as [->|Hne]; [congruence|].
    rewrite Hother in Hl'1 by assumption. congruence.
  - apply (desc_erase (heap c) r0); [congruence|exact Hm].
Qed.

Lemma createNode_keeps_stability_witness :
  exists N, forall fuel, N < fuel ->
  exists c0 c1,
    render cos_poly sin_poly fuel example_new = Ok c0 /\
    preview cos_poly sin_poly fuel example_new Transform_.default
            (RectangleParams 100 50) = Ok (true, c1).
Proof.
  destruct (createNode_keeps_stability cos_poly sin_poly example_new 0
              Transform_.default (RectangleParams 100 50)) as [N HN].
  - apply (reachable_new _ _ 3 640 480). vm_compute. reflexivity.
  - reflexivity.
  - reflexivity.
  - apply desc_refl.
  - exists N. intros fuel Hfuel. destruct (HN fuel Hfuel) as (c0 & c1 & H1 & H2 & _).
    exists c0, c1. auto.
Defined.

Section TranslateOutside.
Variables (cos sin : number -> number).

Lemma desc_trans (h : store) (a b m : loc) :
  desc h a b -> desc h b m -> desc h a m.
Proof.
  induction 1 as [a|a s c b Ha Hc _ IH]; intros Hm; [exact Hm|].
  apply (desc_child h a s c m Ha Hc). apply IH, Hm.
Qed.

(** Two stores resolved from [a] for the same parent data, that hold the
    same objects up to the draw points except at and below [l], hold the
    same objects outside the subtree of [l]. *)
Lemma resolved_agree_outside (h1 h2 : store) (l a : loc) (pc : Point)
    (rot : number) (sc : Point) :
  resolved cos sin h1 a pc rot sc -> resolved cos sin h2 a pc rot sc ->
  (forall m, ~ desc h1 l m ->
             set_drawPoints [] <$> h1 !! m = set_drawPoints [] <$> h2 !! m) ->
  forall m, desc h1 a m -> ~ desc h1 l m -> h1 !! m = h2 !! m.
Proof.
  intros Hr. induction Hr as [a s pc rot sc Ha Hdp _ IH]. intros Hr2 Hsame m Hm Hout.
  assert (Houta : ~ desc h1 l a).
  { intros Hla. apply Hout. apply (desc_trans h1 l a m Hla Hm). }
  inversion Hr2 as [a' s2 pc' rot' sc' Ha2 Hdp2 Hch2]; subst.
  pose proof (Hsame a Houta) as He. rewrite Ha, Ha2 in He.
  cbn [fmap option_fmap option_map] in He.
  assert (He' : set_drawPoints [] s = set_drawPoints [] s2) by congruence.
  assert (s = s2).
  { apply erased_eq; [exact He'|]. rewrite Hdp, Hdp2.
    assert (transform s = transform s2 /\ points s = points s2) as [-> ->]; [|reflexivity].
    destruct s, s2; unfold set_drawPoints in He'; cbn in *.
    split; congruence. }
  subst s2. inversion Hm as [|a0 s' c m' Ha0 Hc Hd]; subst.
  - congruence.
  - assert (s' = s) by congruence. subst s'.
    apply (IH c Hc (Hch2 c Hc) Hsame m Hd Hout).
Qed.

Lemma desc_same_children (h h' : store) (a m : loc) :
  (forall k, children <$> h !! k = children <$> h' !! k) ->
  desc h a m -> desc h' a m.
Proof.
  intros Hsame Hd. induction Hd as [a|a s c m Ha Hc _ IH]; [apply desc_refl|].
  pose proof (Hsame a) as Hk. rewrite Ha in Hk.
  destruct (h' !! a) as [s'|] eqn:Ha'; [|discriminate]. cbn in Hk.
  apply (desc_child h' a s' c m Ha'); [congruence|exact IH].
Qed.

(** Drawing after the transform of [l] has been replaced: nothing changes
    outside the subtree of [l]. *)
Lemma draw_moved_outside (rank : loc -> nat) (fuel : nat) (h : store)
    (l cv : loc) (s : Shape) (t : Transform) (r0 r' : store) :
  tree_ok rank h -> h !! l = Some s -> is_Some (h !! cv) -> rank cv < fuel ->
  draw cos sin fuel h cv (Some Point_.zero) (Some Transform_.default) = Ok r0 ->
  draw cos sin fuel (<[l := set_transform t s]> h) cv
       (Some Point_.zero) (Some Transform_.default) = Ok r' ->
  forall m, ~ desc h l m -> r' !! m = r0 !! m.
Proof.
  intros Hok Hl Hcv Hfuel Hd0 Hd' m Hout.
  set (h' := <[l := set_transform t s]> h) in *.
  assert (Hok' : tree_ok rank h')
    by (apply (tree_ok_insert_same rank h l s); auto).
  assert (Hcv' : is_Some (h' !! cv)) by (apply extends_insert, Hcv).
  destruct (draw_resolved cos sin rank fuel h cv Point_.zero Transform_.default
              Hok Hcv Hfuel) as (r0' & Hd0' & Hres0).
  destruct (draw_resolved cos sin rank fuel h' cv Point_.zero Transform_.default
              Hok' Hcv' Hfuel) as (r'' & Hd'' & Hres').
  assert (r0' = r0) by congruence. assert (r'' = r') by congruence. subst r0' r''.
  pose proof (draw_erase cos sin _ _ _ _ _ _ Hd0) as He0.
  pose proof (draw_erase cos sin _ _ _ _ _ _ Hd') as He'.
  assert (Hml : m <> l) by (intros ->; apply Hout, desc_refl).
  assert (Hkids : forall k, children <$> h !! k = children <$> h' !! k).
  { intros k. subst h'. destruct (decide (l = k)) as [<-|Hne].
    - rewrite lookup_insert_eq, Hl. reflexivity.
    - rewrite lookup_insert_ne by exact Hne. reflexivity. }
  assert (Hbelow : desc h cv m -> r' !! m = r0 !! m).
  { intros Hdm. symmetry.
    apply (resolved_agree_outside r0 r' l cv _ _ _ Hres0 Hres').
    - intros k Hk.
      assert (Hkl : k <> l).
      { intros ->. apply Hk, desc_refl. }
      rewrite (erase_lookup_eq r0 h k He0), (erase_lookup_eq r' h' k He').
      subst h'. rewrite lookup_insert_ne by congruence. reflexivity.
    - apply (desc_erase h r0); [congruence|exact Hdm].
    - intros Hd. apply Hout. apply (desc_erase r0 h); assumption. }
  destruct (draw_touched cos sin _ _ _ _ _ _ Hd' m) as [Hsame'|Hdm'].
  2:{ apply Hbelow. apply (desc_same_children h' h); [|exact Hdm'].
      intros k. symmetry. apply Hkids. }
  destruct (draw_touched cos sin _ _ _ _ _ _ Hd0 m) as [Hsame|Hdm].
  2:{ apply Hbelow, Hdm. }
  rewrite Hsame', Hsame. subst h'. apply lookup_insert_ne. congruence.
Qed.

(** A stable node [l] whose transform has been replaced: the nodes of the
    tree outside its subtree that were stable are stable. *)
Lemma stable_beside_moved (rank : loc -> nat) (h r0 r' : store) (cv l : loc)
    (sl sl' : Shape) :
  tree_ok rank h -> canvas_ok h cv ->
  erase r0 = erase h ->
  (forall m, ~ desc h l m -> r' !! m = r0 !! m) ->
  h !! l = Some sl -> r' !! l = Some sl' ->
  type sl' = type sl -> parent sl' = parent sl ->
  isStable r' l = Ok true ->
  (forall k, is_Some (r0 !! k) -> is_Some (r' !! k)) ->
  forall m, desc h cv m -> ~ desc h l m ->
    isStable r0 m = Ok true -> isStable r' m = Ok true.
Proof.
  intros Hok ((scv & Hcv & Htycv & Hparcv) & Honly & _) He0 Hout Hl Hl' Htyl Hparl
    Hstl Hext m Hm Hmout Hst0.
  assert (Hok0 : tree_ok rank r0) by (apply (tree_ok_erase rank h); auto).
  assert (Hms : is_Some (h !! m)) by (apply (desc_in_store rank h cv m); eauto).
  destruct Hms as [sh Hsh].
  destruct (erase_lookup h r0 m sh (eq_sym He0) Hsh) as [dpm Hs].
  set (s := set_drawPoints dpm sh) in *.
  assert (Hs' : r' !! m = Some s) by (rewrite Hout by exact Hmout; exact Hs).
  assert (Hdec : type s = Canvas \/ type s <> Canvas)
    by (destruct (type s); [left; reflexivity|right; discriminate..]).
  destruct Hdec as [Hcan|Hnc].
  { apply (isStable_Canvas r' m s Hs' Hcan). }
  destruct (Hok0 m s Hs) as (_ & _ & Hpar). destruct (Hpar Hnc) as (p & Hp & sp & Hsp).
  assert (Hmcv : m <> cv).
  { intros ->. assert (sh = scv) by congruence. subst sh. apply Hnc. exact Htycv. }
  destruct (desc_in_children h cv m Hm Hmcv) as (q & sq & Hq & Hin).
  assert (q = p).
  { destruct (Hok q sq Hq) as (_ & Hkid & _).
    destruct (Hkid m Hin) as (_ & sm & Hsm & Hpm).
    assert (sm = sh) by congruence. subst sm. cbn in Hp. congruence. }
  subst q.
  assert (Hpout : ~ desc h l p).
  { intros Hd. apply Hmout. apply (desc_trans h l p m Hd).
    apply (desc_child h p sq m m Hq Hin). apply desc_refl. }
  assert (Hsp' : r' !! p = Some sp) by (rewrite Hout by exact Hpout; exact Hsp).
  assert (Hchp : children sp = children sq).
  { destruct (erase_lookup h r0 p sq (eq_sym He0) Hq) as [dpp Hsp0].
    assert (sp = set_drawPoints dpp sq) by congruence. subst sp. reflexivity. }
  assert (Hkids0 : forall k, k ∈ children sp -> is_Some (r0 !! k)).
  { intros k Hk. destruct (Hok0 p sp Hsp) as (_ & Hkid & _).
    destruct (Hkid k Hk) as (_ & sk & Hsk & _). eauto. }
  assert (Hkids' : forall k, k ∈ children sp -> is_Some (r' !! k))
    by (intros k Hk; apply Hext, Hkids0, Hk).
  assert (Hc0 : is_Canvas (type s) = false) by (destruct (type s); cbn; congruence).
  rewrite (isStable_closed_form r0 m p s sp Hs Hc0 Hp Hsp Hkids0) in Hst0.
  rewrite (isStable_closed_form r' m p s sp Hs' Hc0 Hp Hsp' Hkids').
  injection Hst0 as Hst0. f_equal. unfold stable_form in *.
  apply andb_true_iff in Hst0 as [Hinside Hclear].
  rewrite Hinside. cbn [andb]. rewrite forallb_elem_of in Hclear.
  apply forallb_elem_of. intros k Hk. specialize (Hclear k Hk).
  apply list_elem_of_filter in Hk as [Hkm Hk].
  assert (Hkp : exists sk, h !! k = Some sk /\ parent sk = Some p).
  { rewrite Hchp in Hk. destruct (Hok p sq Hq) as (_ & Hkid & _).
    destruct (Hkid k Hk) as (_ & sk & Hsk & Hpk). eauto. }
  destruct Hkp as (sk & Hsk & Hpk).
  destruct (decide (k = l)) as [->|Hkl].
  - (* the moved node is a sibling *)
    rewrite (clear_of_sym r' m l s sl' Hs' Hl').
    assert (sk = sl) by congruence. subst sk.
    assert (Hcl : is_Canvas (type sl') = false).
    { rewrite Htyl. destruct (type sl) eqn:Ety; try reflexivity.
      exfalso. assert (l = cv) by (apply (Honly l sl Hl Ety)). subst l.
      assert (sl = scv) by congruence. subst sl. congruence. }
    rewrite (isStable_closed_form r' l p sl' sp Hl' Hcl ltac:(congruence) Hsp' Hkids')
      in Hstl.
    injection Hstl as Hstl. unfold stable_form in Hstl.
    apply andb_true_iff in Hstl as [_ Hstl]. rewrite forallb_elem_of in Hstl.
    apply Hstl. apply list_elem_of_filter. split; [congruence|].
    rewrite Hchp. exact Hin.
  - (* another sibling, outside the moved subtree *)
    assert (Hkout : ~ desc h l k).
    { intros Hd. destruct (desc_parent rank h l k Hok Hd Hkl) as (sk' & q & Hsk' & Hq' & Hdq).
      assert (q = p) by congruence. subst q. contradiction. }
    unfold clear_of in *. rewrite (Hout k Hkout). exact Hclear.
Qed.

End TranslateOutside.

(** X21. An accepted move changes nothing outside the moved subtree.  In
    every state a session reaches, when [translate] of a selected node
    that is not the canvas returns true, every object that is not the
    selected node or below it holds exactly what it holds after a plain
    [render] of the state before the call, and every node of the tree
    outside the moved subtree that was stable is stable. *)
Theorem translate_keeps_outside (cos sin : number -> number) (c : Controller)
    (delta : Transform) (l : loc) (sel : Shape) :
  reachable cos sin c ->
  selectedNode c = Some l -> heap c !! l = Some sel -> type sel <> Canvas ->
  exists N, forall fuel, N < fuel ->
  exists c0,
    render cos sin fuel c = Ok c0 /\
    forall c', translate cos sin fuel c delta = Ok (true, c') ->
      isStable (heap c') l = Ok true /\
      (forall m, ~ desc (heap c) l m -> heap c' !! m = heap c0 !! m) /\
      (forall m, desc (heap c) (canvas c) m -> ~ desc (heap c) l m ->
         isStable (heap c0) m = Ok true -> isStable (heap c') m = Ok true).
Proof.
  intros Hreach Hsel Hl Hty.
  destruct (reachable_session_ok cos sin c Hreach) as ([rank Hok] & Hcv & _).
  pose proof (reachable_canvas_ok cos sin c Hreach) as Hcan.
  exists (rank (canvas c)). intros fuel Hfuel.
  destruct (draw_total cos sin rank fuel (heap c) (canvas c) (Some Point_.zero)
              (Some Transform_.default) Hok Hcv Hfuel) as [r0 Hd0].
  pose proof (draw_erase cos sin _ _ _ _ _ _ Hd0) as He0.
  exists (set_heap r0 c). split; [unfold render; rewrite Hd0; reflexivity|].
  intros c' Htr. cbn [heap set_heap].
  destruct (translate_on_tree cos sin rank fuel c delta l sel Hok Hcv Hfuel Hsel Hl Hty)
    as (c1 & stable & Hrender & Hst & Hacc & Hrej).
  destruct stable.
  2:{ destruct (Hrej eq_refl) as (c'' & Htr' & _). congruence. }
  destruct (Hacc eq_refl) as [Htr' Hmoved].
  assert (c' = set_isInEdit false c1) by congruence. subst c'.
  cbn [heap set_isInEdit].
  unfold render in Hrender. apply bind_Ok in Hrender as (r' & Hd' & [= <-]).
  cbn [heap canvas set_heap] in *.
  pose proof (draw_erase cos sin _ _ _ _ _ _ Hd') as He'.
  assert (Hout : forall m, ~ desc (heap c) l m -> r' !! m = r0 !! m).
  { apply (draw_moved_outside cos sin rank fuel (heap c) l (canvas c) sel _ r0 r'
             Hok Hl Hcv Hfuel Hd0 Hd'). }
  split; [exact Hst|]. split; [exact Hout|].
  destruct (erase_lookup _ r' l _ (eq_sym He') (lookup_insert_eq _ _ _)) as [dp Hl'].
  apply (stable_beside_moved rank (heap c) r0 r' (canvas c) l sel _
           Hok Hcan He0 Hout Hl Hl'); try reflexivity; try assumption.
  intros k Hk. apply (extends_erase _ r' (eq_sym He')).
  apply extends_insert. apply (extends_erase r0 (heap c) He0). exact Hk.
Qed.

Lemma translate_keeps_outside_witness :
  exists N, forall fuel, N < fuel ->
  exists c0, render cos_poly sin_poly fuel example_state = Ok c0.
Proof.
  destruct (translate_keeps_outside cos_poly sin_poly example_state example_delta 2
              example_rectangle example_reachable eq_refl eq_refl ltac:(discriminate))
    as [N HN].
  exists N. intros fuel Hfuel. destruct (HN fuel Hfuel) as (c0 & H0 & _).
  exists c0. exact H0.
Defined.

(** X22. Cancelling undoes [previewTranslate].  In every state a session
    reaches, with a selected node and no preview pending, [previewTranslate]
    followed by [removePreviewNode] (what the Cancel button of the edit
    form calls) ends in exactly the state a plain [render] of the state
    before gives, with [isInEdit] false. *)
Theorem cancel_undoes_previewTranslate (cos sin : number -> number)
    (c : Controller) (delta : Transform) (l : loc) :
  reachable cos sin c -> previewNode c = None -> selectedNode c = Some l ->
  exists N, forall fuel, N < fuel ->
  exists c0 c1,
    render cos sin fuel c = Ok c0 /\
    previewTranslate cos sin fuel c delta = Ok c1 /\
    removePreviewNode cos sin fuel c1 = Ok (set_isInEdit false c0).
Proof.
  intros Hreach Hpn Hsel.
  destruct (reachable_session_ok cos sin c Hreach) as ([rank Hok] & Hcv & Hin).
  destruct (Hin l Hsel) as [sel Hl].
  exists (rank (canvas c)). intros fuel Hfuel.
  destruct (draw_total cos sin rank fuel (heap c) (canvas c) (Some Point_.zero)
              (Some Transform_.default) Hok Hcv Hfuel) as [r0 Hd0].
  pose proof (draw_erase cos sin _ _ _ _ _ _ Hd0) as He0.
  exists (set_heap r0 c).
  (* the store after [previewTranslate] *)
  assert (Hpt : exists h1,
            previewTranslate cos sin fuel c delta
              = Ok (mkController h1 (canvas c) (Some l) None true) /\
            erase h1 = erase (heap c) /\
            forall m, h1 !! m = heap c !! m \/ desc (heap c) (canvas c) m).
  { unfold previewTranslate. cbn [heap selectedNode set_isInEdit].
    rewrite Hsel. cbn [deref]. rewrite Hl. cbn [bind].
    destruct (is_Canvas (type sel)) eqn:Hty.
    { exists (heap c). split; [unfold set_isInEdit; rewrite Hsel, Hpn; reflexivity|].
      split; [reflexivity|]. intros m. left. reflexivity. }
    unfold update at 1. cbn [deref]. rewrite Hl. cbn [bind].
    set (moved := Transform_.add (transform sel) delta).
    set (h' := <[l := set_transform moved sel]> (heap c)).
    assert (Hok' : tree_ok rank h')
      by (apply (tree_ok_insert_same rank (heap c) l sel); auto).
    assert (Hcv' : is_Some (h' !! canvas c)) by (apply extends_insert, Hcv).
    destruct (draw_total cos sin rank fuel h' (canvas c) (Some Point_.zero)
                (Some Transform_.default) Hok' Hcv' Hfuel) as [r' Hd'].
    pose proof (draw_erase cos sin _ _ _ _ _ _ Hd') as He'.
    unfold render. cbn [heap canvas set_heap set_isInEdit]. rewrite Hd'.
    cbn [bind heap set_heap].
    destruct (erase_lookup h' r' l _ (eq_sym He') (lookup_insert_eq _ _ _)) as [dp Hl'].
    unfold update. cbn [deref]. rewrite Hl'. cbn [bind].
    eexists. split; [unfold set_heap; cbn; rewrite ?Hsel, ?Hpn; reflexivity|].
    split; [apply (erase_restore (heap c) r' l sel _ moved Hl He' Hl')|].
    intros m. destruct (draw_touched cos sin _ _ _ _ _ _ Hd' m) as [Hsame|Hdm].
    - left. destruct (decide (l = m)) as [<-|Hne].
      + rewrite lookup_insert_eq, Hl. f_equal.
        rewrite Hl' in Hsame. subst h'. rewrite lookup_insert_eq in Hsame.
        clear -Hsame. destruct sel. unfold set_transform, set_drawPoints in *.
        cbn in *. injection Hsame as ->. reflexivity.
      + rewrite lookup_insert_ne by exact Hne. rewrite Hsame. subst h'.
        apply lookup_insert_ne, Hne.
    - right. apply (desc_same_children h' (heap c)); [|exact Hdm].
      intros k. subst h'. destruct (decide (l = k)) as [<-|Hne].
      + rewrite lookup_insert_eq, Hl. reflexivity.
      + rewrite lookup_insert_ne by exact Hne. reflexivity. }
  destruct Hpt as (h1 & Hpt & He1 & Hout1).
  exists (mkController h1 (canvas c) (Some l) None true).
  split; [unfold render; rewrite Hd0; reflexivity|]. split; [exact Hpt|].
  destruct (draw_deterministic cos sin rank fuel (heap c) h1 (canvas c) Point_.zero
              Transform_.default Hok (eq_sym He1) Hcv Hfuel)
    as (r0' & r2 & Hd0' & Hd2 & Hsame).
  assert (r0' = r0) by congruence. subst r0'.
  unfold removePreviewNode. cbn [previewNode set_isInEdit bind].
  unfold render. cbn [heap canvas set_isInEdit]. rewrite Hd2. cbn [bind].
  f_equal. unfold set_heap, set_isInEdit. cbn. rewrite Hsel, Hpn. f_equal.
  apply map_eq. intros m.
  assert (Hbelow : desc (heap c) (canvas c) m -> r2 !! m = r0 !! m)
    by (intros Hd; symmetry; apply Hsame, Hd).
  destruct (draw_touched cos sin _ _ _ _ _ _ Hd2 m) as [Hm2|Hdm].
  2:{ apply Hbelow. apply (desc_erase h1 (heap c)); assumption. }
  destruct (draw_touched cos sin _ _ _ _ _ _ Hd0 m) as [Hm0|Hdm]; [|apply Hbelow, Hdm].
  destruct (Hout1 m) as [Hm1|Hdm]; [congruence|apply Hbelow, Hdm].
Qed.

Lemma cancel_undoes_previewTranslate_witness :
  exists N, forall fuel, N < fuel ->
  exists c0 c1,
    render cos_poly sin_poly fuel example_state = Ok c0 /\
    previewTranslate cos_poly sin_poly fuel example_state example_delta = Ok c1 /\
    removePreviewNode cos_poly sin_poly fuel c1 = Ok (set_isInEdit false c0).
Proof.
  apply (cancel_undoes_previewTranslate cos_poly sin_poly example_state example_delta 2
           example_reachable); reflexivity.
Defined.

Section HierarchyProofs.

Lemma desc_step (h : store) (a m : loc) (s : Shape) :
  h !! a = Some s ->
  (desc h a m <-> m = a \/ exists c, c ∈ children s /\ desc h c m).
Proof.
  intros Ha. split.
  - intros Hd. inversion Hd as [|a' s' c m' Ha' Hc Hd']; subst; [left; reflexivity|].
    right. assert (s' = s) by congruence. subst s'. eauto.
  - intros [->|(c & Hc & Hd)]; [apply desc_refl|].
    apply (desc_child h a s c m Ha Hc Hd).
Qed.

Lemma flat_map_snoc {A B : Type} (f : A -> list B) (l : list A) (a : A) :
  flat_map f (l ++ [a]) = flat_map f l ++ f a.
Proof. rewrite flat_map_app. cbn. rewrite app_nil_r. reflexivity. Qed.

Lemma makeHierarchy_spec (rank : loc -> nat) (h : store) (fuel : nat) :
  tree_ok rank h ->
  (forall l s, h !! l = Some s -> NoDup (children s)) ->
  forall node, is_Some (h !! node) -> rank node < fuel ->
  exists li, makeHierarchy fuel h node = Ok li /\ lists h [node] (spans li).
Proof.
  intros Hok Hnd. induction fuel as [|fuel IH]; intros node [s Hs] Hr; [lia|].
  cbn [makeHierarchy deref]. rewrite Hs. cbn [bind].
  destruct (Hok node s Hs) as (_ & Hkid & _).
  assert (Hloop : forall cs ul0,
            (forall c, c ∈ cs -> c ∈ children s) -> NoDup cs ->
            exists ul L,
              foldM (fun ul child =>
                       do li <- makeHierarchy fuel h child; Ok (ul ++ [li])) ul0 cs
                = Ok ul /\
              flat_map spans ul = flat_map spans ul0 ++ L /\ lists h cs L).
  { induction cs as [|c cs IHcs]; intros ul0 Hsub Hnd'.
    - exists ul0, []. split; [reflexivity|]. split; [rewrite app_nil_r; reflexivity|].
      split; [|split].
      + intros m. cbn. split; [intros H; inversion H|].
        intros (c & Hc & _). inversion Hc.
      + intros t a m H. inversion H.
      + apply NoDup_nil_2.
    - apply NoDup_cons in Hnd' as [Hc Hnd'].
      destruct (Hkid c (Hsub c ltac:(left))) as (Hlt & sc & Hsc & _).
      destruct (IH c ltac:(eauto) ltac:(lia)) as (li & Hli & Hm & Hent & Hnd1).
      cbn [foldM]. rewrite Hli. cbn [bind].
      destruct (IHcs (ul0 ++ [li]) (fun c0 H0 => Hsub c0 (list_elem_of_further _ _ _ H0))
                  Hnd') as (ul & L & Hf & Hflat & Hm' & Hent' & Hnd2).
      exists ul, (spans li ++ L). split; [exact Hf|].
      split; [rewrite Hflat, flat_map_snoc, <- app_assoc; reflexivity|].
      split; [|split].
      + intros m. rewrite map_app, elem_of_app, Hm, Hm'. split.
        * intros [(c0 & Hc0 & Hd)|(c0 & Hc0 & Hd)].
          -- apply list_elem_of_singleton in Hc0 as ->. exists c. split; [left|exact Hd].
          -- exists c0. split; [right; exact Hc0|exact Hd].
        * intros (c0 & Hc0 & Hd). apply elem_of_cons in Hc0 as [->|Hc0].
          -- left. exists c. split; [left|exact Hd].
          -- right. eauto.
      + intros t a m H. apply elem_of_app in H as [H|H]; eauto.
      + rewrite map_app. apply NoDup_app. split; [exact Hnd1|]. split; [|exact Hnd2].
        intros m H1 H2. apply Hm in H1 as (c1 & Hc1 & Hd1).
        apply list_elem_of_singleton in Hc1 as ->.
        apply Hm' in H2 as (c2 & Hc2 & Hd2).
        apply (subtrees_apart rank h node c c2 m s Hok Hs); auto.
        * apply Hsub. left.
        * apply Hsub. right. exact Hc2.
        * intros ->. contradiction. }
  destruct (Hloop (children s) [] (fun c H => H) (Hnd node s Hs))
    as (ul & L & Hf & Hflat & Hm & Hent & HndL).
  rewrite Hf. cbn [bind]. eexists. split; [reflexivity|].
  cbn [spans flat_map app] in Hflat. cbn [spans]. rewrite Hflat.
  split; [|split].
  - intros m. cbn [map snd]. rewrite elem_of_cons, Hm. split.
    + intros [->|(c & Hc & Hd)].
      * exists node. split; [left|apply desc_refl].
      * exists node. split; [left|]. apply (desc_child h node s c m Hs Hc Hd).
    + intros (c0 & Hc0 & Hd). apply list_elem_of_singleton in Hc0 as ->.
      apply (desc_step h node m s Hs) in Hd as [->|Hd]; [left; reflexivity|right; exact Hd].
  - intros t a m H. apply elem_of_cons in H as [H|H]; [|eauto].
    injection H as -> -> ->. eauto.
  - cbn [map snd]. apply NoDup_cons. split; [|exact HndL].
    intros H. apply Hm in H as (c & Hc & Hd).
    apply (child_not_above rank h node c s Hok Hs Hc Hd).
Qed.

End HierarchyProofs.

(** X23. In every state a session reaches [makeHierarchy] of the canvas
    returns: its spans list exactly the nodes at or below the canvas, each
    once; the text of a span is the name of the class of its node, its
    click listener selects that node, and the span is active exactly when
    its node is the selected node. *)
Theorem hierarchy_lists_tree (cos sin : number -> number) (c : Controller) :
  reachable cos sin c ->
  exists N, forall fuel, N < fuel ->
  exists li,
    makeHierarchy fuel (heap c) (canvas c) = Ok li /\
    (forall m, m ∈ map snd (spans li) <-> desc (heap c) (canvas c) m) /\
    NoDup (map snd (spans li)) /\
    (forall t a m, (t, a, m) ∈ spans li ->
       exists s, heap c !! m = Some s /\ t = ShapeNamesMap (type s) /\
                 (a = true <-> selectedNode c = Some m)).
Proof.
  intros Hreach.
  destruct (reachable_session_ok cos sin c Hreach) as ([rank Hok] & Hcv & _).
  destruct (reachable_canvas_ok cos sin c Hreach) as (_ & _ & Hnd).
  destruct (reachable_flags_ok cos sin c Hreach) as [Hsel _].
  exists (rank (canvas c)). intros fuel Hfuel.
  destruct (makeHierarchy_spec rank (heap c) fuel Hok Hnd (canvas c) Hcv Hfuel)
    as (li & Hli & Hm & Hent & Hnd').
  exists li. split; [exact Hli|]. split; [|split; [exact Hnd'|]].
  - intros m. rewrite Hm. split.
    + intros (c0 & Hc0 & Hd). apply list_elem_of_singleton in Hc0 as ->. exact Hd.
    + intros Hd. exists (canvas c). split; [left|exact Hd].
  - intros t a m H. destruct (Hent t a m H) as (s & Hs & -> & ->).
    exists s. split; [exact Hs|]. split; [reflexivity|]. apply (Hsel m s Hs).
Qed.

Lemma hierarchy_lists_tree_witness :
  exists N, forall fuel, N < fuel ->
  exists li,
    makeHierarchy fuel (heap example_state) (canvas example_state) = Ok li /\
    NoDup (map snd (spans li)).
Proof.
  destruct (hierarchy_lists_tree cos_poly sin_poly example_state example_reachable)
    as [N HN].
  exists N. intros fuel Hfuel. destruct (HN fuel Hfuel) as (li & H1 & _ & H2 & _).
  exists li. auto.
Defined.

Section PageProofs.
Variables (cos sin : number -> number).

Lemma makeHierarchy_desc (fuel : nat) (h : store) : forall node li,
  makeHierarchy fuel h node = Ok li ->
  forall m, m ∈ map snd (spans li) -> desc h node m.
Proof.
  induction fuel as [|fuel IH]; intros node li Hli; [discriminate|].
  cbn [makeHierarchy] in Hli. apply bind_Ok in Hli as (s & Hs & Hli).
  apply bind_Ok in Hli as (ul & Hul & [= <-]). cbn [deref] in Hs.
  destruct (h !! node) as [s'|] eqn:Hn; [|discriminate]. injection Hs as ->.
  assert (Hloop : forall m, m ∈ map snd (flat_map spans ul) ->
                            exists c, c ∈ children s /\ desc h c m).
  { refine (foldM_invariant
      (fun ul0 => forall m, m ∈ map snd (flat_map spans ul0) ->
                            exists c, c ∈ children s /\ desc h c m) _ _ _ _ _ _ Hul).
    - intros m H. inversion H.
    - intros ul0 c ul1 Hc Hinv Hbody m Hm.
      apply bind_Ok in Hbody as (li & Hli & [= <-]).
      rewrite flat_map_snoc, map_app, elem_of_app in Hm. destruct Hm as [Hm|Hm].
      + apply Hinv, Hm.
      + exists c. split; [exact Hc|]. apply (IH c li Hli m Hm). }
  intros m Hm. cbn [spans map snd] in Hm. apply elem_of_cons in Hm as [->|Hm].
  - apply desc_refl.
  - destruct (Hloop m Hm) as (c & Hc & Hd). apply (desc_child h node s c m Hn Hc Hd).
Qed.

Lemma selectNodeAtPoint_for_in (h : store) (point : Point) (cs : list loc) (c : loc) :
  selectNodeAtPoint_for h point cs = Ok (Some c) -> c ∈ cs.
Proof.
  induction cs as [|c0 cs IH]; cbn [selectNodeAtPoint_for]; [discriminate|].
  intros H. apply bind_Ok in H as (sc & _ & H). apply bind_Ok in H as (b & _ & H).
  destruct b; [injection H as ->; left|right; apply IH, H].
Qed.

Lemma selectNodeAtPoint_while_desc (fuel : nat) (h : store) (point : Point) :
  forall start node,
    selectNodeAtPoint_while fuel h start point = Ok node -> desc h start node.
Proof.
  induction fuel as [|fuel IH]; intros start node H; [discriminate|].
  cbn [selectNodeAtPoint_while] in H. apply bind_Ok in H as (s & Hs & H).
  apply bind_Ok in H as (found & Hf & H). cbn [deref] in Hs.
  destruct (h !! start) as [s'|] eqn:Hst; [|discriminate]. injection Hs as ->.
  destruct found as [c|].
  - apply (desc_child h start s c node Hst); [|apply IH, H].
    apply (selectNodeAtPoint_for_in h point _ c Hf).
  - injection H as <-. apply desc_refl.
Qed.

Lemma kept_refl (h : store) : kept h h.
Proof. intros l s Hl. eauto. Qed.

Lemma kept_trans (h1 h2 h3 : store) : kept h1 h2 -> kept h2 h3 -> kept h1 h3.
Proof.
  intros H12 H23 l s Hl. destruct (H12 l s Hl) as (s2 & H2 & Hc2).
  destruct (H23 l s2 H2) as (s3 & H3 & Hc3). eauto.
Qed.

Lemma kept_desc (h h' : store) (a m : loc) : kept h h' -> desc h a m -> desc h' a m.
Proof.
  intros Hk Hd. induction Hd as [a|a s c m Ha Hc _ IH]; [apply desc_refl|].
  destruct (Hk a s Ha) as (s' & Ha' & Hc'). apply (desc_child h' a s' c m Ha' (Hc' c Hc) IH).
Qed.

Lemma kept_erase (h h' : store) : erase h = erase h' -> kept h h'.
Proof.
  intros He l s Hl. destruct (erase_lookup h h' l s He Hl) as [dp Hl']. eauto.
Qed.

Lemma kept_update (h h' : store) (l : loc) (f : Shape -> Shape) :
  (forall s, children (f s) = children s) -> update h l f = Ok h' -> kept h h'.
Proof.
  intros Hf Hu. unfold update in Hu. apply bind_Ok in Hu as (s0 & Hs0 & [= <-]).
  cbn [deref] in Hs0. destruct (h !! l) as [s1|] eqn:Hl; [|discriminate].
  injection Hs0 as ->. intros m s Hm. destruct (decide (l = m)) as [<-|Hne].
  - rewrite lookup_insert_eq. eexists. split; [reflexivity|].
    assert (s = s0) by congruence. subst s. rewrite Hf. auto.
  - rewrite lookup_insert_ne by exact Hne. eauto.
Qed.

Lemma kept_render (fuel : nat) (c c' : Controller) :
  render cos sin fuel c = Ok c' -> kept (heap c) (heap c').
Proof.
  intros Hr. unfold render in Hr. apply bind_Ok in Hr as (h & Hd & [= <-]).
  apply kept_erase. symmetry. apply (draw_erase cos sin _ _ _ _ _ _ Hd).
Qed.

Lemma selected_in_tree_kept (c c' : Controller) :
  kept (heap c) (heap c') -> canvas c' = canvas c ->
  selectedNode c' = selectedNode c ->
  selected_in_tree c -> selected_in_tree c'.
Proof.
  intros Hk Hcv Hs (sel & Hsel & Hd). exists sel. split; [congruence|].
  rewrite Hcv. apply (kept_desc (heap c)); assumption.
Qed.

Lemma selectNode_kept (fuel : nat) (c c' : Controller) (node : loc) :
  selectNode cos sin fuel c node = Ok c' ->
  kept (heap c) (heap c') /\ canvas c' = canvas c /\
  (selectedNode c' = selectedNode c \/ selectedNode c' = Some node).
Proof.
  intros Hs. unfold selectNode in Hs.
  destruct (_ || _); [injection Hs as <-; split; [apply kept_refl|auto]|].
  apply bind_Ok in Hs as (h1 & H1 & Hs). apply bind_Ok in Hs as (h2 & H2 & Hs).
  assert (K1 : kept (heap c) h1).
  { destruct (selectedNode c) as [old|].
    - apply (kept_update _ _ old (set_selected false)); [reflexivity|exact H1].
    - injection H1 as <-. apply kept_refl. }
  assert (K2 : kept h1 h2)
    by (apply (kept_update _ _ node (set_selected true)); [reflexivity|exact H2]).
  pose proof (kept_render fuel _ _ Hs) as K3. cbn [heap set_heap set_selectedNode] in K3.
  destruct (render_selectedNode cos sin fuel _ _ Hs) as (R1 & _ & _ & R4).
  split; [exact (kept_trans _ _ _ (kept_trans _ _ _ K1 K2) K3)|].
  split; [exact R4|right; exact R1].
Qed.

Lemma selectNode_in_tree (fuel : nat) (c c' : Controller) (node : loc) :
  selected_in_tree c -> desc (heap c) (canvas c) node ->
  selectNode cos sin fuel c node = Ok c' -> selected_in_tree c'.
Proof.
  intros Hin Hd Hs. destruct (selectNode_kept fuel c c' node Hs) as (K & Hcv & [E|E]).
  - apply (selected_in_tree_kept c c' K Hcv E Hin).
  - exists node. split; [exact E|]. rewrite Hcv. apply (kept_desc (heap c)); assumption.
Qed.

(** Taking a childless object off the children of its parent keeps every
    other node where it is in the tree. *)
Lemma desc_remove_leaf (h : store) (p pn : loc) (sp spn : Shape) (a m : loc) :
  h !! p = Some sp -> h !! pn = Some spn -> children spn = [] ->
  desc h a m -> m <> pn ->
  desc (<[p := set_children (filter (fun node => node <> pn) (children sp)) sp]> h) a m.
Proof.
  intros Hp Hpn Hch Hd Hm. induction Hd as [a|a s c m Ha Hc Hd IH]; [apply desc_refl|].
  assert (Hcpn : c <> pn).
  { intros ->. apply Hm. apply (desc_leaf h pn m spn Hpn Hch Hd). }
  destruct (decide (p = a)) as [<-|Hne].
  - assert (s = sp) by congruence. subst s.
    eapply desc_child; [apply lookup_insert_eq| |apply IH, Hm].
    cbn [children set_children]. apply list_elem_of_filter. split; assumption.
  - eapply desc_child; [rewrite lookup_insert_ne by exact Hne; exact Ha|exact Hc|].
    apply IH, Hm.
Qed.

Lemma removePreviewNode_in_tree (fuel : nat) (c c' : Controller) :
  session_ok c -> flags_ok c -> selected_in_tree c ->
  removePreviewNode cos sin fuel c = Ok c' -> selected_in_tree c'.
Proof.
  intros ([rank Hok] & _ & _) [_ Hprev] (sel & Hsel & Hd) Hr.
  unfold removePreviewNode in Hr. apply bind_Ok in Hr as (c1 & H1 & Hr).
  destruct (render_selectedNode cos sin fuel c1 c' Hr) as (R1 & _ & _ & R4).
  apply (selected_in_tree_kept c1 c' (kept_render fuel _ _ Hr) R4 R1).
  cbn [previewNode set_isInEdit heap] in H1.
  destruct (previewNode c) as [pn|] eqn:Hpn.
  2:{ injection H1 as <-. exists sel. split; assumption. }
  apply bind_Ok in H1 as (s & Hs & H1). apply bind_Ok in H1 as (h & Hh & [= <-]).
  unfold removeChild in Hh. apply bind_Ok in Hh as (sp & Hsp & Hh).
  destruct (parent s) as [p|] eqn:Hpar; [|discriminate]. injection Hh as <-.
  cbn [deref] in Hs, Hsp.
  destruct (heap c !! pn) as [spn|] eqn:Hpn'; [|discriminate]. injection Hs as ->.
  destruct (heap c !! p) as [sp'|] eqn:Hp; [|discriminate]. injection Hsp as ->.
  destruct (Hprev pn eq_refl) as (p0 & s0 & sp0 & E1 & E2 & E3 & E4 & _ & E6 & E7).
  assert (s0 = s) by congruence. subst s0.
  assert (p0 = p) by congruence. subst p0.
  assert (sp0 = sp) by congruence. subst sp0.
  assert (sel = p) by congruence. subst sel.
  exists p. split; [exact Hsel|].
  cbn [heap canvas set_heap set_previewNode set_isInEdit].
  apply (desc_remove_leaf (heap c) p pn sp s (canvas c) p Hp Hpn' E4 Hd).
  intros ->. destruct (Hok pn sp Hp) as (_ & Hkid & _).
  assert (Hin : pn ∈ children sp).
  { destruct (children sp) as [|k ks] eqn:Ek using rev_ind; [discriminate|].
    rewrite last_snoc in E7. injection E7 as ->. apply elem_of_app. right. left. }
  destruct (Hkid pn Hin) as (Hlt & _). lia.
Qed.

Lemma addNew_in_tree (c : Controller) (h : store) (sel : loc) (T : Transform)
    (params : Params) :
  session_ok c -> selectedNode c = Some sel ->
  addChild (<[fresh (dom (heap c)) := buildFromParams cos sin (Some sel) T params]>
              (heap c)) sel (fresh (dom (heap c))) = Ok h ->
  kept (heap c) h.
Proof.
  intros (_ & _ & Hin) Hsel Ha.
  destruct (Hin sel Hsel) as [ss Hss].
  destruct (buildFromParams_fields cos sin (Some sel) T params) as (_ & Hch & _).
  destruct (addChild_grown (heap c) h _ sel _ ss
              ltac:(apply not_elem_of_dom, is_fresh) Hss Hch Ha) as (Hg & _).
  intros l s Hl. destruct (grown_sub _ _ _ Hg l s Hl) as (s' & Hs' & _ & _ & Hc). eauto.
Qed.

Lemma preview_in_tree (fuel : nat) (c c' : Controller) (T : Transform)
    (params : Params) (b : bool) :
  session_ok c -> flags_ok c -> selected_in_tree c ->
  preview cos sin fuel c T params = Ok (b, c') -> selected_in_tree c'.
Proof.
  intros Hok Hfl Hin Hp. unfold preview in Hp.
  apply bind_Ok in Hp as (c1 & H1 & Hp).
  pose proof (removePreviewNode_session_ok cos sin fuel c c1 Hok H1) as Hok1.
  apply (removePreviewNode_in_tree fuel c c1 Hok Hfl Hin) in H1.
  destruct (selectedNode c1) as [sel|] eqn:Hsel; [|injection Hp as _ <-; exact H1].
  apply bind_Ok in Hp as (h & Hh & Hp). apply bind_Ok in Hp as (c2 & H2 & [= _ <-]).
  destruct (render_selectedNode cos sin fuel _ c2 H2) as (R1 & _ & _ & R4).
  apply (selected_in_tree_kept c1 c2); [| exact R4 | exact R1 | exact H1].
  apply (kept_trans _ h); [apply (addNew_in_tree c1 h sel T params Hok1 Hsel Hh)|].
  apply (kept_render fuel _ _ H2).
Qed.

Lemma createNode_in_tree (fuel : nat) (c c' : Controller) (T : Transform)
    (params : Params) (b : bool) :
  session_ok c -> flags_ok c -> selected_in_tree c ->
  createNode cos sin fuel c T params = Ok (b, c') -> selected_in_tree c'.
Proof.
  intros Hok Hfl Hin Hp. unfold createNode in Hp.
  apply bind_Ok in Hp as (stable & _ & Hp).
  destruct (negb stable); [injection Hp as _ <-; exact Hin|].
  apply bind_Ok in Hp as (c1 & H1 & Hp).
  pose proof (removePreviewNode_session_ok cos sin fuel c c1 Hok H1) as Hok1.
  apply (removePreviewNode_in_tree fuel c c1 Hok Hfl Hin) in H1.
  destruct (selectedNode c1) as [sel|] eqn:Hsel; [|injection Hp as _ <-; exact H1].
  apply bind_Ok in Hp as (h & Hh & Hp). apply bind_Ok in Hp as (c2 & H2 & [= _ <-]).
  destruct (render_selectedNode cos sin fuel _ c2 H2) as (R1 & _ & _ & R4).
  apply (selected_in_tree_kept c1 c2); [| exact R4 | exact R1 | exact H1].
  apply (kept_trans _ h); [apply (addNew_in_tree c1 h sel T params Hok1 Hsel Hh)|].
  apply (kept_render fuel _ _ H2).
Qed.

Lemma translate_in_tree (fuel : nat) (c c' : Controller) (delta : Transform)
    (b : bool) :
  selected_in_tree c -> translate cos sin fuel c delta = Ok (b, c') ->
  selected_in_tree c'.
Proof.
  intros Hin Ht. unfold translate in Ht.
  apply bind_Ok in Ht as (sel & _ & Ht).
  destruct (is_Canvas (type sel)); [injection Ht as _ <-; exact Hin|].
  destruct (selectedNode c) as [l|] eqn:Hsel; [|discriminate].
  apply bind_Ok in Ht as (h & Hh & Ht). apply bind_Ok in Ht as (c1 & H1 & Ht).
  apply bind_Ok in Ht as (stable & _ & Ht).
  assert (K1 : kept (heap c) h) by (eapply kept_update; [|exact Hh]; intros; reflexivity).
  pose proof (kept_render fuel _ _ H1) as K2. cbn [heap set_heap] in K2.
  destruct (render_selectedNode cos sin fuel _ c1 H1) as (R1 & _ & _ & R4).
  cbn [selectedNode canvas set_heap] in R1, R4.
  assert (Hin1 : selected_in_tree c1).
  { apply (selected_in_tree_kept c c1 (kept_trans _ _ _ K1 K2) R4); [congruence|].
    exact Hin. }
  destruct stable.
  - injection Ht as _ <-. destruct c1; exact Hin1.
  - apply bind_Ok in Ht as (h2 & H2 & [= _ <-]).
    apply (selected_in_tree_kept c1); [|reflexivity|reflexivity|exact Hin1].
    cbn [heap set_heap]. eapply kept_update; [|exact H2]. intros; reflexivity.
Qed.

Lemma previewTranslate_in_tree (fuel : nat) (c c' : Controller) (delta : Transform) :
  selected_in_tree c -> previewTranslate cos sin fuel c delta = Ok c' ->
  selected_in_tree c'.
Proof.
  intros Hin Ht. unfold previewTranslate in Ht.
  assert (Hin0 : selected_in_tree (set_isInEdit true c)) by (destruct c; exact Hin).
  apply bind_Ok in Ht as (sel & _ & Ht).
  destruct (is_Canvas (type sel)); [injection Ht as <-; exact Hin0|].
  cbn [selectedNode set_isInEdit] in Ht.
  destruct (selectedNode c) as [l|] eqn:Hsel; [|discriminate].
  apply bind_Ok in Ht as (h & Hh & Ht). apply bind_Ok in Ht as (c1 & H1 & Ht).
  cbn [heap set_isInEdit] in Hh.
  assert (K1 : kept (heap c) h) by (eapply kept_update; [|exact Hh]; intros; reflexivity).
  pose proof (kept_render fuel _ _ H1) as K2. cbn [heap set_heap] in K2.
  destruct (render_selectedNode cos sin fuel _ c1 H1) as (R1 & _ & _ & R4).
  cbn [selectedNode canvas set_heap set_isInEdit] in R1, R4.
  assert (Hin1 : selected_in_tree c1).
  { apply (selected_in_tree_kept c c1 (kept_trans _ _ _ K1 K2) R4); [congruence|].
    exact Hin. }
  apply bind_Ok in Ht as (h2 & H2 & [= <-]).
  apply (selected_in_tree_kept c1); [|reflexivity|reflexivity|exact Hin1].
  cbn [heap set_heap]. eapply kept_update; [|exact H2]. intros; reflexivity.
Qed.

Lemma event_step (c c' : Controller) : event cos sin c c' -> step cos sin c c'.
Proof.
  intros He. destruct He.
  - eapply step_selectNode; eauto.
  - unfold selectNodeAtPoint in H. apply bind_Ok in H as (node & _ & H).
    eapply step_selectNode; eauto.
  - eapply step_removePreviewNode; eauto.
  - eapply step_preview; eauto.
  - eapply step_createNode; eauto.
  - eapply step_translate; eauto.
  - eapply step_previewTranslate; eauto.
Qed.

Lemma page_reachable (c : Controller) : page cos sin c -> reachable cos sin c.
Proof.
  induction 1 as [fuel width height c Hn|c c' _ IH He].
  - apply (reachable_new cos sin fuel width height c Hn).
  - apply (reachable_step cos sin c c' IH). apply event_step, He.
Qed.

Lemma page_selected_in_tree (c : Controller) :
  page cos sin c -> selected_in_tree c.
Proof.
  induction 1 as [fuel width height c Hn|c c' Hpage IH He].
  - unfold new_Controller in Hn. apply bind_Ok in Hn as (c1 & H1 & Hr).
    destruct (render_selectedNode cos sin fuel c1 c Hr) as (R1 & _ & _ & R4).
    destruct (selectNode_kept fuel _ c1 _ H1) as (_ & Hcv & Hsel).
    cbn [canvas selectedNode] in Hcv, Hsel.
    exists (canvas c). split; [|apply desc_refl].
    rewrite R1, R4, Hcv. destruct Hsel as [Hsel|Hsel]; [|exact Hsel].
    unfold selectNode in H1. cbn [isInEdit selectedNode previewNode orb] in H1.
    rewrite bool_decide_eq_false_2 in H1 by (intros E; apply E; reflexivity). cbn [orb] in H1.
    apply bind_Ok in H1 as (h1 & _ & H1). apply bind_Ok in H1 as (h2 & _ & H1).
    destruct (render_selectedNode cos sin fuel _ c1 H1) as (R1' & _).
    cbn [selectedNode set_heap set_selectedNode] in R1'. exact R1'.
  - pose proof (page_reachable c Hpage) as Hreach.
    pose proof (reachable_session_ok cos sin c Hreach) as Hok.
    pose proof (reachable_flags_ok cos sin c Hreach) as Hfl.
    destruct He.
    + eapply selectNode_in_tree; eauto.
      eapply makeHierarchy_desc; eauto.
      apply list_elem_of_fmap. eexists. split; [|eassumption]. reflexivity.
    + unfold selectNodeAtPoint in H. apply bind_Ok in H as (node & Hw & H).
      eapply selectNode_in_tree; eauto.
      eapply selectNodeAtPoint_while_desc; eauto.
    + eapply removePreviewNode_in_tree; eauto.
    + eapply preview_in_tree; eauto.
    + eapply createNode_in_tree; eauto.
    + eapply translate_in_tree; eauto.
    + eapply previewTranslate_in_tree; eauto.
Qed.

End PageProofs.

Lemma example_page : page cos_poly sin_poly example_state.
Proof.
  apply (page_event _ _ example_created).
  - apply (page_event _ _ example_previewed).
    + apply (page_event _ _ example_new).
      * apply (page_new _ _ 3 640 480). vm_compute. reflexivity.
      * apply (event_preview _ _ 3 _ Transform_.default (RectangleParams 100 50) true).
        vm_compute. reflexivity.
    + apply (event_createNode _ _ 3 _ Transform_.default (RectangleParams 100 50) true).
      vm_compute. reflexivity.
  - apply (event_span_click _ _ 3 3 example_created
             (mkLi "Canvas" true 0 [mkLi "Rectangle" false 2 []]) "Rectangle" false 2).
    + vm_compute. reflexivity.
    + cbn. right. left.
    + vm_compute. reflexivity.
Qed.

(** X24. Through the events of the page (a click on a span of the
    hierarchy, a mouse press on the drawing, the calls of the creation
    form) a node is selected at all times, and it is the canvas or a node
    below it: a node that is not in the tree is never selected.  Every
    state the page reaches is a state a session reaches. *)
Theorem page_selects_in_tree (cos sin : number -> number) (c : Controller) :
  page cos sin c ->
  reachable cos sin c /\
  exists sel, selectedNode c = Some sel /\ desc (heap c) (canvas c) sel.
Proof.
  intros Hp. split; [apply page_reachable, Hp|apply (page_selected_in_tree cos sin c Hp)].
Qed.

Lemma page_selects_in_tree_witness :
  exists sel, selectedNode example_state = Some sel /\
              desc (heap example_state) (canvas example_state) sel.
Proof. apply (page_selects_in_tree cos_poly sin_poly example_state example_page). Defined.

Section PaintingProofs.
Variables (cos sin : number -> number).

Lemma fold_lineTo (pts : list Point) : forall ctx,
  fold_left (fun ctx p => lineTo (x p) (y p) ctx) pts ctx =
  mkContext (strokeStyle ctx) (path ctx ++ map (fun p => LineTo (x p) (y p)) pts)
            (strokes ctx).
Proof.
  induction pts as [|p pts IH]; intros ctx; cbn [fold_left map].
  - rewrite app_nil_r. destruct ctx; reflexivity.
  - rewrite IH. cbn [lineTo strokeStyle path strokes]. rewrite <- app_assoc. reflexivity.
Qed.

(** The context after the stroke of a node. *)
Lemma stroke_outline (ctx : Context) (stable : bool) (first : Point)
    (dps : list Point) :
  index dps 0 = Ok first ->
  stroke (lineTo (x first) (y first)
            (fold_left (fun ctx p => lineTo (x p) (y p) ctx) (drop 1 dps)
               (moveTo (x first) (y first)
                  (beginPath (set_strokeStyle (if stable then "black" else "red") ctx)))))
  = mkContext (colour stable) (outline dps)
              (strokes ctx ++ [(colour stable, outline dps)]).
Proof.
  intros Hi. destruct dps as [|d0 rest]; [discriminate|].
  cbn in Hi. injection Hi as ->.
  rewrite fold_lineTo. cbn. unfold stroke, lineTo. cbn.
  rewrite drop_0. reflexivity.
Qed.

(** The equation of [draw_ctx] at an object of the store. *)
Lemma draw_ctx_S (fuel : nat) (h : store) (ctx : Context) (this : loc) (s : Shape)
    (parentCenter : option Point) (parentTransform : option Transform) :
  h !! this = Some s ->
  draw_ctx cos sin (S fuel) h ctx this parentCenter parentTransform =
  let pc := default (mkPoint 0 0) parentCenter in
  let pT := default (mkTransform Point_.zero 0 Point_.unit) parentTransform in
  let dps := map (drawPoint cos sin (transform s) pc pT) (points s) in
  let h1 := <[this := set_drawPoints dps s]> h in
  do stable <- isStable h1 this;
  do first <- index dps 0;
  do r <- foldM (fun acc child =>
                   do s' <- deref (fst acc) (Some this);
                   draw_ctx cos sin fuel (fst acc) (snd acc) child
                            (Some (getCenter (drawPoints s')))
                            (Some (absoluteTransform (transform s) pc pT)))
                (h1, mkContext (colour stable) (outline dps)
                               (strokes ctx ++ [(colour stable, outline dps)]))
                (children s);
  Ok (fst r, set_strokeStyle (strokeStyle ctx) (snd r)).
Proof.
  intros Hthis. cbn [draw_ctx deref]. rewrite Hthis. cbn [bind].
  destruct (isStable _ this) as [stable| |]; cbn [bind]; try reflexivity.
  rewrite lookup_insert_eq. cbn [bind drawPoints set_drawPoints children].
  destruct (index _ 0) as [first| |] eqn:Hi; cbn [bind]; try reflexivity.
  rewrite (stroke_outline ctx stable first _ Hi). reflexivity.
Qed.

(** [draw_ctx] is [draw] with the context: same store, same exceptions. *)
Lemma draw_ctx_draw (fuel : nat) : forall h ctx this pc pT,
  forget (draw_ctx cos sin fuel h ctx this pc pT) = draw cos sin fuel h this pc pT.
Proof.
  induction fuel as [|fuel IH]; intros h ctx this pc pT; [reflexivity|].
  destruct (h !! this) as [s|] eqn:Hthis.
  2:{ cbn [draw_ctx draw deref]. rewrite Hthis. reflexivity. }
  rewrite (draw_ctx_S fuel h ctx this s pc pT Hthis),
          (draw_S cos sin fuel h this s pc pT Hthis). cbv zeta.
  destruct (isStable _ this) as [stable| |]; cbn [bind forget]; try reflexivity.
  destruct (index _ 0) as [first| |]; cbn [bind forget]; try reflexivity.
  generalize (mkContext (colour stable)
     (outline (map (drawPoint cos sin (transform s) (default (mkPoint 0 0) pc)
                      (default (mkTransform Point_.zero 0 Point_.unit) pT)) (points s)))
     (strokes ctx ++ [(colour stable,
        outline (map (drawPoint cos sin (transform s) (default (mkPoint 0 0) pc)
                      (default (mkTransform Point_.zero 0 Point_.unit) pT)) (points s)))])).
  generalize (<[this := set_drawPoints
     (map (drawPoint cos sin (transform s) (default (mkPoint 0 0) pc)
             (default (mkTransform Point_.zero 0 Point_.unit) pT)) (points s)) s]> h).
  induction (children s) as [|c cs IHcs]; intros h1 ctx1; [reflexivity|].
  cbn [foldM fst snd]. destruct (deref h1 (Some this)) as [s'| |]; cbn [bind];
    try reflexivity.
  rewrite <- (IH h1 ctx1 c).
  destruct (draw_ctx cos sin fuel h1 ctx1 c _ _) as [[h2 ctx2]| |]; cbn [bind forget fst];
    try reflexivity.
  apply IHcs.
Qed.

Lemma draw_ctx_Ok (fuel : nat) (h : store) (ctx : Context) (this : loc)
    (pc : option Point) (pT : option Transform) (h' : store) (ctx' : Context) :
  draw_ctx cos sin fuel h ctx this pc pT = Ok (h', ctx') ->
  draw cos sin fuel h this pc pT = Ok h'.
Proof. intros H. rewrite <- (draw_ctx_draw fuel h ctx this pc pT), H. reflexivity. Qed.

Lemma draw_Ok_ctx (fuel : nat) (h : store) (ctx : Context) (this : loc)
    (pc : option Point) (pT : option Transform) (h' : store) :
  draw cos sin fuel h this pc pT = Ok h' ->
  exists ctx', draw_ctx cos sin fuel h ctx this pc pT = Ok (h', ctx').
Proof.
  intros H. rewrite <- (draw_ctx_draw fuel h ctx this pc pT) in H.
  destruct (draw_ctx cos sin fuel h ctx this pc pT) as [[h2 ctx2]| |]; try discriminate.
  injection H as <-. eauto.
Qed.

Lemma makeHierarchy_erase (fuel : nat) (h h' : store) : forall node,
  erase h = erase h' -> makeHierarchy fuel h node = makeHierarchy fuel h' node.
Proof.
  induction fuel as [|fuel IH]; intros node He; [reflexivity|].
  cbn [makeHierarchy deref].
  replace (fun ul child => do li <- makeHierarchy fuel h' child; Ok (ul ++ [li]))
    with (fun ul child => do li <- makeHierarchy fuel h child; Ok (ul ++ [li])).
  2:{ extensionality ul. extensionality child. rewrite (IH child He). reflexivity. }
  destruct (h !! node) as [s|] eqn:Hn.
  - destruct (erase_lookup h h' node s He Hn) as [dp ->]. reflexivity.
  - destruct (h' !! node) as [s'|] eqn:Hn'; [|reflexivity].
    destruct (erase_lookup h' h node s' (eq_sym He) Hn') as [dp Hc]. congruence.
Qed.

Lemma split_app {A : Type} (L1 L2 : list A) (x : A) : forall E1 E2,
  L1 ++ L2 = E1 ++ x :: E2 ->
  (exists E2', L1 = E1 ++ x :: E2' /\ E2 = E2' ++ L2) \/
  (exists E1', L2 = E1' ++ x :: E2 /\ E1 = L1 ++ E1').
Proof.
  induction L1 as [|a L1 IH]; intros E1 E2 H.
  - right. exists E1. split; [exact H|reflexivity].
  - destruct E1 as [|e E1]; cbn in H.
    + injection H as -> <-. left. exists L1. split; reflexivity.
    + injection H as -> H. destruct (IH E1 E2 H) as [(E2' & -> & ->)|(E1' & -> & ->)].
      * left. exists E2'. split; reflexivity.
      * right. exists E1'. split; reflexivity.
Qed.

Lemma nodup_erase (h h' : store) :
  erase h = erase h' ->
  (forall l s, h !! l = Some s -> NoDup (children s)) ->
  forall l s, h' !! l = Some s -> NoDup (children s).
Proof.
  intros He Hnd l s Hl.
  destruct (erase_lookup h' h l s (eq_sym He) Hl) as [dp Hl'].
  apply (Hnd l _ Hl').
Qed.

(** What a pass of [draw_ctx] strokes, in which order, and how the colours
    are picked. *)
Lemma draw_ctx_spec (rank : loc -> nat) (fuel : nat) : forall h ctx this pc pT h' ctx',
  tree_ok rank h -> (forall l s, h !! l = Some s -> NoDup (children s)) ->
  draw_ctx cos sin fuel h ctx this pc pT = Ok (h', ctx') ->
  strokeStyle ctx' = strokeStyle ctx /\
  exists li E, makeHierarchy fuel h this = Ok li /\
    map fst E = map snd (spans li) /\
    strokes ctx' = strokes ctx ++ map (stroke_of h') E /\
    (forall m, m ∈ map fst E <-> desc h this m) /\
    picked_in_order h h' E.
Proof.
  induction fuel as [|fuel IH]; intros h ctx this pc pT h' ctx' Hok Hnd Hd;
    [discriminate|].
  pose proof (draw_ctx_Ok _ _ _ _ _ _ _ _ Hd) as Hdraw.
  destruct (draw_inv cos sin _ _ _ _ _ _ Hdraw) as (s & Hthis & _).
  rewrite (draw_ctx_S fuel h ctx this s pc pT Hthis) in Hd. cbv zeta in Hd.
  apply bind_Ok in Hd as (stable & Hst & Hd).
  apply bind_Ok in Hd as (first & Hfirst & Hd).
  apply bind_Ok in Hd as ([hf ctxf] & Hfold & Hd). cbn [fst snd] in Hd.
  injection Hd as <- <-.
  set (dps := map (drawPoint cos sin (transform s) (default (mkPoint 0 0) pc)
                     (default (mkTransform Point_.zero 0 Point_.unit) pT))
                  (points s)) in *.
  set (h1 := <[this := set_drawPoints dps s]> h) in *.
  set (ctx1 := mkContext (colour stable) (outline dps)
                 (strokes ctx ++ [(colour stable, outline dps)])) in *.
  set (absT := absoluteTransform (transform s) (default (mkPoint 0 0) pc)
                 (default (mkTransform Point_.zero 0 Point_.unit) pT)) in *.
  assert (He1 : erase h1 = erase h) by (apply erase_insert, Hthis).
  cbn [makeHierarchy deref]. rewrite Hthis. cbn [bind].
  pose (Inv := fun (done : list loc) (hk : store) (ctxk : Context) (ul : list Li)
                   (Ek : list (loc * bool)) =>
    erase hk = erase h /\
    (forall m, (forall c0, c0 ∈ done -> ~ desc h c0 m) -> hk !! m = h1 !! m) /\
    strokeStyle ctxk = colour stable /\
    map fst Ek = map snd (flat_map spans ul) /\
    strokes ctxk = strokes ctx1 ++ map (stroke_of hk) Ek /\
    (forall m, m ∈ map fst Ek <-> exists c0, c0 ∈ done /\ desc h c0 m) /\
    picked_in_order h hk ((this, stable) :: Ek)).
  assert (Hloop : forall todo done hk ctxk ulk Ek hf' ctxf',
    children s = done ++ todo ->
    Inv done hk ctxk ulk Ek ->
    foldM (fun acc child =>
             do s' <- deref (fst acc) (Some this);
             draw_ctx cos sin fuel (fst acc) (snd acc) child
                      (Some (getCenter (drawPoints s'))) (Some absT))
          (hk, ctxk) todo = Ok (hf', ctxf') ->
    exists ul E,
      foldM (fun ul child => do li <- makeHierarchy fuel h child; Ok (ul ++ [li]))
            ulk todo = Ok ul /\
      Inv (children s) hf' ctxf' ul E).
  { induction todo as [|c todo IHtodo];
      intros done hk ctxk ulk Ek hf' ctxf' Hsplit HInv Hf.
    - cbn [foldM] in Hf. injection Hf as <- <-. exists ulk, Ek.
      split; [reflexivity|]. rewrite app_nil_r in Hsplit. rewrite Hsplit. exact HInv.
    - cbn [foldM] in Hf. apply bind_Ok in Hf as ([h2 ctx2] & Hbody & Hrest).
      cbn [fst snd] in Hbody. apply bind_Ok in Hbody as (s' & Hs' & Hdc).
      destruct HInv as (Hek & Hun & Hsty & Hfst & Hstr & Hmem & Hpick).
      assert (Hc : c ∈ children s) by (rewrite Hsplit; apply elem_of_app; right; left).
      assert (Hndc : NoDup (done ++ c :: todo))
        by (rewrite <- Hsplit; apply (Hnd this s Hthis)).
      assert (Hcdone : c ∉ done).
      { apply NoDup_app in Hndc as (_ & Hdis & _). intros Hin.
        apply (Hdis c Hin). left. }
      pose proof (tree_ok_erase rank h hk (eq_sym Hek) Hok) as Hokk.
      pose proof (nodup_erase h hk (eq_sym Hek) Hnd) as Hndk.
      destruct (IH hk ctxk c _ _ h2 ctx2 Hokk Hndk Hdc)
        as (Hsty2 & li & Ec & Hli & HfstEc & Hstr2 & Hmem2 & Hpick2).
      rewrite <- (makeHierarchy_erase fuel h hk c (eq_sym Hek)) in Hli.
      pose proof (draw_ctx_Ok _ _ _ _ _ _ _ _ Hdc) as Hdrawc.
      pose proof (draw_erase cos sin _ _ _ _ _ _ Hdrawc) as He2.
      assert (Hout : forall m, ~ desc h c m -> h2 !! m = hk !! m).
      { intros m Hm. apply (draw_outside cos sin _ _ _ _ _ _ Hdrawc).
        intros Hd'. apply Hm. apply (desc_erase hk h); [exact Hek|exact Hd']. }
      assert (Hapart : forall c0 m, c0 ∈ done -> desc h c0 m -> ~ desc h c m).
      { intros c0 m Hc0 Hd0.
        apply (subtrees_apart rank h this c0 c m s Hok Hthis); auto.
        - rewrite Hsplit. apply elem_of_app. left. exact Hc0.
        - intros ->. contradiction. }
      assert (Hnotthis : ~ desc h c this)
        by (apply (child_not_above rank h this c s Hok Hthis Hc)).
      assert (Hold : forall m, m ∈ map fst ((this, stable) :: Ek) -> h2 !! m = hk !! m).
      { intros m Hm. apply Hout. cbn [map fst] in Hm.
        apply elem_of_cons in Hm as [->|Hm]; [exact Hnotthis|].
        apply Hmem in Hm as (c0 & Hc0 & Hd0). apply (Hapart c0 m Hc0 Hd0). }
      cbn [foldM]. rewrite Hli. cbn [bind].
      apply (IHtodo (done ++ [c]) h2 ctx2 (ulk ++ [li]) (Ek ++ Ec) hf' ctxf');
        [rewrite <- app_assoc; exact Hsplit| |exact Hrest].
      split; [congruence|]. split; [|split; [congruence|split; [|split; [|split]]]].
      + intros m Hm. rewrite (Hout m); [|apply Hm, elem_of_app; right; left].
        apply Hun. intros c0 Hc0. apply Hm, elem_of_app. left. exact Hc0.
      + rewrite map_app, flat_map_snoc, map_app, Hfst, HfstEc. reflexivity.
      + rewrite Hstr2, Hstr, map_app, <- app_assoc. f_equal. f_equal.
        apply map_ext_in. intros [n b] Hin. unfold stroke_of. cbn [fst snd].
        rewrite (Hold n); [reflexivity|].
        right. apply list_elem_of_fmap. exists (n, b). split; [reflexivity|].
        apply list_elem_of_In, Hin.
      + intros m. rewrite map_app, elem_of_app, Hmem, Hmem2. split.
        * intros [(c0 & Hc0 & Hd0)|Hd0].
          -- exists c0. split; [apply elem_of_app; left; exact Hc0|exact Hd0].
          -- exists c. split; [apply elem_of_app; right; left|].
             apply (desc_erase hk h); [exact Hek|exact Hd0].
        * intros (c0 & Hc0 & Hd0). apply elem_of_app in Hc0 as [Hc0|Hc0].
          -- left. eauto.
          -- apply list_elem_of_singleton in Hc0 as ->. right.
             apply (desc_erase h hk); [symmetry; exact Hek|exact Hd0].
      + intros E1 n b E2 HE.
        change ((this, stable) :: Ek ++ Ec) with (((this, stable) :: Ek) ++ Ec) in HE.
        apply split_app in HE as [(E2' & HL & ->)|(E1' & HL & ->)].
        * destruct (Hpick E1 n b E2' HL) as (hn & Hn & Hpre & Hrest').
          exists hn. split; [exact Hn|]. split; [|exact Hrest'].
          intros m Hm. rewrite (Hpre m Hm). symmetry. apply Hold.
          rewrite HL, map_app, elem_of_app. cbn [map fst].
          destruct Hm as [Hm| ->]; [left; exact Hm|right; left].
        * destruct (Hpick2 E1' n b E2 HL) as (hn & Hn & Hpre & Hrest').
          exists hn. split; [exact Hn|]. split.
          -- intros m Hm.
             destruct (decide (m ∈ map fst E1' \/ m = n)) as [Hin|Hnin];
               [apply Hpre, Hin|].
             destruct Hm as [Hm|Hm]; [|exfalso; apply Hnin; right; exact Hm].
             rewrite map_app, elem_of_app in Hm.
             destruct Hm as [Hm|Hm]; [|exfalso; apply Hnin; left; exact Hm].
             rewrite (Hrest' m); [symmetry; apply Hold, Hm| |];
               intros H; apply Hnin; [left|right]; exact H.
          -- intros m Hm Hmn. rewrite map_app, elem_of_app in Hm.
             rewrite (Hrest' m); [| |exact Hmn].
             2:{ intros H. apply Hm. right. exact H. }
             rewrite Hun.
             ++ apply lookup_insert_ne. intros <-. apply Hm. left. left.
             ++ intros c0 Hc0 Hd0. apply Hm. left. right.
                apply Hmem. eauto. }
  destruct (Hloop (children s) [] h1 ctx1 [] [] hf ctxf eq_refl) as (ul & E & Hul & HInv).
  { split; [exact He1|]. split; [reflexivity|]. split; [reflexivity|].
    split; [reflexivity|]. split; [cbn; rewrite app_nil_r; reflexivity|].
    split.
    - intros m. cbn. split; [intros H; inversion H|].
      intros (c0 & Hc0 & _). inversion Hc0.
    - intros E1 n b E2 HE. destruct E1 as [|e E1]; cbn in HE.
      + injection HE as <- <- <-. exists h1. split; [exact Hst|].
        split; [|intros m _ Hm; apply lookup_insert_ne; congruence].
        intros m Hm. reflexivity.
      + injection HE as _ HE. destruct E1; discriminate. }
  { exact Hfold. }
  destruct HInv as (Hek & Hun & Hsty & Hfst & Hstr & Hmem & Hpick).
  split; [reflexivity|].
  exists (mkLi (ShapeNamesMap (type s)) (selected s) this ul), ((this, stable) :: E).
  rewrite Hul. cbn [bind]. split; [reflexivity|].
  split; [cbn [spans map fst snd]; rewrite Hfst; reflexivity|].
  split; [|split; [|exact Hpick]].
  - cbn [strokes set_strokeStyle]. rewrite Hstr. unfold ctx1. cbn [strokes map].
    rewrite <- app_assoc. cbn [app]. f_equal. f_equal. unfold stroke_of. cbn [fst snd].
    rewrite Hun.
    + unfold h1. rewrite lookup_insert_eq. reflexivity.
    + intros c0 Hc0. apply (child_not_above rank h this c0 s Hok Hthis Hc0).
  - intros m. cbn [map fst]. rewrite elem_of_cons, Hmem.
    rewrite (desc_step h this m s Hthis). reflexivity.
Qed.

Lemma partly_drawn_eq (h h' hn : store) (done : list loc) :
  erase h' = erase h ->
  (forall m, m ∈ done -> hn !! m = h' !! m) ->
  (forall m, m ∉ done -> hn !! m = h !! m) ->
  hn = partly_drawn h h' done.
Proof.
  intros He Hin Hout. apply map_eq. intros m. unfold partly_drawn.
  rewrite map_lookup_imap. destruct (decide (m ∈ done)) as [Hm|Hm].
  - rewrite (Hin m Hm). destruct (h !! m) as [s|] eqn:Hs; cbn.
    + rewrite bool_decide_eq_true_2 by exact Hm. reflexivity.
    + destruct (h' !! m) as [s'|] eqn:Hs'; [|reflexivity].
      destruct (erase_lookup h' h m s' He Hs') as [dp Hc]. congruence.
  - rewrite (Hout m Hm). destruct (h !! m) as [s|]; cbn; [|reflexivity].
    rewrite bool_decide_eq_false_2 by exact Hm. reflexivity.
Qed.

(** What [DrawingCanvas.render] leaves on the bitmap of a session. *)
Lemma DrawingCanvas_render_spec (c : Controller) (fuel : nat) (ctx : Context)
    (h' : store) (ctx' : Context) :
  reachable cos sin c ->
  DrawingCanvas_render cos sin fuel (heap c) ctx (canvas c) = Ok (h', ctx') ->
  render cos sin fuel c = Ok (set_heap h' c) /\
  strokeStyle ctx' = strokeStyle ctx /\
  exists li E, makeHierarchy fuel h' (canvas c) = Ok li /\
    map fst E = map snd (spans li) /\
    strokes ctx' = map (stroke_of h') E /\
    picked_in_order (heap c) h' E.
Proof.
  intros Hreach Hd. unfold DrawingCanvas_render in Hd.
  destruct (reachable_session_ok cos sin c Hreach) as ([rank Hok] & _ & _).
  destruct (reachable_canvas_ok cos sin c Hreach) as (_ & _ & Hnd).
  pose proof (draw_ctx_Ok _ _ _ _ _ _ _ _ Hd) as Hdraw.
  pose proof (draw_erase cos sin _ _ _ _ _ _ Hdraw) as He.
  destruct (draw_ctx_spec rank fuel _ _ _ _ _ _ _ Hok Hnd Hd)
    as (Hsty & li & E & Hli & Hfst & Hstr & _ & Hpick).
  split; [unfold render; rewrite Hdraw; reflexivity|].
  split; [exact Hsty|]. exists li, E.
  split; [rewrite <- Hli; apply makeHierarchy_erase; exact He|].
  split; [exact Hfst|]. split; [exact Hstr|exact Hpick].
Qed.

End PaintingProofs.



(** X26. The colour of a stroke is picked while the pass is under way: in
    a [DrawingCanvas.render] of a state a session reaches, a node is
    stroked in black when [isStable] is true and in red when it is false
    in the store that holds the new draw points of the node and of the
    nodes stroked before it, and still the old draw points of the nodes
    stroked after it.  When the pass changes no draw point, every colour
    is the answer of [isStable] in the store the pass ends with. *)
Theorem stroke_colour_is_picked_in_order (cos sin : number -> number) (c : Controller)
    (fuel : nat) (ctx : Context) (h' : store) (ctx' : Context) :
  reachable cos sin c ->
  DrawingCanvas_render cos sin fuel (heap c) ctx (canvas c) = Ok (h', ctx') ->
  exists E,
    strokes ctx' = map (stroke_of h') E /\
    (forall E1 n b E2, E = E1 ++ (n, b) :: E2 ->
       isStable (partly_drawn (heap c) h' (map fst E1 ++ [n])) n = Ok b) /\
    (h' = heap c -> forall n b, (n, b) ∈ E -> isStable h' n = Ok b).
Proof.
  intros Hreach Hd.
  destruct (DrawingCanvas_render_spec cos sin c fuel ctx h' ctx' Hreach Hd)
    as (Hr & _ & li & E & _ & _ & Hstr & Hpick).
  assert (He : erase h' = erase (heap c)).
  { unfold DrawingCanvas_render in Hd.
    apply (draw_erase cos sin _ _ _ _ _ _ (draw_ctx_Ok cos sin _ _ _ _ _ _ _ _ Hd)). }
  assert (Hmix : forall E1 n b E2, E = E1 ++ (n, b) :: E2 ->
            isStable (partly_drawn (heap c) h' (map fst E1 ++ [n])) n = Ok b).
  { intros E1 n b E2 HE. destruct (Hpick E1 n b E2 HE) as (hn & Hn & Hpre & Hrest).
    rewrite <- (partly_drawn_eq (heap c) h' hn (map fst E1 ++ [n]) He); [exact Hn| |].
    - intros m Hm. apply Hpre. apply elem_of_app in Hm as [Hm|Hm]; [left; exact Hm|].
      right. apply list_elem_of_singleton in Hm. exact Hm.
    - intros m Hm. apply Hrest; intros H; apply Hm, elem_of_app;
        [left; exact H|right; subst m; left]. }
  exists E. split; [exact Hstr|]. split; [exact Hmix|].
  intros Hsame n b Hin. apply list_elem_of_split in Hin as (E1 & E2 & HE).
  specialize (Hmix E1 n b E2 HE).
  rewrite <- (partly_drawn_eq (heap c) h' h' (map fst E1 ++ [n]) He) in Hmix;
    [exact Hmix|reflexivity|intros m _; rewrite Hsame; reflexivity].
Qed.

Lemma stroke_colour_is_picked_in_order_witness :
  exists E,
    strokes (snd example_painted) = map (stroke_of (fst example_painted)) E /\
    (forall E1 n b E2, E = E1 ++ (n, b) :: E2 ->
       isStable (partly_drawn (heap example_state) (fst example_painted)
                              (map fst E1 ++ [n])) n = Ok b) /\
    (fst example_painted = heap example_state ->
     forall n b, (n, b) ∈ E -> isStable (fst example_painted) n = Ok b).
Proof.
  apply (stroke_colour_is_picked_in_order cos_poly sin_poly example_state 3 example_ctx
           (fst example_painted) (snd example_painted) example_reachable).
  vm_compute. reflexivity.
Defined.

(* proofs *)
Section StartVertex.

(** The index of [poly] that index [i] of [rotate k poly] reads. *)
Lemma rotate_nat_add_pred (k i n : nat) :
  0 < n ->
  rotate_nat_add k (Z.to_nat ((Z.of_nat i - 1) mod Z.of_nat n)) n =
  Z.to_nat ((Z.of_nat (rotate_nat_add k i n) - 1) mod Z.of_nat n).
Proof.
  intros Hn. unfold rotate_nat_add. f_equal.
  rewrite !Z2Nat.id by (apply Z.mod_pos_bound; lia).
  rewrite Zplus_mod_idemp_r, Zminus_mod_idemp_l. f_equal. lia.
Qed.

Lemma rotate_nat_add_succ (k i n : nat) :
  0 < n ->
  rotate_nat_add k (S i mod n) n = S (rotate_nat_add k i n) mod n.
Proof.
  intros Hn. rewrite <- rotate_nat_add_S by exact Hn.
  unfold rotate_nat_add. f_equal.
  rewrite Nat2Z.inj_mod, Zplus_mod_idemp_r. reflexivity.
Qed.

Lemma seq_rotate (k n : nat) :
  map (fun i => rotate_nat_add k i n) (seq 0 n) = rotate k (seq 0 n).
Proof.
  apply list_eq. intros i. change (map ?f ?l) with (f <$> l).
  rewrite list_lookup_fmap. destruct (decide (i < n)) as [Hi|Hi].
  - rewrite lookup_rotate_r by (rewrite length_seq; exact Hi).
    rewrite length_seq, !lookup_seq_lt; [reflexivity| |exact Hi].
    apply rotate_nat_add_lt. lia.
  - rewrite !lookup_ge_None_2; [reflexivity| |];
      rewrite ?length_rotate, length_seq; lia.
Qed.

Lemma count_rotate {A : Type} (t : A -> bool) (k : nat) (l : list A) :
  length (List.filter t (rotate k l)) = length (List.filter t l).
Proof.
  unfold rotate. rewrite List.filter_app, length_app, Nat.add_comm, <- length_app,
    <- List.filter_app, take_drop. reflexivity.
Qed.

Lemma count_map {A B : Type} (t : B -> bool) (f : A -> B) (l : list A) :
  length (List.filter t (map f l)) = length (List.filter (fun a => t (f a)) l).
Proof.
  induction l as [|a l IH]; cbn; [reflexivity|].
  destruct (t (f a)); cbn; rewrite IH; reflexivity.
Qed.

Lemma crosses_edge_rotate (k : nat) (poly : list Point) (q : Point) (i : nat) :
  i < length poly ->
  crosses_edge (rotate k poly) q i =
  crosses_edge poly q (rotate_nat_add k i (length poly)).
Proof.
  intros Hi. unfold crosses_edge. cbv zeta. rewrite length_rotate.
  rewrite (lookup_rotate_r poly k i Hi).
  assert (Hj : Z.to_nat ((Z.of_nat i - 1) mod Z.of_nat (length poly)) < length poly).
  { pose proof (Z.mod_pos_bound (Z.of_nat i - 1) (Z.of_nat (length poly))). lia. }
  rewrite (lookup_rotate_r poly k _ Hj).
  rewrite rotate_nat_add_pred by lia. reflexivity.
Qed.

Lemma crossing_count_rotate (k : nat) (poly : list Point) (q : Point) :
  crossing_count (rotate k poly) q = crossing_count poly q.
Proof.
  unfold crossing_count. rewrite length_rotate.
  rewrite <- (count_rotate (crosses_edge poly q) k (seq 0 (length poly))).
  rewrite <- seq_rotate, count_map. f_equal.
  apply List.filter_ext_in. intros i Hi. apply in_seq in Hi.
  apply crosses_edge_rotate. lia.
Qed.

Lemma edges_rotate (k : nat) (poly : list Point) :
  edges (rotate k poly) = rotate k (edges poly).
Proof.
  destruct poly as [|p0 poly'];
    [unfold rotate; cbn [edges length seq map]; rewrite !drop_nil, !take_nil; reflexivity|].
  set (poly := p0 :: poly').
  assert (Hn : 0 < length poly) by (cbn; lia).
  apply list_eq. intros i. unfold edges. rewrite length_rotate.
  change (map ?f ?l) with (f <$> l). rewrite list_lookup_fmap.
  destruct (decide (i < length poly)) as [Hi|Hi].
  - rewrite lookup_rotate_r by (rewrite length_fmap, length_seq; exact Hi).
    rewrite length_fmap, length_seq, list_lookup_fmap.
    rewrite !lookup_seq_lt; [|apply rotate_nat_add_lt; lia|exact Hi].
    cbn [fmap option_fmap option_map]. f_equal.
    rewrite !Nat.add_0_l, !nth_lookup, (lookup_rotate_r poly k i Hi).
    rewrite (lookup_rotate_r poly k (S i mod length poly))
      by (apply Nat.mod_upper_bound; lia).
    rewrite rotate_nat_add_succ by exact Hn. reflexivity.
  - rewrite !lookup_ge_None_2; [reflexivity| |];
      rewrite ?length_rotate, ?length_fmap, length_seq; lia.
Qed.

Lemma existsb_rotate {A : Type} (f : A -> bool) (k : nat) (l : list A) :
  existsb f (rotate k l) = existsb f l.
Proof.
  unfold rotate. rewrite existsb_app, orb_comm, <- existsb_app, take_drop. reflexivity.
Qed.

End StartVertex.

(** X27. The array of draw points is a closed loop, and the vertex it
    starts with does not matter: with the array rotated by any number of
    places [isPointInside] gives the same answer for every point, and
    [isIntersecting] the same answer against every polygon, on either
    side. *)
Theorem start_vertex_is_arbitrary (k : nat) (poly other : list Point) (q : Point) :
  isPointInside (rotate k poly) q = isPointInside poly q /\
  isIntersecting (rotate k poly) other = isIntersecting poly other /\
  isIntersecting other (rotate k poly) = isIntersecting other poly.
Proof.
  split; [|split].
  - assert (Hodd : forall p, crossing_number_spec p q = Nat.odd (crossing_count p q)).
    { intros p. unfold crossing_number_spec, crossing_count.
      rewrite toggle_parity. reflexivity. }
    rewrite !isPointInside_value, !Hodd, crossing_count_rotate. reflexivity.
  - rewrite !isIntersecting_edges, edges_rotate, existsb_rotate. reflexivity.
  - rewrite !isIntersecting_edges, edges_rotate. f_equal.
    apply existsb_pointwise. intros l1. apply existsb_rotate.
Qed.

(* proofs *)
(** X28. A rejected move leaves no trace after the next render.  In every
    state a session reaches with a selected node, [translate] returns; when
    it returns false, a [render] of the controller it leaves ends in
    exactly the state that a [render] of the controller before the call
    ends in. *)
Theorem rejected_translate_is_undone_by_render (cos sin : number -> number)
    (c : Controller) (delta : Transform) (l : loc) :
  reachable cos sin c -> selectedNode c = Some l ->
  exists N, forall fuel, N < fuel ->
  exists b c1 c0,
    translate cos sin fuel c delta = Ok (b, c1) /\
    render cos sin fuel c = Ok c0 /\
    (b = false -> render cos sin fuel c1 = Ok c0).
Proof.
  intros Hreach Hsel.
  destruct (reachable_session_ok cos sin c Hreach) as ([rank Hok] & Hcv & Hin).
  destruct (Hin l Hsel) as [sel Hl].
  exists (rank (canvas c)). intros fuel Hfuel.
  destruct (draw_total cos sin rank fuel (heap c) (canvas c) (Some Point_.zero)
              (Some Transform_.default) Hok Hcv Hfuel) as [r0 Hd0].
  assert (Hrender : render cos sin fuel c = Ok (set_heap r0 c))
    by (unfold render; rewrite Hd0; reflexivity).
  unfold translate. rewrite Hsel. cbn [deref]. rewrite Hl. cbn [bind].
  destruct (is_Canvas (type sel)) eqn:Hty.
  { exists false, c, (set_heap r0 c). split; [reflexivity|]. split; [exact Hrender|].
    intros _. exact Hrender. }
  unfold update at 1. cbn [deref]. rewrite Hl. cbn [bind].
  set (moved := Transform_.add (transform sel) delta).
  set (h' := <[l := set_transform moved sel]> (heap c)).
  assert (Hok' : tree_ok rank h')
    by (apply (tree_ok_insert_same rank (heap c) l sel); auto).
  assert (Hcv' : is_Some (h' !! canvas c)) by (apply extends_insert, Hcv).
  destruct (draw_total cos sin rank fuel h' (canvas c) (Some Point_.zero)
              (Some Transform_.default) Hok' Hcv' Hfuel) as [r' Hd'].
  pose proof (draw_erase cos sin _ _ _ _ _ _ Hd') as He'.
  unfold render at 1. cbn [heap canvas set_heap]. rewrite Hd'.
  cbn [bind heap set_heap].
  destruct (erase_lookup h' r' l _ (eq_sym He') (lookup_insert_eq _ _ _)) as [dp Hl'].
  assert (Hokr : tree_ok rank r') by (apply (tree_ok_erase rank h'); auto).
  destruct (isStable_total rank r' l Hokr ltac:(eauto)) as [stable Hst].
  rewrite Hst. cbn [bind]. destruct stable.
  { eexists true, _, (set_heap r0 c). split; [reflexivity|].
    split; [exact Hrender|discriminate]. }
  unfold update. cbn [deref]. rewrite Hl'. cbn [bind].
  set (h1 := <[l := set_transform (transform sel)
                      (set_drawPoints dp (set_transform moved sel))]> r').
  exists false, (set_heap h1 (set_heap r' (set_heap h' c))), (set_heap r0 c).
  split; [reflexivity|]. split; [exact Hrender|]. intros _.
  assert (He1 : erase h1 = erase (heap c))
    by (apply (erase_restore (heap c) r' l sel _ moved Hl He' Hl')).
  assert (Hout1 : forall m, h1 !! m = heap c !! m \/ desc (heap c) (canvas c) m).
  { intros m. destruct (draw_touched cos sin _ _ _ _ _ _ Hd' m) as [Hsame|Hdm].
    - left. subst h1. destruct (decide (l = m)) as [<-|Hne].
      + rewrite lookup_insert_eq, Hl. f_equal.
        rewrite Hl' in Hsame. subst h'. rewrite lookup_insert_eq in Hsame.
        clear -Hsame. destruct sel. unfold set_transform, set_drawPoints in *.
        cbn in *. injection Hsame as ->. reflexivity.
      + rewrite lookup_insert_ne by exact Hne. rewrite Hsame. subst h'.
        apply lookup_insert_ne, Hne.
    - right. apply (desc_same_children h' (heap c)); [|exact Hdm].
      intros k. subst h'. destruct (decide (l = k)) as [<-|Hne].
      + rewrite lookup_insert_eq, Hl. reflexivity.
      + rewrite lookup_insert_ne by exact Hne. reflexivity. }
  destruct (draw_deterministic cos sin rank fuel (heap c) h1 (canvas c) Point_.zero
              Transform_.default Hok (eq_sym He1) Hcv Hfuel)
    as (r0' & r2 & Hd0' & Hd2 & Hsame).
  assert (r0' = r0) by congruence. subst r0'.
  unfold render. cbn [heap canvas set_heap]. rewrite Hd2. cbn [bind].
  f_equal. unfold set_heap. cbn. f_equal.
  apply map_eq. intros m.
  assert (Hbelow : desc (heap c) (canvas c) m -> r2 !! m = r0 !! m)
    by (intros Hd; symmetry; apply Hsame, Hd).
  destruct (draw_touched cos sin _ _ _ _ _ _ Hd2 m) as [Hm2|Hdm].
  2:{ apply Hbelow. apply (desc_erase h1 (heap c)); assumption. }
  destruct (draw_touched cos sin _ _ _ _ _ _ Hd0 m) as [Hm0|Hdm]; [|apply Hbelow, Hdm].
  destruct (Hout1 m) as [Hm1|Hdm]; [congruence|apply Hbelow, Hdm].
Qed.

Lemma rejected_translate_is_undone_by_render_witness :
  exists N, forall fuel, N < fuel ->
  exists b c1 c0,
    translate cos_poly sin_poly fuel example_state example_delta = Ok (b, c1) /\
    render cos_poly sin_poly fuel example_state = Ok c0 /\
    (b = false -> render cos_poly sin_poly fuel c1 = Ok c0).
Proof.
  apply (rejected_translate_is_undone_by_render cos_poly sin_poly example_state
           example_delta 2 example_reachable).
  reflexivity.
Defined.

Section Stays.
Variables (cos sin : number -> number).

Lemma stays_refl (pn sel : option loc) (h : store) : stays pn sel h h.
Proof. intros m s Hm. exists s. repeat split; auto. Qed.

Lemma stays_trans (pn sel : option loc) (h1 h2 h3 : store) :
  stays pn sel h1 h2 -> stays None sel h2 h3 -> stays pn sel h1 h3.
Proof.
  intros H12 H23 m s Hm.
  destruct (H12 m s Hm) as (s2 & H2 & Ht2 & Hp2 & Hpt2 & Htr2 & Hc2).
  destruct (H23 m s2 H2) as (s3 & H3 & Ht3 & Hp3 & Hpt3 & Htr3 & Hc3).
  exists s3. split; [exact H3|]. repeat split; try congruence.
  - destruct Htr2 as [E2|E2]; [|right; exact E2].
    destruct Htr3 as [E3|E3]; [left; congruence|right; exact E3].
  - intros k Hk Hne. apply Hc3; [apply Hc2; assumption|discriminate].
Qed.

Lemma stays_weaken (pn sel : option loc) (h h' : store) :
  stays None None h h' -> stays pn sel h h'.
Proof.
  intros H m s Hm. destruct (H m s Hm) as (s' & Hs' & Ht & Hp & Hpt & Htr & Hc).
  exists s'. split; [exact Hs'|]. repeat split; try assumption.
  - destruct Htr as [E|E]; [left; exact E|discriminate].
  - intros k Hk _. apply Hc; [exact Hk|discriminate].
Qed.

Lemma stays_erase (h h' : store) : erase h = erase h' -> stays None None h h'.
Proof.
  intros He m s Hm. destruct (erase_lookup h h' m s He Hm) as [dp Hm'].
  eexists. split; [exact Hm'|]. repeat split; auto.
Qed.

Lemma stays_draw (fuel : nat) (h h' : store) (this : loc) (pc : option Point)
    (pT : option Transform) :
  draw cos sin fuel h this pc pT = Ok h' -> stays None None h h'.
Proof.
  intros Hd. apply stays_erase. symmetry. apply (draw_erase cos sin _ _ _ _ _ _ Hd).
Qed.

Lemma stays_render (fuel : nat) (c c' : Controller) :
  render cos sin fuel c = Ok c' ->
  stays None None (heap c) (heap c') /\ canvas c' = canvas c.
Proof.
  intros Hr. unfold render in Hr. apply bind_Ok in Hr as (h & Hd & [= <-]).
  split; [apply (stays_draw _ _ _ _ _ _ Hd)|reflexivity].
Qed.

Lemma stays_update (sel : option loc) (h h' : store) (l : loc) (f : Shape -> Shape) :
  (forall s, type (f s) = type s /\ parent (f s) = parent s /\
             points (f s) = points s /\ children (f s) = children s /\
             (transform (f s) = transform s \/ sel = Some l)) ->
  update h l f = Ok h' -> stays None sel h h'.
Proof.
  intros Hf Hu. unfold update in Hu. apply bind_Ok in Hu as (s0 & Hs0 & [= <-]).
  cbn [deref] in Hs0. destruct (h !! l) as [s1|] eqn:Hl; [|discriminate].
  injection Hs0 as ->. intros m s Hm. destruct (decide (l = m)) as [<-|Hne].
  - rewrite lookup_insert_eq. eexists. split; [reflexivity|].
    assert (s = s0) by congruence. subst s.
    destruct (Hf s0) as (Ht & Hp & Hpt & Hc & Htr).
    repeat split; try assumption. intros k Hk _. rewrite Hc. exact Hk.
  - rewrite lookup_insert_ne by exact Hne. exists s. split; [exact Hm|].
    repeat split; auto.
Qed.

Lemma stays_grown (l : loc) (h h' : store) : grown l h h' -> stays None None h h'.
Proof.
  intros (Hl & _ & Hold & _) m s Hm.
  assert (Hml : m <> l) by congruence.
  destruct (Hold m s Hml Hm) as (s' & Hs' & Heq & Halt).
  exists s'. split; [exact Hs'|]. rewrite Heq at 1 2 3 4.
  cbn [type parent points transform set_children]. repeat split; auto.
  intros k Hk _. destruct Halt as [E|E]; rewrite E; [exact Hk|].
  apply elem_of_app. left. exact Hk.
Qed.

Lemma stays_removeChild (sel : option loc) (h h' : store) (p : option loc) (pn : loc) :
  removeChild h p pn = Ok h' -> stays (Some pn) sel h h'.
Proof.
  intros Hr. unfold removeChild in Hr. apply bind_Ok in Hr as (sp & Hsp & Hr).
  destruct p as [p|]; [|discriminate]. injection Hr as <-.
  cbn [deref] in Hsp. destruct (h !! p) as [sp'|] eqn:Hp; [|discriminate].
  injection Hsp as ->. intros m s Hm. destruct (decide (p = m)) as [<-|Hne].
  - rewrite lookup_insert_eq. eexists. split; [reflexivity|].
    assert (s = sp) by congruence. subst s.
    cbn [type parent points transform children set_children]. repeat split; auto.
    intros k Hk Hkn. apply list_elem_of_filter. split; [congruence|exact Hk].
  - rewrite lookup_insert_ne by exact Hne. exists s. split; [exact Hm|].
    repeat split; auto.
Qed.

Lemma stays_removePreviewNode (fuel : nat) (c c' : Controller) :
  removePreviewNode cos sin fuel c = Ok c' ->
  stays (previewNode c) (selectedNode c) (heap c) (heap c') /\
  canvas c' = canvas c /\ selectedNode c' = selectedNode c.
Proof.
  intros Hr. unfold removePreviewNode in Hr. apply bind_Ok in Hr as (c1 & H1 & Hr).
  destruct (stays_render fuel c1 c' Hr) as [K Hcv].
  destruct (render_selectedNode cos sin fuel c1 c' Hr) as (R1 & _).
  cbn [previewNode set_isInEdit heap] in H1.
  destruct (previewNode c) as [pn|] eqn:Hpn.
  - apply bind_Ok in H1 as (s & Hs & H1). apply bind_Ok in H1 as (h & Hh & [= <-]).
    cbn [heap canvas selectedNode set_heap set_previewNode set_isInEdit] in *.
    split; [|split; [exact Hcv|exact R1]].
    apply (stays_trans _ _ _ h); [apply (stays_removeChild _ _ _ _ _ Hh)|].
    apply stays_weaken, K.
  - injection H1 as <-. cbn [heap canvas selectedNode set_isInEdit] in *.
    split; [apply stays_weaken, K|split; [exact Hcv|exact R1]].
Qed.

(** The tail shared by [preview] and [createNode]: a new node under the
    selected one, and a render. *)
Lemma stays_addNew (fuel : nat) (c1 c2 : Controller) (sel : loc) (T : Transform)
    (params : Params) (h : store) (pn : option loc) :
  session_ok c1 -> selectedNode c1 = Some sel ->
  addChild (<[fresh (dom (heap c1)) := buildFromParams cos sin (Some sel) T params]>
              (heap c1)) sel (fresh (dom (heap c1))) = Ok h ->
  render cos sin fuel (set_previewNode pn (set_heap h c1)) = Ok c2 ->
  stays None None (heap c1) (heap c2) /\ canvas c2 = canvas c1.
Proof.
  intros (_ & _ & Hin) Hsel Ha Hr.
  destruct (Hin sel Hsel) as [ss Hss].
  destruct (buildFromParams_fields cos sin (Some sel) T params) as (_ & Hch & _).
  destruct (addChild_grown (heap c1) h _ sel _ ss
              ltac:(apply not_elem_of_dom, is_fresh) Hss Hch Ha) as (Hg & _).
  destruct (stays_render fuel _ c2 Hr) as [K Hcv].
  cbn [heap canvas set_heap set_previewNode] in K, Hcv.
  split; [|exact Hcv].
  apply (stays_trans _ _ _ h); [apply (stays_grown _ _ _ Hg)|exact K].
Qed.

Lemma stays_step (c c' : Controller) :
  session_ok c -> step cos sin c c' ->
  stays (previewNode c) (selectedNode c) (heap c) (heap c') /\ canvas c' = canvas c.
Proof.
  intros Hok Hstep. destruct Hstep as [fuel c node c' H|fuel c c' H|fuel c T params b c' H
    |fuel c T params b c' H|fuel c delta b c' H|fuel c delta c' H|fuel c c' H].
  - unfold selectNode in H.
    destruct (_ || _); [injection H as <-; split; [apply stays_refl|reflexivity]|].
    apply bind_Ok in H as (h1 & H1 & H). apply bind_Ok in H as (h2 & H2 & H).
    destruct (stays_render fuel _ c' H) as [K3 Hcv].
    cbn [heap canvas set_heap set_selectedNode] in K3, Hcv. split; [|exact Hcv].
    apply stays_weaken.
    assert (K1 : stays None None (heap c) h1).
    { destruct (selectedNode c) as [old|].
      - apply (stays_update None _ _ old (set_selected false)); [|exact H1].
        intros s. repeat split; auto.
      - injection H1 as <-. apply stays_refl. }
    assert (K2 : stays None None h1 h2).
    { apply (stays_update None _ _ node (set_selected true)); [|exact H2].
      intros s. repeat split; auto. }
    exact (stays_trans _ _ _ _ _ (stays_trans _ _ _ _ _ K1 K2) K3).
  - destruct (stays_removePreviewNode fuel c c' H) as (K & Hcv & _). auto.
  - unfold preview in H. apply bind_Ok in H as (c1 & H1 & H).
    pose proof (removePreviewNode_session_ok cos sin fuel c c1 Hok H1) as Hok1.
    destruct (stays_removePreviewNode fuel c c1 H1) as (K1 & Hcv1 & Hs1).
    destruct (selectedNode c1) as [sel|] eqn:Hsel; [|injection H as _ <-; auto].
    apply bind_Ok in H as (h & Hh & H). apply bind_Ok in H as (c2 & H2 & [= _ <-]).
    destruct (stays_addNew fuel c1 c2 sel T params h _ Hok1 Hsel Hh H2) as [K2 Hcv2].
    split; [|congruence]. apply (stays_trans _ _ _ (heap c1)); [exact K1|].
    apply stays_weaken, K2.
  - unfold createNode in H. apply bind_Ok in H as (stable & _ & H).
    destruct (negb stable); [injection H as _ <-; split; [apply stays_refl|reflexivity]|].
    apply bind_Ok in H as (c1 & H1 & H).
    pose proof (removePreviewNode_session_ok cos sin fuel c c1 Hok H1) as Hok1.
    destruct (stays_removePreviewNode fuel c c1 H1) as (K1 & Hcv1 & Hs1).
    destruct (selectedNode c1) as [sel|] eqn:Hsel; [|injection H as _ <-; auto].
    apply bind_Ok in H as (h & Hh & H). apply bind_Ok in H as (c2 & H2 & [= _ <-]).
    assert (H2' : render cos sin fuel (set_previewNode (previewNode c1) (set_heap h c1))
                  = Ok c2) by (destruct c1; exact H2).
    destruct (stays_addNew fuel c1 c2 sel T params h _ Hok1 Hsel Hh H2') as [K2 Hcv2].
    split; [|congruence]. apply (stays_trans _ _ _ (heap c1)); [exact K1|].
    apply stays_weaken, K2.
  - unfold translate in H. apply bind_Ok in H as (sel & _ & H).
    destruct (is_Canvas (type sel));
      [injection H as _ <-; split; [apply stays_refl|reflexivity]|].
    destruct (selectedNode c) as [l|] eqn:Hsel; [|discriminate].
    apply bind_Ok in H as (h & Hh & H). apply bind_Ok in H as (c1 & H1 & H).
    apply bind_Ok in H as (stable & _ & H).
    assert (K1 : stays None (Some l) (heap c) h).
    { eapply stays_update; [|exact Hh]. intros s. repeat split; auto. }
    destruct (stays_render fuel _ c1 H1) as [K2 Hcv].
    cbn [heap canvas set_heap] in K2, Hcv.
    assert (K12 : stays None (Some l) (heap c) (heap c1))
      by (apply (stays_trans _ _ _ h); [exact K1|apply stays_weaken, K2]).
    destruct stable.
    + injection H as _ <-. split; [|exact Hcv].
      intros m s Hm. destruct (K12 m s Hm) as (s' & Hs' & Hrest).
      exists s'. split; [exact Hs'|]. destruct Hrest as (A & B & C & D & E).
      repeat split; try assumption. intros k Hk _. apply E; [exact Hk|discriminate].
    + apply bind_Ok in H as (h2 & H2 & [= _ <-]). cbn [heap canvas set_heap].
      split; [|exact Hcv].
      assert (K3 : stays None (Some l) (heap c1) h2).
      { eapply stays_update; [|exact H2]. intros s. repeat split; auto. }
      pose proof (stays_trans _ _ _ _ _ K12 K3) as K.
      intros m s Hm. destruct (K m s Hm) as (s' & Hs' & A & B & C & D & E).
      exists s'. split; [exact Hs'|]. repeat split; try assumption.
      intros k Hk _. apply E; [exact Hk|discriminate].
  - unfold previewTranslate in H. apply bind_Ok in H as (sel & _ & H).
    cbn [heap selectedNode set_isInEdit] in H.
    destruct (is_Canvas (type sel));
      [injection H as <-; split; [apply stays_refl|reflexivity]|].
    destruct (selectedNode c) as [l|] eqn:Hsel; [|discriminate].
    apply bind_Ok in H as (h & Hh & H). apply bind_Ok in H as (c1 & H1 & H).
    assert (K1 : stays None (Some l) (heap c) h).
    { eapply stays_update; [|exact Hh]. intros s. repeat split; auto. }
    destruct (stays_render fuel _ c1 H1) as [K2 Hcv].
    cbn [heap canvas set_heap set_isInEdit] in K2, Hcv.
    assert (K12 : stays None (Some l) (heap c) (heap c1))
      by (apply (stays_trans _ _ _ h); [exact K1|apply stays_weaken, K2]).
    apply bind_Ok in H as (h2 & H2 & [= <-]). cbn [heap canvas set_heap].
    split; [|exact Hcv].
    assert (K3 : stays None (Some l) (heap c1) h2).
    { eapply stays_update; [|exact H2]. intros s. repeat split; auto. }
    pose proof (stays_trans _ _ _ _ _ K12 K3) as K.
    intros m s Hm. destruct (K m s Hm) as (s' & Hs' & A & B & C & D & E).
    exists s'. split; [exact Hs'|]. repeat split; try assumption.
    intros k Hk _. apply E; [exact Hk|discriminate].
  - destruct (stays_render fuel c c' H) as [K Hcv]. split; [apply stays_weaken, K|exact Hcv].
Qed.

Lemma stays_desc (pn sel : option loc) (h h' : store) (a m : loc) :
  stays pn sel h h' ->
  (forall k sk, pn = Some k -> h !! k = Some sk -> children sk = []) ->
  desc h a m -> pn <> Some m -> desc h' a m.
Proof.
  intros Hst Hleaf Hd Hm. induction Hd as [a|a s c m Ha Hc Hd IH]; [apply desc_refl|].
  destruct (Hst a s Ha) as (s' & Ha' & _ & _ & _ & _ & Hkids).
  apply (desc_child h' a s' c m Ha'); [|apply IH, Hm].
  apply Hkids; [exact Hc|]. intros ->.
  inversion Hd as [|c' sc k m' Hsc Hk _]; subst; [apply Hm; reflexivity|].
  rewrite (Hleaf c sc eq_refl Hsc) in Hk. inversion Hk.
Qed.

End Stays.

(** X29. Nothing but the pending preview is ever taken out of the tree.
    Over every step of a session an object of the store stays in the
    store with its class, its parent and its local points; its transform
    is unchanged unless it is the selected node; every child it had, the
    pending preview node apart, is still among its children; and a node
    at or below the canvas that is not the pending preview node is still
    at or below the canvas. *)
Theorem nodes_stay_in_the_tree (cos sin : number -> number) (c c' : Controller) :
  reachable cos sin c -> step cos sin c c' ->
  canvas c' = canvas c /\
  (forall m s, heap c !! m = Some s ->
     exists s', heap c' !! m = Some s' /\
       type s' = type s /\ parent s' = parent s /\ points s' = points s /\
       (transform s' = transform s \/ selectedNode c = Some m) /\
       forall k, k ∈ children s -> previewNode c <> Some k -> k ∈ children s') /\
  (forall m, desc (heap c) (canvas c) m -> previewNode c <> Some m ->
             desc (heap c') (canvas c') m).
Proof.
  intros Hreach Hstep.
  pose proof (reachable_session_ok cos sin c Hreach) as Hok.
  destruct (reachable_flags_ok cos sin c Hreach) as [_ Hprev].
  destruct (stays_step cos sin c c' Hok Hstep) as [K Hcv].
  split; [exact Hcv|]. split; [exact K|].
  intros m Hd Hm. rewrite Hcv.
  apply (stays_desc _ _ _ _ _ _ K); [|exact Hd|exact Hm].
  intros k sk Hk Hsk.
  destruct (Hprev k Hk) as (p & s & sp & _ & Hs & _ & Hch & _).
  assert (s = sk) by congruence. subst s. exact Hch.
Qed.

Lemma nodes_stay_in_the_tree_witness :
  canvas example_state = canvas example_created /\
  (forall m s, heap example_created !! m = Some s ->
     exists s', heap example_state !! m = Some s' /\
       type s' = type s /\ parent s' = parent s /\ points s' = points s /\
       (transform s' = transform s \/ selectedNode example_created = Some m) /\
       forall k, k ∈ children s -> previewNode example_created <> Some k ->
                 k ∈ children s') /\
  (forall m, desc (heap example_created) (canvas example_created) m ->
             previewNode example_created <> Some m ->
             desc (heap example_state) (canvas example_state) m).
Proof.
  apply (nodes_stay_in_the_tree cos_poly sin_poly example_created example_state).
  - apply (reachable_step _ _ example_previewed).
    + apply example_previewed_reachable.
    + apply (step_createNode _ _ 3 _ Transform_.default (RectangleParams 100 50) true).
      vm_compute. reflexivity.
  - apply (step_selectNode _ _ 3 _ 2). vm_compute. reflexivity.
Defined.

Section PreviewPainting.
Variables (cos sin : number -> number).

Lemma render_ctx_render (fuel : nat) (c : Controller) (ctx : Context) :
  forget (render_ctx cos sin fuel c ctx) = render cos sin fuel c.
Proof.
  unfold render_ctx, render, DrawingCanvas_render.
  rewrite <- (draw_ctx_draw cos sin fuel (heap c) (DrawingCanvas_clear ctx)).
  destruct (draw_ctx cos sin fuel _ _ _ _ _) as [[h' ctx']| |]; reflexivity.
Qed.

Lemma removePreviewNode_ctx_removePreviewNode (fuel : nat) (c : Controller)
    (ctx : Context) :
  forget (removePreviewNode_ctx cos sin fuel c ctx) = removePreviewNode cos sin fuel c.
Proof.
  unfold removePreviewNode_ctx, removePreviewNode.
  destruct (match previewNode (set_isInEdit false c) with
            | Some pn => _ | None => _ end) as [c1| |]; cbn [bind forget];
    try reflexivity.
  apply render_ctx_render.
Qed.

(** [preview_ctx] is [preview] with the context: same answer, same
    controller, same exceptions. *)
Lemma preview_ctx_preview (fuel : nat) (c : Controller) (ctx : Context)
    (T : Transform) (params : Params) :
  forget (preview_ctx cos sin fuel c ctx T params) = preview cos sin fuel c T params.
Proof.
  unfold preview_ctx, preview.
  rewrite <- (removePreviewNode_ctx_removePreviewNode fuel c ctx).
  destruct (removePreviewNode_ctx cos sin fuel c ctx) as [[c1 ctx1]| |];
    cbn [bind forget fst snd]; try reflexivity.
  destruct (selectedNode c1) as [sel|]; [|reflexivity].
  destruct (addChild _ sel _) as [h| |]; cbn [bind forget]; try reflexivity.
  rewrite <- (render_ctx_render fuel _ ctx1).
  destruct (render_ctx cos sin fuel _ ctx1) as [[c2 ctx2]| |]; reflexivity.
Qed.

(** The items [makeHierarchy] builds for the children, one for each. *)
Lemma makeHierarchy_items (fuel : nat) (h : store) : forall cs ul0 ul,
  foldM (fun ul child => do li <- makeHierarchy fuel h child; Ok (ul ++ [li])) ul0 cs
    = Ok ul ->
  exists items, ul = ul0 ++ items /\
    Forall2 (fun c li => makeHierarchy fuel h c = Ok li) cs items.
Proof.
  induction cs as [|c cs IH]; intros ul0 ul Hf; cbn [foldM] in Hf.
  - injection Hf as <-. exists []. split; [rewrite app_nil_r; reflexivity|constructor].
  - apply bind_Ok in Hf as (ul1 & H1 & Hf). apply bind_Ok in H1 as (li & Hli & [= <-]).
    destruct (IH _ _ Hf) as (items & -> & Hall).
    exists (li :: items). split; [rewrite <- app_assoc; reflexivity|].
    constructor; assumption.
Qed.

Lemma spans_head (fuel : nat) (h : store) (node : loc) (li : Li) :
  makeHierarchy fuel h node = Ok li ->
  exists rest, map snd (spans li) = node :: rest.
Proof.
  destruct fuel as [|fuel]; [discriminate|]. cbn [makeHierarchy]. intros H.
  apply bind_Ok in H as (s & _ & H). apply bind_Ok in H as (ul & _ & [= <-]).
  cbn [spans map snd]. eauto.
Qed.

(** In the spans the children of a node come in their order: each child
    before the last one. *)
Lemma spans_before_last (h : store) (fuel : nat) : forall a li,
  makeHierarchy fuel h a = Ok li ->
  forall p sp cs l k,
    desc h a p -> h !! p = Some sp -> children sp = cs ++ [l] -> k ∈ cs ->
    exists L1 L2 L3, map snd (spans li) = L1 ++ k :: L2 ++ l :: L3.
Proof.
  induction fuel as [|fuel IH]; intros a li Hli p sp cs l k Hd Hp Hch Hk;
    [discriminate|].
  cbn [makeHierarchy] in Hli. apply bind_Ok in Hli as (s & Hs & Hli).
  apply bind_Ok in Hli as (ul & Hul & [= <-]). cbn [deref] in Hs.
  destruct (h !! a) as [s'|] eqn:Ha; [|discriminate]. injection Hs as ->.
  destruct (makeHierarchy_items fuel h _ _ _ Hul) as (items & -> & Hall).
  cbn [app spans map snd].
  apply (desc_step h a p s Ha) in Hd as [->|(c & Hc & Hd)].
  - assert (sp = s) by congruence. subst sp. rewrite Hch in Hall.
    apply Forall2_app_inv_l in Hall as (u1 & u2 & Hall1 & Hall2 & ->).
    apply Forall2_cons_inv_l in Hall2 as (lil & u2' & Hlil & Hnil & ->).
    apply Forall2_nil_inv_l in Hnil as ->.
    apply list_elem_of_split in Hk as (c1 & c2 & ->).
    apply Forall2_app_inv_l in Hall1 as (v1 & v2 & _ & Hall1 & ->).
    apply Forall2_cons_inv_l in Hall1 as (lik & v3 & Hlik & _ & ->).
    destruct (spans_head fuel h k lik Hlik) as [restk Hk'].
    destruct (spans_head fuel h l lil Hlil) as [restl Hl'].
    exists (a :: map snd (flat_map spans v1)),
           (restk ++ map snd (flat_map spans v3)), restl.
    rewrite !flat_map_app, !map_app. cbn [flat_map]. rewrite !map_app, Hk', Hl'.
    cbn [map app]. rewrite app_nil_r, <- !app_assoc. cbn [app].
    rewrite <- ?app_assoc. reflexivity.
  - apply list_elem_of_split in Hc as (c1 & c2 & Hsplit). rewrite Hsplit in Hall.
    apply Forall2_app_inv_l in Hall as (v1 & v2 & _ & Hall & ->).
    apply Forall2_cons_inv_l in Hall as (lic & v3 & Hlic & _ & ->).
    destruct (IH c lic Hlic p sp cs l k Hd Hp Hch Hk) as (L1 & L2 & L3 & HL).
    exists (a :: map snd (flat_map spans v1) ++ L1), L2,
           (L3 ++ map snd (flat_map spans v3)).
    rewrite flat_map_app, map_app. cbn [flat_map]. rewrite map_app, HL.
    cbn [app]. rewrite <- !app_assoc. cbn [app]. rewrite <- !app_assoc. reflexivity.
Qed.

Lemma NoDup_split_eq {A : Type} (x : A) : forall A1 B1 A2 B2 : list A,
  NoDup (A1 ++ x :: B1) -> A1 ++ x :: B1 = A2 ++ x :: B2 -> A1 = A2.
Proof.
  induction A1 as [|a A1 IH]; intros B1 A2 B2 Hnd Heq.
  - destruct A2 as [|a2 A2]; [reflexivity|]. cbn in Heq. injection Heq as <- ->.
    apply NoDup_cons in Hnd as [Hx _]. exfalso. apply Hx.
    apply elem_of_app. right. left.
  - destruct A2 as [|a2 A2]; cbn in Heq.
    + injection Heq as -> <-. apply NoDup_cons in Hnd as [Hx _]. exfalso. apply Hx.
      apply elem_of_app. right. left.
    + injection Heq as <- Heq. f_equal. cbn in Hnd. apply NoDup_cons in Hnd as [_ Hnd].
      apply (IH B1 A2 B2 Hnd Heq).
Qed.

(** A polygon without draw points is in the way of no polygon. *)
Lemma clear_of_unresolved (h : store) (s sc : Shape) (c : loc) :
  h !! c = Some sc -> drawPoints sc = [] -> clear_of h s c = true.
Proof.
  intros Hc Hdp. unfold clear_of. rewrite Hc, Hdp. cbn [forallb andb].
  rewrite andb_true_r. apply andb_true_iff. split.
  - apply forallb_forall. intros pt _. reflexivity.
  - apply negb_true_iff. apply existsb_false_elem_of. intros e _. reflexivity.
Qed.

(** With one more leaf [l] under [sel], the answer of [isStable] for a
    node of the tree is the one without the leaf, when the node is no
    child of [sel] or the leaf has no draw points yet. *)
Lemma stable_beside_leaf (rank : loc -> nat) (r0 h2 : store) (cv sel l : loc)
    (sr sl : Shape) :
  tree_ok rank r0 -> canvas_ok r0 cv ->
  r0 !! sel = Some sr -> r0 !! l = None ->
  h2 !! sel = Some (set_children (children sr ++ [l]) sr) ->
  h2 !! l = Some sl ->
  (forall m, is_Some (r0 !! m) -> m <> sel -> h2 !! m = r0 !! m) ->
  forall m, desc r0 cv m ->
    (m ∈ children sr -> drawPoints sl = []) ->
    isStable h2 m = isStable r0 m.
Proof.
  intros Hok ((scv & Hcv & Htycv & _) & _ & _) Hsel Hl Hsel2 Hl2 Hsame m Hm Hleaf.
  assert (Hlook : forall k sk, r0 !! k = Some sk ->
            exists sk2, h2 !! k = Some sk2 /\ drawPoints sk2 = drawPoints sk /\
                        type sk2 = type sk /\ parent sk2 = parent sk /\
                        (k <> sel -> sk2 = sk)).
  { intros k sk Hk. destruct (decide (k = sel)) as [->|Hks].
    - assert (sk = sr) by congruence. subst sk. eexists. split; [exact Hsel2|].
      repeat split. congruence.
    - exists sk. rewrite (Hsame k ltac:(eauto) Hks). auto. }
  assert (Hms : is_Some (r0 !! m)) by (apply (desc_in_store rank r0 cv m); eauto).
  destruct Hms as [s Hs].
  destruct (Hlook m s Hs) as (s2 & Hs2 & Hdp2 & Hty2 & Hpar2 & Heq2).
  assert (Hdec : type s = Canvas \/ type s <> Canvas)
    by (destruct (type s); [left; reflexivity|right; discriminate..]).
  destruct Hdec as [Hcan|Hnc].
  { rewrite (isStable_Canvas r0 m s Hs Hcan).
    apply (isStable_Canvas h2 m s2 Hs2). congruence. }
  destruct (Hok m s Hs) as (_ & _ & Hpar). destruct (Hpar Hnc) as (p & Hp & sp & Hsp).
  assert (Hkids0 : forall k, k ∈ children sp -> is_Some (r0 !! k)).
  { intros k Hk. destruct (Hok p sp Hsp) as (_ & Hkid & _).
    destruct (Hkid k Hk) as (_ & sk & Hsk & _). eauto. }
  destruct (decide (p = sel)) as [->|Hps].
  - (* a sibling of the leaf *)
    assert (sp = sr) by congruence. subst sp.
    assert (Hmcv : m <> cv) by (intros ->; congruence).
    destruct (desc_in_children r0 cv m Hm Hmcv) as (q & sq & Hq & Hin).
    assert (q = sel).
    { destruct (Hok q sq Hq) as (_ & Hkid & _).
      destruct (Hkid m Hin) as (_ & sm & Hsm & Hpm). congruence. }
    subst q. assert (sq = sr) by congruence. subst sq.
    assert (Hmsel : m <> sel).
    { intros ->. destruct (Hok sel sr Hsel) as (_ & Hkid & _).
      destruct (Hkid sel Hin) as (Hlt & _). lia. }
    assert (s2 = s) by auto. subst s2.
    assert (Hml : m <> l) by congruence.
    assert (Hnl : l ∉ children sr).
    { intros H. destruct (Hkids0 l H). congruence. }
    assert (Hc0 : is_Canvas (type s) = false) by (destruct (type s); cbn; congruence).
    rewrite (isStable_closed_form r0 m sel s sr Hs Hc0 Hp Hsel Hkids0).
    rewrite (isStable_closed_form h2 m sel s _ Hs2 Hc0 Hp Hsel2).
    2:{ cbn [children set_children]. intros k Hk. apply elem_of_app in Hk as [Hk|Hk].
        - destruct (Hkids0 k Hk) as [sk Hsk].
          destruct (Hlook k sk Hsk) as (sk2 & Hsk2 & _). eauto.
        - apply list_elem_of_singleton in Hk as ->. eauto. }
    f_equal. unfold stable_form. cbn [drawPoints children set_children].
    f_equal. rewrite filter_app, filter_cons_True, filter_nil by congruence.
    rewrite forallb_snoc.
    rewrite (clear_of_unresolved h2 s sl l Hl2 (Hleaf Hin)), andb_true_r.
    apply forallb_pointwise_in. intros k Hk.
    apply list_elem_of_filter in Hk as [_ Hk].
    unfold clear_of. destruct (Hkids0 k Hk) as [sk Hsk].
    assert (Hksel : k <> sel).
    { intros ->. destruct (Hok sel sr Hsel) as (_ & Hkid & _).
      destruct (Hkid sel Hk) as (Hlt & _). lia. }
    rewrite (Hsame k ltac:(eauto) Hksel). reflexivity.
  - (* the parent is another node *)
    destruct (Hlook p sp Hsp) as (sp2 & Hsp2 & _ & _ & _ & Heqp).
    specialize (Heqp Hps). subst sp2.
    apply (isStable_at_parent r0 h2 m p s s2 sp sp); try assumption; try reflexivity.
    + congruence.
    + intros k Hk _. destruct (Hkids0 k Hk) as [sk Hsk].
      destruct (Hlook k sk Hsk) as (sk2 & Hsk2 & Hdp & _).
      rewrite Hsk, Hsk2. cbn. congruence.
Qed.

End PreviewPainting.

Section PreviewColours.
Variables (cos sin : number -> number).

(** What the render at the end of [preview] strokes. *)
Lemma preview_ctx_on_tree (rank : loc -> nat) (fuel : nat) (c : Controller)
    (ctx : Context) (sel : loc) (T : Transform) (params : Params) :
  reachable cos sin c -> tree_ok rank (heap c) ->
  previewNode c = None -> selectedNode c = Some sel ->
  desc (heap c) (canvas c) sel ->
  S (S (rank (canvas c))) < fuel ->
  let l := fresh (dom (heap c)) in
  exists r0 r1 ctx1 E stable c3,
    render cos sin fuel c = Ok (set_heap r0 c) /\
    preview cos sin fuel c T params
      = Ok (true, mkController r1 (canvas c) (Some sel) (Some l) false) /\
    preview_ctx cos sin fuel c ctx T params
      = Ok (true, mkController r1 (canvas c) (Some sel) (Some l) false, ctx1) /\
    strokes ctx1 = map (stroke_of r1) E /\
    (l, stable) ∈ E /\
    (forall n b, (n, b) ∈ E -> n = l -> b = stable) /\
    (forall n b, (n, b) ∈ E -> n <> l -> isStable r0 n = Ok b) /\
    isStable r1 l = Ok stable /\
    createNode cos sin fuel (mkController r1 (canvas c) (Some sel) (Some l) false)
               T params = Ok (stable, c3).
Proof.
  intros Hreach Hok Hpn Hs Hdesc Hfuel l.
  destruct (reachable_session_ok cos sin c Hreach) as (_ & Hcv & Hin).
  pose proof (reachable_canvas_ok cos sin c Hreach) as Hcok.
  assert (Hfuel1 : S (rank (canvas c)) < fuel) by lia.
  destruct (createNode_on_tree cos sin rank fuel c sel T params Hok Hcv (Hin sel Hs)
              Hpn Hs Hdesc Hfuel)
    as (r0 & r1 & sr & dp & stable & Hrender & Hok0 & He0 & Hprev & Hl0 & Hsel0
        & Hsel1 & Hl1 & Hother & Hst & Hcreate).
  destruct (preview_on_tree cos sin rank fuel c sel T params Hok Hcv (Hin sel Hs)
              Hpn Hs Hfuel1)
    as (r0' & r1' & sr' & Hrender' & _ & _ & _ & Hprev' & _ & _ & _ & _ & Hok1 & _).
  fold l in Hprev, Hprev', Hl0, Hsel1, Hl1, Hother, Hst, Hcreate, Hok1.
  set (new := buildFromParams cos sin (Some sel) T params) in *.
  assert (r1' = r1) by congruence. subst r1'. clear r0' sr' Hrender' Hprev'.
  set (rank' := fun m => if decide (m = l) then 0 else S (rank m)) in *.
  set (c1 := mkController r1 (canvas c) (Some sel) (Some l) false) in *.
  (* the calls of [preview_ctx] *)
  pose proof (preview_ctx_preview cos sin fuel c ctx T params) as Href.
  rewrite Hprev in Href.
  destruct (preview_ctx cos sin fuel c ctx T params) as [[[b c1'] ctx1]| |] eqn:Hpc;
    try discriminate.
  cbn [forget fst] in Href. injection Href as -> ->.
  unfold preview_ctx in Hpc. apply bind_Ok in Hpc as ([ca ctxa] & Hrm & Hpc).
  cbn [fst snd] in Hpc.
  assert (Hca : ca = set_heap r0 (set_isInEdit false c)).
  { pose proof (removePreviewNode_ctx_removePreviewNode cos sin fuel c ctx) as Hr.
    rewrite Hrm in Hr. cbn [forget fst] in Hr.
    unfold removePreviewNode in Hr. cbn [previewNode set_isInEdit] in Hr.
    rewrite Hpn in Hr. cbn [bind] in Hr.
    unfold render in Hr, Hrender. cbn [heap canvas set_isInEdit] in Hr.
    destruct (draw cos sin fuel (heap c) (canvas c) _ _) as [r| |]; try discriminate.
    cbn [bind] in Hr, Hrender. injection Hrender as Hrender. injection Hr as ->.
    assert (r = r0) by (destruct c; cbn in Hrender; congruence). subst r.
    reflexivity. }
  subst ca. cbn [selectedNode set_heap set_isInEdit heap] in Hpc.
  rewrite Hs in Hpc.
  assert (Hdom : dom r0 = dom (heap c)) by (apply erase_dom, He0).
  rewrite Hdom in Hpc. fold l new in Hpc.
  apply bind_Ok in Hpc as (hA & HA & Hpc). apply bind_Ok in Hpc as ([c2 ctx2] & Hrc & Hpc).
  cbn [fst snd] in Hpc. injection Hpc as -> ->.
  unfold render_ctx in Hrc. apply bind_Ok in Hrc as ([h1 ctxb] & Hdc & Hrc).
  cbn [fst snd heap canvas set_heap set_previewNode set_isInEdit] in Hdc, Hrc.
  assert (Hh1 : h1 = r1).
  { apply (f_equal (fun r => match r with Ok p => heap (fst p) | _ => h1 end)) in Hrc.
    exact Hrc. }
  assert (Hcb : ctxb = ctx1).
  { apply (f_equal (fun r => match r with Ok p => snd p | _ => ctxb end)) in Hrc.
    exact Hrc. }
  subst h1 ctxb. clear Hrc.
  unfold DrawingCanvas_render in Hdc.
  pose proof (draw_ctx_Ok cos sin _ _ _ _ _ _ _ _ Hdc) as HdA.
  pose proof (draw_erase cos sin _ _ _ _ _ _ HdA) as HeA.
  (* the store that is rendered *)
  destruct (buildFromParams_fields cos sin (Some sel) T params) as (_ & Hch & _).
  destruct (buildFromParams_lengths cos sin (Some sel) T params) as (_ & Hdpnew).
  fold new in Hch, Hdpnew.
  destruct (addChild_grown r0 hA l sel new sr Hl0 Hsel0 Hch HA)
    as (Hg & HlA & HselA & HotherA).
  assert (Hsl : sel <> l) by congruence.
  assert (HsameA : forall m, m <> l -> hA !! m = r1 !! m).
  { intros m Hm. destruct (decide (m = sel)) as [->|Hms]; [congruence|].
    rewrite (HotherA m Hm Hms), (Hother m Hm Hms). reflexivity. }
  assert (HokA : tree_ok rank' hA) by (apply (tree_ok_erase rank' r1); auto).
  assert (Hreach1 : reachable cos sin c1).
  { apply (reachable_step cos sin c c1 Hreach).
    apply (step_preview cos sin fuel c T params true c1 Hprev). }
  destruct (reachable_canvas_ok cos sin c1 Hreach1) as (_ & _ & Hnd1).
  cbn [heap] in Hnd1.
  pose proof (nodup_erase r1 hA HeA Hnd1) as HndA.
  destruct (draw_ctx_spec cos sin rank' fuel _ _ _ _ _ _ _ HokA HndA Hdc)
    as (_ & li & E & Hli & Hfst & Hstr & Hmem & Hpick).
  cbn [strokes DrawingCanvas_clear app] in Hstr.
  assert (Hcv0 : is_Some (r0 !! canvas c)) by (apply (extends_erase (heap c) r0); auto).
  assert (Hcvl : canvas c <> l) by (destruct Hcv0; congruence).
  assert (HcvA : is_Some (hA !! canvas c)).
  { destruct Hcv0 as [scv Hscv]. destruct (grown_sub l r0 hA Hg _ _ Hscv) as (s' & Hs' & _).
    eauto. }
  assert (HndE : NoDup (map fst E)).
  { rewrite Hfst.
    destruct (makeHierarchy_spec rank' hA fuel HokA HndA (canvas c) HcvA)
      as (li' & Hli' & _ & _ & Hnd).
    - unfold rank'. rewrite decide_False by exact Hcvl. lia.
    - assert (li' = li) by congruence. subst li'. exact Hnd. }
  assert (HdselA : desc hA (canvas c) sel).
  { apply (desc_grown_up l r0 hA _ _ Hg).
    apply (desc_erase (heap c) r0); [symmetry; exact He0|exact Hdesc]. }
  assert (HdlA : desc hA (canvas c) l).
  { apply (desc_trans hA _ sel l HdselA).
    apply (desc_child hA sel _ l l HselA); [|apply desc_refl].
    cbn [children set_children]. apply elem_of_app. right. left. }
  assert (Hcok0 : canvas_ok r0 (canvas c))
    by (apply (canvas_ok_erase (heap c) r0); [symmetry; exact He0|exact Hcok]).
  (* the store in which a colour is picked *)
  assert (Hcol : forall E1 n b E2, E = E1 ++ (n, b) :: E2 ->
            (n = l -> isStable r1 l = Ok b) /\
            (n <> l -> isStable r0 n = Ok b)).
  { intros E1 n b E2 HE. destruct (Hpick E1 n b E2 HE) as (hn & Hn & Hpre & Hrest).
    assert (Hoff : forall m, m <> l -> hn !! m = r1 !! m).
    { intros m Hm. destruct (decide (m ∈ map fst E1 \/ m = n)) as [Hin'|Hnin].
      - apply Hpre, Hin'.
      - rewrite Hrest; [apply HsameA, Hm| |]; intros H; apply Hnin; [left|right]; exact H. }
    split.
    - intros ->. rewrite <- Hn. f_equal. apply map_eq. intros m.
      destruct (decide (m = l)) as [->|Hm]; [|symmetry; apply Hoff, Hm].
      symmetry. apply Hpre. right. reflexivity.
    - intros Hnl. rewrite <- Hn. symmetry.
      assert (Hln : exists sl, hn !! l = Some sl /\
                (l ∉ map fst E1 -> drawPoints sl = [])).
      { destruct (decide (l ∈ map fst E1)) as [Hin'|Hnin].
        - exists (set_drawPoints dp new). split; [|contradiction].
          rewrite (Hpre l); [exact Hl1|left; exact Hin'].
        - exists new. split; [|intros _; exact Hdpnew].
          rewrite (Hrest l Hnin); [exact HlA|congruence]. }
      destruct Hln as (sl & Hsl' & Hempty).
      apply (stable_beside_leaf rank r0 hn (canvas c) sel l sr sl Hok0 Hcok0 Hsel0 Hl0).
      + rewrite (Hoff sel Hsl). exact Hsel1.
      + exact Hsl'.
      + intros m [sm Hm] Hms.
        assert (Hml : m <> l) by congruence.
        rewrite (Hoff m Hml). apply Hother; assumption.
      + apply (desc_grown l r0 hA _ _ Hg); [|exact Hcvl|exact Hnl].
        apply Hmem. rewrite HE, map_app. apply elem_of_app. right. left.
      + intros Hkid. apply Hempty. intros Hin'.
        destruct (spans_before_last hA fuel (canvas c) li Hli sel _ (children sr) l n
                    HdselA HselA eq_refl Hkid) as (L1 & L2 & L3 & HL).
        rewrite <- Hfst, HE, map_app in HL. cbn [map fst] in HL.
        rewrite HE, map_app in HndE. cbn [map fst] in HndE.
        pose proof (NoDup_split_eq n _ _ _ _ HndE HL) as HL1.
        rewrite HL in HndE. apply NoDup_app in HndE as (_ & Hdis & _).
        apply (Hdis l); [rewrite <- HL1; exact Hin'|].
        right. apply elem_of_app. right. left. }
  assert (HlE : exists b, (l, b) ∈ E).
  { apply Hmem in HdlA. apply list_elem_of_fmap in HdlA as ([n b] & Hn & Hin').
    cbn in Hn. subst n. eauto. }
  destruct HlE as [b0 HlE].
  assert (b0 = stable).
  { pose proof HlE as Hsp. apply list_elem_of_split in Hsp as (E1 & E2 & HE).
    destruct (Hcol E1 l b0 E2 HE) as [H _]. specialize (H eq_refl). congruence. }
  subst b0.
  assert (Hcr : exists c3, createNode cos sin fuel c1 T params = Ok (stable, c3)).
  { destruct stable.
    - destruct (Hcreate eq_refl) as (r3 & l' & rank3 & Hc3 & _). eauto.
    - exists c1. unfold createNode. cbn [previewNode heap c1]. rewrite Hst. reflexivity. }
  destruct Hcr as [c3 Hc3].
  exists r0, r1, ctx1, E, stable, c3.
  split; [exact Hrender|]. split; [exact Hprev|]. split; [reflexivity|].
  split; [exact Hstr|]. split; [exact HlE|]. split; [|split; [|split; [exact Hst|exact Hc3]]].
  - intros n b Hin' ->. apply list_elem_of_split in Hin' as (E1 & E2 & HE).
    destruct (Hcol E1 l b E2 HE) as [H _]. specialize (H eq_refl). congruence.
  - intros n b Hin' Hnl. apply list_elem_of_split in Hin' as (E1 & E2 & HE).
    destruct (Hcol E1 n b E2 HE) as [_ H]. apply H, Hnl.
Qed.

End PreviewColours.

(** X30. The preview is the only node its render can turn red.  In every
    state a session reaches with no preview pending and a selected node at
    or below the canvas, [preview] with the drawing context returns as
    [preview] does; the render that ends it strokes every node other than
    the preview node in the colour [isStable] gives without the preview
    (after a plain render of the state before), whether the preview
    overlaps it or not, and the preview node in black exactly when
    [isStable] is true of it, which is when [createNode] with the same
    arguments returns true. *)
Theorem preview_is_the_only_red (cos sin : number -> number) (c : Controller)
    (sel : loc) (T : Transform) (params : Params) :
  reachable cos sin c -> previewNode c = None -> selectedNode c = Some sel ->
  desc (heap c) (canvas c) sel ->
  exists N, forall fuel, N < fuel -> forall ctx,
  exists c0 c1 ctx1 pn E stable c3,
    render cos sin fuel c = Ok c0 /\
    preview cos sin fuel c T params = Ok (true, c1) /\
    preview_ctx cos sin fuel c ctx T params = Ok (true, c1, ctx1) /\
    previewNode c1 = Some pn /\
    strokes ctx1 = map (stroke_of (heap c1)) E /\
    (pn, stable) ∈ E /\
    (forall n b, (n, b) ∈ E -> n = pn -> b = stable) /\
    (forall n b, (n, b) ∈ E -> n <> pn -> isStable (heap c0) n = Ok b) /\
    isStable (heap c1) pn = Ok stable /\
    createNode cos sin fuel c1 T params = Ok (stable, c3).
Proof.
  intros Hreach Hpn Hs Hdesc.
  destruct (reachable_session_ok cos sin c Hreach) as ([rank Hok] & _ & _).
  exists (S (S (rank (canvas c)))). intros fuel Hfuel ctx.
  destruct (preview_ctx_on_tree cos sin rank fuel c ctx sel T params Hreach Hok Hpn Hs
              Hdesc Hfuel)
    as (r0 & r1 & ctx1 & E & stable & c3 & H1 & H2 & H3 & H4 & H5 & H6 & H7 & H8 & H9).
  exists (set_heap r0 c), (mkController r1 (canvas c) (Some sel)
                             (Some (fresh (dom (heap c)))) false),
         ctx1, (fresh (dom (heap c))), E, stable, c3.
  cbn [heap previewNode set_heap]. repeat split; assumption.
Qed.

Lemma preview_is_the_only_red_witness :
  exists N, forall fuel, N < fuel -> forall ctx,
  exists c0 c1 ctx1 pn E stable c3,
    render cos_poly sin_poly fuel example_new = Ok c0 /\
    preview cos_poly sin_poly fuel example_new Transform_.default
            (RectangleParams 100 50) = Ok (true, c1) /\
    preview_ctx cos_poly sin_poly fuel example_new ctx Transform_.default
                (RectangleParams 100 50) = Ok (true, c1, ctx1) /\
    previewNode c1 = Some pn /\
    strokes ctx1 = map (stroke_of (heap c1)) E /\
    (pn, stable) ∈ E /\
    (forall n b, (n, b) ∈ E -> n = pn -> b = stable) /\
    (forall n b, (n, b) ∈ E -> n <> pn -> isStable (heap c0) n = Ok b) /\
    isStable (heap c1) pn = Ok stable /\
    createNode cos_poly sin_poly fuel c1 Transform_.default (RectangleParams 100 50)
      = Ok (stable, c3).
Proof.
  apply (preview_is_the_only_red cos_poly sin_poly example_new 0).
  - apply (reachable_new _ _ 3 640 480). vm_compute. reflexivity.
  - reflexivity.
  - reflexivity.
  - apply desc_refl.
Defined.
